(** * rag-open-service: ingestion and retrieval pipeline

    A shallow embedding of [service/rag_service.go] together with the
    relational schema of [migrations/init.sql], and the properties of the
    pipeline that the design document states about it.

    Go strings are byte sequences.  The parts of the Go standard library the
    service calls ([unicode/utf8], [unicode], [strings]) are modelled on
    bytes, with runes decoded from UTF-8 the way a [range] loop does. *)

From Stdlib Require Import String Ascii ZArith QArith List Bool Lia Arith Sorted Permutation SpecFloat.
Import ListNotations.

Local Open Scope Z_scope.

(** ** Bytes and Go strings *)

Definition gostring := list ascii.

(** [str "..."] is the Go string literal with these bytes. *)
Definition str (s : string) : gostring := list_ascii_of_string s.

Definition byteval (b : ascii) : Z := Z.of_N (N_of_ascii b).

(** Go's [byte(x)] conversion: the low eight bits. *)
Definition mkbyte (z : Z) : ascii := ascii_of_N (Z.to_N (z mod 256)).

Definition len (s : gostring) : Z := Z.of_nat (length s).

Definition gostring_eqb (a b : gostring) : bool :=
  if list_eq_dec ascii_dec a b then true else false.

(** ** Package [unicode/utf8] *)

Module utf8.

Definition RuneError : Z := 0xFFFD.
Definition RuneSelf : Z := 0x80.
Definition MaxRune : Z := 0x10FFFF.
Definition UTFMax : nat := 4.

Definition maskx : Z := 0x3F.
Definition mask2 : Z := 0x1F.
Definition mask3 : Z := 0x0F.
Definition mask4 : Z := 0x07.
Definition locb : Z := 0x80.
Definition hicb : Z := 0xBF.

(** The [first] table joined with [acceptRanges]: for a leading byte, the
    length of the sequence and the range accepted for the second byte;
    [None] is the table's [xx] (a byte that starts no sequence).  ASCII
    bytes are handled before the table is consulted. *)
Definition first (s0 : Z) : option (Z * Z * Z) :=
  if (0xC2 <=? s0) && (s0 <=? 0xDF) then Some (2, locb, hicb)
  else if s0 =? 0xE0 then Some (3, 0xA0, hicb)
  else if (0xE1 <=? s0) && (s0 <=? 0xEC) then Some (3, locb, hicb)
  else if s0 =? 0xED then Some (3, locb, 0x9F)
  else if (0xEE <=? s0) && (s0 <=? 0xEF) then Some (3, locb, hicb)
  else if s0 =? 0xF0 then Some (4, 0x90, hicb)
  else if (0xF1 <=? s0) && (s0 <=? 0xF3) then Some (4, locb, hicb)
  else if s0 =? 0xF4 then Some (4, locb, 0x8F)
  else None.

(** [DecodeRuneInString]: the first rune of [s] and its width in bytes;
    [(RuneError, 0)] on the empty string and [(RuneError, 1)] on an invalid
    encoding. *)
Definition DecodeRuneInString (s : gostring) : Z * nat :=
  match s with
  | [] => (RuneError, 0%nat)
  | b0 :: t =>
    let s0 := byteval b0 in
    if s0 <? RuneSelf then (s0, 1%nat)
    else
      match first s0 with
      | None => (RuneError, 1%nat)
      | Some (sz, lo, hi) =>
        match t with
        | [] => (RuneError, 1%nat)
        | b1 :: t1 =>
          let s1 := byteval b1 in
          if (s1 <? lo) || (hi <? s1) then (RuneError, 1%nat)
          else if sz <=? 2 then
            (Z.lor (Z.shiftl (Z.land s0 mask2) 6) (Z.land s1 maskx), 2%nat)
          else
            match t1 with
            | [] => (RuneError, 1%nat)
            | b2 :: t2 =>
              let s2 := byteval b2 in
              if (s2 <? locb) || (hicb <? s2) then (RuneError, 1%nat)
              else if sz <=? 3 then
                (Z.lor (Z.lor (Z.shiftl (Z.land s0 mask3) 12)
                              (Z.shiftl (Z.land s1 maskx) 6))
                       (Z.land s2 maskx), 3%nat)
              else
                match t2 with
                | [] => (RuneError, 1%nat)
                | b3 :: _ =>
                  let s3 := byteval b3 in
                  if (s3 <? locb) || (hicb <? s3) then (RuneError, 1%nat)
                  else
                    (Z.lor (Z.lor (Z.lor (Z.shiftl (Z.land s0 mask4) 18)
                                         (Z.shiftl (Z.land s1 maskx) 12))
                                  (Z.shiftl (Z.land s2 maskx) 6))
                           (Z.land s3 maskx), 4%nat)
                end
            end
        end
      end
  end.

(** [AppendRune] onto the empty buffer: the UTF-8 encoding of [r]; runes out
    of range and surrogates are written as [RuneError]. *)
Definition EncodeRune (r : Z) : gostring :=
  if (0 <=? r) && (r <=? 0x7F) then [mkbyte r]
  else if (0 <=? r) && (r <=? 0x7FF) then
    [mkbyte (Z.lor 0xC0 (Z.shiftr r 6));
     mkbyte (Z.lor 0x80 (Z.land r maskx))]
  else
    let r := if (r <? 0) || (MaxRune <? r) || ((0xD800 <=? r) && (r <=? 0xDFFF))
             then RuneError else r in
    if r <=? 0xFFFF then
      [mkbyte (Z.lor 0xE0 (Z.shiftr r 12));
       mkbyte (Z.lor 0x80 (Z.land (Z.shiftr r 6) maskx));
       mkbyte (Z.lor 0x80 (Z.land r maskx))]
    else
      [mkbyte (Z.lor 0xF0 (Z.shiftr r 18));
       mkbyte (Z.lor 0x80 (Z.land (Z.shiftr r 12) maskx));
       mkbyte (Z.lor 0x80 (Z.land (Z.shiftr r 6) maskx));
       mkbyte (Z.lor 0x80 (Z.land r maskx))].

(** [ValidRune]: a Unicode scalar value (in range and not a surrogate). *)
Definition ValidRune (r : Z) : bool :=
  ((0 <=? r) && (r <? 0xD800)) || ((0xDFFF <? r) && (r <=? MaxRune)).

(** [RuneStart]: the byte is not a continuation byte. *)
Definition RuneStart (b : ascii) : bool :=
  negb (Z.land (byteval b) 0xC0 =? 0x80).

(** The runes of a string as a [for _, r := range s] loop yields them, each
    with the bytes it was decoded from; an invalid byte yields [RuneError]
    with width one.  The fuel is the number of bytes left. *)
Fixpoint rangeFrom (fuel : nat) (s : gostring) : list (Z * gostring) :=
  match fuel with
  | O => []
  | S fuel' =>
    match s with
    | [] => []
    | _ =>
      let '(r, w) := DecodeRuneInString s in
      (r, firstn w s) :: rangeFrom fuel' (skipn w s)
    end
  end.

Definition range (s : gostring) : list (Z * gostring) :=
  rangeFrom (length s) s.

(** An element of [range s] is a well-formed encoding unless it is the
    one-byte [RuneError]. *)
Definition isInvalid (rw : Z * gostring) : bool :=
  (fst rw =? RuneError) && (length (snd rw) =? 1)%nat.

Definition ValidString (s : gostring) : bool :=
  forallb (fun rw => negb (isInvalid rw)) (range s).

(** [DecodeLastRuneInString]: the last rune of [s] and its width. *)
Definition DecodeLastRuneInString (s : gostring) : Z * nat :=
  match rev s with
  | [] => (RuneError, 0%nat)
  | last :: before =>
    if byteval last <? RuneSelf then (byteval last, 1%nat)
    else
      (* walk back over at most UTFMax-1 further bytes to a rune start;
         past the limit the start is one byte further, or the string's start *)
      let fix back (k : nat) (n : nat) (bs : list ascii) : nat :=
        match bs with
        | [] => n
        | b :: bs' =>
          match k with
          | O => S n
          | S k' => if RuneStart b then S n else back k' (S n) bs'
          end
        end in
      let width := back (UTFMax - 1)%nat 1%nat before in
      let start := (length s - width)%nat in
      let '(r, size) := DecodeRuneInString (skipn start s) in
      if (start + size =? length s)%nat then (r, size) else (RuneError, 1%nat)
  end.

End utf8.


(** ** Lists trimmed at their ends *)

Fixpoint dropWhile {A} (f : A -> bool) (l : list A) : list A :=
  match l with
  | [] => []
  | x :: l' => if f x then dropWhile f l' else l
  end.

Fixpoint dropWhileEnd {A} (f : A -> bool) (l : list A) : list A :=
  match l with
  | [] => []
  | x :: l' =>
    match dropWhileEnd f l' with
    | [] => if f x then [] else [x]
    | kept => x :: kept
    end
  end.

(** Leading and trailing elements that satisfy [f] removed. *)
Definition trimBoth {A} (f : A -> bool) (l : list A) : list A :=
  dropWhileEnd f (dropWhile f l).

(** ** Package [unicode] *)

Module unicode.

(** [IsSpace]: the Unicode White_Space property. *)
Definition IsSpace (r : Z) : bool :=
  if r <=? 0xFF then
    (r =? 9) || (r =? 10) || (r =? 11) || (r =? 12) || (r =? 13)
    || (r =? 32) || (r =? 0x85) || (r =? 0xA0)
  else
    (r =? 0x1680) || ((0x2000 <=? r) && (r <=? 0x200A))
    || (r =? 0x2028) || (r =? 0x2029) || (r =? 0x202F)
    || (r =? 0x205F) || (r =? 0x3000).

(** [ToLower]: ASCII letters are mapped by the function itself; every
    other rune is looked up in the Unicode case tables, which the embedding
    takes as the parameter [caseTable]. *)
Definition ToLower (caseTable : Z -> Z) (r : Z) : Z :=
  if r <=? 0x7F then
    (if (0x41 <=? r) && (r <=? 0x5A) then r + 0x20 else r)
  else caseTable r.

End unicode.

(** ** Package [strings] *)

Module strings.

(** [HasPrefix]. *)
Fixpoint HasPrefix (s prefix : gostring) : bool :=
  match prefix, s with
  | [], _ => true
  | p :: prefix', c :: s' => if ascii_dec p c then HasPrefix s' prefix' else false
  | _ :: _, [] => false
  end.

(** The offsets (counted from [off]) at which [substr] occurs in [s]. *)
Fixpoint occurrences (off : Z) (s substr : gostring) : list Z :=
  match s with
  | [] => if HasPrefix [] substr then [off] else []
  | _ :: s' =>
    (if HasPrefix s substr then [off] else []) ++ occurrences (off + 1) s' substr
  end.

(** [Index]: the offset of the first occurrence of [substr] in [s], or -1. *)
Definition Index (s substr : gostring) : Z :=
  hd (-1) (occurrences 0 s substr).

(** [LastIndex]: the offset of the last occurrence of [substr] in [s], or -1. *)
Definition LastIndex (s substr : gostring) : Z :=
  last (occurrences 0 s substr) (-1).

(** [s[i:]] and [s[:j]] for offsets within the string. *)
Definition sliceFrom (s : gostring) (i : Z) : gostring := skipn (Z.to_nat i) s.
Definition sliceTo (s : gostring) (j : Z) : gostring := firstn (Z.to_nat j) s.

(** [Split] for a non-empty separator: the pieces of [s] between the
    occurrences of [sep], scanned left to right. *)
Fixpoint splitFrom (fuel : nat) (s sep : gostring) : list gostring :=
  match fuel with
  | O => [s]
  | S fuel' =>
    let m := Index s sep in
    if m <? 0 then [s]
    else sliceTo s m :: splitFrom fuel' (sliceFrom s (m + len sep)) sep
  end.

Definition Split (s sep : gostring) : list gostring :=
  splitFrom (length s) s sep.

(** [Join]. *)
Fixpoint Join (elems : list gostring) (sep : gostring) : gostring :=
  match elems with
  | [] => []
  | [e] => e
  | e :: rest => e ++ sep ++ Join rest sep
  end.

(** [TrimLeftFunc]: drop leading runes that satisfy [f]. *)
Fixpoint trimLeftFrom (fuel : nat) (f : Z -> bool) (s : gostring) : gostring :=
  match fuel with
  | O => []
  | S fuel' =>
    match s with
    | [] => []
    | _ =>
      let '(r, w) := utf8.DecodeRuneInString s in
      if f r then trimLeftFrom fuel' f (skipn w s) else s
    end
  end.

Definition TrimLeftFunc (s : gostring) (f : Z -> bool) : gostring :=
  trimLeftFrom (length s) f s.

(** [lastIndexFunc s f false]: the offset of the last rune of [s[0:i]] that
    does not satisfy [f], scanning backwards; [None] is Go's -1. *)
Fixpoint lastIndexFrom (fuel : nat) (f : Z -> bool) (s : gostring) (i : nat)
  : option nat :=
  match fuel with
  | O => None
  | S fuel' =>
    match i with
    | O => None
    | _ =>
      let '(r, size) := utf8.DecodeLastRuneInString (firstn i s) in
      let i' := (i - size)%nat in
      if f r then lastIndexFrom fuel' f s i' else Some i'
    end
  end.

(** [TrimRightFunc]: drop trailing runes that satisfy [f]. *)
Definition TrimRightFunc (s : gostring) (f : Z -> bool) : gostring :=
  match lastIndexFrom (length s) f s (length s) with
  | None => []
  | Some i =>
    match skipn i s with
    | c :: _ =>
      if utf8.RuneSelf <=? byteval c then
        let '(_, wid) := utf8.DecodeRuneInString (skipn i s) in
        firstn (i + wid) s
      else firstn (i + 1) s
    | [] => firstn (i + 1) s
    end
  end.

Definition TrimFunc (s : gostring) (f : Z -> bool) : gostring :=
  TrimRightFunc (TrimLeftFunc s f) f.

(** [TrimSpace]: leading and trailing white space removed.  (Go scans ASCII
    bytes first and falls back to [TrimFunc] at the first byte that is not
    ASCII; both give [TrimFunc s unicode.IsSpace].) *)
Definition TrimSpace (s : gostring) : gostring :=
  TrimFunc s unicode.IsSpace.

(** [ToValidUTF8]: every run of invalid bytes replaced by [replacement]. *)
Fixpoint toValidFrom (fuel : nat) (s : gostring) (invalid : bool)
  (replacement : gostring) : gostring :=
  match fuel with
  | O => []
  | S fuel' =>
    match s with
    | [] => []
    | c :: t =>
      if byteval c <? utf8.RuneSelf then c :: toValidFrom fuel' t false replacement
      else
        let '(_, wid) := utf8.DecodeRuneInString s in
        if (wid =? 1)%nat then
          (if invalid then [] else replacement)
            ++ toValidFrom fuel' t true replacement
        else firstn wid s ++ toValidFrom fuel' (skipn wid s) false replacement
    end
  end.

Definition ToValidUTF8 (s replacement : gostring) : gostring :=
  toValidFrom (length s) s false replacement.

(** [Map]: the encodings of the mapped runes; a negative result drops the
    rune, and an invalid byte is mapped as [RuneError]. *)
Definition Map (mapping : Z -> Z) (s : gostring) : gostring :=
  flat_map (fun rw => let r := mapping (fst rw) in
                      if r <? 0 then [] else utf8.EncodeRune r)
           (utf8.range s).

(** [ToLower]: byte by byte on an ASCII string, by [Map] otherwise. *)
Definition ToLower (caseTable : Z -> Z) (s : gostring) : gostring :=
  if forallb (fun c => byteval c <? utf8.RuneSelf) s then
    map (fun c => if (0x41 <=? byteval c) && (byteval c <=? 0x5A)
                  then mkbyte (byteval c + 0x20) else c) s
  else Map (unicode.ToLower caseTable) s.

(** [FieldsFunc]: the maximal runs of runes that do not satisfy [f].
    [cur] is the field being read, if any. *)
Fixpoint fieldsLoop (f : Z -> bool) (rs : list (Z * gostring))
  (cur : option gostring) : list gostring :=
  match rs with
  | [] => match cur with Some w => [w] | None => [] end
  | (r, bytes) :: rest =>
    if f r then
      match cur with
      | Some w => w :: fieldsLoop f rest None
      | None => fieldsLoop f rest None
      end
    else
      match cur with
      | Some w => fieldsLoop f rest (Some (w ++ bytes))
      | None => fieldsLoop f rest (Some bytes)
      end
  end.

Definition FieldsFunc (s : gostring) (f : Z -> bool) : list gostring :=
  fieldsLoop f (utf8.range s) None.

(** [Fields]: the words between white space.  (Go has a separate loop for
    ASCII strings; it gives the same fields.) *)
Definition Fields (s : gostring) : list gostring :=
  FieldsFunc s unicode.IsSpace.

(** [Trim] for a cutset of ASCII bytes: leading and trailing bytes of the
    cutset removed. *)
Definition Trim (s cutset : gostring) : gostring :=
  let inSet := fun c => if in_dec ascii_dec c cutset then true else false in
  dropWhileEnd inSet (dropWhile inSet s).

End strings.

(** ** [service/rag_service.go]: text normalisation *)

(** The test of [cleanContent]'s loop: newline, tab, or neither a control
    character nor DEL. *)
Definition keepRune (r : Z) : bool :=
  (r =? 10) || (r =? 9) || ((32 <=? r) && negb (r =? 127)).

Definition cleanContent (content : gostring) : gostring :=
  (* Remove invalid UTF-8 sequences *)
  let content :=
    if negb (utf8.ValidString content) then strings.ToValidUTF8 content []
    else content in
  (* Remove control characters except newlines and tabs *)
  let cleaned :=
    flat_map (fun rw => if keepRune (fst rw) then utf8.EncodeRune (fst rw) else [])
             (utf8.range content) in
  (* Trim whitespace *)
  strings.TrimSpace cleaned.

(** ** The runes of well-formed strings *)

(** The string that encodes a sequence of runes. *)
Definition encodeAll (rs : list Z) : gostring := flat_map utf8.EncodeRune rs.

(** What [cleanContent] does to the runes of a well-formed string. *)
Definition cleanRunes (rs : list Z) : list Z :=
  trimBoth unicode.IsSpace (filter keepRune rs).


(** ** [service/rag_service.go]: chunking *)

(** [ChunkInfo]: a chunk with its position in the document. *)
Record ChunkInfo := mkChunkInfo {
  Content : gostring;
  ChunkIndex : Z;
  StartPosition : Z;
  EndPosition : Z
}.

(** The size a chunk is allowed to grow to, in bytes. *)
Definition chunkLimit : Z := 1000.

(** The local variables of [chunkDocument]'s loop over the sentences. *)
Record chunkLoop := mkChunkLoop {
  chunks : list ChunkInfo;
  currentChunk : gostring;
  currentStart : Z;
  chunkIndex : Z
}.

Definition chunkLoopInit : chunkLoop := mkChunkLoop [] [] 0 0.

(** One iteration of the loop, on a sentence that is already trimmed and
    not empty. *)
Definition chunkSentence (content : gostring) (st : chunkLoop) (sentence : gostring)
  : chunkLoop :=
  (* Find the position of this sentence in the original content *)
  let sentenceStart :=
    strings.Index (strings.sliceFrom content (currentStart st)) sentence in
  let sentenceStart := if sentenceStart =? -1 then 0 else sentenceStart in
  let sentenceStart := sentenceStart + currentStart st in
  if len (currentChunk st) + len sentence <? chunkLimit then
    let joined :=
      if negb (gostring_eqb (currentChunk st) []) then currentChunk st ++ str ". "
      else currentChunk st in
    mkChunkLoop (chunks st) (joined ++ sentence) (currentStart st) (chunkIndex st)
  else if negb (gostring_eqb (currentChunk st) []) then
    (* Find the end position of the current chunk *)
    let chunkEnd :=
      strings.LastIndex (strings.sliceTo content sentenceStart) (currentChunk st) in
    let chunkEnd :=
      if chunkEnd =? -1 then sentenceStart else chunkEnd + len (currentChunk st) in
    mkChunkLoop
      (chunks st ++ [mkChunkInfo (currentChunk st) (chunkIndex st)
                                 (currentStart st) chunkEnd])
      sentence sentenceStart (chunkIndex st + 1)
  else
    mkChunkLoop (chunks st) sentence sentenceStart (chunkIndex st).

(** The body of the loop: trim the piece, skip it when nothing is left. *)
Definition chunkStep (content : gostring) (st : chunkLoop) (piece : gostring)
  : chunkLoop :=
  let sentence := strings.TrimSpace piece in
  if gostring_eqb sentence [] then st else chunkSentence content st sentence.

(** After the loop: the chunk that is still open becomes the last one. *)
Definition chunkFlush (content : gostring) (st : chunkLoop) : list ChunkInfo :=
  if negb (gostring_eqb (currentChunk st) []) then
    (* Find the end position of the last chunk *)
    let chunkEnd :=
      strings.LastIndex (strings.sliceFrom content (currentStart st)) (currentChunk st) in
    let chunkEnd :=
      if chunkEnd =? -1 then len content
      else chunkEnd + (currentStart st + len (currentChunk st)) in
    chunks st ++ [mkChunkInfo (currentChunk st) (chunkIndex st)
                              (currentStart st) chunkEnd]
  else chunks st.

(** The chunks [chunkDocument] computes for a document, before it stores
    them. *)
Definition computeChunks (content : gostring) : list ChunkInfo :=
  let sentences := strings.Split content (str ".") in
  chunkFlush content (fold_left (chunkStep content) sentences chunkLoopInit).

(** The sentences of a document: the pieces between periods, trimmed, the
    empty ones left out. *)
Definition sentencesOf (content : gostring) : list gostring :=
  filter (fun s => negb (gostring_eqb s []))
         (map strings.TrimSpace (strings.Split content (str "."))).

(** [content[start:end]]. *)
Definition slice (s : gostring) (i j : Z) : gostring :=
  strings.sliceFrom (strings.sliceTo s j) i.

(** Comparison that ignores white space: the runes that are not white
    space, in order. *)
Definition stripSpace (s : gostring) : gostring :=
  flat_map (fun rw => if unicode.IsSpace (fst rw) then [] else snd rw) (utf8.range s).

Definition sameIgnoringSpace (a b : gostring) : bool :=
  gostring_eqb (stripSpace a) (stripSpace b).

(** The sentences of a chunk joined the way the loop joins them. *)
Definition joinSentences (g : list gostring) : gostring :=
  strings.Join g (str ". ").

(** The tests of the loop in terms of the sentences taken so far: [cur] is
    the group that makes up the open chunk. *)
Fixpoint groupFrom (cur : list gostring) (sentences : list gostring)
  : list (list gostring) :=
  match sentences with
  | [] => match cur with [] => [] | _ => [cur] end
  | s :: rest =>
    if len (joinSentences cur) + len s <? chunkLimit then groupFrom (cur ++ [s]) rest
    else match cur with [] => [] | _ => [cur] end ++ groupFrom [s] rest
  end.

(** The chunking rule in the words of the design document: a sentence is
    appended to the running chunk unless the chunk would then exceed
    [limit]; otherwise the running chunk is sealed and the sentence starts
    the next one. *)
Definition appended (cur s : gostring) : gostring :=
  if gostring_eqb cur [] then s else cur ++ str ". " ++ s.

Fixpoint sealWhenExceeds (limit : Z) (cur : gostring) (sentences : list gostring)
  : list gostring :=
  match sentences with
  | [] => if gostring_eqb cur [] then [] else [cur]
  | s :: rest =>
    if len (appended cur s) <=? limit then sealWhenExceeds limit (appended cur s) rest
    else (if gostring_eqb cur [] then [] else [cur]) ++ sealWhenExceeds limit s rest
  end.

Definition chunksByDesign (content : gostring) : list gostring :=
  sealWhenExceeds chunkLimit [] (sentencesOf content).

(** [n] copies of a byte. *)
Definition repeatByte (n : nat) (c : ascii) : gostring := repeat c n.

Definition gostrings_eqb (a b : list gostring) : bool :=
  if list_eq_dec (list_eq_dec ascii_dec) a b then true else false.

(** Groups of sentences as chunk texts numbered from [k]. *)
Fixpoint numbered (k : Z) (groups : list (list gostring)) : list (gostring * Z) :=
  match groups with
  | [] => []
  | g :: rest => (joinSentences g, k) :: numbered (k + 1) rest
  end.

Definition chunkText (c : ChunkInfo) : gostring * Z := (Content c, ChunkIndex c).

(** Every sentence of a group after the first passed the loop's test when
    it was appended. *)
Definition appendsFit (g : list gostring) : Prop :=
  forall h s k, g = h ++ s :: k -> h <> [] ->
    len (joinSentences h) + len s < chunkLimit.

(** A group was closed only because the next sentence failed the test. *)
Definition sealedWhenFull (groups : list (list gostring)) : Prop :=
  forall pre g1 g2 post s k,
    groups = pre ++ g1 :: g2 :: post -> g2 = s :: k ->
    chunkLimit <= len (joinSentences g1) + len s.

(** Two sentences of 500 and 499 bytes. *)
Definition twoSentences : gostring :=
  repeatByte 500 "a"%char ++ str ". " ++ repeatByte 499 "b"%char.

(** The range of a chunk ends where a copy of the chunk's text ends. *)
Definition endsAtCopy (content : gostring) (c : ChunkInfo) : Prop :=
  0 <= EndPosition c - len (Content c)
  /\ slice content (EndPosition c - len (Content c)) (EndPosition c) = Content c.

(** Each end offset is the end of a copy of the chunk's text or, failing
    that, the start of the chunk that follows ([next] after the last). *)
Fixpoint endsAsSearched (content : gostring) (cs : list ChunkInfo) (next : Z) : Prop :=
  match cs with
  | [] => True
  | c :: rest =>
    (endsAtCopy content c
     \/ EndPosition c = match rest with [] => next | c' :: _ => StartPosition c' end)
    /\ endsAsSearched content rest next
  end.

(** Two sentences on two lines. *)
Definition twoLines : gostring :=
  str "One." ++ [ascii_of_nat 10] ++ str "Two.".

(** A document that says [A. B] twice, the second time on two lines, with
    a sentence of 1000 bytes after each. *)
Definition saidTwice : gostring :=
  str "A. B. " ++ repeatByte 1000 "x"%char ++ str ". A." ++ [ascii_of_nat 10] ++ str "B. "
  ++ repeatByte 1000 "y"%char ++ str ".".

(** What the loop of [chunkDocument] maintains about the offsets. *)
Definition offsetsInv (content : gostring) (st : chunkLoop) : Prop :=
  0 <= currentStart st <= len content
  /\ (currentChunk st = [] -> chunks st = [])
  /\ Forall (fun c => 0 <= StartPosition c <= currentStart st
                      /\ 0 <= EndPosition c <= len content) (chunks st)
  /\ StronglySorted Z.le (map StartPosition (chunks st))
  /\ endsAsSearched content (chunks st) (currentStart st).

(** ** Go's [int], [float32] and maps *)

(** [int] and [int64] are 64 bits wide: results wrap around. *)
Definition wrap64 (z : Z) : Z := (z + 2 ^ 63) mod 2 ^ 64 - 2 ^ 63.

(** IEEE 754 binary32, rounding to nearest even. *)
Definition float32 := spec_float.
Definition f32_of_int (z : Z) : float32 := binary_normalize 24 128 z 0 false.
Definition f32_add : float32 -> float32 -> float32 := SFadd 24 128.
Definition f32_mul : float32 -> float32 -> float32 := SFmul 24 128.
Definition f32_div : float32 -> float32 -> float32 := SFdiv 24 128.

(** The constants [1000.0] and [0.1] as [float32]. *)
Definition f32_1000 : float32 := f32_of_int 1000.
Definition f32_tenth : float32 := f32_div (f32_of_int 1) (f32_of_int 10).

(** A [map[string]int] as its entries, one per key. *)
Definition gomap := list (gostring * Z).

(** [m[k] += w]. *)
Fixpoint mapAdd (m : gomap) (k : gostring) (w : Z) : gomap :=
  match m with
  | [] => [(k, wrap64 w)]
  | (k', v) :: rest =>
    if gostring_eqb k' k then (k', wrap64 (v + w)) :: rest
    else (k', v) :: mapAdd rest k w
  end.

Fixpoint removeAt {A} (i : nat) (l : list A) : list A :=
  match l, i with
  | [], _ => []
  | _ :: rest, O => rest
  | x :: rest, S i' => x :: removeAt i' rest
  end.

(** A [range] loop over a map visits the entries in an order the runtime
    picks anew for each loop.  [order] stands for those picks: each number
    selects, modulo what is left, the entry visited next. *)
Fixpoint pickEntries {A} (n : nat) (order : list nat) (m : list A) : list A :=
  match n with
  | O => []
  | S n' =>
    match m with
    | [] => []
    | x :: _ =>
      let i := (hd 0%nat order mod length m)%nat in
      nth i m x :: pickEntries n' (tl order) (removeAt i m)
    end
  end.

Definition rangeMap {A} (order : list nat) (m : list A) : list A :=
  pickEntries (length m) order m.

(** ** Errors *)

(** A Go [error]: [sql.ErrNoRows], which callers compare against, or a
    message. *)
Inductive error : Type :=
| sqlErrNoRows
| errorString (msg : gostring).

Definition errorText (e : error) : gostring :=
  match e with
  | sqlErrNoRows => str "sql: no rows in result set"
  | errorString msg => msg
  end.

(** [fmt.Errorf(prefix + ": %w", err)]. *)
Definition Errorf (prefix : gostring) (err : error) : error :=
  errorString (prefix ++ str ": " ++ errorText err).

(** What a function returns that returns a value and an [error]. *)
Inductive outcome (A : Type) : Type :=
| Done (a : A)
| Failed (err : error).
Arguments Done {A} a.
Arguments Failed {A} err.

(** ** [service/rag_service.go]: the embedding *)

Definition Vector := list float32.

Definition dimensions : nat := 1536.

Section Embedding.

(** The Unicode case tables for runes outside ASCII. *)
Variable caseTable : Z -> Z.

(** The map of word weights: a word at position [i] of [n] adds [n - i]. *)
Fixpoint wordWeights (n : Z) (i : Z) (words : list gostring) (m : gomap) : gomap :=
  match words with
  | [] => m
  | word :: rest => wordWeights n (i + 1) rest (mapAdd m word (n - i))
  end.

Definition wordHash (text : gostring) : gomap :=
  let text := strings.ToLower caseTable (strings.TrimSpace text) in
  let words := strings.Fields text in
  wordWeights (Z.of_nat (length words)) 0 words [].

(** The inner loop: the runes of one word folded into the hash. *)
Definition hashWord (h : Z) (word : gostring) : Z :=
  fold_left (fun h rw => Z.rem (wrap64 (wrap64 (h * 31) + fst rw)) 1000000)
            (utf8.range word) h.

(** The loop over the map, in the order the entries are visited. *)
Definition combinedHash (visited : gomap) : Z :=
  fold_left (fun h wf => Z.rem (wrap64 (hashWord h (fst wf) * snd wf)) 1000000)
            visited 0.

Definition nextSeed (seed : Z) : Z :=
  Z.land (wrap64 (wrap64 (seed * 1103515245) + 12345)) 0x7fffffff.

(** The components from index [i] on, [seed] being the seed before them. *)
Fixpoint components (n : nat) (i : Z) (seed : Z) : Vector :=
  match n with
  | O => []
  | S n' =>
    let seed := nextSeed seed in
    let positionFactor := f32_div (f32_of_int i) (f32_of_int (Z.of_nat dimensions)) in
    f32_add (f32_div (f32_of_int (Z.rem seed 1000)) f32_1000)
            (f32_mul positionFactor f32_tenth)
      :: components n' (i + 1) seed
  end.

Definition generateEmbedding (order : list nat) (text : gostring) : outcome Vector :=
  let visited := rangeMap order (wordHash text) in
  Done (components dimensions 0 (combinedHash visited)).

End Embedding.

(** ** [migrations/init.sql]: the tables *)

Record Document := mkDocument {
  doc_id : Z;
  doc_url : gostring;
  doc_title : gostring;
  doc_content : gostring;
  doc_embedding : Vector;
  doc_created_at : nat;
  doc_updated_at : nat
}.

Record Chunk := mkChunk {
  chunk_id : Z;
  chunk_document_id : Z;
  chunk_content : gostring;
  chunk_embedding : option Vector;
  chunk_index : Z;
  chunk_start_position : Z;
  chunk_end_position : Z
}.

Record KnowledgeNode := mkKnowledgeNode {
  node_id : Z;
  node_name : gostring;
  node_type : gostring;
  node_properties : gostring;
  node_embedding : option Vector;
  node_document_id : option Z
}.

Record KnowledgeEdge := mkKnowledgeEdge {
  edge_id : Z;
  edge_source_id : Z;
  edge_target_id : Z;
  edge_relationship_type : gostring;
  edge_properties : gostring;
  edge_document_id : option Z
}.

(** The values the service writes to [url_queue.status]. *)
Inductive Status : Type := pending | processing | completed | failed | deleted.

Definition Status_eqb (a b : Status) : bool :=
  match a, b with
  | pending, pending | processing, processing | completed, completed
  | failed, failed | deleted, deleted => true
  | _, _ => false
  end.

Record URLQueueItem := mkURLQueueItem {
  queue_id : Z;
  queue_url : gostring;
  queue_status : Status;
  queue_error : option gostring;
  queue_retry_count : Z;
  queue_created_at : nat;
  queue_updated_at : nat
}.

(** The database: the rows of each table and the [SERIAL] counters. *)
Record DB := mkDB {
  tbl_documents : list Document;
  tbl_chunks : list Chunk;
  tbl_knowledge_nodes : list KnowledgeNode;
  tbl_knowledge_edges : list KnowledgeEdge;
  tbl_url_queue : list URLQueueItem;
  documents_id_seq : Z;
  chunks_id_seq : Z;
  knowledge_nodes_id_seq : Z;
  knowledge_edges_id_seq : Z;
  url_queue_id_seq : Z
}.

Definition emptyDB : DB := mkDB [] [] [] [] [] 0 0 0 0 0.

Definition set_documents (d : DB) (rows : list Document) (seq : Z) : DB :=
  mkDB rows (tbl_chunks d) (tbl_knowledge_nodes d) (tbl_knowledge_edges d)
       (tbl_url_queue d) seq (chunks_id_seq d) (knowledge_nodes_id_seq d)
       (knowledge_edges_id_seq d) (url_queue_id_seq d).

Definition set_chunks (d : DB) (rows : list Chunk) (seq : Z) : DB :=
  mkDB (tbl_documents d) rows (tbl_knowledge_nodes d) (tbl_knowledge_edges d)
       (tbl_url_queue d) (documents_id_seq d) seq (knowledge_nodes_id_seq d)
       (knowledge_edges_id_seq d) (url_queue_id_seq d).

Definition set_knowledge_nodes (d : DB) (rows : list KnowledgeNode) (seq : Z) : DB :=
  mkDB (tbl_documents d) (tbl_chunks d) rows (tbl_knowledge_edges d)
       (tbl_url_queue d) (documents_id_seq d) (chunks_id_seq d) seq
       (knowledge_edges_id_seq d) (url_queue_id_seq d).

Definition set_knowledge_edges (d : DB) (rows : list KnowledgeEdge) (seq : Z) : DB :=
  mkDB (tbl_documents d) (tbl_chunks d) (tbl_knowledge_nodes d) rows
       (tbl_url_queue d) (documents_id_seq d) (chunks_id_seq d)
       (knowledge_nodes_id_seq d) seq (url_queue_id_seq d).

Definition set_url_queue (d : DB) (rows : list URLQueueItem) (seq : Z) : DB :=
  mkDB (tbl_documents d) (tbl_chunks d) (tbl_knowledge_nodes d)
       (tbl_knowledge_edges d) rows (documents_id_seq d) (chunks_id_seq d)
       (knowledge_nodes_id_seq d) (knowledge_edges_id_seq d) seq.

Definition optZ_eqb (a : option Z) (b : Z) : bool :=
  match a with Some x => x =? b | None => false end.

Definition memZ (x : Z) (l : list Z) : bool := existsb (Z.eqb x) l.

Definition optMemZ (a : option Z) (l : list Z) : bool :=
  match a with Some x => memZ x l | None => false end.

(** The errors of a statement the server refuses, as the driver returns
    them: [pq: ] and the message of the server, which names the table and
    the constraint in double quotes. *)
Definition quoted (name : string) : gostring :=
  [ascii_of_nat 34] ++ str name ++ [ascii_of_nat 34].

Definition pqError (message : gostring) : error := errorString (str "pq: " ++ message).

(** A row is written whose reference has no row to point to. *)
Definition foreignKeyMissing (table constraint : string) : error :=
  pqError (str "insert or update on table " ++ quoted table
           ++ str " violates foreign key constraint " ++ quoted constraint).

(** A row is deleted that a row of [referencing] points to. *)
Definition stillReferenced (table constraint referencing : string) : error :=
  pqError (str "update or delete on table " ++ quoted table
           ++ str " violates foreign key constraint " ++ quoted constraint
           ++ str " on table " ++ quoted referencing).

(** A row is written whose key another row has. *)
Definition duplicateKey (constraint : string) : error :=
  pqError (str "duplicate key value violates unique constraint " ++ quoted constraint).

(** The first of the rows to delete that a reference holds, with what
    holds it; the rows are looked at in the order of the table. *)
Fixpoint firstHeld {A B} (heldBy : A -> option B) (rows : list A) : option B :=
  match rows with
  | [] => None
  | r :: rest =>
    match heldBy r with
    | Some by_ => Some by_
    | None => firstHeld heldBy rest
    end
  end.

(** ** The statements of the service

    Each statement is a function from the database (and the time, for
    [CURRENT_TIMESTAMP]) to the new database and what the statement
    returns, or to the error of a constraint it violates. *)

Definition documentExists (d : DB) (id : Z) : bool :=
  existsb (fun r => doc_id r =? id) (tbl_documents d).

Definition nodeExists (d : DB) (id : Z) : bool :=
  existsb (fun r => node_id r =? id) (tbl_knowledge_nodes d).

(** [SELECT id FROM documents WHERE url = $1], as a set of ids. *)
Definition documentIdsOfURL (d : DB) (url : gostring) : list Z :=
  map doc_id (filter (fun r => gostring_eqb (doc_url r) url) (tbl_documents d)).

(** [INSERT INTO documents ... ON CONFLICT (url) DO UPDATE SET title,
    content, embedding, updated_at ... RETURNING id].  The row that holds
    the URL is the conflicting one ([idx_documents_url_unique]); the
    sequence advances either way. *)
Definition upsertDocument (url title content : gostring) (embedding : Vector)
  (now : nat) (d : DB) : outcome (DB * Z) :=
  let id := documents_id_seq d + 1 in
  match find (fun r => gostring_eqb (doc_url r) url) (tbl_documents d) with
  | Some old =>
    let rows :=
      map (fun r =>
             if gostring_eqb (doc_url r) url then
               mkDocument (doc_id r) (doc_url r) title content embedding
                          (doc_created_at r) now
             else r) (tbl_documents d) in
    Done (set_documents d rows id, doc_id old)
  | None =>
    let row := mkDocument id url title content embedding now now in
    Done (set_documents d (tbl_documents d ++ [row]) id, id)
  end.

(** [INSERT INTO chunks (document_id, content, embedding, chunk_index,
    start_position, end_position)]; without the embedding column it is
    [NULL]. *)
Definition insertChunk (documentID : Z) (content : gostring)
  (embedding : option Vector) (index startPos endPos : Z)
  (now : nat) (d : DB) : outcome (DB * unit) :=
  if negb (documentExists d documentID) then
    Failed (foreignKeyMissing "chunks" "chunks_document_id_fkey")
  else
    let id := chunks_id_seq d + 1 in
    let row := mkChunk id documentID content embedding index startPos endPos in
    Done (set_chunks d (tbl_chunks d ++ [row]) id, tt).

(** [SELECT id FROM knowledge_nodes WHERE name = $1 AND type = $2]. *)
Definition selectNodeId (name type : gostring) (now : nat) (d : DB)
  : outcome (DB * Z) :=
  match find (fun r => gostring_eqb (node_name r) name
                       && gostring_eqb (node_type r) type)
             (tbl_knowledge_nodes d) with
  | Some r => Done (d, node_id r)
  | None => Failed sqlErrNoRows
  end.

(** [INSERT INTO knowledge_nodes ... ON CONFLICT (name, type) DO UPDATE SET
    properties, embedding, document_id RETURNING id]. *)
Definition upsertNode (name type properties : gostring) (embedding : Vector)
  (documentID : Z) (now : nat) (d : DB) : outcome (DB * Z) :=
  if negb (documentExists d documentID) then
    Failed (foreignKeyMissing "knowledge_nodes" "knowledge_nodes_document_id_fkey")
  else
    let id := knowledge_nodes_id_seq d + 1 in
    match find (fun r => gostring_eqb (node_name r) name
                         && gostring_eqb (node_type r) type)
               (tbl_knowledge_nodes d) with
    | Some old =>
      let rows :=
        map (fun r =>
               if gostring_eqb (node_name r) name && gostring_eqb (node_type r) type then
                 mkKnowledgeNode (node_id r) (node_name r) (node_type r) properties
                                 (Some embedding) (Some documentID)
               else r) (tbl_knowledge_nodes d) in
      Done (set_knowledge_nodes d rows id, node_id old)
    | None =>
      let row := mkKnowledgeNode id name type properties (Some embedding)
                                 (Some documentID) in
      Done (set_knowledge_nodes d (tbl_knowledge_nodes d ++ [row]) id, id)
    end.

(** [INSERT INTO knowledge_edges ... ON CONFLICT (source_id, target_id,
    relationship_type) DO UPDATE SET properties, document_id]. *)
Definition upsertEdge (source target : Z) (relType properties : gostring)
  (documentID : Z) (now : nat) (d : DB) : outcome (DB * unit) :=
  if negb (nodeExists d source) then
    Failed (foreignKeyMissing "knowledge_edges" "knowledge_edges_source_id_fkey")
  else if negb (nodeExists d target) then
    Failed (foreignKeyMissing "knowledge_edges" "knowledge_edges_target_id_fkey")
  else if negb (documentExists d documentID) then
    Failed (foreignKeyMissing "knowledge_edges" "knowledge_edges_document_id_fkey")
  else
    let id := knowledge_edges_id_seq d + 1 in
    let same := fun r => (edge_source_id r =? source) && (edge_target_id r =? target)
                         && gostring_eqb (edge_relationship_type r) relType in
    match find same (tbl_knowledge_edges d) with
    | Some old =>
      let rows :=
        map (fun r =>
               if same r then
                 mkKnowledgeEdge (edge_id r) (edge_source_id r) (edge_target_id r)
                                 (edge_relationship_type r) properties (Some documentID)
               else r) (tbl_knowledge_edges d) in
      Done (set_knowledge_edges d rows id, tt)
    | None =>
      let row := mkKnowledgeEdge id source target relType properties (Some documentID) in
      Done (set_knowledge_edges d (tbl_knowledge_edges d ++ [row]) id, tt)
    end.

(** [SELECT COUNT( * ) FROM url_queue WHERE url = $1]. *)
Definition countQueueURL (url : gostring) (now : nat) (d : DB) : outcome (DB * Z) :=
  Done (d, Z.of_nat (length (filter (fun q => gostring_eqb (queue_url q) url)
                                    (tbl_url_queue d)))).

(** [INSERT INTO url_queue (url, status) VALUES ($1, 'pending')]. *)
Definition insertQueueItem (url : gostring) (now : nat) (d : DB) : outcome (DB * unit) :=
  let id := url_queue_id_seq d + 1 in
  if existsb (fun q => gostring_eqb (queue_url q) url) (tbl_url_queue d) then
    Failed (duplicateKey "idx_url_queue_url_unique")
  else
    let row := mkURLQueueItem id url pending None 0 now now in
    Done (set_url_queue d (tbl_url_queue d ++ [row]) id, tt).

(** An [UPDATE url_queue SET ... WHERE ...]: the rows that satisfy [cond]
    are replaced by [change]; the result is the number of rows affected. *)
Definition updateQueue (cond : URLQueueItem -> bool)
  (change : URLQueueItem -> URLQueueItem) (d : DB) : outcome (DB * Z) :=
  let rows := map (fun q => if cond q then change q else q) (tbl_url_queue d) in
  Done (set_url_queue d rows (url_queue_id_seq d),
        Z.of_nat (length (filter cond (tbl_url_queue d)))).

Definition withStatus (s : Status) (now : nat) (q : URLQueueItem) : URLQueueItem :=
  mkURLQueueItem (queue_id q) (queue_url q) s (queue_error q) (queue_retry_count q)
                 (queue_created_at q) now.

Definition withFailure (msg : gostring) (retry : bool) (now : nat) (q : URLQueueItem)
  : URLQueueItem :=
  mkURLQueueItem (queue_id q) (queue_url q) failed (Some msg)
                 (if retry then queue_retry_count q + 1 else queue_retry_count q)
                 (queue_created_at q) now.

(** [UPDATE url_queue SET status = $s, updated_at = CURRENT_TIMESTAMP
    WHERE url = $1]. *)
Definition setStatusByURL (s : Status) (url : gostring) (now : nat) (d : DB)
  : outcome (DB * Z) :=
  updateQueue (fun q => gostring_eqb (queue_url q) url) (withStatus s now) d.

(** [... WHERE id = $1]. *)
Definition setStatusByID (s : Status) (id : Z) (now : nat) (d : DB)
  : outcome (DB * Z) :=
  updateQueue (fun q => queue_id q =? id) (withStatus s now) d.

(** [UPDATE url_queue SET status = 'failed', error = $1, updated_at = ...
    WHERE url = $2]. *)
Definition setFailedByURL (msg url : gostring) (now : nat) (d : DB)
  : outcome (DB * Z) :=
  updateQueue (fun q => gostring_eqb (queue_url q) url) (withFailure msg false now) d.

(** [UPDATE url_queue SET status = 'failed', error = $1, retry_count =
    retry_count + 1, updated_at = ... WHERE id = $2]. *)
Definition setFailedByID (msg : gostring) (id : Z) (now : nat) (d : DB)
  : outcome (DB * Z) :=
  updateQueue (fun q => queue_id q =? id) (withFailure msg true now) d.

(** [DELETE FROM knowledge_edges WHERE document_id IN (SELECT id FROM
    documents WHERE url = $1)]. *)
Definition deleteEdgesOfURL (url : gostring) (now : nat) (d : DB) : outcome (DB * Z) :=
  let ids := documentIdsOfURL d url in
  let gone := fun e => optMemZ (edge_document_id e) ids in
  Done (set_knowledge_edges d (filter (fun e => negb (gone e)) (tbl_knowledge_edges d))
                            (knowledge_edges_id_seq d),
        Z.of_nat (length (filter gone (tbl_knowledge_edges d)))).

(** The reference of [knowledge_edges] that holds a node: [source_id] is
    declared, and so checked, before [target_id]. *)
Definition nodeHeldBy (edges : list KnowledgeEdge) (n : KnowledgeNode) : option string :=
  if existsb (fun e => edge_source_id e =? node_id n) edges then
    Some "knowledge_edges_source_id_fkey"%string
  else if existsb (fun e => edge_target_id e =? node_id n) edges then
    Some "knowledge_edges_target_id_fkey"%string
  else None.

(** [DELETE FROM knowledge_nodes WHERE document_id IN (...)]: refused while
    an edge has one of the nodes as its source or target. *)
Definition deleteNodesOfURL (url : gostring) (now : nat) (d : DB) : outcome (DB * Z) :=
  let ids := documentIdsOfURL d url in
  let gone := fun n => optMemZ (node_document_id n) ids in
  let goneNodes := filter gone (tbl_knowledge_nodes d) in
  match firstHeld (nodeHeldBy (tbl_knowledge_edges d)) goneNodes with
  | Some constraint =>
    Failed (stillReferenced "knowledge_nodes" constraint "knowledge_edges")
  | None =>
    Done (set_knowledge_nodes d (filter (fun n => negb (gone n)) (tbl_knowledge_nodes d))
                              (knowledge_nodes_id_seq d),
          Z.of_nat (length goneNodes))
  end.

(** [DELETE FROM chunks WHERE document_id IN (...)]. *)
Definition deleteChunksOfURL (url : gostring) (now : nat) (d : DB) : outcome (DB * Z) :=
  let ids := documentIdsOfURL d url in
  let gone := fun c => memZ (chunk_document_id c) ids in
  Done (set_chunks d (filter (fun c => negb (gone c)) (tbl_chunks d)) (chunks_id_seq d),
        Z.of_nat (length (filter gone (tbl_chunks d)))).

(** The reference that holds a document, and the table it is of: the
    references are checked as their tables are declared, [chunks], then
    [knowledge_nodes], then [knowledge_edges]. *)
Definition documentHeldBy (d : DB) (r : Document) : option (string * string) :=
  if existsb (fun c => chunk_document_id c =? doc_id r) (tbl_chunks d) then
    Some ("chunks_document_id_fkey", "chunks")%string
  else if existsb (fun n => optZ_eqb (node_document_id n) (doc_id r))
                  (tbl_knowledge_nodes d) then
    Some ("knowledge_nodes_document_id_fkey", "knowledge_nodes")%string
  else if existsb (fun e => optZ_eqb (edge_document_id e) (doc_id r))
                  (tbl_knowledge_edges d) then
    Some ("knowledge_edges_document_id_fkey", "knowledge_edges")%string
  else None.

(** [DELETE FROM documents WHERE url = $1]: refused while a chunk, node or
    edge refers to one of the documents. *)
Definition deleteDocumentsOfURL (url : gostring) (now : nat) (d : DB)
  : outcome (DB * Z) :=
  let gone := fun r => gostring_eqb (doc_url r) url in
  let goneDocuments := filter gone (tbl_documents d) in
  match firstHeld (documentHeldBy d) goneDocuments with
  | Some (constraint, referencing) =>
    Failed (stillReferenced "documents" constraint referencing)
  | None =>
    Done (set_documents d (filter (fun r => negb (gone r)) (tbl_documents d))
                        (documents_id_seq d),
          Z.of_nat (length goneDocuments))
  end.

(** ** The world the service runs in *)

(** What [goquery] hands back for a page: the text of its [title] and the
    text of each [body], scripts and styles removed. *)
Record Page := mkPage {
  page_title : gostring;
  page_bodies : list gostring
}.

(** What the service does not decide, by the moment it happens: whether
    the database driver fails, the order of a map loop, what a fetch
    returns. *)
Record Env := mkEnv {
  dbFails : nat -> bool;
  mapOrder : nat -> list nat;
  fetchPage : nat -> gostring -> outcome Page
}.

(** The state: the database, the clock (it advances with every effect), and
    the goroutines started and not yet run, each with the document it was
    started for. *)
Record World := mkWorld {
  db : DB;
  clock : nat;
  goroutines : list (Z * gostring)
}.

Definition M (A : Type) : Type := World -> A * World.

Definition ret {A} (a : A) : M A := fun w => (a, w).

Definition bind {A B} (m : M A) (k : A -> M B) : M B :=
  fun w => let '(a, w') := m w in k a w'.

Notation "x <- m ;; k" := (bind m (fun x => k))
  (at level 61, m at next level, right associativity).
Notation "m ;;; k" := (bind m (fun _ => k))
  (at level 61, right associativity).

(** A loop over a slice that carries a value along. *)
Fixpoint foldM {A S} (f : S -> A -> M S) (l : list A) (s : S) : M S :=
  match l with
  | [] => ret s
  | x :: rest => s' <- f s x ;; foldM f rest s'
  end.

Definition forM_ {A} (f : A -> M unit) (l : list A) : M unit :=
  foldM (fun _ x => f x) l tt.

Definition driverError : error := errorString (str "driver: bad connection").

Record Entity := mkEntity {
  ent_Name : gostring;
  ent_Type : gostring;
  ent_Properties : gostring
}.

Record Relationship := mkRelationship {
  rel_SourceID : Z;
  rel_TargetID : Z;
  rel_RelationshipType : gostring;
  rel_Properties : gostring
}.

(** [m[k] = v] and [v, ok := m[k]] on a [map[string]int]. *)
Fixpoint mapSet (m : gomap) (k : gostring) (v : Z) : gomap :=
  match m with
  | [] => [(k, v)]
  | (k', v') :: rest =>
    if gostring_eqb k' k then (k', v) :: rest else (k', v') :: mapSet rest k v
  end.

Definition mapGet (m : gomap) (k : gostring) : option Z :=
  option_map snd (find (fun kv => gostring_eqb (fst kv) k) m).

Record ProcessDocumentRequest := mkProcessDocumentRequest {
  req_URL : gostring;
  req_Title : gostring;
  req_Content : gostring
}.

Section Service.

(** The Unicode case tables, and the parts of the service that are taken as
    given: the pattern scans of [extractEntities] and
    [extractRelationships]. *)
Variable caseTable : Z -> Z.
Variable extractEntities : gostring -> list Entity.
Variable extractRelationships : gostring -> gomap -> list Relationship.
Variable env : Env.

(** ** Effects *)

Definition tick : M nat :=
  fun w => (clock w, mkWorld (db w) (S (clock w)) (goroutines w)).

(** A statement sent to the database: the driver may fail, the statement
    may violate a constraint; otherwise it takes effect. *)
Definition exec {R} (stmt : nat -> DB -> outcome (DB * R)) : M (outcome R) :=
  fun w =>
    let t := clock w in
    let w' := mkWorld (db w) (S t) (goroutines w) in
    if dbFails env t then (Failed driverError, w')
    else
      match stmt t (db w) with
      | Done (d, r) => (Done r, mkWorld d (S t) (goroutines w))
      | Failed err => (Failed err, w')
      end.

(** [go func() { ... }()]: the goroutine is started, not run. *)
Definition spawn (documentID : Z) (content : gostring) : M unit :=
  fun w => (tt, mkWorld (db w) (clock w) (goroutines w ++ [(documentID, content)])).

(** [s.generateEmbedding], with the order its map loop takes now. *)
Definition generateEmbeddingM (text : gostring) : M (outcome Vector) :=
  t <- tick ;; ret (generateEmbedding caseTable (mapOrder env t) text).

(** [goquery.NewDocument]. *)
Definition fetch (url : gostring) : M (outcome Page) :=
  t <- tick ;; ret (fetchPage env t url).

(** ** [chunkDocument] *)

Definition storeChunk (documentID : Z) (chunk : ChunkInfo) : M unit :=
  (* Generate embedding for the chunk *)
  e <- generateEmbeddingM (Content chunk) ;;
  match e with
  | Failed _ =>
    (* Continue without embedding *)
    exec (insertChunk documentID (Content chunk) None (ChunkIndex chunk)
                      (StartPosition chunk) (EndPosition chunk)) ;;; ret tt
  | Done embedding =>
    (* Store chunk with embedding *)
    exec (insertChunk documentID (Content chunk) (Some embedding) (ChunkIndex chunk)
                      (StartPosition chunk) (EndPosition chunk)) ;;; ret tt
  end.

Definition chunkDocument (documentID : Z) (content : gostring) : M (option error) :=
  let chunks := computeChunks content in
  (* Store chunks in database with embeddings *)
  forM_ (storeChunk documentID) chunks ;;;
  ret None.

(** ** [ExtractEntitiesAndRelations] *)

Definition storeEntity (documentID : Z) (entityMap : gomap) (entity : Entity)
  : M gomap :=
  (* Check if entity already exists *)
  r <- exec (selectNodeId (ent_Name entity) (ent_Type entity)) ;;
  match r with
  | Done existingID =>
    (* Entity already exists, use existing ID *)
    ret (mapSet entityMap (ent_Name entity) existingID)
  | Failed sqlErrNoRows =>
    e <- generateEmbeddingM (ent_Name entity) ;;
    match e with
    | Failed _ => ret entityMap
    | Done embedding =>
      r <- exec (upsertNode (ent_Name entity) (ent_Type entity) (ent_Properties entity)
                            embedding documentID) ;;
      match r with
      | Failed _ => ret entityMap
      | Done id => ret (mapSet entityMap (ent_Name entity) id)
      end
    end
  | Failed _ => ret entityMap
  end.

Definition storeRelationship (documentID : Z) (rel : Relationship) : M unit :=
  exec (upsertEdge (rel_SourceID rel) (rel_TargetID rel) (rel_RelationshipType rel)
                   (rel_Properties rel) documentID) ;;; ret tt.

Definition ExtractEntitiesAndRelations (documentID : Z) (content : gostring)
  : M (option error) :=
  (* Extract entities from content *)
  let entities := extractEntities content in
  (* Store entities in database *)
  entityMap <- foldM (storeEntity documentID) entities [] ;;
  (* Extract relationships *)
  let relationships := extractRelationships content entityMap in
  (* Store relationships in database *)
  forM_ (storeRelationship documentID) relationships ;;;
  ret None.

(** ** [ProcessDocument] *)

(** The statement that stores the document. *)
Definition storeDocument (url title content : gostring) (embedding : Vector)
  : M (outcome Z) :=
  exec (upsertDocument url title content embedding).

Definition ProcessDocument (req : ProcessDocumentRequest) : M (option error) :=
  (* Clean the content *)
  let cleanedContent := cleanContent (req_Content req) in
  if gostring_eqb cleanedContent [] then
    ret (Some (errorString (str "content is empty after cleaning")))
  else
    (* Generate embedding for the document *)
    e <- generateEmbeddingM cleanedContent ;;
    match e with
    | Failed err => ret (Some (Errorf (str "failed to generate embedding") err))
    | Done embedding =>
      (* Store document in database *)
      r <- storeDocument (req_URL req) (req_Title req) cleanedContent embedding ;;
      match r with
      | Failed err => ret (Some (Errorf (str "failed to store document") err))
      | Done documentID =>
        (* Process chunks; an error is logged *)
        chunkDocument documentID cleanedContent ;;;
        (* Extract entities and relationships; an error is logged *)
        ExtractEntitiesAndRelations documentID cleanedContent ;;;
        ret None
      end
    end.

(** ** [fetchContent] and [ProcessURL] *)

Definition fetchContent (url : gostring) : M (outcome (gostring * gostring)) :=
  (* Fetch the URL *)
  p <- fetch url ;;
  match p with
  | Failed err => ret (Failed (Errorf (str "failed to fetch URL") err))
  | Done doc =>
    (* Extract title *)
    let title := if gostring_eqb (page_title doc) [] then url else page_title doc in
    (* Extract main content: the text of the last body *)
    let content := last (page_bodies doc) [] in
    (* Clean up content *)
    let content := cleanContent content in
    if gostring_eqb content [] then
      ret (Failed (errorString (str "no content found at URL")))
    else ret (Done (content, title))
  end.

Definition ProcessURL (url : gostring) : M (option error) :=
  (* Update status to processing *)
  r <- exec (setStatusByURL processing url) ;;
  match r with
  | Failed err => ret (Some (Errorf (str "failed to update status to processing") err))
  | Done _ =>
    (* Fetch content from URL *)
    f <- fetchContent url ;;
    match f with
    | Failed err =>
      exec (setFailedByURL (errorText err) url) ;;;
      ret (Some (Errorf (str "failed to fetch content") err))
    | Done (content, title) =>
      (* Clean content *)
      let content := cleanContent content in
      (* Generate embedding for the full document *)
      e <- generateEmbeddingM content ;;
      match e with
      | Failed err =>
        exec (setFailedByURL (errorText err) url) ;;;
        ret (Some (Errorf (str "failed to generate embedding") err))
      | Done embedding =>
        (* Store document in database *)
        r <- storeDocument url title content embedding ;;
        match r with
        | Failed err =>
          exec (setFailedByURL (errorText err) url) ;;;
          ret (Some (Errorf (str "failed to store document") err))
        | Done documentID =>
          (* Chunk the content and store chunks *)
          chunkDocument documentID content ;;;
          (* Extract entities and relationships (background processing) *)
          spawn documentID content ;;;
          (* Update status to completed *)
          exec (setStatusByURL completed url) ;;;
          ret None
        end
      end
    end
  end.

(** A goroutine started by [ProcessURL], when it runs. *)
Definition runGoroutine (task : Z * gostring) : M unit :=
  ExtractEntitiesAndRelations (fst task) (snd task) ;;; ret tt.

(** ** [QueueURL] and [DeleteURL] *)

Definition QueueURL (url : gostring) : M (option error) :=
  if gostring_eqb url [] then ret (Some (errorString (str "URL cannot be empty")))
  else
    r <- exec (insertQueueItem url) ;;
    match r with
    | Failed err => ret (Some (Errorf (str "failed to queue URL") err))
    | Done _ => ret None
    end.

Definition urlNotFound (url : gostring) : error :=
  errorString (str "URL not found in queue: " ++ url).

Definition DeleteURL (url : gostring) : M (option error) :=
  (* First check if the URL exists *)
  r <- exec (countQueueURL url) ;;
  match r with
  | Failed err => ret (Some (Errorf (str "failed to check URL existence") err))
  | Done count =>
    if count =? 0 then ret (Some (urlNotFound url))
    else
      (* Update status to deleted instead of deleting the record *)
      r <- exec (setStatusByURL deleted url) ;;
      match r with
      | Failed err => ret (Some (Errorf (str "failed to update url_queue status") err))
      | Done rowsAffected =>
        if rowsAffected =? 0 then
          ret (Some (errorString (str "no rows were updated for URL: " ++ url)))
        else
          (* Delete related knowledge graph edges first *)
          r <- exec (deleteEdgesOfURL url) ;;
          match r with
          | Failed err => ret (Some (Errorf (str "failed to delete knowledge edges") err))
          | Done _ =>
            (* Delete related knowledge graph nodes *)
            r <- exec (deleteNodesOfURL url) ;;
            match r with
            | Failed err =>
              ret (Some (Errorf (str "failed to delete knowledge nodes") err))
            | Done _ =>
              (* Delete related chunks *)
              r <- exec (deleteChunksOfURL url) ;;
              match r with
              | Failed err => ret (Some (Errorf (str "failed to delete chunks") err))
              | Done _ =>
                (* Finally delete documents *)
                r <- exec (deleteDocumentsOfURL url) ;;
                match r with
                | Failed err => ret (Some (Errorf (str "failed to delete documents") err))
                | Done _ => ret None
                end
              end
            end
          end
      end
  end.

End Service.

(** ** Ingestion, by either entry point *)

Inductive Ingestion : Type :=
| viaDocument (req : ProcessDocumentRequest)
| viaURL (url : gostring).

Definition ingestedURL (i : Ingestion) : gostring :=
  match i with
  | viaDocument req => req_URL req
  | viaURL url => url
  end.

Definition ingest (caseTable : Z -> Z)
  (extractEntities : gostring -> list Entity)
  (extractRelationships : gostring -> gomap -> list Relationship)
  (env : Env) (i : Ingestion) : M (option error) :=
  match i with
  | viaDocument req =>
    ProcessDocument caseTable extractEntities extractRelationships env req
  | viaURL url => ProcessURL caseTable env url
  end.

(** The title and the content an ingestion stores: those of the request,
    or those of a page fetched from the URL. *)
Definition ingests (env : Env) (i : Ingestion) (title content : gostring) : Prop :=
  match i with
  | viaDocument req =>
    title = req_Title req /\ content = cleanContent (req_Content req)
  | viaURL url =>
    exists t page,
      fetchPage env t url = Done page
      /\ title = (if gostring_eqb (page_title page) [] then url else page_title page)
      /\ content = cleanContent (last (page_bodies page) [])
  end.

(** [SELECT * FROM documents WHERE url = $1]. *)
Definition documentsWithURL (d : DB) (url : gostring) : list Document :=
  filter (fun r => gostring_eqb (doc_url r) url) (tbl_documents d).

(** [idx_documents_url_unique]. *)
Definition uniqueURLs (d : DB) : Prop := NoDup (map doc_url (tbl_documents d)).

(** What a successful ingestion leaves in the [documents] table: one row
    for the URL, which holds what was ingested; when the URL had a row, it
    is that row, and the table has not grown. *)
Definition storedBy (caseTable : Z -> Z) (env : Env) (i : Ingestion) (w w' : World)
  : Prop :=
  uniqueURLs (db w')
  /\ exists row,
       documentsWithURL (db w') (ingestedURL i) = [row]
       /\ ingests env i (doc_title row) (doc_content row)
       /\ (exists order,
             generateEmbedding caseTable order (doc_content row)
             = Done (doc_embedding row))
       /\ (forall old, documentsWithURL (db w) (ingestedURL i) = [old] ->
             doc_id row = doc_id old
             /\ length (tbl_documents (db w')) = length (tbl_documents (db w))).

(** Instances to run the service on: no case tables beyond ASCII, scans
    that find nothing, a driver that never fails, map loops in insertion
    order, and a site with one page. *)
Definition asciiOnly (r : Z) : Z := r.
Definition noEntities (content : gostring) : list Entity := [].
Definition noRelationships (content : gostring) (m : gomap) : list Relationship := [].
Definition onePage : Page := mkPage (str "Title") [str "One. Two."].
Definition quietEnv : Env :=
  mkEnv (fun _ => false) (fun _ => []) (fun _ _ => Done onePage).
Definition freshWorld : World := mkWorld emptyDB 0 [].

Definition exampleURL : gostring := str "https://x/a".
Definition firstIngestion : Ingestion :=
  viaDocument (mkProcessDocumentRequest exampleURL (str "First") (str "Alpha. Beta.")).
Definition secondIngestion : Ingestion := viaURL exampleURL.
Definition afterFirst : World :=
  snd (ingest asciiOnly noEntities noRelationships quietEnv firstIngestion freshWorld).
Definition afterSecond : World :=
  snd (ingest asciiOnly noEntities noRelationships quietEnv secondIngestion afterFirst).

(** ** The queue: workers, deletion and re-indexing by id, listings *)

(** Rows in the order of an [ORDER BY]: [before a b] says that [a] may
    stand before [b]; rows that tie keep the order of the table. *)
Fixpoint insertBy {A} (before : A -> A -> bool) (x : A) (l : list A) : list A :=
  match l with
  | [] => [x]
  | y :: rest => if before y x then y :: insertBy before x rest else x :: l
  end.

Definition sortBy {A} (before : A -> A -> bool) (l : list A) : list A :=
  fold_left (fun acc x => insertBy before x acc) l [].

Definition isPending (q : URLQueueItem) : bool := Status_eqb (queue_status q) pending.

(** [SELECT id FROM url_queue WHERE status = 'pending' ORDER BY created_at
    ASC ... LIMIT 1]: the pending row created first (the first such row of
    the table when several were created at the same time). *)
Fixpoint oldestPending (rows : list URLQueueItem) : option URLQueueItem :=
  match rows with
  | [] => None
  | q :: rest =>
    match oldestPending rest with
    | None => if isPending q then Some q else None
    | Some best =>
      if isPending q && (queue_created_at q <=? queue_created_at best)%nat
      then Some q else Some best
    end
  end.

(** The claim of [processURLQueue]: [UPDATE url_queue SET status =
    'processing' WHERE id = (SELECT ...) RETURNING id, url].  A statement
    runs at once, so no row is locked while it selects. *)
Definition claimNext (now : nat) (d : DB) : outcome (DB * (Z * gostring)) :=
  match oldestPending (tbl_url_queue d) with
  | None => Failed sqlErrNoRows
  | Some q =>
    let claim := fun r =>
      mkURLQueueItem (queue_id r) (queue_url r) processing (queue_error r)
                     (queue_retry_count r) (queue_created_at r) (queue_updated_at r) in
    match updateQueue (fun r => queue_id r =? queue_id q) claim d with
    | Done (d', _) => Done (d', (queue_id q, queue_url q))
    | Failed err => Failed err
    end
  end.

(** [SELECT url FROM url_queue WHERE id = $1]. *)
Definition selectQueueURL (id : Z) (now : nat) (d : DB) : outcome (DB * gostring) :=
  match find (fun q => queue_id q =? id) (tbl_url_queue d) with
  | Some q => Done (d, queue_url q)
  | None => Failed sqlErrNoRows
  end.

(** [UPDATE url_queue SET status = 'pending', error = NULL, retry_count = 0,
    updated_at = CURRENT_TIMESTAMP WHERE id = $1]. *)
Definition resetQueueItem (id : Z) (now : nat) (d : DB) : outcome (DB * Z) :=
  updateQueue (fun q => queue_id q =? id)
              (fun q => mkURLQueueItem (queue_id q) (queue_url q) pending None 0
                                       (queue_created_at q) now) d.

(** [SELECT id FROM documents WHERE url = $1]. *)
Definition selectDocumentID (url : gostring) (now : nat) (d : DB) : outcome (DB * Z) :=
  match find (fun r => gostring_eqb (doc_url r) url) (tbl_documents d) with
  | Some r => Done (d, doc_id r)
  | None => Failed sqlErrNoRows
  end.

(** [SELECT id, url, title, content, created_at, updated_at FROM documents
    WHERE id = $1]. *)
Definition selectDocument (id : Z) (now : nat) (d : DB) : outcome (DB * Document) :=
  match find (fun r => doc_id r =? id) (tbl_documents d) with
  | Some r => Done (d, r)
  | None => Failed sqlErrNoRows
  end.

(** A chunk as [GetDocumentChunks] scans it: the columns [id], [content],
    [chunk_index], [start_position] and [end_position] of the row. *)
Record ChunkEntry := mkChunkEntry {
  ce_ID : Z;
  ce_Content : gostring;
  ce_ChunkIndex : Z;
  ce_StartPosition : Z;
  ce_EndPosition : Z
}.

Definition scanChunk (c : Chunk) : ChunkEntry :=
  mkChunkEntry (chunk_id c) (chunk_content c) (chunk_index c)
               (chunk_start_position c) (chunk_end_position c).

(** [SELECT id, content, chunk_index, start_position, end_position, ...
    FROM chunks WHERE document_id = $1 ORDER BY chunk_index]. *)
Definition selectChunks (documentID : Z) (now : nat) (d : DB)
  : outcome (DB * list ChunkEntry) :=
  Done (d, map scanChunk
             (sortBy (fun a b => chunk_index a <=? chunk_index b)
                     (filter (fun c => chunk_document_id c =? documentID)
                             (tbl_chunks d)))).

(** An item of the queue as [GetURLQueue] lists it. *)
Record QueueEntry := mkQueueEntry {
  qe_ID : Z;
  qe_URL : gostring;
  qe_Status : Status;
  qe_CreatedAt : nat;
  qe_UpdatedAt : nat;
  qe_RetryCount : Z;
  qe_DocumentID : Z
}.

(** [SELECT q.id, q.url, q.status, q.created_at, q.updated_at,
    q.retry_count, d.id FROM url_queue q LEFT JOIN documents d ON q.url =
    d.url WHERE q.status != 'deleted' ORDER BY q.created_at DESC], each row
    scanned into an item; without document the id stays 0. *)
Definition selectQueue (now : nat) (d : DB) : outcome (DB * list QueueEntry) :=
  let listed := filter (fun q => negb (Status_eqb (queue_status q) deleted))
                       (tbl_url_queue d) in
  let joined := fun q =>
    let entry := mkQueueEntry (queue_id q) (queue_url q) (queue_status q)
                              (queue_created_at q) (queue_updated_at q)
                              (queue_retry_count q) in
    match documentIdsOfURL d (queue_url q) with
    | [] => [entry 0]
    | ids => map entry ids
    end in
  Done (d, sortBy (fun a b => (qe_CreatedAt b <=? qe_CreatedAt a)%nat)
                  (flat_map joined listed)).

Section Queue.

Variable caseTable : Z -> Z.
Variable env : Env.
(** How the database reads a text parameter that is compared with an
    integer column; [None] when it is not a number. *)
Variable parseID : gostring -> option Z.

Definition invalidInteger : error :=
  errorString (str "pq: invalid input syntax for type integer").

(** A statement whose parameter [$1] is an id passed as a string. *)
Definition withID {R} (id : gostring) (stmt : Z -> nat -> DB -> outcome (DB * R))
  : nat -> DB -> outcome (DB * R) :=
  match parseID id with
  | Some n => stmt n
  | None => fun _ _ => Failed invalidInteger
  end.

(** One turn of the loop of [processURLQueue], the context not being done. *)
Definition pollQueue : M unit :=
  (* Get next URL to process *)
  r <- exec env claimNext ;;
  match r with
  | Failed sqlErrNoRows =>
    (* No URLs to process, wait before checking again *)
    tick ;;; ret tt
  | Failed _ => ret tt
  | Done (queueID, url) =>
    (* Process the URL *)
    err <- ProcessURL caseTable env url ;;
    match err with
    | Some e =>
      (* Update queue status with error *)
      exec env (setFailedByID (errorText e) queueID) ;;; ret tt
    | None =>
      (* Mark URL as processed *)
      exec env (setStatusByID completed queueID) ;;; ret tt
    end
  end.

Definition GetURLQueue : M (outcome (list QueueEntry)) :=
  r <- exec env selectQueue ;;
  match r with
  | Failed err => ret (Failed (Errorf (str "failed to query url_queue") err))
  | Done queue => ret (Done queue)
  end.

(** The four deletions that [DeleteURL], [DeleteURLByID] and
    [ReindexURLByID] have in common, with what follows them. *)
Definition deleteDataOfURL (url : gostring) (andThen : M (option error))
  : M (option error) :=
  (* Delete related knowledge graph edges first *)
  r <- exec env (deleteEdgesOfURL url) ;;
  match r with
  | Failed err => ret (Some (Errorf (str "failed to delete knowledge edges") err))
  | Done _ =>
    (* Delete related knowledge graph nodes *)
    r <- exec env (deleteNodesOfURL url) ;;
    match r with
    | Failed err => ret (Some (Errorf (str "failed to delete knowledge nodes") err))
    | Done _ =>
      (* Delete related chunks *)
      r <- exec env (deleteChunksOfURL url) ;;
      match r with
      | Failed err => ret (Some (Errorf (str "failed to delete chunks") err))
      | Done _ =>
        (* Finally delete documents *)
        r <- exec env (deleteDocumentsOfURL url) ;;
        match r with
        | Failed err => ret (Some (Errorf (str "failed to delete documents") err))
        | Done _ => andThen
        end
      end
    end
  end.

Definition DeleteURLByID (id : gostring) : M (option error) :=
  (* First check if the ID exists and get the URL *)
  r <- exec env (withID id selectQueueURL) ;;
  match r with
  | Failed err => ret (Some (Errorf (str "failed to get URL for ID") err))
  | Done url =>
    (* Update status to deleted instead of deleting the record *)
    r <- exec env (withID id (setStatusByID deleted)) ;;
    match r with
    | Failed err => ret (Some (Errorf (str "failed to update url_queue status") err))
    | Done rowsAffected =>
      if rowsAffected =? 0 then
        ret (Some (errorString (str "no rows were updated for ID: " ++ id)))
      else deleteDataOfURL url (ret None)
    end
  end.

Definition ReindexURL (url : gostring) : M (option error) :=
  (* First delete existing data *)
  err <- DeleteURL env url ;;
  match err with
  | Some e => ret (Some (Errorf (str "failed to delete existing data") e))
  | None =>
    (* Then reprocess the URL *)
    ProcessURL caseTable env url
  end.

Definition ReindexURLByID (id : gostring) : M (option error) :=
  (* First get the URL *)
  r <- exec env (withID id selectQueueURL) ;;
  match r with
  | Failed err => ret (Some (Errorf (str "failed to get URL for reprocessing") err))
  | Done url =>
    deleteDataOfURL url
      ((* Reset the queue status to pending for background worker processing *)
       r <- exec env (withID id resetQueueItem) ;;
       match r with
       | Failed err => ret (Some (Errorf (str "failed to reset queue status") err))
       | Done _ => ret None
       end)
  end.

Definition GetDocumentIDByURL (url : gostring) : M (outcome Z) :=
  r <- exec env (selectDocumentID url) ;;
  match r with
  | Failed err => ret (Failed (Errorf (str "failed to get document ID") err))
  | Done id => ret (Done id)
  end.

Definition GetDocumentByID (id : Z) : M (outcome Document) :=
  r <- exec env (selectDocument id) ;;
  match r with
  | Failed err => ret (Failed (Errorf (str "failed to get document") err))
  | Done doc => ret (Done doc)
  end.

Definition GetDocumentChunks (documentID : Z) : M (outcome (list ChunkEntry)) :=
  r <- exec env (selectChunks documentID) ;;
  match r with
  | Failed err => ret (Failed (Errorf (str "failed to query chunks") err))
  | Done chunks => ret (Done chunks)
  end.

End Queue.

(** A driver that does not fail. *)
Definition reliable (env : Env) : Prop := forall t, dbFails env t = false.

(** [idx_url_queue_url_unique]. *)
Definition uniqueQueueURLs (d : DB) : Prop := NoDup (map queue_url (tbl_url_queue d)).

(** The rows of the queue that hold [url]. *)
Definition queuedWithURL (d : DB) (url : gostring) : list URLQueueItem :=
  filter (fun q => gostring_eqb (queue_url q) url) (tbl_url_queue d).

(** What the result of a run is, and the world it leaves. *)
Definition result {A} (m : M A) (w : World) : A := fst (m w).
Definition after {A} (m : M A) (w : World) : World := snd (m w).

(** ** What a cleaned text looks like *)

(** The runes of a string, in the order of a [range] loop. *)
Definition runesOf (s : gostring) : list Z := map fst (utf8.range s).

Definition beginsWithSpace (s : gostring) : bool :=
  match runesOf s with
  | [] => false
  | r :: _ => unicode.IsSpace r
  end.

Definition endsWithSpace (s : gostring) : bool :=
  match rev (runesOf s) with
  | [] => false
  | r :: _ => unicode.IsSpace r
  end.

(** ** What stands in the way of a deletion *)

(** An edge that is not of the documents of [url] has a node of theirs as
    its source or target. *)
Definition nodesHeld (d : DB) (url : gostring) : bool :=
  let ids := documentIdsOfURL d url in
  let theirs := map node_id (filter (fun n => optMemZ (node_document_id n) ids)
                                    (tbl_knowledge_nodes d)) in
  existsb (fun e => negb (optMemZ (edge_document_id e) ids)
                    && (memZ (edge_source_id e) theirs || memZ (edge_target_id e) theirs))
          (tbl_knowledge_edges d).

(** The queue with the rows of [url] marked at time [now]. *)
Definition markedQueue (s : Status) (url : gostring) (now : nat) (d : DB)
  : list URLQueueItem :=
  map (fun q => if gostring_eqb (queue_url q) url then withStatus s now q else q)
      (tbl_url_queue d).

(** The database with the rows of [url] in the queue marked. *)
Definition markQueue (s : Status) (url : gostring) (now : nat) (d : DB) : DB :=
  set_url_queue d (markedQueue s url now d) (url_queue_id_seq d).

Definition ofDocuments (ids : list Z) (owner : option Z) : bool := optMemZ owner ids.

(** The database without the edges of the documents of [url]. *)
Definition withoutEdgesOf (url : gostring) (d : DB) : DB :=
  let ids := documentIdsOfURL d url in
  set_knowledge_edges d
    (filter (fun e => negb (ofDocuments ids (edge_document_id e))) (tbl_knowledge_edges d))
    (knowledge_edges_id_seq d).

(** The nodes of the documents of [url]. *)
Definition nodesOfURL (d : DB) (url : gostring) : list KnowledgeNode :=
  filter (fun n => optMemZ (node_document_id n) (documentIdsOfURL d url))
         (tbl_knowledge_nodes d).

(** The reference that refuses the deletion of the nodes of [url] once the
    edges of its documents are gone, if one does. *)
Definition heldThrough (d : DB) (url : gostring) : option string :=
  firstHeld (nodeHeldBy (tbl_knowledge_edges (withoutEdgesOf url d))) (nodesOfURL d url).

(** An edge that is not of the documents of [url] has a node of theirs as
    its source, or as its target. *)
Definition heldAsSource (d : DB) (url : gostring) : bool :=
  existsb (fun e => negb (optMemZ (edge_document_id e) (documentIdsOfURL d url))
                    && memZ (edge_source_id e) (map node_id (nodesOfURL d url)))
          (tbl_knowledge_edges d).

Definition heldAsTarget (d : DB) (url : gostring) : bool :=
  existsb (fun e => negb (optMemZ (edge_document_id e) (documentIdsOfURL d url))
                    && memZ (edge_target_id e) (map node_id (nodesOfURL d url)))
          (tbl_knowledge_edges d).

(** The reference [constraint] of [knowledge_edges] holds a node of the
    documents of [url]. *)
Definition holdsNodes (d : DB) (url : gostring) (constraint : string) : Prop :=
  (constraint = "knowledge_edges_source_id_fkey"%string /\ heldAsSource d url = true)
  \/ (constraint = "knowledge_edges_target_id_fkey"%string /\ heldAsTarget d url = true).

(** The error of the service when [constraint] refuses the deletion of the
    nodes. *)
Definition nodesRefused (constraint : string) : error :=
  Errorf (str "failed to delete knowledge nodes")
         (stillReferenced "knowledge_nodes" constraint "knowledge_edges").

(** The database without the documents of [url] and without their edges,
    nodes and chunks. *)
Definition withoutDataOf (url : gostring) (d : DB) : DB :=
  let ids := documentIdsOfURL d url in
  mkDB (filter (fun r => negb (gostring_eqb (doc_url r) url)) (tbl_documents d))
       (filter (fun c => negb (memZ (chunk_document_id c) ids)) (tbl_chunks d))
       (filter (fun n => negb (ofDocuments ids (node_document_id n))) (tbl_knowledge_nodes d))
       (filter (fun e => negb (ofDocuments ids (edge_document_id e))) (tbl_knowledge_edges d))
       (tbl_url_queue d)
       (documents_id_seq d) (chunks_id_seq d) (knowledge_nodes_id_seq d)
       (knowledge_edges_id_seq d) (url_queue_id_seq d).

(** The queue with the rows of [url] marked failed with a message. *)
Definition failedQueue (msg url : gostring) (retry : bool) (now : nat)
  (rows : list URLQueueItem) : list URLQueueItem :=
  map (fun q => if gostring_eqb (queue_url q) url then withFailure msg retry now q else q)
      rows.

(** The tables that hold what was ingested. *)
Definition ingested (d : DB)
  : list Document * list Chunk * list KnowledgeNode * list KnowledgeEdge :=
  (tbl_documents d, tbl_chunks d, tbl_knowledge_nodes d, tbl_knowledge_edges d).

(** The page of [url] can be fetched at time [t] and has text left after
    cleaning. *)
Definition fetchable (env : Env) (t : nat) (url : gostring) : bool :=
  match fetchPage env t url with
  | Done page => negb (gostring_eqb (cleanContent (last (page_bodies page) [])) [])
  | Failed _ => false
  end.

(** A row as the claim of a worker leaves it. *)
Definition asProcessing (r : URLQueueItem) : URLQueueItem :=
  mkURLQueueItem (queue_id r) (queue_url r) processing (queue_error r)
                 (queue_retry_count r) (queue_created_at r) (queue_updated_at r).

(** The queue with the row [id] replaced. *)
Definition withRow (id : Z) (change : URLQueueItem -> URLQueueItem)
  (rows : list URLQueueItem) : list URLQueueItem :=
  map (fun r => if queue_id r =? id then change r else r) rows.

(** [PRIMARY KEY (id)] of [url_queue]. *)
Definition uniqueQueueIDs (d : DB) : Prop := NoDup (map queue_id (tbl_url_queue d)).

(** A row as the worker leaves it when it is done with it: completed, or
    failed with a message and one more retry counted. *)
Definition settled (failure : option gostring) (now : nat) (r : URLQueueItem)
  : URLQueueItem :=
  match failure with
  | None => withStatus completed now r
  | Some msg => withFailure msg true now r
  end.

(** A queue that holds one URL, and a stored document that is queued. *)
Definition queuedWorld : World := after (QueueURL quietEnv exampleURL) freshWorld.
Definition storedAndQueued : World := after (QueueURL quietEnv exampleURL) afterFirst.

(** The row of the queue that an id given as a string denotes. *)
Definition queueItemOf (parseID : gostring -> option Z) (d : DB) (id : gostring)
  : option URLQueueItem :=
  match parseID id with
  | Some n => find (fun q => queue_id q =? n) (tbl_url_queue d)
  | None => None
  end.

(** A row as [ReindexURLByID] resets it. *)
Definition requeued (now : nat) (r : URLQueueItem) : URLQueueItem :=
  mkURLQueueItem (queue_id r) (queue_url r) pending None 0 (queue_created_at r) now.

(** Decimal digits read as a number; a stand-in for the database's reading
    of an integer parameter. *)
Definition digitsOnly (s : gostring) : option Z :=
  match s with
  | [] => None
  | _ =>
    fold_left (fun acc c =>
                 match acc with
                 | Some n =>
                   if (48 <=? byteval c) && (byteval c <=? 57)
                   then Some (10 * n + (byteval c - 48)) else None
                 | None => None
                 end) s (Some 0)
  end.

(** ** What ingestion writes *)

(** A row of [chunks] without its id and its embedding. *)
Definition chunkFields (c : Chunk) : Z * ChunkInfo :=
  (chunk_document_id c,
   mkChunkInfo (chunk_content c) (chunk_index c) (chunk_start_position c)
               (chunk_end_position c)).

Definition hasEmbedding (c : Chunk) : bool :=
  match chunk_embedding c with
  | Some _ => true
  | None => false
  end.

(** The node is of the document [id]. *)
Definition nodeOf (id : Z) (n : KnowledgeNode) : bool := optZ_eqb (node_document_id n) id.

(** A node with this name and type is stored. *)
Definition nodeStored (d : DB) (name type : gostring) : bool :=
  existsb (fun r => gostring_eqb (node_name r) name && gostring_eqb (node_type r) type)
          (tbl_knowledge_nodes d).

(** The tables that the extraction of entities does not write. *)
Definition notGraph (d : DB) : list Document * list Chunk * list URLQueueItem :=
  (tbl_documents d, tbl_chunks d, tbl_url_queue d).


(** ** What a computation leaves untouched *)

(** The computation leaves [proj] of the database as it is. *)
Definition kept {T A} (proj : DB -> T) (m : M A) : Prop :=
  forall w, proj (db (snd (m w))) = proj (db w).

(** The statement, when it succeeds, leaves [proj] of the database as it is. *)
Definition stmtKeeps {T R} (proj : DB -> T) (stmt : nat -> DB -> outcome (DB * R)) : Prop :=
  forall now d d' r, stmt now d = Done (d', r) -> proj d' = proj d.

(** ** Text operators of the database *)

(** The characters of a text value. *)
Definition chars (s : gostring) : list gostring := map snd (utf8.range s).

(** [text LIKE pattern]: [%] stands for any run of characters, [_] for any
    one character, and a backslash takes the next character literally. *)
Fixpoint likeMatch (pattern : list gostring) : list gostring -> bool :=
  match pattern with
  | [] => fun text => match text with [] => true | _ => false end
  | p :: rest =>
    if gostring_eqb p (str "%") then
      fix star (text : list gostring) : bool :=
        likeMatch rest text
        || match text with [] => false | _ :: text' => star text' end
    else if gostring_eqb p (str "_") then
      fun text => match text with [] => false | _ :: text' => likeMatch rest text' end
    else if gostring_eqb p (str "\") then
      match rest with
      | [] => fun _ => false
      | lit :: rest' =>
        fun text =>
          match text with
          | [] => false
          | c :: text' => gostring_eqb c lit && likeMatch rest' text'
          end
      end
    else
      fun text =>
        match text with
        | [] => false
        | c :: text' => gostring_eqb c p && likeMatch rest text'
        end
  end.

Definition LIKE (text pattern : gostring) : bool :=
  likeMatch (chars pattern) (chars text).

(** [strings.Contains]. *)
Definition Contains (s substr : gostring) : bool := 0 <=? strings.Index s substr.

(** The bytes that [LIKE] reads as more than themselves. *)
Definition isWildcard (c : ascii) : bool :=
  (byteval c =? 37) || (byteval c =? 95) || (byteval c =? 92).

Definition plainText (s : gostring) : bool := forallb (fun c => negb (isWildcard c)) s.

(** A character of a pattern that stands for itself. *)
Definition plainChar (p : gostring) : Prop :=
  p <> str "%" /\ p <> str "_" /\ p <> str "\".

Section TextSearch.

Variable caseTable : Z -> Z.

(** SQL [LOWER]. *)
Definition LOWER (s : gostring) : gostring := strings.ToLower caseTable s.

(** [text ILIKE pattern]: [LIKE] on the lower-cased text and pattern. *)
Definition ILIKE (text pattern : gostring) : bool := LIKE (LOWER text) (LOWER pattern).

(** [sub] occurs in [text] when case is ignored. *)
Definition containsFold (text sub : gostring) : bool :=
  Contains (LOWER text) (LOWER sub).

End TextSearch.

(** ** [GetKnowledgeGraph] *)

Record KnowledgeNodeResponse := mkKnowledgeNodeResponse {
  nr_ID : Z;
  nr_Name : gostring;
  nr_Type : gostring;
  nr_Properties : gostring;
  nr_DocumentID : option Z;
  nr_URL : option gostring;
  nr_Title : option gostring
}.

Record KnowledgeEdgeResponse := mkKnowledgeEdgeResponse {
  er_ID : Z;
  er_SourceID : Z;
  er_TargetID : Z;
  er_RelationshipType : gostring;
  er_Properties : gostring;
  er_DocumentID : option Z
}.

(** A node joined with its document ([LEFT JOIN documents d ON
    kn.document_id = d.id]) and scanned. *)
Definition nodeResponse (d : DB) (n : KnowledgeNode) : KnowledgeNodeResponse :=
  let doc := match node_document_id n with
             | Some id => find (fun r => doc_id r =? id) (tbl_documents d)
             | None => None
             end in
  mkKnowledgeNodeResponse (node_id n) (node_name n) (node_type n)
    (node_properties n) (node_document_id n)
    (option_map doc_url doc) (option_map doc_title doc).

Definition edgeResponse (e : KnowledgeEdge) : KnowledgeEdgeResponse :=
  mkKnowledgeEdgeResponse (edge_id e) (edge_source_id e) (edge_target_id e)
    (edge_relationship_type e) (edge_properties e) (edge_document_id e).

Definition byNodeID (a b : KnowledgeNode) : bool := node_id a <=? node_id b.
Definition byEdgeID (a b : KnowledgeEdge) : bool := edge_id a <=? edge_id b.

(** [SELECT ... FROM knowledge_nodes kn LEFT JOIN documents d ... WHERE
    <wanted> ORDER BY kn.id]. *)
Definition selectNodesWhere (wanted : KnowledgeNode -> bool) (now : nat) (d : DB)
  : outcome (DB * list KnowledgeNodeResponse) :=
  Done (d, map (nodeResponse d) (sortBy byNodeID (filter wanted (tbl_knowledge_nodes d)))).

(** [SELECT ... FROM knowledge_edges WHERE <wanted> ORDER BY id]. *)
Definition selectEdgesWhere (wanted : KnowledgeEdge -> bool) (now : nat) (d : DB)
  : outcome (DB * list KnowledgeEdgeResponse) :=
  Done (d, map edgeResponse (sortBy byEdgeID (filter wanted (tbl_knowledge_edges d)))).

Section Graph.

Variable caseTable : Z -> Z.
Variable env : Env.

Definition GetKnowledgeGraph (query : gostring)
  : M (outcome (list KnowledgeNodeResponse * list KnowledgeEdgeResponse)) :=
  let wanted := fun n =>
    if negb (gostring_eqb query []) then
      (* WHERE kn.name ILIKE $1 *)
      ILIKE caseTable (node_name n) (str "%" ++ query ++ str "%")
    else true in
  (* Get all nodes *)
  r <- exec env (selectNodesWhere wanted) ;;
  match r with
  | Failed err => ret (Failed (Errorf (str "failed to query knowledge nodes") err))
  | Done nodes =>
    let nodeIDs := map nr_ID nodes in
    (* If no nodes are found for a specific query, return empty results immediately *)
    if negb (gostring_eqb query []) && (match nodes with [] => true | _ => false end)
    then ret (Done ([], []))
    else
      (* Regardless of query, fetch all edges and filter in memory if needed. *)
      r <- exec env (selectEdgesWhere (fun _ => true)) ;;
      match r with
      | Failed err => ret (Failed (Errorf (str "failed to query all edges") err))
      | Done allEdges =>
        let finalEdges :=
          if negb (gostring_eqb query []) then
            (* Only keep edges where BOTH source and target are in our initial node list. *)
            filter (fun edge => memZ (er_SourceID edge) nodeIDs
                                && memZ (er_TargetID edge) nodeIDs) allEdges
          else
            (* No query, so we want all edges. *)
            allEdges in
        ret (Done (nodes, finalEdges))
      end
  end.

Definition GetKnowledgeGraphByDocument (documentID : Z)
  : M (outcome (list KnowledgeNodeResponse * list KnowledgeEdgeResponse)) :=
  (* Get nodes for the document *)
  r <- exec env (selectNodesWhere (fun n => optZ_eqb (node_document_id n) documentID)) ;;
  match r with
  | Failed err => ret (Failed (Errorf (str "failed to query knowledge nodes") err))
  | Done nodes =>
    (* Get edges for the document *)
    r <- exec env (selectEdgesWhere (fun e => optZ_eqb (edge_document_id e) documentID)) ;;
    match r with
    | Failed err => ret (Failed (Errorf (str "failed to query knowledge edges") err))
    | Done edges => ret (Done (nodes, edges))
    end
  end.

Definition GetDocumentKnowledgeGraph (documentID : Z)
  : M (outcome (list KnowledgeNodeResponse * list KnowledgeEdgeResponse)) :=
  r <- GetKnowledgeGraphByDocument documentID ;;
  match r with
  | Failed err =>
    ret (Failed (Errorf (str "failed to get knowledge graph for document") err))
  | Done graph => ret (Done graph)
  end.

End Graph.

(** ** [Query] *)

(** Go's [float64] and the [float8] of the database: binary64, every
    operation rounded to the nearest, ties to even. *)
Definition float64 := spec_float.
Definition f64_of_int (z : Z) : float64 := binary_normalize 53 1024 z 0 false.
Definition f64_add : float64 -> float64 -> float64 := SFadd 53 1024.
Definition f64_sub : float64 -> float64 -> float64 := SFsub 53 1024.
Definition f64_mul : float64 -> float64 -> float64 := SFmul 53 1024.
Definition f64_div : float64 -> float64 -> float64 := SFdiv 53 1024.

(** The constants [1.0], [0.3], [0.7] and [0.5]: the nearest [float64]. *)
Definition f64_one : float64 := f64_of_int 1.
Definition f64_0_3 : float64 := f64_div (f64_of_int 3) (f64_of_int 10).
Definition f64_0_7 : float64 := f64_div (f64_of_int 7) (f64_of_int 10).
Definition f64_half : float64 := f64_div (f64_of_int 1) (f64_of_int 2).

(** [count::float / n]: the [float8] nearest to a ratio of two integers. *)
Definition f64_of_ratio (q : Q) : float64 :=
  f64_div (f64_of_int (Qnum q)) (f64_of_int (Zpos (Qden q))).

Record SearchResult := mkSearchResult {
  sr_Content : gostring;
  sr_Score : float64;
  sr_DocumentID : Z;
  sr_URL : gostring;
  sr_Title : gostring
}.

(** A row of the search statement. *)
Record QueryRow := mkQueryRow {
  row_content : gostring;
  row_similarity : float64;
  row_document_id : Z;
  row_url : gostring;
  row_title : gostring;
  row_keyword_score : float64
}.

(** The cutset of [extractKeywords] and [extractMainConcept]:
    [.,!?;:()[]{}'] and the double quote. *)
Definition punctuation : gostring := str ".,!?;:()[]{}'" ++ [ascii_of_nat 34].

(** [LIMIT 5]. *)
Definition resultLimit : nat := 5.

(** The threshold of the search, [0.5]. *)
Definition threshold : float64 := f64_half.

Section Search.

Variable caseTable : Z -> Z.
(** [config.IsStopWord]. *)
Variable IsStopWord : gostring -> bool.
(** The cosine distance [<=>] of the database, a [float8]. *)
Variable cosineDistance : Vector -> Vector -> float64.
Variable env : Env.

Definition extractKeywords (query : gostring) : list gostring :=
  (* Convert to lowercase and split into words *)
  let words := strings.Fields (strings.ToLower caseTable query) in
  flat_map (fun word =>
    (* Remove punctuation and check if it's not a stop word *)
    let word := strings.Trim word punctuation in
    if (2 <? len word) && negb (IsStopWord word) then [word] else []) words.

(** The [keyword_score] column: [CASE WHEN $2 = '' THEN 0 ELSE (SELECT
    COUNT( * ) FROM unnest(string_to_array($2, ' ')) AS keyword WHERE
    LOWER(c.content) LIKE '%' || LOWER(keyword) || '%')::float /
    array_length(string_to_array($2, ' '), 1) END].  [keywordScore] is the
    ratio, [keywordScoreColumn] the [float8] of the column. *)
Definition keywordFound (content keyword : gostring) : bool :=
  LIKE (LOWER caseTable content) (str "%" ++ LOWER caseTable keyword ++ str "%").

Definition keywordScore (keywords content : gostring) : Q :=
  if gostring_eqb keywords [] then 0%Q
  else
    let keywordArray := strings.Split keywords (str " ") in
    Qmake (Z.of_nat (length (filter (keywordFound content) keywordArray)))
          (Pos.of_nat (length keywordArray)).

Definition keywordScoreColumn (keywords content : gostring) : float64 :=
  f64_of_ratio (keywordScore keywords content).

(** [ORDER BY keyword_score DESC, c.embedding <=> $1 ASC]. *)
Definition ranksBefore (a b : QueryRow) : bool :=
  SFltb (row_keyword_score b) (row_keyword_score a)
  || (SFeqb (row_keyword_score a) (row_keyword_score b)
      && SFleb (row_similarity a) (row_similarity b)).

(** The rows of [chunks c JOIN documents d ON c.document_id = d.id WHERE
    c.embedding <=> $1 < 0.5].  A chunk without embedding has no distance
    and is not selected. *)
Definition candidateRows (queryEmbedding : Vector) (keywords : gostring) (d : DB)
  : list QueryRow :=
  flat_map (fun c =>
    match chunk_embedding c with
    | None => []
    | Some e =>
      let distance := cosineDistance e queryEmbedding in
      flat_map (fun doc =>
        if (doc_id doc =? chunk_document_id c) && SFltb distance threshold then
          [mkQueryRow (chunk_content c) distance (doc_id doc) (doc_url doc)
                      (doc_title doc) (keywordScoreColumn keywords (chunk_content c))]
        else []) (tbl_documents d)
    end) (tbl_chunks d).

(** The search statement of [Query], with its [ORDER BY] and [LIMIT 5]. *)
Definition selectRanked (queryEmbedding : Vector) (keywords : gostring)
  (now : nat) (d : DB) : outcome (DB * list QueryRow) :=
  Done (d, firstn resultLimit
             (sortBy ranksBefore (candidateRows queryEmbedding keywords d))).

(** The result made of a row.  Each operation is rounded on its own, as
    the compiler has it where it does not fuse a product and a sum. *)
Definition searchResult (row : QueryRow) : SearchResult :=
  (* Combine vector similarity and keyword matching for final score *)
  let vectorScore := f64_sub f64_one (row_similarity row) in
  let finalScore := f64_add (f64_mul vectorScore f64_0_3)
                            (f64_mul (row_keyword_score row) f64_0_7) in
  mkSearchResult (row_content row) finalScore (row_document_id row)
                 (row_url row) (row_title row).

Definition Query (query : gostring) : M (outcome (list SearchResult)) :=
  (* Generate embedding for the query *)
  r <- generateEmbeddingM caseTable env query ;;
  match r with
  | Failed err => ret (Failed (Errorf (str "failed to generate query embedding") err))
  | Done queryEmbedding =>
    (* Extract keywords from query for text matching *)
    let queryKeywords := extractKeywords query in
    (* Search for relevant chunks with hybrid approach *)
    r <- exec env (selectRanked queryEmbedding (strings.Join queryKeywords (str " "))) ;;
    match r with
    | Failed err => ret (Failed (Errorf (str "failed to query chunks") err))
    | Done rows => ret (Done (map searchResult rows))
    end
  end.

(** [extractMainConcept]: the first word of the description, punctuation
    trimmed, that is longer than three bytes, is no stop word
    ([isCommonWord]) and begins with a capital letter. *)
Definition beginsWithCapital (word : gostring) : bool :=
  match word with
  | c :: _ => (65 <=? byteval c) && (byteval c <=? 90)
  | [] => false
  end.

Definition extractMainConcept (description : gostring) : gostring :=
  let candidates :=
    flat_map (fun word =>
      let word := strings.Trim word punctuation in
      if (3 <? len word) && negb (IsStopWord word) && beginsWithCapital word
      then [word] else []) (strings.Fields description) in
  hd [] candidates.

(** The share of the keywords that occur in the content when case is
    ignored. *)
Definition substringScore (keywords : list gostring) (content : gostring) : Q :=
  match keywords with
  | [] => 0%Q
  | _ => Qmake (Z.of_nat (length (filter (containsFold caseTable content) keywords)))
               (Pos.of_nat (length keywords))
  end.

End Search.

(** ** Notions used to state what the search finds *)

(** The result is made of a chunk that has an embedding at a distance
    below the threshold from the embedding of the query, and of the
    document of the chunk; its score is [0.3] times what the distance
    leaves of 1, plus [0.7] times the keyword score of the chunk, each
    operation rounded. *)
Definition closeChunk (caseTable : Z -> Z) (cosineDistance : Vector -> Vector -> float64)
  (queryEmbedding : Vector) (keywords : gostring) (d : DB) (r : SearchResult) : Prop :=
  exists c doc e,
    In c (tbl_chunks d) /\ In doc (tbl_documents d)
    /\ chunk_document_id c = doc_id doc
    /\ chunk_embedding c = Some e
    /\ SFltb (cosineDistance e queryEmbedding) threshold = true
    /\ sr_Content r = chunk_content c
    /\ sr_DocumentID r = doc_id doc
    /\ sr_URL r = doc_url doc
    /\ sr_Title r = doc_title doc
    /\ sr_Score r
       = f64_add (f64_mul (f64_sub f64_one (cosineDistance e queryEmbedding)) f64_0_3)
                 (f64_mul (keywordScoreColumn caseTable keywords (chunk_content c))
                          f64_0_7).

Definition isASCII (s : gostring) : bool := forallb (fun c => byteval c <? utf8.RuneSelf) s.

(** The rune that [EncodeRune] writes for a rune that is not negative. *)
Definition writtenRune (r : Z) : Z := if utf8.ValidRune r then r else utf8.RuneError.

(** The nodes whose name holds the query, case ignored, as
    [GetKnowledgeGraph] lists nodes. *)
Definition nodesHolding (caseTable : Z -> Z) (query : gostring) (d : DB)
  : list KnowledgeNodeResponse :=
  map (nodeResponse d)
      (sortBy byNodeID
         (filter (fun n => containsFold caseTable (node_name n) query)
                 (tbl_knowledge_nodes d))).

(** The edges between the nodes listed. *)
Definition edgesAmong (nodes : list KnowledgeNodeResponse) (d : DB)
  : list KnowledgeEdgeResponse :=
  filter (fun edge => memZ (er_SourceID edge) (map nr_ID nodes)
                      && memZ (er_TargetID edge) (map nr_ID nodes))
         (map edgeResponse (sortBy byEdgeID (tbl_knowledge_edges d))).

(** All nodes and all edges, as [GetKnowledgeGraph] lists them. *)
Definition allNodes (d : DB) : list KnowledgeNodeResponse :=
  map (nodeResponse d) (sortBy byNodeID (tbl_knowledge_nodes d)).

Definition allEdges (d : DB) : list KnowledgeEdgeResponse :=
  map edgeResponse (sortBy byEdgeID (tbl_knowledge_edges d)).

(** Both ends of the edge are among the nodes. *)
Definition joinsListed (nodes : list KnowledgeNodeResponse) (e : KnowledgeEdgeResponse)
  : Prop :=
  In (er_SourceID e) (map nr_ID nodes) /\ In (er_TargetID e) (map nr_ID nodes).

(** The graph of [TestRAGService_GetKnowledgeGraph]: two nodes and an edge
    between them. *)
Definition testGraph : World :=
  mkWorld
    (mkDB [] []
       [mkKnowledgeNode 1 (str "Test Node 1") (str "concept") (str "{}")
                        (Some (repeat (S754_zero false) dimensions)) None;
        mkKnowledgeNode 2 (str "Test Node 2") (str "concept") (str "{}")
                        (Some (repeat (S754_zero false) dimensions)) None]
       [mkKnowledgeEdge 1 1 2 (str "related_to") (str "{}") None]
       [] 0 0 2 1 0)
    0 [].

(** ** What a keyword looks like *)

(** No byte of the word is a space. *)
Definition noSpace (w : gostring) : bool := forallb (fun b => negb (byteval b =? 32)) w.

Definition inCutset (cutset : gostring) (c : ascii) : bool :=
  if in_dec ascii_dec c cutset then true else false.

(** The word neither begins nor ends with a byte of the cutset. *)
Definition trimmed (cutset : gostring) (w : gostring) : bool :=
  match w with [] => true | c :: _ => negb (inCutset cutset c) end
  && match rev w with [] => true | c :: _ => negb (inCutset cutset c) end.

(** A query and a stop-word list to try the search on. *)
Definition noStopWords (word : gostring) : bool := false.

(** ** Notions used to state what is listed after a change *)

(** No chunk is of the document [id]. *)
Definition noChunksOf (d : DB) (id : Z) : bool :=
  forallb (fun c => negb (chunk_document_id c =? id)) (tbl_chunks d).

(** A listed chunk without its id. *)
Definition entryFields (e : ChunkEntry) : ChunkInfo :=
  mkChunkInfo (ce_Content e) (ce_ChunkIndex e) (ce_StartPosition e) (ce_EndPosition e).

(** The entries of a listing of the queue that hold [url]. *)
Definition listedWithURL (url : gostring) (entries : list QueueEntry) : list QueueEntry :=
  filter (fun e => gostring_eqb (qe_URL e) url) entries.

Definition againRequest : ProcessDocumentRequest :=
  mkProcessDocumentRequest exampleURL (str "Again") (str "Gamma. Delta.").

(** The entries a row of the queue gives in a listing: one for each
    document of its URL, one without document when there is none. *)
Definition entriesOf (d : DB) (q : URLQueueItem) : list QueueEntry :=
  let entry := mkQueueEntry (queue_id q) (queue_url q) (queue_status q)
                            (queue_created_at q) (queue_updated_at q)
                            (queue_retry_count q) in
  match documentIdsOfURL d (queue_url q) with
  | [] => [entry 0]
  | ids => map entry ids
  end.

Definition isListed (q : URLQueueItem) : bool :=
  negb (Status_eqb (queue_status q) deleted).

(** The queue after a worker has processed the URL queued in it. *)
Definition processedWorld : World := after (pollQueue asciiOnly quietEnv) queuedWorld.

(** ** Package [regexp], for the patterns of [extractEntities] *)

Module regexp.

(** A pattern: a rune of a class, the word boundary [\b], a sequence, an
    alternative, a greedy repetition [{min,max}] (without [max] for [+] and
    [{min,}]), and a capturing group with its number. *)
Inductive Regexp : Type :=
| Class (member : Z -> bool)
| WordBoundary
| Concat (a b : Regexp)
| Alternate (a b : Regexp)
| Repeat (a : Regexp) (min : nat) (max : option nat)
| Capture (index : nat) (a : Regexp).

(** A position in the text: the rune before it, its byte offset, the runes
    that follow, and what the groups have captured on the way, the latest
    first. *)
Record position := mkPosition {
  before : option Z;
  offset : Z;
  rest : list (Z * gostring);
  captured : list (nat * (Z * Z))
}.

Definition IsWordChar (r : option Z) : bool :=
  match r with
  | None => false
  | Some r =>
    ((65 <=? r) && (r <=? 90)) || ((97 <=? r) && (r <=? 122))
    || ((48 <=? r) && (r <=? 57)) || (r =? 95)
  end.

Definition next (p : position) : option Z :=
  match rest p with
  | [] => None
  | (r, _) :: _ => Some r
  end.

Definition atWordBoundary (p : position) : bool :=
  negb (Bool.eqb (IsWordChar (before p)) (IsWordChar (next p))).

Definition step (p : position) : option (Z * position) :=
  match rest p with
  | [] => None
  | (r, bytes) :: rest' =>
    Some (r, mkPosition (Some r) (offset p + len bytes) rest' (captured p))
  end.

(** Greedy repetition of [one]: another round is tried before the rest of
    the pattern is; a round that consumes nothing ends the repetition. *)
Fixpoint repeatGreedy {R} (one : position -> (position -> option R) -> option R)
  (fuel : nat) (min : nat) (max : option nat)
  (p : position) (k : position -> option R) : option R :=
  let stop := match min with O => k p | S _ => None end in
  match fuel with
  | O => stop
  | S fuel' =>
    match max with
    | Some O => stop
    | _ =>
      match one p (fun p' =>
                     if offset p' =? offset p then None
                     else repeatGreedy one fuel' (Nat.pred min) (option_map Nat.pred max)
                                       p' k) with
      | Some r => Some r
      | None => stop
      end
    end
  end.

(** The match of a pattern at a position, the way a backtracking matcher
    finds it: of the ways to match, the first in the order of the pattern
    (the left alternative before the right one, one more round before
    none) for which the rest of the pattern, [k], matches too. *)
Fixpoint matchAt {R} (re : Regexp) (p : position) (k : position -> option R)
  : option R :=
  match re with
  | Class member =>
    match step p with
    | Some (r, p') => if member r then k p' else None
    | None => None
    end
  | WordBoundary => if atWordBoundary p then k p else None
  | Concat a b => matchAt a p (fun p' => matchAt b p' k)
  | Alternate a b =>
    match matchAt a p k with
    | Some r => Some r
    | None => matchAt b p k
    end
  | Repeat a min max =>
    repeatGreedy (fun q k' => matchAt a q k') (S (length (rest p))) min max p k
  | Capture index a =>
    matchAt a p (fun p' =>
      k (mkPosition (before p') (offset p') (rest p')
                    ((index, (offset p, offset p')) :: captured p')))
  end.

(** A match: where it starts, and the position at its end. *)
Definition Match := (Z * position)%type.

(** The leftmost match that starts at [p] or later. *)
Fixpoint search (fuel : nat) (re : Regexp) (p : position) : option Match :=
  match matchAt re p (fun p' => Some (offset p, p')) with
  | Some m => Some m
  | None =>
    match fuel, step p with
    | S fuel', Some (_, p') => search fuel' re p'
    | _, _ => None
    end
  end.

(** The loop of [allMatches]: the matches one after the other, none
    overlapping; after an empty match the search moves on by a rune, and an
    empty match right after a match is left out. *)
Fixpoint allMatchesFrom (fuel : nat) (re : Regexp) (p : position) (prevMatchEnd : Z)
  : list Match :=
  match fuel with
  | O => []
  | S fuel' =>
    match search (length (rest p)) re (mkPosition (before p) (offset p) (rest p) []) with
    | None => []
    | Some (start, q) =>
      if offset q =? offset p then
        let more :=
          match step p with
          | Some (_, p') => allMatchesFrom fuel' re p' (offset q)
          | None => []
          end in
        if start =? prevMatchEnd then more else (start, q) :: more
      else (start, q) :: allMatchesFrom fuel' re q (offset q)
    end
  end.

Definition allMatches (re : Regexp) (s : gostring) : list Match :=
  allMatchesFrom (S (S (length s))) re (mkPosition None 0 (utf8.range s) []) (-1).

(** [s[i:j]]. *)
Definition substring (s : gostring) (i j : Z) : gostring :=
  strings.sliceFrom (strings.sliceTo s j) i.

(** [re.FindAllString(s, -1)]. *)
Definition FindAllString (re : Regexp) (s : gostring) : list gostring :=
  map (fun m : Match => substring s (fst m) (offset (snd m))) (allMatches re s).

(** The number of groups of a pattern. *)
Fixpoint NumSubexp (re : Regexp) : nat :=
  match re with
  | Class _ | WordBoundary => 0
  | Concat a b | Alternate a b => Nat.max (NumSubexp a) (NumSubexp b)
  | Repeat a _ _ => NumSubexp a
  | Capture index a => Nat.max index (NumSubexp a)
  end.

(** [re.FindAllStringSubmatch(s, -1)]: of each match, the match and what
    each group captured, the empty string for a group that took no part. *)
Definition FindAllStringSubmatch (re : Regexp) (s : gostring) : list (list gostring) :=
  map (fun m : Match =>
         substring s (fst m) (offset (snd m))
         :: map (fun index =>
                   match find (fun c => Nat.eqb (fst c) index) (captured (snd m)) with
                   | Some (_, (i, j)) => substring s i j
                   | None => []
                   end)
                (seq 1 (NumSubexp re)))
      (allMatches re s).

(** Ways to write patterns. *)
Definition inRange (lo hi : ascii) : Z -> bool :=
  fun r => (byteval lo <=? r) && (r <=? byteval hi).

Definition oneOf (set : gostring) : Z -> bool :=
  fun r => existsb (fun c => byteval c =? r) set.

(** [\s] is [[\t\n\f\r ]]. *)
Definition perlSpace (r : Z) : bool :=
  (r =? 9) || (r =? 10) || (r =? 12) || (r =? 13) || (r =? 32).

Definition union (a b : Z -> bool) : Z -> bool := fun r => a r || b r.

Definition plus (a : Regexp) : Regexp := Repeat a 1 None.

Fixpoint literal (s : gostring) : Regexp :=
  match s with
  | [] => Repeat WordBoundary 0 (Some 0%nat)
  | [c] => Class (fun r => r =? byteval c)
  | c :: s' => Concat (Class (fun r => r =? byteval c)) (literal s')
  end.

Fixpoint anyOf (alternatives : list Regexp) : Regexp :=
  match alternatives with
  | [] => Class (fun _ => false)
  | [a] => a
  | a :: rest => Alternate a (anyOf rest)
  end.

Fixpoint sequence (parts : list Regexp) : Regexp :=
  match parts with
  | [] => Repeat WordBoundary 0 (Some 0%nat)
  | [a] => a
  | a :: rest => Concat a (sequence rest)
  end.

End regexp.

(** ** [extractEntities] *)

Section Scan.

Import regexp.

Variable caseTable : Z -> Z.
(** [config.IsStopWord], [config.IsGenericTerm], [config.IsSignificantWord]. *)
Variable IsStopWord : gostring -> bool.
Variable IsGenericTerm : gostring -> bool.
Variable IsSignificantWord : gostring -> bool.

Definition isCommonWord (word : gostring) : bool := IsStopWord word.
Definition isCommonName (word : gostring) : bool := IsGenericTerm word.
Definition isCommonPlace (word : gostring) : bool := IsGenericTerm word.

Definition upper : Regexp := Class (inRange "A" "Z").
Definition lower : Regexp := Class (inRange "a" "z").
(** [[A-Z][a-z]+]. *)
Definition capitalized : Regexp := Concat upper (plus lower).

(** [\b[A-Z][a-z]+ [A-Z][a-z]+\b]. *)
Definition personPattern : Regexp :=
  sequence [WordBoundary; capitalized; literal (str " "); capitalized; WordBoundary].

(** [\b[A-Z][a-zA-Z\s&]+(?:Inc|Corp|Company|University|Institute|
    Foundation|Organization|School|College|Hospital|Museum|Gallery|
    Library)\b]. *)
Definition orgPattern : Regexp :=
  sequence
    [WordBoundary; upper;
     plus (Class (union (inRange "a" "z")
                        (union (inRange "A" "Z") (union perlSpace (oneOf (str "&"))))));
     anyOf (map (fun s => literal (str s))
                ["Inc"; "Corp"; "Company"; "University"; "Institute"; "Foundation";
                 "Organization"; "School"; "College"; "Hospital"; "Museum"; "Gallery";
                 "Library"]%string);
     WordBoundary].

(** [\b[A-Z][a-z]+(?: City| State| Country| University| Museum| Gallery|
    Park| Street| Avenue| Road| Airport| Station)\b]. *)
Definition locationPattern : Regexp :=
  sequence
    [WordBoundary; capitalized;
     anyOf (map (fun s => literal (str s))
                [" City"; " State"; " Country"; " University"; " Museum"; " Gallery";
                 " Park"; " Street"; " Avenue"; " Road"; " Airport"; " Station"]%string);
     WordBoundary].

Definition quote : ascii := ascii_of_nat 34.

(** The pattern of a quoted phrase: a double quote, a group of three to
    fifty runes none of which is a double quote, a double quote. *)
Definition quotedPattern : Regexp :=
  sequence
    [literal [quote];
     Capture 1 (Repeat (Class (fun r => negb (r =? byteval quote))) 3 (Some 50%nat));
     literal [quote]].

(** [\b[A-Z][a-z]+(?: [A-Z][a-z]+){1,3}\b]. *)
Definition conceptPattern : Regexp :=
  sequence
    [WordBoundary; capitalized;
     Repeat (Concat (literal (str " ")) capitalized) 1 (Some 3%nat);
     WordBoundary].

(** [\b[A-Z][a-z]{3,}\b]. *)
Definition singleWordPattern : Regexp :=
  sequence [WordBoundary; upper; Repeat lower 3 None; WordBoundary].

(** [json.Marshal] of the properties, a map with the one key [source]. *)
Definition sourceProperties (source : string) : gostring :=
  str "{" ++ [quote] ++ str "source" ++ [quote] ++ str ":"
  ++ [quote] ++ str source ++ [quote] ++ str "}".

(** [strings.ContainsAny]. *)
Definition ContainsAny (s chars : gostring) : bool :=
  existsb (fun rw => existsb (fun cw => fst rw =? fst cw) (utf8.range chars))
          (utf8.range s).

(** The entities found so far and [seenEntities]. *)
Record scanned := mkScanned {
  entities : list Entity;
  seenEntities : list gostring
}.

Definition seen (s : scanned) (name : gostring) : bool :=
  existsb (gostring_eqb name) (seenEntities s).

Definition addEntity (s : scanned) (name : gostring) (type source : string) : scanned :=
  mkScanned (entities s ++ [mkEntity name (str type) (sourceProperties source)])
            (seenEntities s ++ [name]).

Definition sentenceStarters : list gostring :=
  map str ["i "; "we "; "you "; "he "; "she "; "they "; "it "; "this "; "that ";
           "there "; "here "]%string.

Definition commonPhrases : list gostring :=
  map str ["better you than me"; "i have to be really careful"; "whenever i'd noticed";
           "i think"; "i believe"; "i know"; "i feel"; "i want"; "i need";
           "we should"; "we can"; "we will"; "we have"; "we are";
           "you can"; "you should"; "you will"; "you have"; "you are";
           "it is"; "it was"; "it will"; "it can"; "it should";
           "this is"; "this was"; "this will"; "this can";
           "that is"; "that was"; "that will"; "that can"]%string.

Definition extractEntities (content : gostring) : list Entity :=
  let s := mkScanned [] [] in
  (* Extract person names (capitalized words that might be names) *)
  let persons := FindAllString personPattern content in
  let s := fold_left (fun s person =>
    if negb (isCommonName person) && negb (seen s person) && (3 <? len person) then
      addEntity s person "person" "pattern_matching"
    else s) persons s in
  (* Extract organizations (words ending with common org suffixes) *)
  let organizations := FindAllString orgPattern content in
  let s := fold_left (fun s org =>
    let org := strings.TrimSpace org in
    if negb (seen s org) && (5 <? len org) then
      addEntity s org "organization" "pattern_matching"
    else s) organizations s in
  (* Extract locations (words that might be places) *)
  let locations := FindAllString locationPattern content in
  let s := fold_left (fun s location =>
    let location := strings.TrimSpace location in
    if negb (seen s location) && (4 <? len location) then
      addEntity s location "location" "pattern_matching"
    else s) locations s in
  (* Look for quoted text first *)
  let quotedMatches := FindAllStringSubmatch quotedPattern content in
  let s := fold_left (fun s (match_ : list gostring) =>
    let concept := strings.TrimSpace (nth 1 match_ []) in
    (* Skip if it's too long (likely a full sentence) *)
    if 30 <? len concept then s
    (* Skip if it contains sentence-ending punctuation *)
    else if ContainsAny concept (str ".!?") then s
    else
      let lowerConcept := strings.ToLower caseTable concept in
      (* Skip if it starts with common sentence starters *)
      if existsb (strings.HasPrefix lowerConcept) sentenceStarters then s
      (* Skip if it's just a common phrase or generic statement *)
      else if existsb (Contains lowerConcept) commonPhrases then s
      (* Apply standard filtering *)
      else if negb (isCommonWord concept) && negb (seen s concept) && (2 <? len concept)
              && negb (IsStopWord concept) && negb (IsGenericTerm concept) then
        addEntity s concept "concept" "quoted_text"
      else s) quotedMatches s in
  (* Extract capitalized multi-word concepts (but be more selective) *)
  let concepts := FindAllString conceptPattern content in
  let s := fold_left (fun s concept =>
    let concept := strings.TrimSpace concept in
    if negb (isCommonWord concept) && negb (isCommonName concept)
       && negb (isCommonPlace concept) && negb (seen s concept) && (4 <? len concept)
       && negb (IsStopWord concept) && negb (IsGenericTerm concept) then
      addEntity s concept "concept" "pattern_matching"
    else s) concepts s in
  (* Extract important single words (only if they're significant) *)
  let singleWords := FindAllString singleWordPattern content in
  let s := fold_left (fun s word =>
    if negb (isCommonWord word) && negb (isCommonName word) && negb (isCommonPlace word)
       && negb (seen s word) && negb (IsStopWord word) && negb (IsGenericTerm word)
       && IsSignificantWord word then
      addEntity s word "concept" "significant_word"
    else s) singleWords s in
  entities s.

(** ** [extractRelationships] *)

(** [json.Marshal] of a string, a function of [encoding/json]. *)
Variable marshalString : gostring -> gostring.

(** [json.Marshal] of the properties of an [is_a] relationship: the keys
    in their order, [description] before [source]. *)
Definition describedProperties (description : gostring) : gostring :=
  str "{" ++ [quote] ++ str "description" ++ [quote] ++ str ":" ++ marshalString description
  ++ str "," ++ [quote] ++ str "source" ++ [quote] ++ str ":"
  ++ [quote] ++ str "pattern_matching" ++ [quote] ++ str "}".

(** [(\b[A-Z][a-z]+ [A-Z][a-z]+\b)\s+(?:<verbs>)\s+([^.!?]+)]. *)
Definition relationPattern (verbs : list string) : Regexp :=
  sequence
    [Capture 1 (sequence [WordBoundary; capitalized; literal (str " "); capitalized;
                          WordBoundary]);
     plus (Class perlSpace);
     anyOf (map (fun s => literal (str s)) verbs);
     plus (Class perlSpace);
     Capture 2 (plus (Class (fun r => negb (oneOf (str ".!?") r))))].

(** [(?:is|was|are|were)]. *)
Definition isPattern : Regexp := relationPattern ["is"; "was"; "are"; "were"]%string.
(** [(?:works at|worked at|studied at|attended)]. *)
Definition worksAtPattern : Regexp :=
  relationPattern ["works at"; "worked at"; "studied at"; "attended"]%string.
(** [in]. *)
Definition inPattern : Regexp := relationPattern ["in"]%string.

Definition extractRelationships (content : gostring) (entityMap : gomap)
  : list Relationship :=
  (* Extract "X is Y" relationships *)
  let matches := FindAllStringSubmatch isPattern content in
  let relationships := fold_left (fun relationships (match_ : list gostring) =>
    let entity1 := nth 1 match_ [] in
    let description := strings.TrimSpace (nth 2 match_ []) in
    match mapGet entityMap entity1 with
    | Some id1 =>
      (* Create a concept entity for the description *)
      let conceptName := extractMainConcept IsStopWord description in
      if negb (gostring_eqb conceptName []) then
        match mapGet entityMap conceptName with
        | Some id2 =>
          relationships ++ [mkRelationship id1 id2 (str "is_a")
                                           (describedProperties description)]
        | None => relationships
        end
      else relationships
    | None => relationships
    end) matches [] in
  (* Extract "X works at Y" relationships *)
  let matches := FindAllStringSubmatch worksAtPattern content in
  let relationships := fold_left (fun relationships (match_ : list gostring) =>
    let person := nth 1 match_ [] in
    let organization := strings.TrimSpace (nth 2 match_ []) in
    match mapGet entityMap person, mapGet entityMap organization with
    | Some id1, Some id2 =>
      relationships ++ [mkRelationship id1 id2 (str "works_at")
                                       (sourceProperties "pattern_matching")]
    | _, _ => relationships
    end) matches relationships in
  (* Extract "X in Y" location relationships *)
  let matches := FindAllStringSubmatch inPattern content in
  let relationships := fold_left (fun relationships (match_ : list gostring) =>
    let entity := nth 1 match_ [] in
    let location := strings.TrimSpace (nth 2 match_ []) in
    match mapGet entityMap entity, mapGet entityMap location with
    | Some id1, Some id2 =>
      relationships ++ [mkRelationship id1 id2 (str "located_in")
                                       (sourceProperties "pattern_matching")]
    | _, _ => relationships
    end) matches relationships in
  relationships.

End Scan.

(** Lists and an encoder to try the scans with: no word is generic, none
    significant; the encoder covers the strings that need no escape. *)
Definition noGenericTerms (term : gostring) : bool := false.
Definition noSignificantWords (word : gostring) : bool := false.
Definition quotedString (s : gostring) : gostring :=
  [ascii_of_nat 34] ++ s ++ [ascii_of_nat 34].

(** The scans with these. *)
Definition scanEntities : gostring -> list Entity :=
  extractEntities asciiOnly noStopWords noGenericTerms noSignificantWords.

Definition scanRelationships : gostring -> gomap -> list Relationship :=
  extractRelationships noStopWords quotedString.

(** What the scan finds in [Acme Corp.]: the pattern of the persons
    matches first, so that the organization is taken for a person. *)
Definition acmeCorp : Entity :=
  mkEntity (str "Acme Corp") (str "person") (sourceProperties "pattern_matching").

(** Two documents, the second of which names a person of the first: the
    node of the person is found by its name and used as it is, and the
    second document's edge has it as its target. *)
Definition otherURL : gostring := str "https://x/b".

Definition firstDocument : ProcessDocumentRequest :=
  mkProcessDocumentRequest exampleURL (str "A") (str "Ada Lovelace wrote notes.").

Definition secondDocument : ProcessDocumentRequest :=
  mkProcessDocumentRequest otherURL (str "B") (str "Alan Turing in Ada Lovelace.").

Definition heldWorld : World :=
  after (QueueURL quietEnv exampleURL)
    (after (ProcessDocument asciiOnly scanEntities scanRelationships quietEnv secondDocument)
       (after (ProcessDocument asciiOnly scanEntities scanRelationships quietEnv
                               firstDocument)
              freshWorld)).

(** ** Notions used to state what the graph query and the search return *)

(** The nodes whose name matches the pattern that [GetKnowledgeGraph]
    makes of the query, as it lists nodes. *)
Definition nodesMatching (caseTable : Z -> Z) (query : gostring) (d : DB)
  : list KnowledgeNodeResponse :=
  map (nodeResponse d)
      (sortBy byNodeID
         (filter (fun n => ILIKE caseTable (node_name n) (str "%" ++ query ++ str "%"))
                 (tbl_knowledge_nodes d))).

(** [b] may stand after [a] in the order [before]: [a] may stand before
    [b], or at least [b] may not stand before [a]. *)
Definition inOrder {A} (before : A -> A -> bool) (a b : A) : Prop :=
  before a b = true \/ before b a = false.

(** Each row of the list may stand before the next one. *)
Fixpoint ordered {A} (before : A -> A -> bool) (l : list A) : Prop :=
  match l with
  | [] => True
  | a :: rest =>
    match rest with
    | [] => True
    | b :: _ => inOrder before a b
    end /\ ordered before rest
  end.



(** ** The workers of [StartBackgroundWorkers], side by side *)

(** [StartBackgroundWorkers] starts [numWorkers] goroutines that run
    [processURLQueue] on the same database, and [ProcessURL] starts one
    more for every document it stores.  To let them take turns, the code of
    a goroutine is written once more as the effects it has one after the
    other; what lies between two effects is computed at once.  The service
    opens no transaction: every statement is committed on its own, and it is
    taken to have its effect at one moment. *)
Module steps.

Inductive Prog (A : Type) : Type :=
| Return (a : A)
| Tick (k : nat -> Prog A)
| Exec {R : Type} (stmt : nat -> DB -> outcome (DB * R)) (k : outcome R -> Prog A)
| Spawn (documentID : Z) (content : gostring) (k : Prog A).

Arguments Return {A} a.
Arguments Tick {A} k.
Arguments Exec {A R} stmt k.
Arguments Spawn {A} documentID content k.

Fixpoint andThen {A B} (p : Prog A) (k : A -> Prog B) : Prog B :=
  match p with
  | Return a => k a
  | Tick f => Tick (fun t => andThen (f t) k)
  | Exec stmt f => Exec stmt (fun r => andThen (f r) k)
  | Spawn documentID content f => Spawn documentID content (andThen f k)
  end.

Notation "x <~ p ;; k" := (andThen p (fun x => k))
  (at level 61, p at next level, right associativity).
Notation "p ;;~ k" := (andThen p (fun _ => k))
  (at level 61, right associativity).

Fixpoint fold {A S} (f : S -> A -> Prog S) (l : list A) (s : S) : Prog S :=
  match l with
  | [] => Return s
  | x :: rest => s' <~ f s x ;; fold f rest s'
  end.

Definition forEach {A} (f : A -> Prog unit) (l : list A) : Prog unit :=
  fold (fun _ x => f x) l tt.

Section Code.

Variable caseTable : Z -> Z.
Variable extractEntities : gostring -> list Entity.
Variable extractRelationships : gostring -> gomap -> list Relationship.
Variable env : Env.

(** A goroutine that runs alone, from its first effect to its last. *)
Fixpoint run {A} (p : Prog A) : M A :=
  match p with
  | Return a => ret a
  | Tick k => bind tick (fun t => run (k t))
  | Exec stmt k => bind (exec env stmt) (fun r => run (k r))
  | Spawn documentID content k => bind (spawn documentID content) (fun _ => run k)
  end.

(** Its next effect, and what is left to do. *)
Definition step {A} (p : Prog A) : M (Prog A) :=
  match p with
  | Return a => ret (Return a)
  | Tick k => bind tick (fun t => ret (k t))
  | Exec stmt k => bind (exec env stmt) (fun r => ret (k r))
  | Spawn documentID content k => bind (spawn documentID content) (fun _ => ret k)
  end.

Definition now : Prog nat := Tick (fun t => Return t).

Definition send {R} (stmt : nat -> DB -> outcome (DB * R)) : Prog (outcome R) :=
  Exec stmt (fun r => Return r).

(** [go func() { ... }()]. *)
Definition go (documentID : Z) (content : gostring) : Prog unit :=
  Spawn documentID content (Return tt).

Definition generateEmbedding (text : gostring) : Prog (outcome Vector) :=
  t <~ now ;; Return (generateEmbedding caseTable (mapOrder env t) text).

Definition fetch (url : gostring) : Prog (outcome Page) :=
  t <~ now ;; Return (fetchPage env t url).

(** *** [chunkDocument] *)

Definition storeChunk (documentID : Z) (chunk : ChunkInfo) : Prog unit :=
  (* Generate embedding for the chunk *)
  e <~ generateEmbedding (Content chunk) ;;
  match e with
  | Failed _ =>
    (* Continue without embedding *)
    send (insertChunk documentID (Content chunk) None (ChunkIndex chunk)
                      (StartPosition chunk) (EndPosition chunk)) ;;~ Return tt
  | Done embedding =>
    (* Store chunk with embedding *)
    send (insertChunk documentID (Content chunk) (Some embedding) (ChunkIndex chunk)
                      (StartPosition chunk) (EndPosition chunk)) ;;~ Return tt
  end.

Definition chunkDocument (documentID : Z) (content : gostring) : Prog (option error) :=
  let chunks := computeChunks content in
  (* Store chunks in database with embeddings *)
  forEach (storeChunk documentID) chunks ;;~
  Return None.

(** *** [ExtractEntitiesAndRelations] *)

Definition storeEntity (documentID : Z) (entityMap : gomap) (entity : Entity)
  : Prog gomap :=
  (* Check if entity already exists *)
  r <~ send (selectNodeId (ent_Name entity) (ent_Type entity)) ;;
  match r with
  | Done existingID =>
    (* Entity already exists, use existing ID *)
    Return (mapSet entityMap (ent_Name entity) existingID)
  | Failed sqlErrNoRows =>
    e <~ generateEmbedding (ent_Name entity) ;;
    match e with
    | Failed _ => Return entityMap
    | Done embedding =>
      r <~ send (upsertNode (ent_Name entity) (ent_Type entity) (ent_Properties entity)
                            embedding documentID) ;;
      match r with
      | Failed _ => Return entityMap
      | Done id => Return (mapSet entityMap (ent_Name entity) id)
      end
    end
  | Failed _ => Return entityMap
  end.

Definition storeRelationship (documentID : Z) (rel : Relationship) : Prog unit :=
  send (upsertEdge (rel_SourceID rel) (rel_TargetID rel) (rel_RelationshipType rel)
                   (rel_Properties rel) documentID) ;;~ Return tt.

Definition ExtractEntitiesAndRelations (documentID : Z) (content : gostring)
  : Prog (option error) :=
  (* Extract entities from content *)
  let entities := extractEntities content in
  (* Store entities in database *)
  entityMap <~ fold (storeEntity documentID) entities [] ;;
  (* Extract relationships *)
  let relationships := extractRelationships content entityMap in
  (* Store relationships in database *)
  forEach (storeRelationship documentID) relationships ;;~
  Return None.

(** *** [fetchContent] and [ProcessURL] *)

Definition storeDocument (url title content : gostring) (embedding : Vector)
  : Prog (outcome Z) :=
  send (upsertDocument url title content embedding).

Definition fetchContent (url : gostring) : Prog (outcome (gostring * gostring)) :=
  (* Fetch the URL *)
  p <~ fetch url ;;
  match p with
  | Failed err => Return (Failed (Errorf (str "failed to fetch URL") err))
  | Done doc =>
    (* Extract title *)
    let title := if gostring_eqb (page_title doc) [] then url else page_title doc in
    (* Extract main content: the text of the last body *)
    let content := last (page_bodies doc) [] in
    (* Clean up content *)
    let content := cleanContent content in
    if gostring_eqb content [] then
      Return (Failed (errorString (str "no content found at URL")))
    else Return (Done (content, title))
  end.

Definition ProcessURL (url : gostring) : Prog (option error) :=
  (* Update status to processing *)
  r <~ send (setStatusByURL processing url) ;;
  match r with
  | Failed err => Return (Some (Errorf (str "failed to update status to processing") err))
  | Done _ =>
    (* Fetch content from URL *)
    f <~ fetchContent url ;;
    match f with
    | Failed err =>
      send (setFailedByURL (errorText err) url) ;;~
      Return (Some (Errorf (str "failed to fetch content") err))
    | Done (content, title) =>
      (* Clean content *)
      let content := cleanContent content in
      (* Generate embedding for the full document *)
      e <~ generateEmbedding content ;;
      match e with
      | Failed err =>
        send (setFailedByURL (errorText err) url) ;;~
        Return (Some (Errorf (str "failed to generate embedding") err))
      | Done embedding =>
        (* Store document in database *)
        r <~ storeDocument url title content embedding ;;
        match r with
        | Failed err =>
          send (setFailedByURL (errorText err) url) ;;~
          Return (Some (Errorf (str "failed to store document") err))
        | Done documentID =>
          (* Chunk the content and store chunks *)
          chunkDocument documentID content ;;~
          (* Extract entities and relationships (background processing) *)
          go documentID content ;;~
          (* Update status to completed *)
          send (setStatusByURL completed url) ;;~
          Return None
        end
      end
    end
  end.

(** The goroutine that [ProcessURL] starts. *)
Definition runGoroutine (task : Z * gostring) : Prog unit :=
  ExtractEntitiesAndRelations (fst task) (snd task) ;;~ Return tt.

(** *** [processURLQueue] *)

(** What a turn of the loop does with the result of its claim. *)
Definition afterClaim (r : outcome (Z * gostring)) : Prog unit :=
  match r with
  | Failed sqlErrNoRows =>
    (* No URLs to process, wait before checking again *)
    now ;;~ Return tt
  | Failed _ => Return tt
  | Done (queueID, url) =>
    (* Process the URL *)
    err <~ ProcessURL url ;;
    match err with
    | Some e =>
      (* Update queue status with error *)
      send (setFailedByID (errorText e) queueID) ;;~ Return tt
    | None =>
      (* Mark URL as processed *)
      send (setStatusByID completed queueID) ;;~ Return tt
    end
  end.

(** One turn of the loop, the context not being done. *)
Definition pollQueue : Prog unit :=
  (* Get next URL to process *)
  r <~ send claimNext ;;
  afterClaim r.

(** The claim when other statements are under way: [FOR UPDATE SKIP LOCKED]
    passes over the rows that a statement of another connection, begun and
    not yet committed, keeps locked.  Which rows these are at the moment of
    the claim is for the schedule to say. *)
Definition claimUnlocked (locked : list Z) (now : nat) (d : DB)
  : outcome (DB * (Z * gostring)) :=
  match oldestPending (filter (fun q => negb (memZ (queue_id q) locked))
                              (tbl_url_queue d)) with
  | None => Failed sqlErrNoRows
  | Some q =>
    let claim := fun r =>
      mkURLQueueItem (queue_id r) (queue_url r) processing (queue_error r)
                     (queue_retry_count r) (queue_created_at r) (queue_updated_at r) in
    match updateQueue (fun r => queue_id r =? queue_id q) claim d with
    | Done (d', _) => Done (d', (queue_id q, queue_url q))
    | Failed err => Failed err
    end
  end.

(** A goroutine of the service: a worker at the top of its loop; a worker
    within a turn, with its variable [queueID] when the claim has set it;
    or an extraction started by [ProcessURL]. *)
Inductive Thread : Type :=
| atLoop
| inTurn (queueID : option Z) (rest : Prog unit)
| inGoroutine (rest : Prog unit).

(** At the end of a turn the worker is at the top of its loop again. *)
Definition next (t : Thread) : Thread :=
  match t with
  | inTurn _ (Return _) => atLoop
  | _ => t
  end.

Definition claimedID (r : outcome (Z * gostring)) : option Z :=
  match r with
  | Done (queueID, _) => Some queueID
  | Failed _ => None
  end.

Definition claimed (r : outcome (Z * gostring)) : list Z :=
  match claimedID r with
  | Some queueID => [queueID]
  | None => []
  end.

(** The next effect of a goroutine, with the item it claims, if it does. *)
Definition stepThread (locked : list Z) (t : Thread) : M (Thread * list Z) :=
  match t with
  | atLoop =>
    bind (exec env (claimUnlocked locked))
         (fun r => ret (next (inTurn (claimedID r) (afterClaim r)), claimed r))
  | inTurn queueID rest =>
    bind (step rest) (fun rest' => ret (next (inTurn queueID rest'), []))
  | inGoroutine rest =>
    bind (step rest) (fun rest' => ret (inGoroutine rest', []))
  end.

(** The service with its goroutines: the database and the clock they
    share, the goroutines, and the ids that claims have returned so far,
    in the order of the claims. *)
Record Pool := mkPool {
  world : World;
  threads : list Thread;
  claims : list Z
}.

Fixpoint update {A} (i : nat) (x : A) (l : list A) : list A :=
  match l, i with
  | [], _ => []
  | _ :: rest, O => x :: rest
  | y :: rest, S j => y :: update j x rest
  end.

Definition started (tasks : list (Z * gostring)) : list Thread :=
  map (fun task => inGoroutine (runGoroutine task)) tasks.

(** The goroutine [i] has its next effect; the goroutines it starts join
    the others. *)
Definition stepPool (p : Pool) (choice : nat * list Z) : Pool :=
  match nth_error (threads p) (fst choice) with
  | None => p
  | Some t =>
    let '((t', new), w) := stepThread (snd choice) t (world p) in
    mkPool (mkWorld (db w) (clock w) [])
           (update (fst choice) t' (threads p) ++ started (goroutines w))
           (claims p ++ new)
  end.

(** [numWorkers] workers are started; the goroutines started before and not
    yet run are among them. *)
Definition StartBackgroundWorkers (numWorkers : nat) (w : World) : Pool :=
  mkPool (mkWorld (db w) (clock w) [])
         (repeat atLoop numWorkers ++ started (goroutines w))
         [].

(** The workers, after the effects that the schedule names: each time the
    goroutine that goes on, and the rows that are locked should it claim.
    A worker that has found its context done is one that the schedule
    names no more. *)
Definition workers (numWorkers : nat) (w : World) (schedule : list (nat * list Z)) : Pool :=
  fold_left stepPool schedule (StartBackgroundWorkers numWorkers w).

End Code.

(** *** What is said of the workers *)

Definition queueItem (d : DB) (id : Z) : option URLQueueItem :=
  find (fun q => queue_id q =? id) (tbl_url_queue d).

Definition statusOf (d : DB) (id : Z) : option Status :=
  option_map queue_status (queueItem d id).

(** The worker [i] is within the turn in which it claimed the item. *)
Definition holdsItem (p : Pool) (i : nat) (id : Z) : Prop :=
  exists rest, nth_error (threads p) i = Some (inTurn (Some id) rest).

Definition holds (t : Thread) : list Z :=
  match t with
  | inTurn (Some id) _ => [id]
  | _ => []
  end.

Definition held (p : Pool) : list Z := flat_map holds (threads p).

(** *** What the code of a goroutine keeps to *)

(** Every statement that the code may send is one of [allowed]. *)
Fixpoint within (allowed : forall R, (nat -> DB -> outcome (DB * R)) -> Prop)
  {A} (p : Prog A) : Prop :=
  match p with
  | Return _ => True
  | Tick k => forall t, within allowed (k t)
  | Exec stmt k => allowed _ stmt /\ forall r, within allowed (k r)
  | Spawn _ _ k => within allowed k
  end.

(** A row of the queue before and after a statement: it keeps its id and
    its URL, and it changes only if it is one of [own], its status as [to]
    says. *)
Definition moved (own : URLQueueItem -> Prop) (to : Status -> Status -> Prop)
  (q q' : URLQueueItem) : Prop :=
  queue_id q' = queue_id q /\ queue_url q' = queue_url q
  /\ (q' = q \/ (own q /\ to (queue_status q) (queue_status q'))).

Definition changes (own : URLQueueItem -> Prop) (to : Status -> Status -> Prop)
  {R} (stmt : nat -> DB -> outcome (DB * R)) : Prop :=
  forall now d d' r, stmt now d = Done (d', r) ->
    Forall2 (moved own to) (tbl_url_queue d) (tbl_url_queue d').

Definition leavesQueue R (stmt : nat -> DB -> outcome (DB * R)) : Prop :=
  stmtKeeps tbl_url_queue stmt.

Definition terminal (s : Status) : Prop := s = completed \/ s = failed.

Definition ownRow (id : Z) (url : gostring) (q : URLQueueItem) : Prop :=
  queue_id q = id \/ queue_url q = url.

(** The statements of a turn once [ProcessURL] has begun: they end the
    item. *)
Definition settles (id : Z) (url : gostring) R (stmt : nat -> DB -> outcome (DB * R))
  : Prop :=
  changes (ownRow id url) (fun _ s => terminal s) stmt.

(** The first statement of [ProcessURL]. *)
Definition reopens (url : gostring) R (stmt : nat -> DB -> outcome (DB * R)) : Prop :=
  changes (fun q => queue_url q = url) (fun _ s => s = processing) stmt.

(** The turn is about to begin [ProcessURL]. *)
Definition opening (id : Z) (url : gostring) (p : Prog unit) : Prop :=
  match p with
  | Exec stmt k => reopens url _ stmt /\ forall r, within (settles id url) (k r)
  | _ => False
  end.

Definition active (s : Status) : Prop := s = processing \/ terminal s.

(** The status of an item that is held, from one moment to the next: it is
    ended, or it stays in processing. *)
Definition goesOn (s s' : Status) : Prop :=
  terminal s' \/ (s = processing /\ s' = processing).

(** What holds of a goroutine at every moment. *)
Definition threadOK (d : DB) (claimedSoFar : list Z) (t : Thread) : Prop :=
  match t with
  | atLoop => True
  | inGoroutine rest => within leavesQueue rest
  | inTurn None rest => within leavesQueue rest
  | inTurn (Some id) rest =>
    In id claimedSoFar
    /\ exists q, queueItem d id = Some q
         /\ (within (settles id (queue_url q)) rest
             \/ (opening id (queue_url q) rest /\ queue_status q = processing))
  end.

(** A row at the start and now: claimed, it was pending and is being
    processed or done with; not claimed, it is as it was. *)
Definition tracked (claimedSoFar : list Z) (q0 q : URLQueueItem) : Prop :=
  queue_id q = queue_id q0 /\ queue_url q = queue_url q0
  /\ (In (queue_id q0) claimedSoFar -> queue_status q0 = pending /\ active (queue_status q))
  /\ (~ In (queue_id q0) claimedSoFar -> q = q0).

Record poolOK (d0 : DB) (p : Pool) : Prop := mkPoolOK {
  ok_ids : NoDup (map queue_id (tbl_url_queue d0));
  ok_urls : NoDup (map queue_url (tbl_url_queue d0));
  ok_rows : Forall2 (tracked (claims p)) (tbl_url_queue d0) (tbl_url_queue (db (world p)));
  ok_claims : NoDup (claims p);
  ok_known : incl (claims p) (map queue_id (tbl_url_queue d0));
  ok_held : NoDup (held p);
  ok_threads : Forall (threadOK (db (world p)) (claims p)) (threads p)
}.

End steps.

(** Two URLs in the queue and three workers.  In the schedule the worker 0
    claims first, while the row 1 is locked; then the three workers go on
    in turn. *)
Definition twoQueued : World := after (QueueURL quietEnv otherURL) queuedWorld.

Definition inTurns (rounds : nat) : list (nat * list Z) :=
  [(0%nat, [1]); (1%nat, []); (2%nat, [])]
  ++ flat_map (fun _ => [(0%nat, []); (1%nat, []); (2%nat, [])]) (seq 0 rounds).

Definition threeWorkers (schedule : list (nat * list Z)) : steps.Pool :=
  steps.workers asciiOnly scanEntities scanRelationships quietEnv 3 twoQueued schedule.

Definition statuses (p : steps.Pool) : list (Z * Status) :=
  map (fun q => (queue_id q, queue_status q)) (tbl_url_queue (db (steps.world p))).

(** * Properties *)

(** ** Bytes *)

Lemma gostring_eqb_spec a b : gostring_eqb a b = true <-> a = b.
Proof.
  unfold gostring_eqb. destruct (list_eq_dec ascii_dec a b); split; congruence.
Qed.

Lemma byteval_range b : 0 <= byteval b < 256.
Proof.
  unfold byteval. pose proof (N_ascii_bounded b). lia.
Qed.

Lemma mkbyte_byteval b : mkbyte (byteval b) = b.
Proof.
  unfold mkbyte. pose proof (byteval_range b).
  rewrite Z.mod_small by lia. unfold byteval.
  rewrite N2Z.id. apply ascii_N_embedding.
Qed.

Lemma byteval_mkbyte z : 0 <= z < 256 -> byteval (mkbyte z) = z.
Proof.
  intros H. unfold mkbyte, byteval. rewrite Z.mod_small by lia.
  rewrite N_ascii_embedding by lia. lia.
Qed.

(** ** Masks and shifts as arithmetic *)

Section BitArith.

Lemma lor_add hi lo k :
  0 <= k -> 0 <= lo < 2 ^ k -> Z.lor (hi * 2 ^ k) lo = hi * 2 ^ k + lo.
Proof.
  intros Hk Hlo.
  rewrite <- Z.add_lor_land.
  assert (E : Z.land (hi * 2 ^ k) lo = 0); [| rewrite E; lia].
  apply Z.bits_inj'. intros n Hn.
  rewrite Z.land_spec, Z.bits_0.
  destruct (Z.lt_ge_cases n k) as [Hlt | Hge].
  - rewrite Z.mul_pow2_bits_low by lia. reflexivity.
  - assert (Z.testbit lo n = false) as ->; [| apply andb_false_r].
    destruct (Z.eq_dec lo 0) as [-> | Hnz]; [apply Z.bits_0 |].
    apply Z.bits_above_log2; [lia |].
    apply Z.log2_lt_pow2; [lia |].
    apply Z.lt_le_trans with (2 ^ k); [lia |].
    apply Z.pow_le_mono_r; lia.
Qed.

Lemma land_mask x k : 0 <= k -> Z.land x (2 ^ k - 1) = x mod 2 ^ k.
Proof.
  intros Hk. rewrite <- Z.land_ones by lia.
  f_equal. rewrite Z.ones_equiv. lia.
Qed.

Lemma land_3F x : Z.land x 0x3F = x mod 64.
Proof. exact (land_mask x 6 ltac:(lia)). Qed.

Lemma land_1F x : Z.land x 0x1F = x mod 32.
Proof. exact (land_mask x 5 ltac:(lia)). Qed.

Lemma land_0F x : Z.land x 0x0F = x mod 16.
Proof. exact (land_mask x 4 ltac:(lia)). Qed.

Lemma land_07 x : Z.land x 0x07 = x mod 8.
Proof. exact (land_mask x 3 ltac:(lia)). Qed.

Lemma shiftl_6 x : Z.shiftl x 6 = x * 64.
Proof. rewrite Z.shiftl_mul_pow2 by lia. reflexivity. Qed.

Lemma shiftl_12 x : Z.shiftl x 12 = x * 4096.
Proof. rewrite Z.shiftl_mul_pow2 by lia. reflexivity. Qed.

Lemma shiftl_18 x : Z.shiftl x 18 = x * 262144.
Proof. rewrite Z.shiftl_mul_pow2 by lia. reflexivity. Qed.

Lemma shiftr_6 x : Z.shiftr x 6 = x / 64.
Proof. rewrite Z.shiftr_div_pow2 by lia. reflexivity. Qed.

Lemma shiftr_12 x : Z.shiftr x 12 = x / 4096.
Proof. rewrite Z.shiftr_div_pow2 by lia. reflexivity. Qed.

Lemma shiftr_18 x : Z.shiftr x 18 = x / 262144.
Proof. rewrite Z.shiftr_div_pow2 by lia. reflexivity. Qed.

(** A tag in the high bits or-ed with a payload that fits below it. *)
Lemma lor_tag tag k lo :
  0 <= k -> 0 <= lo < 2 ^ k -> tag mod 2 ^ k = 0 -> Z.lor tag lo = tag + lo.
Proof.
  intros Hk Hlo Ht.
  assert (E : tag = (tag / 2 ^ k) * 2 ^ k).
  { pose proof (Z.div_mod tag (2 ^ k)). lia. }
  rewrite E at 1. rewrite lor_add by lia. lia.
Qed.

End BitArith.

(** ** UTF-8: encoding and decoding are inverse on scalar values *)

Ltac boolZ :=
  repeat match goal with
  | H : _ && _ = true |- _ => apply andb_true_iff in H; destruct H
  | H : _ || _ = false |- _ => apply orb_false_iff in H; destruct H
  | H : _ && _ = false |- _ => apply andb_false_iff in H
  | H : _ || _ = true |- _ => apply orb_true_iff in H
  | H : negb _ = true |- _ => apply negb_true_iff in H
  | H : negb _ = false |- _ => apply negb_false_iff in H
  end;
  repeat match goal with
  | H : context [(_ <=? _) = true] |- _ => rewrite Z.leb_le in H
  | H : context [(_ <=? _) = false] |- _ => rewrite Z.leb_gt in H
  | H : context [(_ <? _) = true] |- _ => rewrite Z.ltb_lt in H
  | H : context [(_ <? _) = false] |- _ => rewrite Z.ltb_ge in H
  | H : context [(_ =? _) = true] |- _ => rewrite Z.eqb_eq in H
  | H : context [(_ =? _) = false] |- _ => rewrite Z.eqb_neq in H
  end.

Lemma enc_cont x : Z.lor 0x80 (Z.land x utf8.maskx) = 128 + x mod 64.
Proof.
  unfold utf8.maskx. rewrite land_3F.
  pose proof (Z.mod_pos_bound x 64 ltac:(lia)).
  apply (lor_tag 128 6); [lia | simpl; lia | reflexivity].
Qed.

Lemma enc2_lead r : 0 <= r <= 0x7FF -> Z.lor 0xC0 (Z.shiftr r 6) = 192 + r / 64.
Proof.
  intros H. rewrite shiftr_6.
  apply (lor_tag 192 6); [lia | | reflexivity].
  change (2 ^ 6) with 64. split; [apply Z.div_pos; lia |].
  apply Z.div_lt_upper_bound; lia.
Qed.

Lemma enc3_lead r : 0 <= r <= 0xFFFF -> Z.lor 0xE0 (Z.shiftr r 12) = 224 + r / 4096.
Proof.
  intros H. rewrite shiftr_12.
  apply (lor_tag 224 5); [lia | | reflexivity].
  change (2 ^ 5) with 32. split; [apply Z.div_pos; lia |].
  apply Z.div_lt_upper_bound; lia.
Qed.

Lemma enc4_lead r : 0 <= r <= 0x10FFFF -> Z.lor 0xF0 (Z.shiftr r 18) = 240 + r / 262144.
Proof.
  intros H. rewrite shiftr_18.
  apply (lor_tag 240 4); [lia | | reflexivity].
  change (2 ^ 4) with 16. split; [apply Z.div_pos; lia |].
  apply Z.div_lt_upper_bound; lia.
Qed.

Lemma lor_add_64 hi lo : 0 <= lo < 64 -> Z.lor (hi * 64) lo = hi * 64 + lo.
Proof. intros H. exact (lor_add hi lo 6 ltac:(lia) H). Qed.

Lemma lor_add_4096 hi lo : 0 <= lo < 4096 -> Z.lor (hi * 4096) lo = hi * 4096 + lo.
Proof. intros H. exact (lor_add hi lo 12 ltac:(lia) H). Qed.

Lemma lor_add_262144 hi lo :
  0 <= lo < 262144 -> Z.lor (hi * 262144) lo = hi * 262144 + lo.
Proof. intros H. exact (lor_add hi lo 18 ltac:(lia) H). Qed.

Lemma dec2 s0 s1 :
  Z.lor (Z.shiftl (Z.land s0 utf8.mask2) 6) (Z.land s1 utf8.maskx)
  = (s0 mod 32) * 64 + s1 mod 64.
Proof.
  unfold utf8.mask2, utf8.maskx. rewrite land_1F, land_3F, shiftl_6.
  pose proof (Z.mod_pos_bound s1 64 ltac:(lia)).
  apply lor_add_64; lia.
Qed.

Lemma dec3 s0 s1 s2 :
  Z.lor (Z.lor (Z.shiftl (Z.land s0 utf8.mask3) 12)
               (Z.shiftl (Z.land s1 utf8.maskx) 6))
        (Z.land s2 utf8.maskx)
  = (s0 mod 16) * 4096 + (s1 mod 64) * 64 + s2 mod 64.
Proof.
  unfold utf8.mask3, utf8.maskx. rewrite land_0F, !land_3F, shiftl_6, shiftl_12.
  pose proof (Z.mod_pos_bound s1 64 ltac:(lia)).
  pose proof (Z.mod_pos_bound s2 64 ltac:(lia)).
  rewrite lor_add_4096 by lia.
  replace (s0 mod 16 * 4096 + s1 mod 64 * 64)
    with ((s0 mod 16 * 64 + s1 mod 64) * 64) by lia.
  rewrite lor_add_64 by lia. lia.
Qed.

Lemma dec4 s0 s1 s2 s3 :
  Z.lor (Z.lor (Z.lor (Z.shiftl (Z.land s0 utf8.mask4) 18)
                      (Z.shiftl (Z.land s1 utf8.maskx) 12))
               (Z.shiftl (Z.land s2 utf8.maskx) 6))
        (Z.land s3 utf8.maskx)
  = (s0 mod 8) * 262144 + (s1 mod 64) * 4096 + (s2 mod 64) * 64 + s3 mod 64.
Proof.
  unfold utf8.mask4, utf8.maskx.
  rewrite land_07, !land_3F, shiftl_6, shiftl_12, shiftl_18.
  pose proof (Z.mod_pos_bound s1 64 ltac:(lia)).
  pose proof (Z.mod_pos_bound s2 64 ltac:(lia)).
  pose proof (Z.mod_pos_bound s3 64 ltac:(lia)).
  rewrite lor_add_262144 by lia.
  replace (s0 mod 8 * 262144 + s1 mod 64 * 4096)
    with ((s0 mod 8 * 64 + s1 mod 64) * 4096) by lia.
  rewrite lor_add_4096 by lia.
  replace ((s0 mod 8 * 64 + s1 mod 64) * 4096 + s2 mod 64 * 64)
    with (((s0 mod 8 * 64 + s1 mod 64) * 64 + s2 mod 64) * 64) by lia.
  rewrite lor_add_64 by lia. lia.
Qed.

Ltac split_ifs :=
  repeat match goal with
  | |- context [if ?c then _ else _] => destruct c eqn:?
  end.

Ltac inv_some :=
  repeat match goal with
  | H : Some _ = Some _ |- _ => inversion H; clear H; subst
  | H : Some _ = None |- _ => discriminate H
  | H : None = Some _ |- _ => discriminate H
  end.

Lemma div_range r d lo hi : 0 < d -> lo * d <= r < hi * d -> lo <= r / d < hi.
Proof.
  intros Hd H. split.
  - apply Z.div_le_lower_bound; lia.
  - apply Z.div_lt_upper_bound; lia.
Qed.

Lemma decode_encode r t :
  utf8.ValidRune r = true ->
  utf8.DecodeRuneInString (utf8.EncodeRune r ++ t)
  = (r, length (utf8.EncodeRune r)).
Proof.
  intros Hv. unfold utf8.ValidRune, utf8.MaxRune in Hv.
  unfold utf8.EncodeRune.
  destruct ((0 <=? r) && (r <=? 0x7F)) eqn:H1.
  { boolZ. cbn [app]. unfold utf8.DecodeRuneInString.
    rewrite byteval_mkbyte by lia. unfold utf8.RuneSelf.
    destruct (r <? 128) eqn:E; boolZ; [reflexivity | lia]. }
  destruct ((0 <=? r) && (r <=? 0x7FF)) eqn:H2.
  { cbn [app]. unfold utf8.DecodeRuneInString.
    boolZ. assert (Hr : 0x80 <= r <= 0x7FF) by lia. clear H1 Hv.
    rewrite enc2_lead, enc_cont by lia.
    pose proof (div_range r 64 2 32 ltac:(lia) ltac:(lia)).
    pose proof (Z.mod_pos_bound r 64 ltac:(lia)).
    rewrite !byteval_mkbyte by lia.
    rewrite dec2. unfold utf8.RuneSelf, utf8.first, utf8.locb, utf8.hicb.
    split_ifs; boolZ; inv_some; try lia.
    cbn [length]. f_equal. Z.div_mod_to_equations; lia. }
  assert (Hr : 0x800 <= r <= 0x10FFFF /\ (r < 0xD800 \/ 0xDFFF < r)) by (boolZ; lia).
  clear H1 H2 Hv. unfold utf8.MaxRune.
  destruct ((r <? 0) || (1114111 <? r) || ((55296 <=? r) && (r <=? 57343))) eqn:H3;
    [boolZ; lia | clear H3].
  destruct (r <=? 0xFFFF) eqn:H4; boolZ.
  { cbn [app]. unfold utf8.DecodeRuneInString.
    rewrite enc3_lead, !enc_cont by lia. rewrite shiftr_6.
    pose proof (div_range r 4096 0 16 ltac:(lia) ltac:(lia)).
    pose proof (Z.mod_pos_bound (r / 64) 64 ltac:(lia)).
    pose proof (Z.mod_pos_bound r 64 ltac:(lia)).
    rewrite !byteval_mkbyte by lia.
    rewrite dec3. unfold utf8.RuneSelf, utf8.first, utf8.locb, utf8.hicb.
    split_ifs; boolZ; inv_some; try lia;
      try (exfalso; Z.div_mod_to_equations; lia).
    all: cbn [length]; f_equal; Z.div_mod_to_equations; lia. }
  { cbn [app]. unfold utf8.DecodeRuneInString.
    rewrite enc4_lead, !enc_cont by lia. rewrite shiftr_6, shiftr_12.
    pose proof (div_range r 262144 0 5 ltac:(lia) ltac:(lia)).
    pose proof (Z.mod_pos_bound (r / 4096) 64 ltac:(lia)).
    pose proof (Z.mod_pos_bound (r / 64) 64 ltac:(lia)).
    pose proof (Z.mod_pos_bound r 64 ltac:(lia)).
    rewrite !byteval_mkbyte by lia.
    rewrite dec4. unfold utf8.RuneSelf, utf8.first, utf8.locb, utf8.hicb.
    split_ifs; boolZ; inv_some; try lia;
      try (exfalso; Z.div_mod_to_equations; lia).
    all: cbn [length]; f_equal; Z.div_mod_to_equations; lia. }
Qed.

Ltac split_ifs_in H :=
  repeat match type of H with
  | context [if ?c then _ else _] => destruct c eqn:?
  | context [match ?l with [] => _ | _ :: _ => _ end] => destruct l
  end.

Ltac bytes_eq :=
  repeat match goal with
  | |- ?b :: _ = mkbyte _ :: _ =>
    apply f_equal2;
    [rewrite <- (mkbyte_byteval b) at 1; f_equal; Z.div_mod_to_equations; lia |]
  | |- [] = [] => reflexivity
  end.

Lemma encode_decode s r w :
  utf8.DecodeRuneInString s = (r, w) ->
  (s = [] /\ w = 0%nat)
  \/ (s <> [] /\ r = utf8.RuneError /\ w = 1%nat)
  \/ (utf8.ValidRune r = true /\ firstn w s = utf8.EncodeRune r
      /\ length (utf8.EncodeRune r) = w /\ (w <= length s)%nat
      /\ (r <> utf8.RuneError \/ w <> 1%nat)).
Proof.
  intros H. destruct s as [| b0 t]; [left; inversion H; auto |]. right.
  unfold utf8.DecodeRuneInString in H.
  pose proof (byteval_range b0) as R0.
  destruct (byteval b0 <? utf8.RuneSelf) eqn:E0; unfold utf8.RuneSelf in E0; boolZ.
  { inversion H; subst; clear H. right.
    unfold utf8.ValidRune, utf8.EncodeRune, utf8.RuneError.
    assert ((0 <=? byteval b0) && (byteval b0 <=? 127) = true) as ->
      by (apply andb_true_iff; split; apply Z.leb_le; lia).
    rewrite mkbyte_byteval.
    assert ((0 <=? byteval b0) && (byteval b0 <? 55296) = true) as ->
      by (apply andb_true_iff; split; [apply Z.leb_le | apply Z.ltb_lt]; lia).
    cbn [orb firstn length]. repeat split; lia. }
  unfold utf8.first, utf8.locb, utf8.hicb in H.
  split_ifs_in H; inv_some; rewrite ?dec2, ?dec3, ?dec4 in H;
    apply pair_equal_spec in H; destruct H as [<- <-];
    try (left; repeat split; [discriminate | reflexivity ..]).
  all: right.
  all: repeat match goal with b : ascii |- _ =>
         lazymatch goal with
         | _ : 0 <= byteval b < 256 |- _ => fail
         | _ => pose proof (byteval_range b)
         end end.
  all: boolZ.
  all: unfold utf8.ValidRune, utf8.EncodeRune, utf8.MaxRune, utf8.RuneError.
  all: split_ifs; boolZ; try (exfalso; Z.div_mod_to_equations; lia).
  all: try (rewrite ?enc2_lead, ?enc3_lead, ?enc4_lead, ?enc_cont, ?shiftr_6, ?shiftr_12
              by (Z.div_mod_to_equations; lia)).
  all: cbn [firstn length].
  all: repeat split; try (simpl; lia); try (left; Z.div_mod_to_equations; lia).
  all: bytes_eq.
Qed.

(** A property of every byte value, checked on each of the 256. *)
Lemma byte_cases (P : Z -> bool) :
  forallb P (map Z.of_nat (seq 0 256)) = true ->
  forall x, 0 <= x < 256 -> P x = true.
Proof.
  intros H x Hx. rewrite forallb_forall in H. apply H.
  apply in_map_iff. exists (Z.to_nat x). split; [lia |].
  apply in_seq. lia.
Qed.

Lemma RuneStart_spec b :
  utf8.RuneStart b = negb ((128 <=? byteval b) && (byteval b <? 192)).
Proof.
  unfold utf8.RuneStart.
  pose proof (byte_cases
    (fun x => Bool.eqb (negb (Z.land x 0xC0 =? 0x80))
                       (negb ((128 <=? x) && (x <? 192))))
    ltac:(vm_compute; reflexivity) (byteval b) (byteval_range b)) as H.
  apply Bool.eqb_prop in H. exact H.
Qed.

(** The shape of an encoding: one ASCII byte, or a leading byte followed by
    one to three continuation bytes. *)
Definition isLead (b : ascii) : Prop := 192 <= byteval b.
Definition isCont (b : ascii) : Prop := 128 <= byteval b < 192.

Lemma encode_shape r :
  (exists b, utf8.EncodeRune r = [b] /\ byteval b < 128)
  \/ (exists l c1, utf8.EncodeRune r = [l; c1] /\ isLead l /\ isCont c1)
  \/ (exists l c1 c2, utf8.EncodeRune r = [l; c1; c2]
        /\ isLead l /\ isCont c1 /\ isCont c2)
  \/ (exists l c1 c2 c3, utf8.EncodeRune r = [l; c1; c2; c3]
        /\ isLead l /\ isCont c1 /\ isCont c2 /\ isCont c3).
Proof.
  unfold utf8.EncodeRune, isLead, isCont.
  assert (C : forall x, 128 <= byteval (mkbyte (Z.lor 128 (Z.land x utf8.maskx))) < 192).
  { intros x. rewrite enc_cont. pose proof (Z.mod_pos_bound x 64 ltac:(lia)).
    rewrite byteval_mkbyte; lia. }
  assert (L : forall x, 192 <= x < 256 -> 192 <= byteval (mkbyte x)).
  { intros x Hx. rewrite byteval_mkbyte; lia. }
  destruct ((0 <=? r) && (r <=? 127)) eqn:H1.
  { left. eexists. split; [reflexivity |]. boolZ. rewrite byteval_mkbyte; lia. }
  destruct ((0 <=? r) && (r <=? 2047)) eqn:H2.
  { right. left. do 2 eexists. split; [reflexivity |]. boolZ. split; [| apply C].
    apply L. rewrite enc2_lead by lia.
    pose proof (div_range r 64 0 32 ltac:(lia) ltac:(lia)). lia. }
  set (r' := if (r <? 0) || (utf8.MaxRune <? r) || ((55296 <=? r) && (r <=? 57343))
             then utf8.RuneError else r).
  assert (Hr' : 0 <= r' <= 0x10FFFF).
  { subst r'. unfold utf8.MaxRune, utf8.RuneError. split_ifs; boolZ; lia. }
  destruct (r' <=? 65535) eqn:H3; boolZ.
  { right. right. left. do 3 eexists. split; [reflexivity |].
    split; [| split; apply C].
    apply L. rewrite enc3_lead by lia.
    pose proof (div_range r' 4096 0 16 ltac:(lia) ltac:(lia)). lia. }
  { right. right. right. do 4 eexists. split; [reflexivity |].
    split; [| repeat split; apply C].
    apply L. rewrite enc4_lead by lia.
    pose proof (div_range r' 262144 0 5 ltac:(lia) ltac:(lia)). lia. }
Qed.

Lemma encode_length r :
  (1 <= length (utf8.EncodeRune r) <= 4)%nat.
Proof.
  destruct (encode_shape r) as [(b & -> & _) | [(l & c1 & -> & _) |
    [(l & c1 & c2 & -> & _) | (l & c1 & c2 & c3 & -> & _)]]]; simpl; lia.
Qed.

(** ** Strings as sequences of runes *)

Lemma encodeAll_cons r rs : encodeAll (r :: rs) = utf8.EncodeRune r ++ encodeAll rs.
Proof. reflexivity. Qed.

Lemma encodeAll_app a b : encodeAll (a ++ b) = encodeAll a ++ encodeAll b.
Proof. unfold encodeAll. apply flat_map_app. Qed.

Lemma encode_nonempty r t : utf8.EncodeRune r ++ t <> [].
Proof.
  pose proof (encode_length r). destruct (utf8.EncodeRune r); simpl in *; [lia | discriminate].
Qed.

Lemma encode_not_invalid r :
  utf8.ValidRune r = true ->
  utf8.isInvalid (r, utf8.EncodeRune r) = false.
Proof.
  intros Hv. unfold utf8.isInvalid. cbn [fst snd].
  destruct (r =? utf8.RuneError) eqn:E; [| reflexivity]. boolZ. subst r.
  vm_compute. reflexivity.
Qed.

Lemma rangeFrom_encodeAll rs :
  forallb utf8.ValidRune rs = true ->
  forall fuel, (length (encodeAll rs) <= fuel)%nat ->
  utf8.rangeFrom fuel (encodeAll rs) = map (fun r => (r, utf8.EncodeRune r)) rs.
Proof.
  induction rs as [| r rs IH]; intros Hv fuel Hf.
  - destruct fuel; reflexivity.
  - cbn [forallb] in Hv. apply andb_true_iff in Hv. destruct Hv as [Hr Hrs].
    rewrite encodeAll_cons in *. rewrite length_app in Hf.
    pose proof (encode_length r) as Hl.
    destruct fuel as [| fuel]; [lia |]. cbn [utf8.rangeFrom].
    destruct (utf8.EncodeRune r ++ encodeAll rs) eqn:E;
      [exfalso; eapply encode_nonempty; eauto |].
    rewrite <- E. rewrite decode_encode by assumption.
    rewrite firstn_app, Nat.sub_diag, firstn_all, firstn_O, app_nil_r.
    rewrite skipn_app, Nat.sub_diag, skipn_all, skipn_O. cbn [app map].
    rewrite IH by (assumption || lia). reflexivity.
Qed.

Lemma range_encodeAll rs :
  forallb utf8.ValidRune rs = true ->
  utf8.range (encodeAll rs) = map (fun r => (r, utf8.EncodeRune r)) rs.
Proof. intros H. apply rangeFrom_encodeAll; auto. Qed.

Lemma ValidString_encodeAll rs :
  forallb utf8.ValidRune rs = true -> utf8.ValidString (encodeAll rs) = true.
Proof.
  intros H. unfold utf8.ValidString. rewrite range_encodeAll by assumption.
  rewrite forallb_forall. intros x Hx. apply in_map_iff in Hx.
  destruct Hx as (r & <- & Hr). rewrite forallb_forall in H.
  rewrite encode_not_invalid; auto.
Qed.

(** A string that [ValidString] accepts is the encoding of its runes. *)
Lemma ValidString_runes_fuel fuel : forall s,
  (length s <= fuel)%nat ->
  forallb (fun rw => negb (utf8.isInvalid rw)) (utf8.rangeFrom fuel s) = true ->
  exists rs, forallb utf8.ValidRune rs = true /\ s = encodeAll rs.
Proof.
  induction fuel as [| fuel IH]; intros s Hl Hv.
  - destruct s; [exists []; auto | simpl in Hl; lia].
  - destruct s as [| c t]; [exists []; auto |].
    cbn [utf8.rangeFrom] in Hv.
    destruct (utf8.DecodeRuneInString (c :: t)) as [r w] eqn:D.
    cbn [forallb] in Hv. apply andb_true_iff in Hv. destruct Hv as [Hi Hrest].
    destruct (encode_decode _ _ _ D) as [[E _] | [(_ & -> & ->) | (Hr & Hf & Hlen & Hw & _)]].
    + discriminate.
    + discriminate.
    + pose proof (encode_length r).
      destruct (IH (skipn w (c :: t))) as (rs & Hrs & Ers).
      * rewrite length_skipn. cbn [length] in *. lia.
      * assumption.
      * exists (r :: rs). split; [cbn [forallb]; rewrite Hr, Hrs; reflexivity |].
        rewrite encodeAll_cons, <- Hf, <- Ers. symmetry. apply firstn_skipn.
Qed.

Lemma ValidString_runes s :
  utf8.ValidString s = true ->
  exists rs, forallb utf8.ValidRune rs = true /\ s = encodeAll rs.
Proof. intros H. exact (ValidString_runes_fuel (length s) s (le_n _) H). Qed.

Lemma encode_ascii c :
  byteval c < 128 -> utf8.EncodeRune (byteval c) = [c] /\ utf8.ValidRune (byteval c) = true.
Proof.
  intros H. pose proof (byteval_range c).
  unfold utf8.EncodeRune, utf8.ValidRune.
  assert ((0 <=? byteval c) && (byteval c <=? 127) = true) as ->
    by (apply andb_true_iff; split; apply Z.leb_le; lia).
  assert ((0 <=? byteval c) && (byteval c <? 55296) = true) as ->
    by (apply andb_true_iff; split; [apply Z.leb_le | apply Z.ltb_lt]; lia).
  rewrite mkbyte_byteval. auto.
Qed.

(** A byte outside ASCII that decodes with width one is an invalid byte. *)
Lemma decode_width1 c t r :
  128 <= byteval c ->
  utf8.DecodeRuneInString (c :: t) = (r, 1%nat) -> r = utf8.RuneError.
Proof.
  intros Hc D. unfold utf8.DecodeRuneInString in D.
  destruct (byteval c <? utf8.RuneSelf) eqn:E; [unfold utf8.RuneSelf in E; boolZ; lia |].
  unfold utf8.first in D.
  split_ifs_in D; inv_some; apply pair_equal_spec in D; destruct D as [<- D];
    try reflexivity; discriminate.
Qed.

(** [ToValidUTF8 s ""] is well formed. *)
Lemma toValid_runes fuel : forall s inv,
  (length s <= fuel)%nat ->
  exists rs, forallb utf8.ValidRune rs = true
             /\ strings.toValidFrom fuel s inv [] = encodeAll rs.
Proof.
  induction fuel as [| fuel IH]; intros s inv Hl.
  - exists []. auto.
  - destruct s as [| c t]; [exists []; auto |].
    cbn [strings.toValidFrom]. cbn [length] in Hl.
    destruct (byteval c <? utf8.RuneSelf) eqn:E; unfold utf8.RuneSelf in E; boolZ.
    + destruct (IH t false ltac:(lia)) as (rs & Hrs & ->).
      destruct (encode_ascii c E) as [Ec Vc].
      exists (byteval c :: rs). split; [cbn [forallb]; rewrite Vc, Hrs; reflexivity |].
      rewrite encodeAll_cons, Ec. reflexivity.
    + destruct (utf8.DecodeRuneInString (c :: t)) as [r w] eqn:D.
      destruct (w =? 1)%nat eqn:W.
      * destruct (IH t true ltac:(lia)) as (rs & Hrs & ->).
        exists rs. split; [assumption |]. destruct inv; reflexivity.
      * apply Nat.eqb_neq in W.
        destruct (encode_decode _ _ _ D)
          as [[E' _] | [(_ & _ & ->) | (Hr & Hf & Hlen & Hw & _)]];
          [discriminate | lia |].
        pose proof (encode_length r).
        destruct (IH (skipn w (c :: t)) false) as (rs & Hrs & ->).
        { rewrite length_skipn. cbn [length] in *. lia. }
        exists (r :: rs). split; [cbn [forallb]; rewrite Hr, Hrs; reflexivity |].
        rewrite encodeAll_cons, Hf. reflexivity.
Qed.

(** The loop of [cleanContent] keeps the encodings of the runes it accepts. *)
Lemma filter_loop_runes rs :
  forallb utf8.ValidRune rs = true ->
  flat_map (fun rw => if keepRune (fst rw) then utf8.EncodeRune (fst rw) else [])
           (utf8.range (encodeAll rs))
  = encodeAll (filter keepRune rs).
Proof.
  intros Hv. rewrite range_encodeAll by assumption. clear Hv.
  induction rs as [| r rs IH]; [reflexivity |].
  cbn [map flat_map filter fst]. rewrite IH.
  destruct (keepRune r); reflexivity.
Qed.

(** [TrimLeftFunc] on runes. *)
Lemma trimLeftFrom_runes f rs :
  forallb utf8.ValidRune rs = true ->
  forall fuel, (length (encodeAll rs) <= fuel)%nat ->
  strings.trimLeftFrom fuel f (encodeAll rs) = encodeAll (dropWhile f rs).
Proof.
  induction rs as [| r rs IH]; intros Hv fuel Hf.
  - destruct fuel; reflexivity.
  - cbn [forallb] in Hv. apply andb_true_iff in Hv. destruct Hv as [Hr Hrs].
    rewrite encodeAll_cons in *. rewrite length_app in Hf.
    pose proof (encode_length r) as Hl.
    destruct fuel as [| fuel]; [lia |]. cbn [strings.trimLeftFrom dropWhile].
    destruct (utf8.EncodeRune r ++ encodeAll rs) eqn:E;
      [exfalso; eapply encode_nonempty; eauto |].
    rewrite <- E. rewrite decode_encode by assumption.
    destruct (f r); [| rewrite encodeAll_cons; reflexivity].
    rewrite skipn_app, Nat.sub_diag, skipn_all, skipn_O. cbn [app].
    apply IH; [assumption | lia].
Qed.

Lemma TrimLeftFunc_runes f rs :
  forallb utf8.ValidRune rs = true ->
  strings.TrimLeftFunc (encodeAll rs) f = encodeAll (dropWhile f rs).
Proof. intros H. apply trimLeftFrom_runes; auto. Qed.

(** [DecodeLastRuneInString] finds the last rune of a well-formed string. *)

Lemma RuneStart_lead b : isLead b -> utf8.RuneStart b = true.
Proof.
  unfold isLead. intros H. rewrite RuneStart_spec.
  destruct (byteval b <? 192) eqn:E; boolZ; [lia |]. rewrite andb_false_r. reflexivity.
Qed.

Lemma RuneStart_cont b : isCont b -> utf8.RuneStart b = false.
Proof.
  unfold isCont. intros H. rewrite RuneStart_spec.
  assert ((128 <=? byteval b) && (byteval b <? 192) = true) as ->; [| reflexivity].
  apply andb_true_iff. split; [apply Z.leb_le | apply Z.ltb_lt]; lia.
Qed.

Lemma decode_encode_exact r :
  utf8.ValidRune r = true ->
  utf8.DecodeRuneInString (utf8.EncodeRune r) = (r, length (utf8.EncodeRune r)).
Proof.
  intros H. pose proof (decode_encode r [] H) as D. rewrite app_nil_r in D. exact D.
Qed.

Lemma decodeLast_encode p r :
  utf8.ValidRune r = true ->
  utf8.DecodeLastRuneInString (p ++ utf8.EncodeRune r)
  = (r, length (utf8.EncodeRune r)).
Proof.
  intros Hv. pose proof (decode_encode_exact r Hv) as D.
  unfold utf8.DecodeLastRuneInString. rewrite rev_app_distr.
  assert (Hs : forall e, skipn (length (p ++ e) - length e) (p ++ e) = e).
  { intros e. rewrite length_app, Nat.add_sub.
    rewrite skipn_app, Nat.sub_diag, skipn_all, skipn_O. reflexivity. }
  assert (Hn : forall e, (length (p ++ e) - length e + length e =? length (p ++ e))%nat = true).
  { intros e. apply Nat.eqb_eq. rewrite length_app. lia. }
  destruct (encode_shape r) as [(b & E & Hb) | [(l & c1 & E & Hl & H1) |
    [(l & c1 & c2 & E & Hl & H1 & H2) | (l & c1 & c2 & c3 & E & Hl & H1 & H2 & H3)]]];
    rewrite E in *; cbn [rev app length].
  - unfold utf8.RuneSelf.
    assert ((byteval b <? 128) = true) as -> by (apply Z.ltb_lt; lia).
    unfold utf8.DecodeRuneInString in D. unfold utf8.RuneSelf in D.
    assert ((byteval b <? 128) = true) as E' by (apply Z.ltb_lt; lia).
    rewrite E' in D. cbn [length] in D. exact D.
  - unfold utf8.RuneSelf, isCont in *.
    assert ((byteval c1 <? 128) = false) as -> by (apply Z.ltb_ge; lia).
    cbn [Nat.sub utf8.UTFMax]. rewrite (RuneStart_lead l Hl).
    specialize (Hs [l; c1]). specialize (Hn [l; c1]). cbn [length] in Hs, Hn.
    rewrite Hs, D. cbn [length]. rewrite Hn. reflexivity.
  - unfold utf8.RuneSelf, isCont in *.
    assert ((byteval c2 <? 128) = false) as -> by (apply Z.ltb_ge; lia).
    cbn [Nat.sub utf8.UTFMax]. rewrite (RuneStart_cont c1 H1), (RuneStart_lead l Hl).
    specialize (Hs [l; c1; c2]). specialize (Hn [l; c1; c2]). cbn [length] in Hs, Hn.
    rewrite Hs, D. cbn [length]. rewrite Hn. reflexivity.
  - unfold utf8.RuneSelf, isCont in *.
    assert ((byteval c3 <? 128) = false) as -> by (apply Z.ltb_ge; lia).
    cbn [Nat.sub utf8.UTFMax].
    rewrite (RuneStart_cont c2 H2), (RuneStart_cont c1 H1), (RuneStart_lead l Hl).
    specialize (Hs [l; c1; c2; c3]). specialize (Hn [l; c1; c2; c3]). cbn [length] in Hs, Hn.
    rewrite Hs, D. cbn [length]. rewrite Hn. reflexivity.
Qed.

(** *** Lists trimmed at both ends *)

Section Trim.
Context {A : Type} (f : A -> bool).

Lemma dropWhileEnd_snoc l x :
  dropWhileEnd f (l ++ [x]) = if f x then dropWhileEnd f l else l ++ [x].
Proof.
  induction l as [| y l IH]; cbn [app dropWhileEnd].
  - destruct (f x); reflexivity.
  - rewrite IH. destruct (f x) eqn:E; [reflexivity |].
    destruct (l ++ [x]) eqn:E'; [destruct l; discriminate | reflexivity].
Qed.

Lemma dropWhileEnd_cases l :
  (forallb f l = true /\ dropWhileEnd f l = [])
  \/ (exists pre r suf, l = pre ++ r :: suf /\ f r = false
        /\ forallb f suf = true /\ dropWhileEnd f l = pre ++ [r]).
Proof.
  induction l as [| x l IH] using rev_ind; [left; auto |].
  rewrite dropWhileEnd_snoc. destruct (f x) eqn:E.
  - destruct IH as [[Hall Hd] | (pre & r & suf & -> & Hr & Hs & Hd)].
    + left. rewrite forallb_app, Hall. cbn. rewrite E. auto.
    + right. exists pre, r, (suf ++ [x]). rewrite <- app_assoc. cbn [app].
      repeat split; auto. rewrite forallb_app, Hs. cbn. rewrite E. reflexivity.
  - right. exists l, x, []. auto.
Qed.

Lemma dropWhile_forallb (P : A -> bool) l :
  forallb P l = true -> forallb P (dropWhile f l) = true.
Proof.
  induction l as [| x l IH]; [auto |]. cbn [forallb dropWhile]. intros H.
  apply andb_true_iff in H. destruct H as [Hx Hl].
  destruct (f x); [auto | cbn [forallb]; rewrite Hx, Hl; reflexivity].
Qed.

Lemma dropWhileEnd_forallb (P : A -> bool) l :
  forallb P l = true -> forallb P (dropWhileEnd f l) = true.
Proof.
  induction l as [| x l IH]; [auto |]. cbn [forallb dropWhileEnd]. intros H.
  apply andb_true_iff in H. destruct H as [Hx Hl]. specialize (IH Hl).
  destruct (dropWhileEnd f l) eqn:E.
  - destruct (f x); cbn [forallb]; rewrite ?Hx; reflexivity.
  - cbn [forallb] in *. rewrite Hx, IH. reflexivity.
Qed.

Lemma dropWhile_head_fixed l :
  match l with [] => True | x :: _ => f x = false end -> dropWhile f l = l.
Proof. destruct l as [| x l]; [reflexivity |]. cbn. intros ->. reflexivity. Qed.

Lemma dropWhile_head l :
  match dropWhile f l with [] => True | x :: _ => f x = false end.
Proof.
  induction l as [| x l IH]; [exact I |]. cbn [dropWhile].
  destruct (f x) eqn:E; [exact IH | exact E].
Qed.

Lemma dropWhileEnd_head l :
  match l with [] => True | x :: _ => f x = false end ->
  match dropWhileEnd f l with [] => True | x :: _ => f x = false end.
Proof.
  destruct l as [| x l]; [auto |]. cbn [dropWhileEnd]. intros E.
  destruct (dropWhileEnd f l); [| exact E].
  rewrite E. exact E.
Qed.

Lemma dropWhileEnd_idem l : dropWhileEnd f (dropWhileEnd f l) = dropWhileEnd f l.
Proof.
  induction l as [| x l IH]; [reflexivity |]. cbn [dropWhileEnd].
  destruct (dropWhileEnd f l) as [| y k] eqn:E.
  - destruct (f x) eqn:Ex; [reflexivity |]. cbn [dropWhileEnd]. rewrite Ex. reflexivity.
  - change (dropWhileEnd f (x :: y :: k))
      with (match dropWhileEnd f (y :: k) with
            | [] => if f x then [] else [x]
            | kept => x :: kept
            end).
    rewrite IH. reflexivity.
Qed.

Lemma trimBoth_idem l : trimBoth f (trimBoth f l) = trimBoth f l.
Proof.
  unfold trimBoth.
  rewrite (dropWhile_head_fixed (dropWhileEnd f (dropWhile f l))).
  - apply dropWhileEnd_idem.
  - apply dropWhileEnd_head. apply dropWhile_head.
Qed.

Lemma trimBoth_forallb (P : A -> bool) l :
  forallb P l = true -> forallb P (trimBoth f l) = true.
Proof. intros H. apply dropWhileEnd_forallb, dropWhile_forallb, H. Qed.

End Trim.

Lemma filter_all {A} (P : A -> bool) l : forallb P l = true -> filter P l = l.
Proof.
  induction l as [| x l IH]; [auto |]. cbn [forallb filter]. intros H.
  apply andb_true_iff in H. destruct H as [-> Hl]. rewrite IH; auto.
Qed.

Lemma filter_forallb {A} (P Q : A -> bool) l :
  forallb Q l = true -> forallb Q (filter P l) = true.
Proof.
  induction l as [| x l IH]; [auto |]. cbn [forallb filter]. intros H.
  apply andb_true_iff in H. destruct H as [Hx Hl].
  destruct (P x); [cbn [forallb]; rewrite Hx |]; auto.
Qed.

Lemma filter_self {A} (P : A -> bool) l : forallb P (filter P l) = true.
Proof.
  induction l as [| x l IH]; [auto |]. cbn [filter].
  destruct (P x) eqn:E; [cbn [forallb]; rewrite E |]; auto.
Qed.

(** [TrimRightFunc] and [TrimSpace] on runes. *)

Lemma length_encodeAll_ge rs : (length rs <= length (encodeAll rs))%nat.
Proof.
  induction rs as [| r rs IH]; [auto |].
  rewrite encodeAll_cons, length_app. pose proof (encode_length r). cbn [length]. lia.
Qed.

Lemma firstn_exact {A} (a b : list A) : firstn (length a) (a ++ b) = a.
Proof. rewrite firstn_app, Nat.sub_diag, firstn_all, firstn_O, app_nil_r. reflexivity. Qed.

Lemma skipn_exact {A} (a b : list A) : skipn (length a) (a ++ b) = b.
Proof. rewrite skipn_app, Nat.sub_diag, skipn_all, skipn_O. reflexivity. Qed.

Lemma lastIndexFrom_all f rs :
  forallb utf8.ValidRune rs = true -> forallb f rs = true ->
  forall fuel extra,
  strings.lastIndexFrom fuel f (encodeAll rs ++ extra) (length (encodeAll rs)) = None.
Proof.
  induction rs as [| x rs IH] using rev_ind; intros Hv Hf fuel extra.
  - destruct fuel; reflexivity.
  - destruct fuel as [| fuel]; [reflexivity |].
    rewrite forallb_app in Hv, Hf. cbn [forallb] in Hv, Hf.
    apply andb_true_iff in Hv, Hf. destruct Hv as [Hv Hx], Hf as [Hf Hfx].
    rewrite andb_true_r in Hx, Hfx.
    cbn [strings.lastIndexFrom].
    rewrite firstn_exact. rewrite encodeAll_app. cbn [encodeAll flat_map].
    rewrite app_nil_r. fold (encodeAll rs).
    rewrite decodeLast_encode by assumption. rewrite Hfx.
    rewrite length_app, Nat.add_sub.
    pose proof (encode_length x).
    destruct (length (encodeAll rs) + length (utf8.EncodeRune x))%nat eqn:E; [lia |].
    rewrite <- app_assoc. apply IH; assumption.
Qed.

Lemma lastIndexFrom_runes f pre r suf :
  forallb utf8.ValidRune (pre ++ r :: suf) = true ->
  f r = false -> forallb f suf = true ->
  forall fuel extra, (length suf < fuel)%nat ->
  strings.lastIndexFrom fuel f (encodeAll (pre ++ r :: suf) ++ extra)
                        (length (encodeAll (pre ++ r :: suf)))
  = Some (length (encodeAll pre)).
Proof.
  induction suf as [| x suf IH] using rev_ind; intros Hv Hr Hf fuel extra Hfuel.
  - destruct fuel as [| fuel]; [cbn [length] in Hfuel; lia |].
    rewrite forallb_app in Hv. cbn [forallb] in Hv.
    apply andb_true_iff in Hv. destruct Hv as [Hv Hx]. rewrite andb_true_r in Hx.
    cbn [strings.lastIndexFrom].
    rewrite firstn_exact. rewrite encodeAll_app. cbn [encodeAll flat_map].
    rewrite app_nil_r. fold (encodeAll pre).
    rewrite decodeLast_encode by assumption. rewrite Hr.
    rewrite length_app, Nat.add_sub.
    pose proof (encode_length r).
    destruct (length (encodeAll pre) + length (utf8.EncodeRune r))%nat eqn:E; [lia |].
    reflexivity.
  - destruct fuel as [| fuel]; [lia |].
    rewrite length_app in Hfuel. cbn [length] in Hfuel.
    replace (pre ++ r :: suf ++ [x]) with ((pre ++ r :: suf) ++ [x]) in *
      by (rewrite <- app_assoc; reflexivity).
    rewrite forallb_app in Hv, Hf. cbn [forallb] in Hv, Hf.
    apply andb_true_iff in Hv, Hf. destruct Hv as [Hv Hx], Hf as [Hf Hfx].
    rewrite andb_true_r in Hx, Hfx.
    cbn [strings.lastIndexFrom].
    rewrite firstn_exact. rewrite (encodeAll_app (pre ++ r :: suf)).
    cbn [encodeAll flat_map]. rewrite app_nil_r. fold (encodeAll (pre ++ r :: suf)).
    rewrite decodeLast_encode by assumption. rewrite Hfx.
    rewrite length_app, Nat.add_sub.
    pose proof (encode_length x).
    destruct (length (encodeAll (pre ++ r :: suf)) + length (utf8.EncodeRune x))%nat eqn:E;
      [lia |].
    rewrite <- app_assoc. apply IH; [assumption .. | lia].
Qed.

Lemma TrimRightFunc_runes f rs :
  forallb utf8.ValidRune rs = true ->
  strings.TrimRightFunc (encodeAll rs) f = encodeAll (dropWhileEnd f rs).
Proof.
  intros Hv. unfold strings.TrimRightFunc.
  destruct (dropWhileEnd_cases f rs) as [[Hall ->] | (pre & r & suf & -> & Hr & Hs & ->)].
  - pose proof (lastIndexFrom_all f rs Hv Hall (length (encodeAll rs)) []) as L.
    rewrite app_nil_r in L. rewrite L. reflexivity.
  - pose proof (lastIndexFrom_runes f pre r suf Hv Hr Hs
                  (length (encodeAll (pre ++ r :: suf))) []) as L.
    rewrite app_nil_r in L. rewrite L.
    2:{ pose proof (length_encodeAll_ge (pre ++ r :: suf)) as G.
        rewrite length_app in G. cbn [length] in G. lia. }
    clear L.
    rewrite forallb_app in Hv. cbn [forallb] in Hv.
    apply andb_true_iff in Hv. destruct Hv as [Hpre Hv].
    apply andb_true_iff in Hv. destruct Hv as [Hvr Hsuf].
    rewrite !encodeAll_app, encodeAll_cons. cbn [encodeAll flat_map].
    rewrite app_nil_r. fold (encodeAll pre) (encodeAll suf).
    rewrite skipn_exact.
    pose proof (decode_encode r (encodeAll suf) Hvr) as D.
    destruct (encode_shape r) as [(b & E & Hb) | [(l & c1 & E & Hl & _) |
      [(l & c1 & c2 & E & Hl & _) | (l & c1 & c2 & c3 & E & Hl & _)]]];
      rewrite E in *; cbn [app length] in *; unfold utf8.RuneSelf, isLead in *.
    + assert ((128 <=? byteval b) = false) as -> by (apply Z.leb_gt; lia).
      replace (length (encodeAll pre) + 1)%nat with (length (encodeAll pre ++ [b]))
        by (rewrite length_app; reflexivity).
      change (encodeAll pre ++ b :: encodeAll suf)
        with (encodeAll pre ++ [b] ++ encodeAll suf).
      rewrite app_assoc. apply firstn_exact.
    + assert ((128 <=? byteval l) = true) as -> by (apply Z.leb_le; lia).
      rewrite D.
      replace (length (encodeAll pre) + 2)%nat with (length (encodeAll pre ++ [l; c1]))
        by (rewrite length_app; reflexivity).
      change (encodeAll pre ++ l :: c1 :: encodeAll suf)
        with (encodeAll pre ++ [l; c1] ++ encodeAll suf).
      rewrite app_assoc. apply firstn_exact.
    + assert ((128 <=? byteval l) = true) as -> by (apply Z.leb_le; lia).
      rewrite D.
      replace (length (encodeAll pre) + 3)%nat with (length (encodeAll pre ++ [l; c1; c2]))
        by (rewrite length_app; reflexivity).
      change (encodeAll pre ++ l :: c1 :: c2 :: encodeAll suf)
        with (encodeAll pre ++ [l; c1; c2] ++ encodeAll suf).
      rewrite app_assoc. apply firstn_exact.
    + assert ((128 <=? byteval l) = true) as -> by (apply Z.leb_le; lia).
      rewrite D.
      replace (length (encodeAll pre) + 4)%nat
        with (length (encodeAll pre ++ [l; c1; c2; c3]))
        by (rewrite length_app; reflexivity).
      change (encodeAll pre ++ l :: c1 :: c2 :: c3 :: encodeAll suf)
        with (encodeAll pre ++ [l; c1; c2; c3] ++ encodeAll suf).
      rewrite app_assoc. apply firstn_exact.
Qed.

Lemma TrimSpace_runes rs :
  forallb utf8.ValidRune rs = true ->
  strings.TrimSpace (encodeAll rs) = encodeAll (trimBoth unicode.IsSpace rs).
Proof.
  intros Hv. unfold strings.TrimSpace, strings.TrimFunc, trimBoth.
  rewrite TrimLeftFunc_runes by assumption.
  apply TrimRightFunc_runes. apply dropWhile_forallb, Hv.
Qed.

Lemma cleanContent_encodeAll rs :
  forallb utf8.ValidRune rs = true ->
  cleanContent (encodeAll rs) = encodeAll (cleanRunes rs).
Proof.
  intros Hv. unfold cleanContent, cleanRunes.
  rewrite ValidString_encodeAll by assumption. cbn [negb].
  rewrite filter_loop_runes by assumption.
  apply TrimSpace_runes. apply filter_forallb, Hv.
Qed.

Lemma cleanContent_runes s :
  exists rs, forallb utf8.ValidRune rs = true
             /\ cleanContent s = encodeAll (cleanRunes rs).
Proof.
  destruct (utf8.ValidString s) eqn:V.
  - destruct (ValidString_runes s V) as (rs & Hv & ->).
    exists rs. split; [assumption | apply cleanContent_encodeAll, Hv].
  - destruct (toValid_runes (length s) s false (le_n _)) as (rs & Hv & E).
    exists rs. split; [assumption |].
    rewrite <- (cleanContent_encodeAll rs Hv).
    unfold cleanContent at 1. rewrite V. cbn [negb].
    unfold strings.ToValidUTF8. rewrite E.
    unfold cleanContent. rewrite ValidString_encodeAll by assumption. reflexivity.
Qed.

Lemma cleanRunes_idem rs : cleanRunes (cleanRunes rs) = cleanRunes rs.
Proof.
  unfold cleanRunes.
  rewrite (filter_all keepRune (trimBoth unicode.IsSpace (filter keepRune rs))).
  - apply trimBoth_idem.
  - apply trimBoth_forallb, filter_self.
Qed.


(** Cleaning what is already clean changes nothing. *)
Lemma cleanContent_twice s : cleanContent (cleanContent s) = cleanContent s.
Proof.
  destruct (cleanContent_runes s) as (rs & Hv & ->).
  rewrite cleanContent_encodeAll.
  - rewrite cleanRunes_idem. reflexivity.
  - unfold cleanRunes. apply trimBoth_forallb, filter_forallb, Hv.
Qed.

(** ** Chunking: which sentences go into which chunk *)

Lemma gostring_eqb_nil s : gostring_eqb s [] = true <-> s = [].
Proof. apply gostring_eqb_spec. Qed.

Lemma gostring_eqb_nil_false s : gostring_eqb s [] = false <-> s <> [].
Proof.
  split; intros H.
  - intros E. apply gostring_eqb_nil in E. congruence.
  - destruct (gostring_eqb s []) eqn:E; [| reflexivity].
    apply gostring_eqb_nil in E. contradiction.
Qed.

Lemma len_nonneg s : 0 <= len s.
Proof. unfold len. lia. Qed.

Lemma len_app a b : len (a ++ b) = len a + len b.
Proof. unfold len. rewrite length_app. lia. Qed.

Lemma len_nil_iff s : len s = 0 <-> s = [].
Proof.
  unfold len. split; [| intros ->; reflexivity].
  destruct s; [reflexivity | cbn [length]; lia].
Qed.

(** The loop skips the pieces that are empty once trimmed. *)
Lemma fold_chunkStep content pieces : forall st,
  fold_left (chunkStep content) pieces st
  = fold_left (chunkSentence content)
      (filter (fun s => negb (gostring_eqb s [])) (map strings.TrimSpace pieces)) st.
Proof.
  induction pieces as [| p pieces IH]; intros st; [reflexivity |].
  cbn [fold_left map filter]. unfold chunkStep at 2.
  destruct (gostring_eqb (strings.TrimSpace p) []); cbn [negb fold_left]; apply IH.
Qed.

Lemma computeChunks_sentences content :
  computeChunks content
  = chunkFlush content
      (fold_left (chunkSentence content) (sentencesOf content) chunkLoopInit).
Proof. unfold computeChunks, sentencesOf. rewrite fold_chunkStep. reflexivity. Qed.

Lemma sentencesOf_nonempty content :
  Forall (fun s => s <> []) (sentencesOf content).
Proof.
  unfold sentencesOf. apply Forall_forall. intros s Hs.
  apply filter_In in Hs. destruct Hs as [_ Hs].
  apply negb_true_iff, gostring_eqb_nil_false in Hs. exact Hs.
Qed.

Lemma joinSentences_snoc g s :
  joinSentences (g ++ [s])
  = match g with [] => s | _ => joinSentences g ++ str ". " ++ s end.
Proof.
  unfold joinSentences. induction g as [| x g IH]; [reflexivity |].
  destruct g as [| y g]; [reflexivity |].
  change ((x :: y :: g) ++ [s]) with (x :: (y :: g) ++ [s]).
  change (strings.Join (x :: (y :: g) ++ [s]) (str ". "))
    with (x ++ str ". " ++ strings.Join ((y :: g) ++ [s]) (str ". ")).
  rewrite IH.
  change (strings.Join (x :: y :: g) (str ". "))
    with (x ++ str ". " ++ strings.Join (y :: g) (str ". ")).
  rewrite <- !app_assoc. reflexivity.
Qed.

Lemma joinSentences_nil_iff g :
  Forall (fun s => s <> []) g -> (joinSentences g = [] <-> g = []).
Proof.
  intros H. split; [| intros ->; reflexivity].
  destruct g as [| x g]; [reflexivity |]. intros E. exfalso.
  inversion H as [| ? ? Hx _]; subst. apply Hx.
  unfold joinSentences in E. destruct g; cbn in E; [exact E |].
  apply app_eq_nil in E. tauto.
Qed.

Lemma nonempty_group_dec (cur : list gostring) :
  Forall (fun s => s <> []) cur ->
  gostring_eqb (joinSentences cur) [] = match cur with [] => true | _ => false end.
Proof.
  intros H. pose proof (joinSentences_nil_iff cur H) as J.
  destruct cur as [| x cur].
  - apply gostring_eqb_nil. reflexivity.
  - apply gostring_eqb_nil_false. intros E. apply J in E. discriminate.
Qed.

(** The loop and the grouping of the sentences agree. *)
Lemma loop_groups content ss :
  Forall (fun s => s <> []) ss ->
  forall st cur,
  Forall (fun s => s <> []) cur ->
  currentChunk st = joinSentences cur ->
  map chunkText (chunkFlush content (fold_left (chunkSentence content) ss st))
  = map chunkText (chunks st) ++ numbered (chunkIndex st) (groupFrom cur ss).
Proof.
  induction ss as [| s ss IH]; intros Hss st cur Hcur Hjoin.
  - cbn [fold_left groupFrom]. unfold chunkFlush.
    rewrite Hjoin, (nonempty_group_dec cur Hcur).
    destruct cur; cbn [negb numbered]; [rewrite app_nil_r; reflexivity |].
    rewrite map_app. reflexivity.
  - inversion Hss as [| ? ? Hs Hss']; subst.
    cbn [fold_left groupFrom]. unfold chunkSentence at 2.
    rewrite Hjoin.
    destruct (len (joinSentences cur) + len s <? chunkLimit) eqn:T.
    + rewrite (IH Hss' _ (cur ++ [s])); cbn [chunks currentChunk chunkIndex].
      * reflexivity.
      * apply Forall_app. split; [assumption | constructor; auto].
      * rewrite joinSentences_snoc, (nonempty_group_dec cur Hcur).
        destruct cur; cbn [negb]; [reflexivity |].
        rewrite <- app_assoc. reflexivity.
    + rewrite (nonempty_group_dec cur Hcur).
      destruct cur as [| x cur]; cbn [negb].
      * rewrite (IH Hss' _ [s]); cbn [chunks currentChunk chunkIndex app];
          [reflexivity | constructor; auto | reflexivity].
      * rewrite (IH Hss' _ [s]); cbn [chunks currentChunk chunkIndex app];
          [| constructor; auto | reflexivity].
        rewrite map_app, <- app_assoc. reflexivity.
Qed.

Lemma computeChunks_groups content :
  map chunkText (computeChunks content)
  = numbered 0 (groupFrom [] (sentencesOf content)).
Proof.
  rewrite computeChunks_sentences.
  rewrite (loop_groups content _ (sentencesOf_nonempty content) chunkLoopInit []);
    [reflexivity | constructor | reflexivity].
Qed.

Lemma numbered_fst k gs : map fst (numbered k gs) = map joinSentences gs.
Proof.
  revert k. induction gs as [| g gs IH]; intros k; [reflexivity |].
  cbn [numbered map fst]. rewrite IH. reflexivity.
Qed.

Lemma numbered_snd k gs :
  map snd (numbered k gs) = map (fun i => k + Z.of_nat i) (seq 0 (length gs)).
Proof.
  revert k. induction gs as [| g gs IH]; intros k; [reflexivity |].
  cbn [numbered map snd length seq]. rewrite IH. f_equal; [lia |].
  rewrite <- seq_shift, map_map. apply map_ext. intros i. lia.
Qed.

(** *** The groups *)

Lemma groupFrom_concat ss : forall cur, concat (groupFrom cur ss) = cur ++ ss.
Proof.
  induction ss as [| s ss IH]; intros cur; cbn [groupFrom].
  - destruct cur; cbn; rewrite ?app_nil_r; reflexivity.
  - destruct (len (joinSentences cur) + len s <? chunkLimit).
    + rewrite IH, <- app_assoc. reflexivity.
    + destruct cur; cbn [app concat]; rewrite IH; reflexivity.
Qed.

Lemma groupFrom_nonempty ss : forall cur,
  Forall (fun g => g <> []) (groupFrom cur ss).
Proof.
  induction ss as [| s ss IH]; intros cur; cbn [groupFrom].
  - destruct cur; constructor; [discriminate | constructor].
  - destruct (len (joinSentences cur) + len s <? chunkLimit); [apply IH |].
    destruct cur; cbn [app]; [apply IH |].
    constructor; [discriminate | apply IH].
Qed.

(** The first group extends the open one. *)
Lemma groupFrom_head ss : forall cur,
  cur <> [] -> exists more rest, groupFrom cur ss = (cur ++ more) :: rest.
Proof.
  induction ss as [| s ss IH]; intros cur Hc; cbn [groupFrom].
  - destruct cur; [contradiction |]. exists [], []. rewrite app_nil_r. reflexivity.
  - destruct (len (joinSentences cur) + len s <? chunkLimit).
    + destruct (IH (cur ++ [s])) as (more & rest & E); [destruct cur; discriminate |].
      exists (s :: more), rest. rewrite E, <- app_assoc. reflexivity.
    + destruct cur; [contradiction |]. exists [], (groupFrom [s] ss).
      rewrite app_nil_r. reflexivity.
Qed.

Lemma appendsFit_single s : appendsFit [s].
Proof.
  intros h x k E Hh. exfalso. destruct h as [| y h]; [contradiction |].
  destruct h; discriminate.
Qed.

Lemma appendsFit_nil : appendsFit [].
Proof. intros h x k E. destruct h; discriminate. Qed.

Lemma appendsFit_snoc cur s :
  appendsFit cur -> len (joinSentences cur) + len s < chunkLimit -> appendsFit (cur ++ [s]).
Proof.
  intros Hc T h x k E Hh.
  destruct k as [| y k] using rev_ind.
  - apply app_inj_tail in E. destruct E as [-> ->]. exact T.
  - clear IHk. change (h ++ x :: k ++ [y]) with (h ++ (x :: k) ++ [y]) in E.
    rewrite app_assoc in E. apply app_inj_tail in E. destruct E as [-> _].
    apply (Hc h x k); auto.
Qed.

Lemma groupFrom_appendsFit ss : forall cur,
  appendsFit cur -> Forall appendsFit (groupFrom cur ss).
Proof.
  induction ss as [| s ss IH]; intros cur Hc; cbn [groupFrom].
  - destruct cur; constructor; [assumption | constructor].
  - destruct (len (joinSentences cur) + len s <? chunkLimit) eqn:T.
    + apply IH. apply appendsFit_snoc; [assumption | apply Z.ltb_lt, T].
    + destruct cur; cbn [app]; [apply IH, appendsFit_single |].
      constructor; [assumption | apply IH, appendsFit_single].
Qed.

Lemma groupFrom_sealedWhenFull ss : forall cur, sealedWhenFull (groupFrom cur ss).
Proof.
  induction ss as [| s ss IH]; intros cur; cbn [groupFrom].
  - intros pre g1 g2 post x k E. exfalso.
    destruct cur; destruct pre as [| ? [| ? ?]]; discriminate.
  - destruct (len (joinSentences cur) + len s <? chunkLimit) eqn:T; [apply IH |].
    destruct cur as [| c cur]; cbn [app]; [apply IH |].
    intros pre g1 g2 post x k E E2.
    destruct pre as [| p pre]; cbn [app] in E.
    + injection E as <- E.
      destruct (groupFrom_head ss [s]) as (more & rest & Eh); [discriminate |].
      rewrite Eh in E. injection E as <- _. cbn [app] in E2. injection E2 as <- _.
      apply Z.ltb_ge, T.
    + injection E as _ E. apply (IH [s] pre g1 g2 post x k); assumption.
Qed.

Lemma joinSentences_single s : joinSentences [s] = s.
Proof. reflexivity. Qed.

Lemma appendsFit_long_alone g :
  appendsFit g -> forall s, In s g -> chunkLimit <= len s -> g = [s].
Proof.
  intros Hg s Hin Hlong. apply in_split in Hin. destruct Hin as (h & k & ->).
  destruct h as [| x h].
  - destruct k as [| y k]; [reflexivity |]. exfalso.
    pose proof (Hg [s] y k eq_refl ltac:(discriminate)) as F.
    rewrite joinSentences_single in F. pose proof (len_nonneg y). lia.
  - exfalso. pose proof (Hg (x :: h) s k eq_refl ltac:(discriminate)) as F.
    pose proof (len_nonneg (joinSentences (x :: h))). lia.
Qed.

Lemma appendsFit_size g :
  appendsFit g -> (exists s, g = [s]) \/ g = [] \/ len (joinSentences g) <= chunkLimit + 1.
Proof.
  intros Hg. destruct g as [| x g]; [auto |].
  destruct g as [| y g] using rev_ind; [left; eauto |]. clear IHg.
  right. right. change (x :: g ++ [y]) with ((x :: g) ++ [y]).
  rewrite joinSentences_snoc. cbn match.
  pose proof (Hg (x :: g) y [] eq_refl ltac:(discriminate)) as F.
  rewrite !len_app. change (len (str ". ")) with 2. lia.
Qed.

(** C7, as the code has it.  The chunks are the sentences of the document
    (the pieces between periods, trimmed, the empty ones skipped), taken in
    order and never split: each chunk is a group of consecutive sentences
    joined by ". ", numbered from 0.  A sentence joins the open chunk while
    the bytes of the chunk plus the bytes of the sentence stay below 1000
    (the joiner is not counted, so a chunk of several sentences can reach
    1001 bytes); otherwise the chunk is sealed and the sentence opens the
    next one.  A sentence of 1000 bytes or more is a chunk of its own, and
    what is accumulated at the end is the last chunk. *)
Theorem chunkDocument_groups_sentences : forall content,
  exists groups,
    map Content (computeChunks content) = map joinSentences groups
    /\ map ChunkIndex (computeChunks content) = map Z.of_nat (seq 0 (length groups))
    /\ concat groups = sentencesOf content
    /\ Forall (fun g => g <> []) groups
    /\ Forall appendsFit groups
    /\ sealedWhenFull groups
    /\ Forall (fun g => forall s, In s g -> chunkLimit <= len s -> g = [s]) groups
    /\ Forall (fun g => (exists s, g = [s])
                        \/ len (joinSentences g) <= chunkLimit + 1) groups.
Proof.
  intros content. exists (groupFrom [] (sentencesOf content)).
  pose proof (computeChunks_groups content) as E.
  pose proof (groupFrom_appendsFit (sentencesOf content) [] appendsFit_nil) as F.
  pose proof (groupFrom_nonempty (sentencesOf content) []) as N.
  repeat split.
  - rewrite <- numbered_fst with (k := 0), <- E, map_map. reflexivity.
  - transitivity (map snd (map chunkText (computeChunks content)));
      [rewrite map_map; reflexivity |].
    rewrite E, numbered_snd. apply map_ext. intros i. lia.
  - apply groupFrom_concat.
  - exact N.
  - exact F.
  - apply groupFrom_sealedWhenFull.
  - eapply Forall_impl; [| exact F]. intros g Hg. apply appendsFit_long_alone, Hg.
  - rewrite Forall_forall in *. intros g Hin.
    destruct (appendsFit_size g (F g Hin)) as [H | [H | H]]; auto.
    exfalso. exact (N g Hin H).
Qed.

(** C7 as stated fails: two sentences of 500 and 499 bytes make one chunk of
    1001 bytes, where sealing before the threshold is exceeded gives two. *)
Lemma chunk_exceeds_threshold :
  gostrings_eqb (map Content (computeChunks twoSentences))
                (chunksByDesign twoSentences) = false
  /\ map (fun c => len (Content c)) (computeChunks twoSentences) = [1001]
  /\ map len (chunksByDesign twoSentences) = [500; 499].
Proof. vm_compute. repeat split. Qed.

(** ** Chunking: the offsets *)

Lemma HasPrefix_spec p : forall s,
  strings.HasPrefix s p = true -> firstn (length p) s = p /\ (length p <= length s)%nat.
Proof.
  induction p as [| c p IH]; intros s H; cbn [strings.HasPrefix] in H.
  - split; [reflexivity | cbn; lia].
  - destruct s as [| d s]; [discriminate |]. cbn [strings.HasPrefix] in H.
    destruct (ascii_dec c d) as [E1 | E1]; [subst d | discriminate H].
    destruct (IH s H) as [E L]. cbn [firstn length]. rewrite E. split; [reflexivity | lia].
Qed.

Lemma occurrences_spec sub : forall s off z,
  In z (strings.occurrences off s sub) ->
  off <= z /\ z + len sub <= off + len s
  /\ firstn (length sub) (skipn (Z.to_nat (z - off)) s) = sub.
Proof.
  induction s as [| c s IH]; intros off z Hin; cbn [strings.occurrences] in Hin.
  - destruct (strings.HasPrefix [] sub) eqn:P; [| contradiction].
    destruct Hin as [<- | []]. apply HasPrefix_spec in P. destruct P as [E L].
    rewrite Z.sub_diag. cbn [Z.to_nat skipn]. unfold len. cbn [length] in *.
    repeat split; [lia | lia | exact E].
  - apply in_app_or in Hin. destruct Hin as [Hin | Hin].
    + destruct (strings.HasPrefix (c :: s) sub) eqn:P; [| contradiction].
      destruct Hin as [<- | []]. apply HasPrefix_spec in P. destruct P as [E L].
      rewrite Z.sub_diag. cbn [Z.to_nat skipn]. unfold len.
      repeat split; [lia | lia | exact E].
    + destruct (IH _ _ Hin) as (A & B & C). unfold len in *. cbn [length].
      repeat split; [lia | lia |].
      replace (Z.to_nat (z - off)) with (S (Z.to_nat (z - (off + 1)))) by lia.
      exact C.
Qed.

Lemma Index_spec s sub :
  strings.Index s sub = -1
  \/ (0 <= strings.Index s sub /\ strings.Index s sub + len sub <= len s
      /\ firstn (length sub) (skipn (Z.to_nat (strings.Index s sub)) s) = sub).
Proof.
  unfold strings.Index.
  destruct (strings.occurrences 0 s sub) as [| z l] eqn:E; [left; reflexivity |].
  right. cbn [hd].
  destruct (occurrences_spec sub s 0 z) as (A & B & C); [rewrite E; left; reflexivity |].
  rewrite Z.sub_0_r in C. repeat split; [lia | lia | exact C].
Qed.

Lemma last_In {A} (l : list A) d : l <> [] -> In (last l d) l.
Proof.
  induction l as [| x l IH]; [contradiction |]. intros _.
  destruct l as [| y l]; [left; reflexivity |].
  right. apply IH. discriminate.
Qed.

Lemma LastIndex_spec s sub :
  strings.LastIndex s sub = -1
  \/ (0 <= strings.LastIndex s sub /\ strings.LastIndex s sub + len sub <= len s
      /\ firstn (length sub) (skipn (Z.to_nat (strings.LastIndex s sub)) s) = sub).
Proof.
  unfold strings.LastIndex.
  destruct (strings.occurrences 0 s sub) as [| z l] eqn:E; [left; reflexivity |].
  right. rewrite <- E.
  destruct (occurrences_spec sub s 0 (last (strings.occurrences 0 s sub) (-1)))
    as (A & B & C); [apply last_In; rewrite E; discriminate |].
  rewrite Z.sub_0_r in C. repeat split; [lia | lia | exact C].
Qed.

Lemma len_sliceFrom s i : 0 <= i <= len s -> len (strings.sliceFrom s i) = len s - i.
Proof. intros H. unfold len, strings.sliceFrom in *. rewrite length_skipn. lia. Qed.

Lemma len_sliceTo s j : 0 <= j <= len s -> len (strings.sliceTo s j) = j.
Proof. intros H. unfold len, strings.sliceTo in *. rewrite length_firstn. lia. Qed.

(** A copy found in a prefix of the document is a copy in the document. *)
Lemma copy_in_prefix content j z sub :
  0 <= z -> z + len sub <= j -> j <= len content ->
  firstn (length sub) (skipn (Z.to_nat z) (strings.sliceTo content j)) = sub ->
  slice content z (z + len sub) = sub.
Proof.
  intros Hz Hj Hl E. unfold slice, strings.sliceFrom, strings.sliceTo, len in *.
  etransitivity; [| exact E].
  rewrite firstn_skipn_comm, firstn_firstn. do 2 f_equal. lia.
Qed.

(** A copy found in a suffix of the document is a copy in the document. *)
Lemma copy_in_suffix content i z sub :
  0 <= z -> 0 <= i ->
  firstn (length sub) (skipn (Z.to_nat z) (strings.sliceFrom content i)) = sub ->
  slice content (z + i) (z + (i + len sub)) = sub.
Proof.
  intros Hz Hi E. unfold slice, strings.sliceFrom, strings.sliceTo, len in *.
  etransitivity; [| exact E].
  rewrite skipn_skipn, firstn_skipn_comm.
  f_equal; [lia |]. f_equal. lia.
Qed.

Lemma StronglySorted_snoc l x :
  StronglySorted Z.le l -> Forall (fun y => y <= x) l -> StronglySorted Z.le (l ++ [x]).
Proof.
  induction l as [| y l IH]; intros S F; cbn [app].
  - constructor; constructor.
  - inversion S as [| ? ? S' Hy]; subst. inversion F as [| ? ? Fy F']; subst.
    constructor; [apply IH; assumption |].
    apply Forall_app. split; [assumption | constructor; [assumption | constructor]].
Qed.

Lemma endsAsSearched_snoc content cs c next next' :
  endsAsSearched content cs next ->
  StartPosition c = next ->
  endsAtCopy content c \/ EndPosition c = next' ->
  endsAsSearched content (cs ++ [c]) next'.
Proof.
  induction cs as [| d cs IH]; intros H Hs Hc; cbn [app endsAsSearched].
  - split; [exact Hc | exact I].
  - cbn [endsAsSearched] in H. destruct H as [Hd Hrest]. split.
    + destruct Hd as [Hd | Hd]; [left; exact Hd |]. right.
      destruct cs; cbn [app]; [rewrite Hs; exact Hd | exact Hd].
    + apply IH; assumption.
Qed.

(** The start found for a sentence lies between the start of the open
    chunk and the end of the document. *)
Lemma sentenceStart_range content cs sentence :
  0 <= cs <= len content ->
  let found := strings.Index (strings.sliceFrom content cs) sentence in
  cs <= (if found =? -1 then 0 else found) + cs <= len content.
Proof.
  intros Hcs found. subst found.
  destruct (Index_spec (strings.sliceFrom content cs) sentence) as [-> | (A & B & _)].
  - cbn. lia.
  - rewrite len_sliceFrom in B by assumption. pose proof (len_nonneg sentence).
    destruct (_ =? -1) eqn:E; [lia | lia].
Qed.

Lemma sealed_end content sS cur :
  0 <= sS <= len content ->
  let found := strings.LastIndex (strings.sliceTo content sS) cur in
  let chunkEnd := if found =? -1 then sS else found + len cur in
  0 <= chunkEnd <= sS
  /\ ((0 <= chunkEnd - len cur /\ slice content (chunkEnd - len cur) chunkEnd = cur)
      \/ chunkEnd = sS).
Proof.
  intros HsS found chunkEnd. subst found chunkEnd.
  destruct (LastIndex_spec (strings.sliceTo content sS) cur) as [-> | (A & B & C)].
  - cbn. split; [lia | right; reflexivity].
  - rewrite len_sliceTo in B by assumption. pose proof (len_nonneg cur).
    destruct (_ =? -1) eqn:E; [apply Z.eqb_eq in E; lia |].
    split; [lia |]. left.
    replace (strings.LastIndex (strings.sliceTo content sS) cur + len cur - len cur)
      with (strings.LastIndex (strings.sliceTo content sS) cur) by lia.
    split; [lia |]. apply (copy_in_prefix content sS); [lia | lia | lia | exact C].
Qed.

Lemma flushed_end content cS cur :
  0 <= cS <= len content ->
  let found := strings.LastIndex (strings.sliceFrom content cS) cur in
  let chunkEnd := if found =? -1 then len content else found + (cS + len cur) in
  0 <= chunkEnd <= len content
  /\ ((0 <= chunkEnd - len cur /\ slice content (chunkEnd - len cur) chunkEnd = cur)
      \/ chunkEnd = len content).
Proof.
  intros HcS found chunkEnd. subst found chunkEnd.
  destruct (LastIndex_spec (strings.sliceFrom content cS) cur) as [-> | (A & B & C)].
  - cbn. split; [lia | right; reflexivity].
  - rewrite len_sliceFrom in B by assumption. pose proof (len_nonneg cur).
    destruct (_ =? -1) eqn:E; [apply Z.eqb_eq in E; lia |].
    split; [lia |]. left.
    replace (strings.LastIndex (strings.sliceFrom content cS) cur + (cS + len cur) - len cur)
      with (strings.LastIndex (strings.sliceFrom content cS) cur + cS) by lia.
    split; [lia |]. apply copy_in_suffix; [lia | lia | exact C].
Qed.

Lemma offsetsInv_step content st sentence :
  sentence <> [] -> offsetsInv content st ->
  offsetsInv content (chunkSentence content st sentence).
Proof.
  intros Hne (Hcs & Hnil & Hall & Hsorted & Hends).
  pose proof (sentenceStart_range content (currentStart st) sentence Hcs) as HsS.
  cbv zeta in HsS. unfold chunkSentence.
  set (sS := (if strings.Index (strings.sliceFrom content (currentStart st)) sentence =? -1
              then 0
              else strings.Index (strings.sliceFrom content (currentStart st)) sentence)
             + currentStart st) in *.
  destruct (len (currentChunk st) + len sentence <? chunkLimit).
  - unfold offsetsInv. cbn [chunks currentChunk currentStart].
    repeat split; try assumption; try lia.
    intros E. apply app_eq_nil in E. destruct E as [_ E]. contradiction.
  - destruct (gostring_eqb (currentChunk st) []) eqn:Enil; cbn [negb].
    + apply gostring_eqb_nil in Enil. rewrite (Hnil Enil).
      unfold offsetsInv. cbn [chunks currentChunk currentStart map endsAsSearched].
      repeat split; try lia; try constructor.
    + pose proof (sealed_end content sS (currentChunk st) ltac:(lia)) as (Hend & Hcopy).
      cbv zeta in Hend, Hcopy.
      unfold offsetsInv. cbn [chunks currentChunk currentStart].
      repeat split; try lia.
      * intros E. contradiction.
      * apply Forall_app. split.
        -- eapply Forall_impl; [| exact Hall]. cbv beta. intros c Hc. lia.
        -- constructor; [| constructor]. cbn [StartPosition EndPosition]. lia.
      * rewrite map_app. cbn [map StartPosition].
        apply StronglySorted_snoc; [assumption |].
        apply Forall_map. eapply Forall_impl; [| exact Hall]. cbv beta. intros c Hc. lia.
      * eapply endsAsSearched_snoc; [exact Hends | reflexivity |].
        unfold endsAtCopy. cbn [StartPosition EndPosition Content]. exact Hcopy.
Qed.

Lemma offsetsInv_fold content ss : forall st,
  Forall (fun s => s <> []) ss -> offsetsInv content st ->
  offsetsInv content (fold_left (chunkSentence content) ss st).
Proof.
  induction ss as [| s ss IH]; intros st Hss Hst; [exact Hst |].
  inversion Hss; subst. cbn [fold_left]. apply IH; [assumption |].
  apply offsetsInv_step; assumption.
Qed.

Lemma offsetsInv_init content : offsetsInv content chunkLoopInit.
Proof.
  unfold offsetsInv, chunkLoopInit. cbn [chunks currentChunk currentStart map endsAsSearched].
  pose proof (len_nonneg content).
  repeat split; try lia; constructor.
Qed.

Lemma offsets_flush content st :
  offsetsInv content st ->
  StronglySorted Z.le (map StartPosition (chunkFlush content st))
  /\ Forall (fun c => 0 <= StartPosition c <= len content
                      /\ 0 <= EndPosition c <= len content) (chunkFlush content st)
  /\ endsAsSearched content (chunkFlush content st) (len content).
Proof.
  intros (Hcs & Hnil & Hall & Hsorted & Hends). unfold chunkFlush.
  destruct (gostring_eqb (currentChunk st) []) eqn:Enil; cbn [negb].
  - apply gostring_eqb_nil in Enil. rewrite (Hnil Enil).
    cbn [map endsAsSearched]. repeat split; constructor.
  - pose proof (flushed_end content (currentStart st) (currentChunk st) Hcs) as (Hend & Hcopy).
    cbv zeta in Hend, Hcopy. repeat split.
    + rewrite map_app. cbn [map StartPosition].
      apply StronglySorted_snoc; [assumption |].
      apply Forall_map. eapply Forall_impl; [| exact Hall]. cbv beta. intros c Hc. lia.
    + apply Forall_app. split.
      * eapply Forall_impl; [| exact Hall]. cbv beta. intros c Hc. lia.
      * constructor; [| constructor]. cbn [StartPosition EndPosition]. lia.
    + eapply endsAsSearched_snoc; [exact Hends | reflexivity |].
      unfold endsAtCopy. cbn [StartPosition EndPosition Content]. exact Hcopy.
Qed.

(** What does hold of the offsets.  Start offsets never decrease from one
    chunk to the next, and every offset lies within the document.  An end
    offset is the end of some copy of the chunk's text in the document, or
    the start of the next chunk, or the length of the document for the last
    chunk.  Nothing ties the end of a chunk to its start. *)
Theorem chunk_offsets : forall content,
  StronglySorted Z.le (map StartPosition (computeChunks content))
  /\ Forall (fun c => 0 <= StartPosition c <= len content
                      /\ 0 <= EndPosition c <= len content) (computeChunks content)
  /\ endsAsSearched content (computeChunks content) (len content).
Proof.
  intros content. rewrite computeChunks_sentences.
  apply offsets_flush, offsetsInv_fold;
    [apply sentencesOf_nonempty | apply offsetsInv_init].
Qed.

(** C2 as stated fails: for two sentences on two lines the range of the one
    chunk is the whole document, final period included, and the chunk's text
    is not what the range holds, white space ignored or not. *)
Lemma chunk_range_differs :
  cleanContent twoLines = twoLines
  /\ computeChunks twoLines = [mkChunkInfo (str "One. Two") 0 0 9]
  /\ slice twoLines 0 9 = twoLines
  /\ sameIgnoringSpace (slice twoLines 0 9) (str "One. Two") = false.
Proof. vm_compute. repeat split. Qed.

(** C2 fails in the code.  The end of a chunk is searched with
    [strings.LastIndex] in everything before the next sentence, so from the
    start of the document: when the chunk's text stands in the document a
    second time, later, with a newline where the loop joins with a space,
    the search finds the earlier copy.  In [saidTwice] the chunk of index 2
    is [A. B] with the range from 1008 to 4: the end lies before the
    start, and no region of the document is named by it. *)
Lemma chunk_end_before_start :
  cleanContent saidTwice = saidTwice
  /\ map (fun c => (ChunkIndex c, StartPosition c, EndPosition c)) (computeChunks saidTwice)
     = [(0, 0, 4); (1, 6, 1006); (2, 1008, 4); (3, 1014, 2014)]
  /\ nth_error (map Content (computeChunks saidTwice)) 2 = Some (str "A. B")
  /\ Exists (fun c => EndPosition c < StartPosition c) (computeChunks saidTwice).
Proof.
  assert (H : map (fun c => (ChunkIndex c, StartPosition c, EndPosition c))
                  (computeChunks saidTwice)
              = [(0, 0, 4); (1, 6, 1006); (2, 1008, 4); (3, 1014, 2014)])
    by (vm_compute; reflexivity).
  split; [vm_compute; reflexivity |]. split; [exact H |].
  split; [vm_compute; reflexivity |].
  destruct (computeChunks saidTwice) as [| c0 [| c1 [| c2 cs]]]; try discriminate.
  cbn [map] in H. injection H as _ _ _ _ _ _ _ Hs He _.
  right. right. left. rewrite Hs, He. reflexivity.
Qed.

(** ** The embedding *)

Lemma components_length n : forall i seed, length (components n i seed) = n.
Proof.
  induction n as [| n IH]; intros i seed; [reflexivity |].
  cbn [components length]. rewrite IH. reflexivity.
Qed.

(** Every vector has 1536 components. *)
Lemma generateEmbedding_dimension caseTable order text :
  exists v, generateEmbedding caseTable order text = Done v /\ length v = dimensions.
Proof.
  unfold generateEmbedding. eexists. split; [reflexivity |]. apply components_length.
Qed.

(** The order of a map loop is a rearrangement of the entries. *)
Lemma removeAt_length {A} (l : list A) : forall i,
  (i < length l)%nat -> length (removeAt i l) = pred (length l).
Proof.
  induction l as [| x l IH]; intros i Hi; [cbn in Hi; lia |].
  destruct i as [| i]; [reflexivity |]. cbn [removeAt length] in *.
  rewrite IH by lia. destruct l; cbn in *; lia.
Qed.

Lemma nth_removeAt_perm {A} (l : list A) : forall i d,
  (i < length l)%nat -> Permutation (nth i l d :: removeAt i l) l.
Proof.
  induction l as [| x l IH]; intros i d Hi; [cbn in Hi; lia |].
  destruct i as [| i]; [reflexivity |]. cbn [nth removeAt length] in *.
  etransitivity; [apply Permutation.perm_swap |].
  constructor. apply IH. lia.
Qed.

Lemma pickEntries_perm {A} n : forall order (m : list A),
  length m = n -> Permutation (pickEntries n order m) m.
Proof.
  induction n as [| n IH]; intros order m Hn.
  - destruct m; [constructor | discriminate].
  - destruct m as [| x m]; [discriminate |]. cbn [pickEntries].
    set (i := (hd 0%nat order mod length (x :: m))%nat).
    assert (Hi : (i < length (x :: m))%nat).
    { subst i. apply Nat.mod_upper_bound. discriminate. }
    etransitivity; [| apply (nth_removeAt_perm (x :: m) i x Hi)].
    constructor. apply IH. rewrite removeAt_length by assumption.
    rewrite Hn. reflexivity.
Qed.

Lemma rangeMap_perm {A} order (m : list A) :
  Permutation (rangeMap order m) m.
Proof. apply pickEntries_perm. reflexivity. Qed.

(** C9 at the text "a b": the words weigh 2 and 1; visiting "a" first
    gives the hash 6112, visiting "b" first gives 6270, and the two vectors
    differ from the first component on.  Both have 1536 components. *)
Theorem generateEmbedding_depends_on_map_order : forall caseTable,
  wordHash caseTable (str "a b") = [(str "a", 2); (str "b", 1)]
  /\ combinedHash (rangeMap [0%nat] (wordHash caseTable (str "a b"))) = 6112
  /\ combinedHash (rangeMap [1%nat] (wordHash caseTable (str "a b"))) = 6270
  /\ (exists v1 v2,
        generateEmbedding caseTable [0%nat] (str "a b") = Done v1
        /\ generateEmbedding caseTable [1%nat] (str "a b") = Done v2
        /\ length v1 = dimensions /\ length v2 = dimensions
        /\ hd S754_nan v1 = S754_finite false 8724152 (-27)
        /\ hd S754_nan v2 = S754_finite false 9630122 (-25)
        /\ SFeqb (hd S754_nan v1) (hd S754_nan v2) = false).
Proof.
  intros caseTable.
  assert (W : wordHash caseTable (str "a b") = [(str "a", 2); (str "b", 1)])
    by (vm_compute; reflexivity).
  unfold generateEmbedding. rewrite W.
  split; [reflexivity |]. split; [vm_compute; reflexivity |].
  split; [vm_compute; reflexivity |].
  do 2 eexists. split; [reflexivity |]. split; [reflexivity |].
  rewrite !components_length.
  split; [reflexivity |]. split; [reflexivity |].
  vm_compute. repeat split.
Qed.

(** ** Ingestion *)

Section IngestionFacts.

Variable caseTable : Z -> Z.
Variable extractEntities : gostring -> list Entity.
Variable extractRelationships : gostring -> gomap -> list Relationship.
Variable env : Env.

Lemma bind_run {A B} (m : M A) (k : A -> M B) w :
  bind m k w = k (fst (m w)) (snd (m w)).
Proof. unfold bind. destruct (m w). reflexivity. Qed.

(** What a statement leaves behind. *)
Lemma exec_done {R} (stmt : nat -> DB -> outcome (DB * R)) w r w' :
  exec env stmt w = (Done r, w') ->
  exists d, stmt (clock w) (db w) = Done (d, r)
            /\ w' = mkWorld d (S (clock w)) (goroutines w).
Proof.
  unfold exec. destruct (dbFails env (clock w)); [discriminate |].
  destruct (stmt (clock w) (db w)) as [[d r'] | err]; [| discriminate].
  intros E. injection E as <- <-. eauto.
Qed.

Lemma exec_failed {R} (stmt : nat -> DB -> outcome (DB * R)) w err w' :
  exec env stmt w = (Failed err, w') ->
  w' = mkWorld (db w) (S (clock w)) (goroutines w).
Proof.
  unfold exec. destruct (dbFails env (clock w)); [intros E; injection E as _ <-; reflexivity |].
  destruct (stmt (clock w) (db w)) as [[d r'] | err']; [discriminate |].
  intros E. injection E as _ <-. reflexivity.
Qed.

(** Computations that leave the [documents] table as it is. *)
Definition keepsDocuments {A} (m : M A) : Prop :=
  forall w, tbl_documents (db (snd (m w))) = tbl_documents (db w).

Lemma keeps_ret {A} (a : A) : keepsDocuments (ret a).
Proof. intros w. reflexivity. Qed.

Lemma keeps_bind {A B} (m : M A) (k : A -> M B) :
  keepsDocuments m -> (forall a, keepsDocuments (k a)) -> keepsDocuments (bind m k).
Proof.
  intros Hm Hk w. rewrite bind_run. rewrite Hk. apply Hm.
Qed.

Lemma keeps_tick : keepsDocuments tick.
Proof. intros w. reflexivity. Qed.

Lemma keeps_exec {R} (stmt : nat -> DB -> outcome (DB * R)) :
  (forall now d d' r, stmt now d = Done (d', r) -> tbl_documents d' = tbl_documents d) ->
  keepsDocuments (exec env stmt).
Proof.
  intros H w. unfold exec. destruct (dbFails env (clock w)); [reflexivity |].
  destruct (stmt (clock w) (db w)) as [[d r] | err] eqn:E; [| reflexivity].
  cbn [snd db]. eapply H. exact E.
Qed.

Lemma keeps_foldM {A S} (f : S -> A -> M S) l :
  (forall s x, keepsDocuments (f s x)) -> forall s, keepsDocuments (foldM f l s).
Proof.
  intros H. induction l as [| x l IH]; intros s; cbn [foldM].
  - apply keeps_ret.
  - apply keeps_bind; [apply H | intros a; apply IH].
Qed.

Lemma keeps_generateEmbeddingM text :
  keepsDocuments (generateEmbeddingM caseTable env text).
Proof.
  unfold generateEmbeddingM. apply keeps_bind; [apply keeps_tick | intros; apply keeps_ret].
Qed.

Lemma insertChunk_keeps id c e i s t now d d' r :
  insertChunk id c e i s t now d = Done (d', r) -> tbl_documents d' = tbl_documents d.
Proof.
  unfold insertChunk. destruct (negb (documentExists d id)); [discriminate |].
  intros E. injection E as <- _. reflexivity.
Qed.

Lemma selectNodeId_keeps n t now d d' r :
  selectNodeId n t now d = Done (d', r) -> tbl_documents d' = tbl_documents d.
Proof.
  unfold selectNodeId. destruct (find _ _); [| discriminate].
  intros E. injection E as <- _. reflexivity.
Qed.

Lemma upsertNode_keeps n t p e id now d d' r :
  upsertNode n t p e id now d = Done (d', r) -> tbl_documents d' = tbl_documents d.
Proof.
  unfold upsertNode. destruct (negb (documentExists d id)); [discriminate |].
  destruct (find _ _); intros E; injection E as <- _; reflexivity.
Qed.

Lemma upsertEdge_keeps s t ty p id now d d' r :
  upsertEdge s t ty p id now d = Done (d', r) -> tbl_documents d' = tbl_documents d.
Proof.
  unfold upsertEdge.
  destruct (negb (nodeExists d s)); [discriminate |].
  destruct (negb (nodeExists d t)); [discriminate |].
  destruct (negb (documentExists d id)); [discriminate |].
  destruct (find _ _); intros E; injection E as <- _; reflexivity.
Qed.

Lemma updateQueue_keeps c f d d' r :
  updateQueue c f d = Done (d', r) -> tbl_documents d' = tbl_documents d.
Proof. unfold updateQueue. intros E. injection E as <- _. reflexivity. Qed.

Lemma keeps_chunkDocument id content :
  keepsDocuments (chunkDocument caseTable env id content).
Proof.
  unfold chunkDocument. apply keeps_bind; [| intros; apply keeps_ret].
  unfold forM_. apply keeps_foldM. intros _ c. unfold storeChunk.
  apply keeps_bind; [apply keeps_generateEmbeddingM |].
  intros [v | err]; (apply keeps_bind; [| intros; apply keeps_ret]);
    apply keeps_exec; intros now d d' r; apply insertChunk_keeps.
Qed.

Lemma keeps_ExtractEntitiesAndRelations id content :
  keepsDocuments
    (ExtractEntitiesAndRelations caseTable extractEntities extractRelationships env id content).
Proof.
  unfold ExtractEntitiesAndRelations. apply keeps_bind.
  - apply keeps_foldM. intros m e. unfold storeEntity.
    apply keeps_bind; [apply keeps_exec; intros now d d' r; apply selectNodeId_keeps |].
    intros [x | [| msg]]; try apply keeps_ret.
    apply keeps_bind; [apply keeps_generateEmbeddingM |].
    intros [v | err]; [| apply keeps_ret].
    apply keeps_bind; [apply keeps_exec; intros now d d' r; apply upsertNode_keeps |].
    intros [x | err]; apply keeps_ret.
  - intros m. apply keeps_bind; [| intros; apply keeps_ret].
    unfold forM_. apply keeps_foldM. intros _ rel. unfold storeRelationship.
    apply keeps_bind; [| intros; apply keeps_ret].
    apply keeps_exec. intros now d d' r. apply upsertEdge_keeps.
Qed.

(** [generateEmbedding] never returns an error. *)
Lemma generateEmbeddingM_done text w :
  exists v, generateEmbeddingM caseTable env text w
            = (Done v, mkWorld (db w) (S (clock w)) (goroutines w))
            /\ generateEmbedding caseTable (mapOrder env (clock w)) text = Done v.
Proof.
  unfold generateEmbeddingM, bind, tick, ret, generateEmbedding.
  eexists. split; reflexivity.
Qed.

(** C8.  [ProcessDocument] returns an error exactly when the cleaned content
    is empty, the embedding of the document fails, or the statement that
    stores the document fails.  Whatever the statements of chunking and
    extraction do afterwards, the result is [nil]. *)
Theorem ProcessDocument_error_iff : forall req w,
  let cleaned := cleanContent (req_Content req) in
  let embedded := generateEmbeddingM caseTable env cleaned w in
  (exists err,
     fst (ProcessDocument caseTable extractEntities extractRelationships env req w)
     = Some err)
  <->
  (cleaned = []
   \/ (exists err, fst embedded = Failed err)
   \/ (exists v err,
         fst embedded = Done v
         /\ fst (storeDocument env (req_URL req) (req_Title req) cleaned v (snd embedded))
            = Failed err)).
Proof.
  intros req w cleaned embedded. unfold ProcessDocument. fold cleaned.
  destruct (gostring_eqb cleaned []) eqn:E.
  { apply gostring_eqb_spec in E. split; [auto | intros _; eexists; reflexivity]. }
  assert (Hne : cleaned <> []).
  { intros C. apply gostring_eqb_spec in C. congruence. }
  rewrite bind_run. fold embedded.
  destruct (generateEmbeddingM_done cleaned w) as (v & Hv & _).
  fold embedded in Hv. rewrite Hv. cbn [fst snd].
  rewrite bind_run.
  destruct (storeDocument env (req_URL req) (req_Title req) cleaned v _)
    as [[id | err] w2] eqn:Hst.
  - cbn [fst snd]. rewrite !bind_run. cbn [ret fst]. split.
    + intros [err E']. discriminate.
    + intros [C | [[err E'] | (v' & err & Ev & E')]];
        [contradiction | discriminate |].
      injection Ev as <-. rewrite Hst in E'. discriminate.
  - cbn [fst snd ret]. split; [| intros _; eexists; reflexivity].
    intros _. right. right. exists v, err.
    split; [reflexivity | rewrite Hst; reflexivity].
Qed.

End IngestionFacts.

(** *** The upsert of a document *)

Lemma filter_nothing {A} (f : A -> bool) l :
  (forall y, In y l -> f y = false) -> filter f l = [].
Proof.
  induction l as [| x l IH]; intros H; [reflexivity |]. cbn [filter].
  rewrite (H x (or_introl eq_refl)). apply IH. intros y Hy. apply H. right. exact Hy.
Qed.

Lemma filter_unique_key {A} (key : A -> gostring) (l : list A) k :
  NoDup (map key l) ->
  forall r, In r l -> key r = k -> filter (fun x => gostring_eqb (key x) k) l = [r].
Proof.
  induction l as [| x l IH]; intros Hnd r Hin Hk; [contradiction |].
  cbn [map] in Hnd. inversion Hnd as [| ? ? Hx Hnd']; subst.
  cbn [filter]. destruct Hin as [-> | Hin].
  - assert (E : gostring_eqb (key r) (key r) = true) by (apply gostring_eqb_spec; reflexivity).
    rewrite E. f_equal. apply filter_nothing.
    intros y Hy. destruct (gostring_eqb (key y) (key r)) eqn:Ey; [| reflexivity].
    exfalso. apply gostring_eqb_spec in Ey. apply Hx. rewrite <- Ey.
    apply in_map. exact Hy.
  - destruct (gostring_eqb (key x) (key r)) eqn:Ex.
    + exfalso. apply gostring_eqb_spec in Ex. apply Hx. rewrite Ex. apply in_map. exact Hin.
    + apply IH; auto.
Qed.

Lemma filter_none {A} (f : A -> bool) l : find f l = None -> filter f l = [].
Proof.
  induction l as [| x l IH]; [reflexivity |]. cbn [find filter].
  destruct (f x); [discriminate | exact IH].
Qed.

Lemma upsertDocument_spec url title content embedding now d d' id :
  uniqueURLs d ->
  upsertDocument url title content embedding now d = Done (d', id) ->
  uniqueURLs d'
  /\ (exists row, documentsWithURL d' url = [row]
        /\ doc_id row = id /\ doc_title row = title /\ doc_content row = content
        /\ doc_embedding row = embedding)
  /\ (forall old, documentsWithURL d url = [old] ->
        id = doc_id old /\ length (tbl_documents d') = length (tbl_documents d)).
Proof.
  unfold uniqueURLs, documentsWithURL, upsertDocument. intros Hnd.
  destruct (find _ _) as [old |] eqn:F; intros E; injection E as <- <-;
    cbn [tbl_documents set_documents].
  - apply find_some in F. destruct F as [Hin Hurl]. apply gostring_eqb_spec in Hurl.
    pose proof (filter_unique_key doc_url _ url Hnd old Hin Hurl) as U.
    set (upd := fun r : Document =>
                  if gostring_eqb (doc_url r) url
                  then mkDocument (doc_id r) (doc_url r) title content embedding
                                  (doc_created_at r) now
                  else r).
    assert (Hkey : forall r, doc_url (upd r) = doc_url r).
    { intros r. subst upd. cbv beta. destruct (gostring_eqb (doc_url r) url); reflexivity. }
    assert (Hmap : map doc_url (map upd (tbl_documents d)) = map doc_url (tbl_documents d)).
    { rewrite map_map. apply map_ext. exact Hkey. }
    assert (Hfilter : filter (fun r => gostring_eqb (doc_url r) url) (map upd (tbl_documents d))
                      = map upd (filter (fun r => gostring_eqb (doc_url r) url) (tbl_documents d))).
    { clear. induction (tbl_documents d) as [| x l IH]; [reflexivity |].
      cbn [map filter]. replace (doc_url (upd x)) with (doc_url x)
        by (subst upd; cbv beta; destruct (gostring_eqb (doc_url x) url); reflexivity).
      destruct (gostring_eqb (doc_url x) url); cbn [map]; rewrite IH; reflexivity. }
    split; [rewrite Hmap; exact Hnd |]. split.
    + exists (upd old). rewrite Hfilter, U. split; [reflexivity |].
      subst upd. cbv beta.
      assert (Eo : gostring_eqb (doc_url old) url = true) by (apply gostring_eqb_spec; exact Hurl).
      rewrite Eo. cbn. auto.
    + intros old' Ho. rewrite U in Ho. injection Ho as <-.
      split; [reflexivity | apply length_map].
  - pose proof (filter_none _ _ F) as N.
    split; [| split].
    + rewrite map_app. cbn [map doc_url].
      apply NoDup_app; [exact Hnd | repeat constructor; intros [] | ].
      intros u Hu [<- | []]. apply in_map_iff in Hu. destruct Hu as (r & Hr & Hin).
      eapply find_none in F; [| exact Hin]. apply gostring_eqb_spec in Hr. congruence.
    + eexists. rewrite filter_app, N. cbn [filter doc_url app].
      assert (Eu : gostring_eqb url url = true) by (apply gostring_eqb_spec; reflexivity).
      rewrite Eu. split; [reflexivity |]. cbn. auto.
    + intros old Ho. rewrite N in Ho. discriminate.
Qed.

Section Reingestion.

Variable caseTable : Z -> Z.
Variable extractEntities : gostring -> list Entity.
Variable extractRelationships : gostring -> gomap -> list Relationship.
Variable env : Env.


Lemma storeDocument_stores url title content v order w id w' :
  uniqueURLs (db w) ->
  generateEmbedding caseTable order content = Done v ->
  storeDocument env url title content v w = (Done id, w') ->
  uniqueURLs (db w')
  /\ exists row,
       documentsWithURL (db w') url = [row]
       /\ doc_title row = title /\ doc_content row = content
       /\ (exists order,
             generateEmbedding caseTable order (doc_content row)
             = Done (doc_embedding row))
       /\ (forall old, documentsWithURL (db w) url = [old] ->
             doc_id row = doc_id old
             /\ length (tbl_documents (db w')) = length (tbl_documents (db w))).
Proof.
  intros Hu Hv Hs. unfold storeDocument in Hs. apply exec_done in Hs.
  destruct Hs as (d & Hd & ->). cbn [db].
  destruct (upsertDocument_spec _ _ _ _ _ _ _ _ Hu Hd)
    as (Hu' & (row & Hrow & Hid & Ht & Hc & He) & Hold).
  split; [exact Hu' |]. exists row. repeat split; try assumption.
  - exists order. rewrite Hc, He. exact Hv.
  - destruct (Hold old H) as [<- _]. exact Hid.
  - apply (Hold old H).
Qed.

Lemma same_documents d1 d2 url :
  tbl_documents d1 = tbl_documents d2 ->
  (uniqueURLs d1 <-> uniqueURLs d2)
  /\ documentsWithURL d1 url = documentsWithURL d2 url.
Proof. unfold uniqueURLs, documentsWithURL. intros ->. split; reflexivity. Qed.

Lemma ProcessDocument_stores req w w' :
  uniqueURLs (db w) ->
  ProcessDocument caseTable extractEntities extractRelationships env req w = (None, w') ->
  storedBy caseTable env (viaDocument req) w w'.
Proof.
  intros Hu H. unfold ProcessDocument in H.
  destruct (gostring_eqb (cleanContent (req_Content req)) []); [discriminate |].
  rewrite bind_run in H.
  destruct (generateEmbeddingM_done caseTable env (cleanContent (req_Content req)) w)
    as (v & Hv & Hgen).
  rewrite Hv in H. cbn [fst snd] in H. rewrite bind_run in H.
  destruct (storeDocument env (req_URL req) (req_Title req) _ v _) as [[id | err] w2] eqn:Hst;
    cbn [fst snd] in H; [| discriminate].
  rewrite !bind_run in H. cbn [ret] in H. injection H as <-.
  destruct (storeDocument_stores _ _ _ _ _
              (mkWorld (db w) (S (clock w)) (goroutines w)) _ _ Hu Hgen Hst)
    as (Hu2 & row & Hrow & Ht & Hc & He & Hold).
  unfold storedBy, uniqueURLs, documentsWithURL in *. cbn [ingestedURL ingests db] in *.
  match goal with |- context [tbl_documents (db ?w3)] =>
    assert (Hd : tbl_documents (db w3) = tbl_documents (db w2))
      by (rewrite keeps_ExtractEntitiesAndRelations, keeps_chunkDocument; reflexivity)
  end.
  rewrite Hd. split; [exact Hu2 |]. exists row.
  split; [exact Hrow |]. split; [auto |]. split; [exact He |]. exact Hold.
Qed.

Lemma keeps_spawn id content : keepsDocuments (spawn id content).
Proof. intros w. reflexivity. Qed.

Lemma fetchContent_done url w content title w' :
  fetchContent env url w = (Done (content, title), w') ->
  db w' = db w
  /\ exists t page,
       fetchPage env t url = Done page
       /\ title = (if gostring_eqb (page_title page) [] then url else page_title page)
       /\ content = cleanContent (last (page_bodies page) []).
Proof.
  unfold fetchContent, fetch, bind, tick, ret.
  destruct (fetchPage env (clock w) url) as [page | err] eqn:F; [| discriminate].
  destruct (gostring_eqb (cleanContent (last (page_bodies page) [])) []); [discriminate |].
  intros E. injection E as <- <- <-. split; [reflexivity |].
  exists (clock w), page. auto.
Qed.

Lemma ProcessURL_stores url w w' :
  uniqueURLs (db w) ->
  ProcessURL caseTable env url w = (None, w') ->
  storedBy caseTable env (viaURL url) w w'.
Proof.
  intros Hu H. unfold ProcessURL in H. rewrite bind_run in H.
  destruct (exec env (setStatusByURL processing url) w) as [[n | err] w1] eqn:E1;
    cbn [fst snd] in H; [| discriminate].
  assert (D1 : tbl_documents (db w1) = tbl_documents (db w)).
  { pose proof (keeps_exec env (setStatusByURL processing url)
                  (fun now d d' r => updateQueue_keeps _ _ d d' r) w) as K.
    rewrite E1 in K. exact K. }
  rewrite bind_run in H.
  destruct (fetchContent env url w1) as [[[content title] | err] w2] eqn:E2;
    cbn [fst snd] in H; [| rewrite bind_run in H; discriminate].
  destruct (fetchContent_done _ _ _ _ _ E2) as (D2 & t & page & Hpage & Htitle & Hcontent).
  rewrite bind_run in H.
  destruct (generateEmbeddingM_done caseTable env (cleanContent content) w2)
    as (v & Hv & Hgen).
  rewrite Hv in H. cbn [fst snd] in H. rewrite bind_run in H.
  destruct (storeDocument env url title (cleanContent content) v _)
    as [[id | err] w4] eqn:Hst; cbn [fst snd] in H;
    [| rewrite bind_run in H; discriminate].
  rewrite !bind_run in H. cbn [ret] in H. injection H as <-.
  assert (Hu2 : uniqueURLs (db w2)).
  { unfold uniqueURLs. rewrite D2, D1. exact Hu. }
  destruct (storeDocument_stores _ _ _ _ _
              (mkWorld (db w2) (S (clock w2)) (goroutines w2)) _ _ Hu2 Hgen Hst)
    as (Hu4 & row & Hrow & Ht & Hc & He & Hold).
  unfold storedBy, uniqueURLs, documentsWithURL in *. cbn [ingestedURL ingests db] in *.
  match goal with |- context [tbl_documents (db ?w5)] =>
    assert (Hd : tbl_documents (db w5) = tbl_documents (db w4))
  end.
  { rewrite (keeps_exec env (setStatusByURL completed url)
               (fun now d d' r => updateQueue_keeps _ _ d d' r)).
    cbn [db]. apply keeps_chunkDocument. }
  rewrite Hd. rewrite D2, D1 in Hold.
  split; [exact Hu4 |]. exists row.
  split; [exact Hrow |]. split; [| split; [exact He | exact Hold]].
  exists t, page. split; [exact Hpage |]. split; [congruence |].
  rewrite Hc, Hcontent. apply cleanContent_twice.
Qed.

Lemma ingest_stores i w w' :
  uniqueURLs (db w) ->
  ingest caseTable extractEntities extractRelationships env i w = (None, w') ->
  storedBy caseTable env i w w'.
Proof.
  destruct i as [req | url]; cbn [ingest].
  - apply ProcessDocument_stores.
  - apply ProcessURL_stores.
Qed.

(** C1.  Two ingestions of one URL that both succeed, by either entry
    point, leave exactly one row for the URL.  The row is the one the first
    ingestion left, with the same id; it holds the title, the content and an
    embedding of the content of the second ingestion; and the table has not
    grown. *)
Theorem reingestion_updates_in_place : forall first second w w1 w2,
  uniqueURLs (db w) ->
  ingestedURL first = ingestedURL second ->
  ingest caseTable extractEntities extractRelationships env first w = (None, w1) ->
  ingest caseTable extractEntities extractRelationships env second w1 = (None, w2) ->
  exists row1 row2,
    documentsWithURL (db w1) (ingestedURL first) = [row1]
    /\ documentsWithURL (db w2) (ingestedURL first) = [row2]
    /\ doc_id row2 = doc_id row1
    /\ ingests env second (doc_title row2) (doc_content row2)
    /\ (exists order,
          generateEmbedding caseTable order (doc_content row2)
          = Done (doc_embedding row2))
    /\ length (tbl_documents (db w2)) = length (tbl_documents (db w1))
    /\ uniqueURLs (db w2).
Proof.
  intros first second w w1 w2 Hu Hsame H1 H2.
  destruct (ingest_stores first w w1 Hu H1) as (Hu1 & row1 & Hrow1 & _).
  destruct (ingest_stores second w1 w2 Hu1 H2) as (Hu2 & row2 & Hrow2 & Hi & He & Hold).
  rewrite <- Hsame in Hrow2, Hold.
  destruct (Hold row1 Hrow1) as [Hid Hlen].
  exists row1, row2. repeat split; assumption.
Qed.

End Reingestion.

(** C1 at work: a document submitted inline, then the same URL fetched, on
    an empty database. *)
Lemma reingestion_example :
  exists row1 row2,
    documentsWithURL (db afterFirst) (ingestedURL firstIngestion) = [row1]
    /\ documentsWithURL (db afterSecond) (ingestedURL firstIngestion) = [row2]
    /\ doc_id row2 = doc_id row1
    /\ ingests quietEnv secondIngestion (doc_title row2) (doc_content row2)
    /\ (exists order,
          generateEmbedding asciiOnly order (doc_content row2)
          = Done (doc_embedding row2))
    /\ length (tbl_documents (db afterSecond)) = length (tbl_documents (db afterFirst))
    /\ uniqueURLs (db afterSecond).
Proof.
  apply (reingestion_updates_in_place asciiOnly noEntities noRelationships quietEnv
           firstIngestion secondIngestion freshWorld afterFirst afterSecond).
  - constructor.
  - reflexivity.
  - vm_compute. reflexivity.
  - vm_compute. reflexivity.
Defined.

(** C10.  [cleanContent] is idempotent; so the content [fetchContent]
    returns, which it has cleaned, is what [ProcessURL] gets when it cleans
    it again. *)
Theorem cleanContent_idempotent :
  (forall s, cleanContent (cleanContent s) = cleanContent s)
  /\ (forall env url w,
        match fst (fetchContent env url w) with
        | Done (content, _) => cleanContent content = content
        | Failed _ => True
        end).
Proof.
  split; [apply cleanContent_twice |].
  intros env url w.
  destruct (fetchContent env url w) as [[[content title] | err] w'] eqn:E; cbn [fst];
    [| exact I].
  destruct (fetchContent_done env _ _ _ _ _ E) as (_ & t & page & _ & _ & ->).
  apply cleanContent_twice.
Qed.

(** ** The text that [cleanContent] returns *)

Lemma runesOf_encodeAll rs :
  forallb utf8.ValidRune rs = true -> runesOf (encodeAll rs) = rs.
Proof.
  intros H. unfold runesOf. rewrite range_encodeAll by assumption.
  rewrite map_map. cbn [fst]. apply map_id.
Qed.

Lemma dropWhileEnd_last {A} (f : A -> bool) l :
  match rev (dropWhileEnd f l) with [] => True | x :: _ => f x = false end.
Proof.
  destruct (dropWhileEnd_cases f l) as [[_ ->] | (pre & r & suf & _ & Hr & _ & ->)].
  - exact I.
  - rewrite rev_app_distr. exact Hr.
Qed.

(** Whatever the bytes given to it, [cleanContent] returns well-formed
    UTF-8 in which every rune is a newline, a tab or neither a control
    character nor DEL, and which neither begins nor ends with white
    space. *)
Theorem cleanContent_output : forall s,
  utf8.ValidString (cleanContent s) = true
  /\ forallb keepRune (runesOf (cleanContent s)) = true
  /\ beginsWithSpace (cleanContent s) = false
  /\ endsWithSpace (cleanContent s) = false.
Proof.
  intros s. destruct (cleanContent_runes s) as (rs & Hv & ->).
  assert (Hc : forallb utf8.ValidRune (cleanRunes rs) = true)
    by (unfold cleanRunes; apply trimBoth_forallb, filter_forallb, Hv).
  unfold beginsWithSpace, endsWithSpace. rewrite runesOf_encodeAll by assumption.
  split; [apply ValidString_encodeAll, Hc |].
  split; [unfold cleanRunes; apply trimBoth_forallb, filter_self |].
  unfold cleanRunes, trimBoth. split.
  - pose proof (dropWhileEnd_head unicode.IsSpace
                  (dropWhile unicode.IsSpace (filter keepRune rs))
                  (dropWhile_head unicode.IsSpace (filter keepRune rs))) as H.
    destruct (dropWhileEnd _ _); [reflexivity | exact H].
  - pose proof (dropWhileEnd_last unicode.IsSpace
                  (dropWhile unicode.IsSpace (filter keepRune rs))) as H.
    destruct (rev _); [reflexivity | exact H].
Qed.

(** ** Statements under a driver that does not fail *)

Lemma exec_reliable env {R} (stmt : nat -> DB -> outcome (DB * R)) w :
  reliable env ->
  exec env stmt w
  = match stmt (clock w) (db w) with
    | Done (d, r) => (Done r, mkWorld d (S (clock w)) (goroutines w))
    | Failed err => (Failed err, mkWorld (db w) (S (clock w)) (goroutines w))
    end.
Proof. intros H. unfold exec. rewrite H. reflexivity. Qed.

Lemma existsb_filter {A} (f g : A -> bool) l :
  existsb f (filter g l) = existsb (fun x => g x && f x) l.
Proof.
  induction l as [| x l IH]; [reflexivity |]. cbn [filter existsb].
  destruct (g x); cbn [existsb andb]; rewrite IH; reflexivity.
Qed.

Lemma existsb_none {A} (f : A -> bool) l :
  (forall x, In x l -> f x = false) -> existsb f l = false.
Proof.
  induction l as [| x l IH]; [reflexivity |]. intros H. cbn [existsb].
  rewrite (H x (or_introl eq_refl)), IH; [reflexivity |].
  intros y Hy. apply H. right. exact Hy.
Qed.

Lemma existsb_ext_eq {A} (f g : A -> bool) l :
  (forall x, f x = g x) -> existsb f l = existsb g l.
Proof. intros H. induction l as [| x l IH]; [reflexivity |]. cbn. rewrite H, IH. reflexivity. Qed.

Lemma filter_nil_length {A} (f : A -> bool) l :
  (Z.of_nat (length (filter f l)) =? 0)
  = match filter f l with [] => true | _ => false end.
Proof. destruct (filter f l); reflexivity. Qed.

(** ** Deletion *)

Lemma bind_exec env {R B} (stmt : nat -> DB -> outcome (DB * R)) (k : outcome R -> M B) w :
  reliable env ->
  bind (exec env stmt) k w
  = match stmt (clock w) (db w) with
    | Done (d, r) => k (Done r) (mkWorld d (S (clock w)) (goroutines w))
    | Failed err => k (Failed err) (mkWorld (db w) (S (clock w)) (goroutines w))
    end.
Proof.
  intros H. unfold bind. rewrite exec_reliable by assumption.
  destruct (stmt (clock w) (db w)) as [[d r] | err]; reflexivity.
Qed.

Lemma firstHeld_none {A B} (heldBy : A -> option B) rows :
  firstHeld heldBy rows = None <-> forall r, In r rows -> heldBy r = None.
Proof.
  induction rows as [| x rows IH]; cbn [firstHeld In]; [tauto |].
  destruct (heldBy x) eqn:E.
  - split; [discriminate |]. intros H. rewrite <- E. apply H. left. reflexivity.
  - rewrite IH. split.
    + intros H r [<- | Hr]; auto.
    + intros H r Hr. apply H. right. exact Hr.
Qed.

Lemma firstHeld_some {A B} (heldBy : A -> option B) rows b :
  firstHeld heldBy rows = Some b -> exists r, In r rows /\ heldBy r = Some b.
Proof.
  induction rows as [| x rows IH]; cbn [firstHeld]; [discriminate |].
  destruct (heldBy x) eqn:E.
  - intros H. injection H as <-. exists x. split; [left; reflexivity | exact E].
  - intros H. destruct (IH H) as (r & Hr & Er). exists r. split; [right |]; assumption.
Qed.

Lemma In_memZ x l : In x l -> memZ x l = true.
Proof.
  intros H. unfold memZ. apply existsb_exists. exists x. split; [exact H | apply Z.eqb_refl].
Qed.

Lemma memZ_mapped {A} (f : A -> Z) x l :
  memZ x (map f l) = true -> exists a, In a l /\ f a = x.
Proof.
  unfold memZ. intros H. apply existsb_exists in H. destruct H as (y & Hy & E).
  apply Z.eqb_eq in E. subst y. apply in_map_iff in Hy. destruct Hy as (a & <- & Ha).
  exists a. auto.
Qed.

Lemma nodesHeld_split d url : nodesHeld d url = heldAsSource d url || heldAsTarget d url.
Proof.
  unfold nodesHeld, heldAsSource, heldAsTarget, nodesOfURL.
  induction (tbl_knowledge_edges d) as [| e es IH]; [reflexivity |].
  cbn [existsb]. rewrite IH.
  destruct (negb _), (memZ (edge_source_id e) _), (memZ (edge_target_id e) _),
    (existsb _ es), (existsb _ es); reflexivity.
Qed.

(** What refuses the deletion of the nodes, and when. *)
Lemma heldThrough_spec d url :
  match heldThrough d url with
  | Some constraint => nodesHeld d url = true /\ holdsNodes d url constraint
  | None => nodesHeld d url = false
  end.
Proof.
  unfold heldThrough. cbn [withoutEdgesOf tbl_knowledge_edges set_knowledge_edges].
  set (staying := filter _ (tbl_knowledge_edges d)).
  assert (Hs : forall e, In e staying <->
                         In e (tbl_knowledge_edges d)
                         /\ negb (optMemZ (edge_document_id e) (documentIdsOfURL d url)) = true).
  { intros e. unfold staying. rewrite filter_In. reflexivity. }
  destruct (firstHeld _ _) as [c |] eqn:F.
  - apply firstHeld_some in F. destruct F as (n & Hn & Hc).
    assert (Hm : memZ (node_id n) (map node_id (nodesOfURL d url)) = true)
      by (apply In_memZ, in_map; exact Hn).
    assert (G : holdsNodes d url c).
    { unfold nodeHeldBy in Hc.
      destruct (existsb (fun e => edge_source_id e =? node_id n) staying) eqn:S1.
      - injection Hc as <-. left. split; [reflexivity |].
        apply existsb_exists in S1. destruct S1 as (e & He & Ee).
        apply Hs in He. destruct He as [He Hd]. apply Z.eqb_eq in Ee.
        unfold heldAsSource. apply existsb_exists. exists e. split; [exact He |].
        rewrite Hd, Ee, Hm. reflexivity.
      - destruct (existsb (fun e => edge_target_id e =? node_id n) staying) eqn:S2;
          [| discriminate].
        injection Hc as <-. right. split; [reflexivity |].
        apply existsb_exists in S2. destruct S2 as (e & He & Ee).
        apply Hs in He. destruct He as [He Hd]. apply Z.eqb_eq in Ee.
        unfold heldAsTarget. apply existsb_exists. exists e. split; [exact He |].
        rewrite Hd, Ee, Hm. reflexivity. }
    split; [| exact G]. rewrite nodesHeld_split.
    destruct G as [[_ ->] | [_ ->]]; [reflexivity | apply orb_true_r].
  - rewrite firstHeld_none in F. unfold nodesHeld. apply existsb_none. intros e He.
    destruct (negb (optMemZ (edge_document_id e) (documentIdsOfURL d url))) eqn:Hd;
      [| reflexivity].
    assert (Hin : In e staying) by (apply Hs; auto).
    cbn [andb]. apply orb_false_iff. fold (nodesOfURL d url).
    split.
    + destruct (memZ (edge_source_id e) (map node_id (nodesOfURL d url))) eqn:M;
        [| reflexivity].
      apply memZ_mapped in M. destruct M as (n & Hn & En).
      specialize (F n Hn). unfold nodeHeldBy in F.
      rewrite (proj2 (existsb_exists _ _)) in F; [discriminate |].
      exists e. split; [exact Hin | apply Z.eqb_eq; auto].
    + destruct (memZ (edge_target_id e) (map node_id (nodesOfURL d url))) eqn:M;
        [| reflexivity].
      apply memZ_mapped in M. destruct M as (n & Hn & En).
      specialize (F n Hn). unfold nodeHeldBy in F.
      destruct (existsb (fun e => edge_source_id e =? node_id n) staying);
        [discriminate |].
      rewrite (proj2 (existsb_exists _ _)) in F; [discriminate |].
      exists e. split; [exact Hin | apply Z.eqb_eq; auto].
Qed.

Lemma nodesHeld_heldThrough d url :
  nodesHeld d url = match heldThrough d url with Some _ => true | None => false end.
Proof.
  pose proof (heldThrough_spec d url) as H.
  destruct (heldThrough d url); [exact (proj1 H) | exact H].
Qed.

Lemma documents_free d url :
  let ids := documentIdsOfURL d url in
  firstHeld
    (documentHeldBy
       (mkDB (tbl_documents d)
             (filter (fun c => negb (memZ (chunk_document_id c) ids)) (tbl_chunks d))
             (filter (fun n => negb (optMemZ (node_document_id n) ids))
                     (tbl_knowledge_nodes d))
             (filter (fun e => negb (optMemZ (edge_document_id e) ids))
                     (tbl_knowledge_edges d))
             (tbl_url_queue d) (documents_id_seq d) (chunks_id_seq d)
             (knowledge_nodes_id_seq d) (knowledge_edges_id_seq d) (url_queue_id_seq d)))
    (filter (fun r => gostring_eqb (doc_url r) url) (tbl_documents d))
  = None.
Proof.
  intros ids. apply firstHeld_none. intros r Hr.
  assert (Hid : memZ (doc_id r) ids = true)
    by (apply In_memZ; unfold ids, documentIdsOfURL; apply in_map; exact Hr).
  unfold documentHeldBy. cbn [tbl_chunks tbl_knowledge_nodes tbl_knowledge_edges].
  rewrite !existsb_filter, !existsb_none; [reflexivity | | |]; intros x _.
  - destruct (edge_document_id x) as [i |]; cbn [optMemZ optZ_eqb negb andb];
      [| reflexivity].
    destruct (i =? doc_id r) eqn:E; [| apply andb_false_r].
    apply Z.eqb_eq in E. subst i. rewrite Hid. reflexivity.
  - destruct (node_document_id x) as [i |]; cbn [optMemZ optZ_eqb negb andb];
      [| reflexivity].
    destruct (i =? doc_id r) eqn:E; [| apply andb_false_r].
    apply Z.eqb_eq in E. subst i. rewrite Hid. reflexivity.
  - destruct (chunk_document_id x =? doc_id r) eqn:E; [| apply andb_false_r].
    apply Z.eqb_eq in E. rewrite E, Hid. reflexivity.
Qed.

Lemma deleteDataOfURL_run env url (k : M (option error)) w :
  reliable env ->
  deleteDataOfURL env url k w
  = match heldThrough (db w) url with
    | Some constraint =>
      (Some (nodesRefused constraint),
       mkWorld (withoutEdgesOf url (db w)) (S (S (clock w))) (goroutines w))
    | None =>
      k (mkWorld (withoutDataOf url (db w)) (S (S (S (S (clock w))))) (goroutines w))
    end.
Proof.
  intros Hr. unfold deleteDataOfURL.
  rewrite bind_exec by assumption.
  cbn [deleteEdgesOfURL].
  rewrite bind_exec by assumption.
  unfold deleteNodesOfURL. cbn [clock db goroutines].
  change (documentIdsOfURL (set_knowledge_edges (db w) _ _) url)
    with (documentIdsOfURL (db w) url).
  cbn [tbl_knowledge_edges tbl_knowledge_nodes set_knowledge_edges].
  change (firstHeld _ _) with (heldThrough (db w) url).
  destruct (heldThrough (db w) url) as [c |]; [reflexivity |].
  rewrite bind_exec by assumption.
  cbn [deleteChunksOfURL].
  rewrite bind_exec by assumption.
  unfold deleteDocumentsOfURL. cbn [clock db goroutines].
  cbn [tbl_documents set_chunks set_knowledge_nodes set_knowledge_edges].
  change (documentIdsOfURL (set_knowledge_nodes _ _ _) url)
    with (documentIdsOfURL (db w) url).
  change (documentIdsOfURL (mkDB _ _ _ _ _ _ _ _ _ _) url)
    with (documentIdsOfURL (db w) url).
  cbn [tbl_documents tbl_chunks tbl_knowledge_nodes tbl_knowledge_edges tbl_url_queue
       documents_id_seq chunks_id_seq knowledge_nodes_id_seq knowledge_edges_id_seq
       url_queue_id_seq set_knowledge_nodes].
  pose proof (documents_free (db w) url) as F. cbv zeta in F.
  match goal with |- context [firstHeld ?h ?r] =>
    replace (firstHeld h r) with (@None (string * string)) by (symmetry; exact F)
  end.
  reflexivity.
Qed.

Lemma DeleteURL_run env url w :
  reliable env ->
  DeleteURL env url w
  = match queuedWithURL (db w) url with
    | [] => (Some (urlNotFound url), mkWorld (db w) (S (clock w)) (goroutines w))
    | _ =>
      deleteDataOfURL env url (ret None)
        (mkWorld (markQueue deleted url (S (clock w)) (db w))
                 (S (S (clock w))) (goroutines w))
    end.
Proof.
  intros Hr. unfold DeleteURL, deleteDataOfURL.
  rewrite bind_exec by assumption. cbn [countQueueURL].
  rewrite filter_nil_length. fold (queuedWithURL (db w) url).
  destruct (queuedWithURL (db w) url) as [| q qs] eqn:Eq; [reflexivity |].
  rewrite bind_exec by assumption.
  cbn [setStatusByURL updateQueue clock db goroutines].
  fold (queuedWithURL (db w) url). rewrite Eq. reflexivity.
Qed.

Lemma DeleteURL_cases env url w :
  reliable env ->
  DeleteURL env url w
  = match queuedWithURL (db w) url with
    | [] => (Some (urlNotFound url), mkWorld (db w) (S (clock w)) (goroutines w))
    | _ =>
      let marked := markQueue deleted url (S (clock w)) (db w) in
      match heldThrough (db w) url with
      | Some constraint =>
        (Some (nodesRefused constraint),
         mkWorld (withoutEdgesOf url marked) (S (S (S (S (clock w))))) (goroutines w))
      | None =>
        (None,
         mkWorld (withoutDataOf url marked) (S (S (S (S (S (S (clock w)))))))
                 (goroutines w))
      end
    end.
Proof.
  intros Hr. rewrite DeleteURL_run by assumption.
  destruct (queuedWithURL (db w) url); [reflexivity |].
  rewrite deleteDataOfURL_run by assumption. reflexivity.
Qed.

(** With a driver that does not fail, [DeleteURL] returns the not-found
    error exactly when the queue has no row for the URL, and [nil] exactly
    when it has one and no edge of another document holds a node of the
    documents of the URL.  When such an edge does, the result is the error
    of the deletion of the nodes: the foreign-key error of the server for
    the reference, [source_id] or [target_id], that holds a node. *)
Theorem DeleteURL_outcome : forall env url w,
  reliable env ->
  (result (DeleteURL env url) w = Some (urlNotFound url)
   <-> queuedWithURL (db w) url = [])
  /\ (result (DeleteURL env url) w = None
      <-> queuedWithURL (db w) url <> [] /\ nodesHeld (db w) url = false)
  /\ (queuedWithURL (db w) url <> [] -> nodesHeld (db w) url = true ->
      exists constraint,
        holdsNodes (db w) url constraint
        /\ result (DeleteURL env url) w = Some (nodesRefused constraint)).
Proof.
  intros env url w Hr. unfold result. rewrite DeleteURL_cases by assumption.
  pose proof (heldThrough_spec (db w) url) as S.
  destruct (queuedWithURL (db w) url) as [| q qs]; cbn [fst].
  - repeat split; try congruence; try discriminate.
    intros [H _]. congruence.
  - cbv zeta. destruct (heldThrough (db w) url) as [c |]; cbn [fst].
    + destruct S as [S G]. rewrite S. repeat split; try congruence; try discriminate.
      * intros [_ H]. discriminate.
      * intros _ _. exists c. auto.
    + rewrite S. repeat split; try congruence; try discriminate.
Qed.

Lemma quiet_reliable : reliable quietEnv.
Proof. intros t. reflexivity. Defined.

Lemma DeleteURL_outcome_example :
  reliable quietEnv
  /\ (queuedWithURL (db heldWorld) exampleURL <> []
      /\ nodesHeld (db heldWorld) exampleURL = true)
  /\ result (DeleteURL quietEnv exampleURL) heldWorld
     = Some (nodesRefused "knowledge_edges_target_id_fkey")
  /\ exists constraint,
       holdsNodes (db heldWorld) exampleURL constraint
       /\ result (DeleteURL quietEnv exampleURL) heldWorld
          = Some (nodesRefused constraint).
Proof.
  assert (Q : queuedWithURL (db heldWorld) exampleURL <> []) by (lazy; discriminate).
  assert (H : nodesHeld (db heldWorld) exampleURL = true) by (lazy; reflexivity).
  split; [exact quiet_reliable |]. split; [split; [exact Q | exact H] |].
  split; [lazy; reflexivity |].
  exact (proj2 (proj2 (DeleteURL_outcome quietEnv exampleURL heldWorld quiet_reliable))
           Q H).
Defined.

(** What [DeleteURL] leaves behind under such a driver: nothing changes
    when the URL is not queued; otherwise the rows of the URL in the queue
    are marked deleted (none is removed), and either the documents of the
    URL are gone with their chunks, nodes and edges, or, when the nodes
    cannot be deleted, only their edges are gone and the call has failed. *)
Theorem DeleteURL_effect : forall env url w,
  reliable env ->
  db (after (DeleteURL env url) w)
  = match queuedWithURL (db w) url with
    | [] => db w
    | _ =>
      let marked := markQueue deleted url (S (clock w)) (db w) in
      if nodesHeld (db w) url then withoutEdgesOf url marked
      else withoutDataOf url marked
    end.
Proof.
  intros env url w Hr. unfold after. rewrite DeleteURL_cases by assumption.
  destruct (queuedWithURL (db w) url); [reflexivity |].
  cbv zeta. rewrite nodesHeld_heldThrough.
  destruct (heldThrough (db w) url); reflexivity.
Qed.

(** ** What a computation leaves untouched *)

Section Kept.
Context {T : Type} (proj : DB -> T).
Variable caseTable : Z -> Z.
Variable extractEntities : gostring -> list Entity.
Variable extractRelationships : gostring -> gomap -> list Relationship.
Variable env : Env.

Lemma kept_ret {A} (a : A) : kept proj (ret a).
Proof. intros w. reflexivity. Qed.

Lemma kept_bind {A B} (m : M A) (k : A -> M B) :
  kept proj m -> (forall a, kept proj (k a)) -> kept proj (bind m k).
Proof. intros Hm Hk w. rewrite bind_run. rewrite Hk. apply Hm. Qed.

Lemma kept_tick : kept proj tick.
Proof. intros w. reflexivity. Qed.

Lemma kept_exec {R} (stmt : nat -> DB -> outcome (DB * R)) :
  stmtKeeps proj stmt -> kept proj (exec env stmt).
Proof.
  intros H w. unfold exec. destruct (dbFails env (clock w)); [reflexivity |].
  destruct (stmt (clock w) (db w)) as [[d r] | err] eqn:E; [| reflexivity].
  cbn [snd db]. eapply H. exact E.
Qed.

Lemma kept_foldM {A S} (f : S -> A -> M S) l :
  (forall s x, kept proj (f s x)) -> forall s, kept proj (foldM f l s).
Proof.
  intros H. induction l as [| x l IH]; intros s; cbn [foldM].
  - apply kept_ret.
  - apply kept_bind; [apply H | intros a; apply IH].
Qed.

Lemma kept_generateEmbeddingM text : kept proj (generateEmbeddingM caseTable env text).
Proof.
  unfold generateEmbeddingM. apply kept_bind; [apply kept_tick | intros; apply kept_ret].
Qed.

Lemma kept_spawn id content : kept proj (spawn id content).
Proof. intros w. reflexivity. Qed.

Lemma kept_fetchContent url : kept proj (fetchContent env url).
Proof.
  unfold fetchContent, fetch. apply kept_bind.
  - apply kept_bind; [apply kept_tick | intros; apply kept_ret].
  - intros [page | err]; [| apply kept_ret].
    destruct (gostring_eqb _ _); apply kept_ret.
Qed.

Lemma kept_chunkDocument id content :
  (forall c e i s t, stmtKeeps proj (insertChunk id c e i s t)) ->
  kept proj (chunkDocument caseTable env id content).
Proof.
  intros H. unfold chunkDocument. apply kept_bind; [| intros; apply kept_ret].
  unfold forM_. apply kept_foldM. intros _ c. unfold storeChunk.
  apply kept_bind; [apply kept_generateEmbeddingM |].
  intros [v | err]; (apply kept_bind; [| intros; apply kept_ret]);
    apply kept_exec; apply H.
Qed.

Lemma kept_ExtractEntitiesAndRelations id content :
  (forall n t, stmtKeeps proj (selectNodeId n t)) ->
  (forall n t p e, stmtKeeps proj (upsertNode n t p e id)) ->
  (forall s t ty p, stmtKeeps proj (upsertEdge s t ty p id)) ->
  kept proj
    (ExtractEntitiesAndRelations caseTable extractEntities extractRelationships env id content).
Proof.
  intros Hs Hn He. unfold ExtractEntitiesAndRelations. apply kept_bind.
  - apply kept_foldM. intros m e. unfold storeEntity.
    apply kept_bind; [apply kept_exec, Hs |].
    intros [x | [| msg]]; try apply kept_ret.
    apply kept_bind; [apply kept_generateEmbeddingM |].
    intros [v | err]; [| apply kept_ret].
    apply kept_bind; [apply kept_exec, Hn |].
    intros [x | err]; apply kept_ret.
  - intros m. apply kept_bind; [| intros; apply kept_ret].
    unfold forM_. apply kept_foldM. intros _ rel. unfold storeRelationship.
    apply kept_bind; [| intros; apply kept_ret].
    apply kept_exec, He.
Qed.

End Kept.

(** A statement that succeeds changes one table and its counter. *)
Ltac stmt_keeps :=
  intros;
  match goal with |- stmtKeeps _ _ => intros ?now ?d ?d' ?r end;
  unfold insertChunk, upsertDocument, upsertNode, upsertEdge, selectNodeId,
         updateQueue, setStatusByURL, setStatusByID, setFailedByURL, setFailedByID,
         insertQueueItem, claimNext;
  repeat match goal with
         | |- context [if ?c then _ else _] => destruct c
         | |- context [match find ?f ?l with _ => _ end] => destruct (find f l)
         | |- context [match oldestPending ?l with _ => _ end] => destruct (oldestPending l)
         end;
  try discriminate;
  let E := fresh in intros E; injection E as <- _; reflexivity.

Lemma insertChunk_queue id c e i s t : stmtKeeps tbl_url_queue (insertChunk id c e i s t).
Proof. stmt_keeps. Qed.

Lemma upsertDocument_queue u t c e : stmtKeeps tbl_url_queue (upsertDocument u t c e).
Proof. stmt_keeps. Qed.

Lemma updateQueue_ingested c f : stmtKeeps ingested (fun _ => updateQueue c f).
Proof. stmt_keeps. Qed.

Lemma withStatus_twice s t s' t' q : withStatus s t (withStatus s' t' q) = withStatus s t q.
Proof. reflexivity. Qed.

Lemma withFailure_withStatus msg b t s' t' q :
  withFailure msg b t (withStatus s' t' q) = withFailure msg b t q.
Proof. reflexivity. Qed.

Lemma marked_twice s t s' t' url rows :
  map (fun q => if gostring_eqb (queue_url q) url then withStatus s t q else q)
      (map (fun q => if gostring_eqb (queue_url q) url then withStatus s' t' q else q) rows)
  = map (fun q => if gostring_eqb (queue_url q) url then withStatus s t q else q) rows.
Proof.
  rewrite map_map. apply map_ext. intros q.
  destruct (gostring_eqb (queue_url q) url) eqn:E; cbn [withStatus queue_url];
    rewrite E; reflexivity.
Qed.

Lemma failed_marked msg b t s' t' url rows :
  failedQueue msg url b t
    (map (fun q => if gostring_eqb (queue_url q) url then withStatus s' t' q else q) rows)
  = failedQueue msg url b t rows.
Proof.
  unfold failedQueue. rewrite map_map. apply map_ext. intros q.
  destruct (gostring_eqb (queue_url q) url) eqn:E; cbn [withStatus queue_url];
    rewrite E; reflexivity.
Qed.

(** ** Processing a URL *)

Section Processing.
Variable caseTable : Z -> Z.
Variable env : Env.
Hypothesis Hrel : reliable env.

Lemma fetchContent_run url w :
  fetchContent env url w
  = (match fetchPage env (clock w) url with
     | Failed err => Failed (Errorf (str "failed to fetch URL") err)
     | Done page =>
       if gostring_eqb (cleanContent (last (page_bodies page) [])) []
       then Failed (errorString (str "no content found at URL"))
       else Done (cleanContent (last (page_bodies page) []),
                  if gostring_eqb (page_title page) [] then url else page_title page)
     end,
     mkWorld (db w) (S (clock w)) (goroutines w)).
Proof.
  unfold fetchContent, fetch, bind, tick, ret.
  destruct (fetchPage env (clock w) url) as [page | err]; [| reflexivity].
  destruct (gostring_eqb _ _); reflexivity.
Qed.

Lemma fail_step msg url (e : error) w :
  bind (exec env (setFailedByURL msg url)) (fun _ => ret (Some e)) w
  = (Some e,
     mkWorld (set_url_queue (db w)
                (failedQueue msg url false (clock w) (tbl_url_queue (db w)))
                (url_queue_id_seq (db w)))
             (S (clock w)) (goroutines w)).
Proof. rewrite bind_exec by assumption. reflexivity. Qed.

Lemma ProcessURL_failure url w :
  fetchable env (S (clock w)) url = false ->
  exists msg,
    ProcessURL caseTable env url w
    = (Some (Errorf (str "failed to fetch content") (errorString msg)),
       mkWorld (set_url_queue (db w)
                  (failedQueue msg url false (S (S (clock w))) (tbl_url_queue (db w)))
                  (url_queue_id_seq (db w)))
               (S (S (S (clock w)))) (goroutines w)).
Proof.
  intros F. unfold ProcessURL. rewrite bind_exec by assumption.
  cbn [setStatusByURL updateQueue]. rewrite bind_run, fetchContent_run.
  cbn [clock db goroutines fst snd]. unfold fetchable in F.
  destruct (fetchPage env (S (clock w)) url) as [page | err].
  - destruct (gostring_eqb (cleanContent (last (page_bodies page) [])) []);
      [| discriminate].
    exists (str "no content found at URL").
    change (errorText (errorString (str "no content found at URL")))
      with (str "no content found at URL").
    rewrite fail_step.
    cbn [clock db goroutines tbl_url_queue set_url_queue url_queue_id_seq].
    rewrite failed_marked. reflexivity.
  - exists (errorText (Errorf (str "failed to fetch URL") err)).
    rewrite fail_step.
    cbn [clock db goroutines tbl_url_queue set_url_queue url_queue_id_seq].
    rewrite failed_marked. reflexivity.
Qed.

Lemma ProcessURL_success url w :
  fetchable env (S (clock w)) url = true ->
  result (ProcessURL caseTable env url) w = None
  /\ exists t,
       tbl_url_queue (db (after (ProcessURL caseTable env url) w))
       = markedQueue completed url t (db w).
Proof.
  intros F. unfold result, after, ProcessURL. rewrite bind_exec by assumption.
  cbn [setStatusByURL updateQueue]. rewrite bind_run, fetchContent_run.
  cbn [clock db goroutines fst snd]. unfold fetchable in F.
  destruct (fetchPage env (S (clock w)) url) as [page | err]; [| discriminate].
  destruct (gostring_eqb (cleanContent (last (page_bodies page) [])) []);
    [discriminate |].
  set (content := cleanContent (cleanContent (last (page_bodies page) []))).
  set (title := if gostring_eqb (page_title page) [] then url else page_title page).
  rewrite bind_run.
  match goal with |- context [generateEmbeddingM caseTable env content ?w2] =>
    destruct (generateEmbeddingM_done caseTable env content w2) as (v & -> & _)
  end.
  cbn [fst snd]. unfold storeDocument. rewrite bind_exec by assumption.
  cbn [clock db goroutines].
  match goal with |- context [upsertDocument url title content v ?t ?d] =>
    pose proof (upsertDocument_queue url title content v t d) as Hq;
    destruct (upsertDocument url title content v t d) as [[d4 id] | err] eqn:Eu
  end.
  2:{ exfalso. revert Eu. unfold upsertDocument. destruct (find _ _); discriminate. }
  specialize (Hq d4 id eq_refl). cbn [tbl_url_queue set_url_queue] in Hq.
  rewrite bind_run.
  match goal with |- context [chunkDocument caseTable env id content ?w4] =>
    pose proof (kept_chunkDocument tbl_url_queue caseTable env id content
                  (insertChunk_queue id) w4) as Hc;
    destruct (chunkDocument caseTable env id content w4) as [r5 w5]
  end.
  cbn [fst snd db] in Hc |- *.
  rewrite bind_run. cbn [spawn fst snd].
  rewrite bind_exec by assumption.
  cbn [setStatusByURL updateQueue clock db goroutines ret fst snd
       tbl_url_queue set_url_queue].
  split; [reflexivity |]. exists (clock w5).
  rewrite Hc, Hq. unfold markedQueue. apply marked_twice.
Qed.

End Processing.

(** With a driver that does not fail, [ProcessURL] returns [nil] exactly
    when the page can be fetched and has text left after cleaning.  Then
    the rows of the URL in the queue are marked completed; otherwise they
    are marked failed with the message of the cause, the error returned
    wraps that cause, and no document, chunk, node or edge has changed.
    Rows of other URLs are as before, and no row is added or removed. *)
Theorem ProcessURL_outcome : forall caseTable env url w,
  reliable env ->
  (result (ProcessURL caseTable env url) w = None
   <-> fetchable env (S (clock w)) url = true)
  /\ (fetchable env (S (clock w)) url = true ->
      exists t, tbl_url_queue (db (after (ProcessURL caseTable env url) w))
                = markedQueue completed url t (db w))
  /\ (fetchable env (S (clock w)) url = false ->
      exists t msg,
        tbl_url_queue (db (after (ProcessURL caseTable env url) w))
        = failedQueue msg url false t (tbl_url_queue (db w))
        /\ result (ProcessURL caseTable env url) w
           = Some (Errorf (str "failed to fetch content") (errorString msg))
        /\ ingested (db (after (ProcessURL caseTable env url) w)) = ingested (db w)).
Proof.
  intros caseTable env url w Hr.
  destruct (fetchable env (S (clock w)) url) eqn:F.
  - destruct (ProcessURL_success caseTable env Hr url w F) as (R & t & Q).
    repeat split; auto; try discriminate. exists t. exact Q.
  - destruct (ProcessURL_failure caseTable env Hr url w F) as (msg & E).
    unfold result, after. rewrite E. cbn [fst snd db].
    repeat split; try discriminate.
    intros _. exists (S (S (clock w))), msg. repeat split.
Qed.

Lemma ProcessURL_outcome_example :
  reliable quietEnv
  /\ (result (ProcessURL asciiOnly quietEnv exampleURL) freshWorld = None
      <-> fetchable quietEnv (S (clock freshWorld)) exampleURL = true)
  /\ (fetchable quietEnv (S (clock freshWorld)) exampleURL = true ->
      exists t, tbl_url_queue (db (after (ProcessURL asciiOnly quietEnv exampleURL)
                                         freshWorld))
                = markedQueue completed exampleURL t (db freshWorld))
  /\ (fetchable quietEnv (S (clock freshWorld)) exampleURL = false ->
      exists t msg,
        tbl_url_queue (db (after (ProcessURL asciiOnly quietEnv exampleURL) freshWorld))
        = failedQueue msg exampleURL false t (tbl_url_queue (db freshWorld))
        /\ result (ProcessURL asciiOnly quietEnv exampleURL) freshWorld
           = Some (Errorf (str "failed to fetch content") (errorString msg))
        /\ ingested (db (after (ProcessURL asciiOnly quietEnv exampleURL) freshWorld))
           = ingested (db freshWorld)).
Proof.
  split; [exact quiet_reliable |].
  exact (ProcessURL_outcome asciiOnly quietEnv exampleURL freshWorld quiet_reliable).
Defined.

(** ** The workers *)

Lemma oldestPending_none rows :
  oldestPending rows = None <-> filter isPending rows = [].
Proof.
  induction rows as [| q rows IH]; [cbn; tauto |]. cbn [oldestPending filter].
  destruct (oldestPending rows) as [best |].
  - assert (filter isPending rows <> []) as Hne
      by (intros E; apply IH in E; discriminate).
    destruct (isPending q); cbn [andb].
    + destruct (_ <=? _)%nat; split; discriminate.
    + split; [discriminate | intros E; contradiction].
  - destruct IH as [IH _]. rewrite (IH eq_refl).
    destruct (isPending q); split; congruence.
Qed.

Lemma oldestPending_some rows q :
  oldestPending rows = Some q ->
  In q rows /\ isPending q = true
  /\ forall r, In r rows -> isPending r = true ->
               (queue_created_at q <= queue_created_at r)%nat.
Proof.
  revert q. induction rows as [| x rows IH]; intros q; [discriminate |].
  cbn [oldestPending].
  destruct (oldestPending rows) as [best |] eqn:E.
  - destruct (IH best eq_refl) as (Hin & Hp & Hmin).
    destruct (isPending x) eqn:Px; cbn [andb].
    + destruct (queue_created_at x <=? queue_created_at best)%nat eqn:L;
        intros H; injection H as <-.
      * apply Nat.leb_le in L. repeat split; [left; reflexivity | exact Px |].
        intros r [<- | Hr] Pr; [lia |]. specialize (Hmin r Hr Pr). lia.
      * apply Nat.leb_gt in L. repeat split; [right; exact Hin | exact Hp |].
        intros r [<- | Hr] Pr; [lia | auto].
    + intros H. injection H as <-. repeat split; [right; exact Hin | exact Hp |].
      intros r [<- | Hr] Pr; [congruence | auto].
  - apply oldestPending_none in E.
    destruct (isPending x) eqn:Px; [| discriminate].
    intros H. injection H as <-. repeat split; [left; reflexivity | exact Px |].
    intros r [<- | Hr] Pr; [lia |].
    assert (In r (filter isPending rows)) as Hf by (apply filter_In; auto).
    rewrite E in Hf. contradiction.
Qed.


Lemma NoDup_map_inj {A B} (f : A -> B) l a b :
  NoDup (map f l) -> In a l -> In b l -> f a = f b -> a = b.
Proof.
  induction l as [| x l IH]; [contradiction |]. cbn [map]. intros N Ha Hb E.
  inversion N as [| ? ? Hx Hl]; subst.
  destruct Ha as [<- | Ha], Hb as [<- | Hb]; auto.
  - exfalso. apply Hx. rewrite E. apply in_map. exact Hb.
  - exfalso. apply Hx. rewrite <- E. apply in_map. exact Ha.
Qed.

Lemma gostring_eqb_refl s : gostring_eqb s s = true.
Proof. apply gostring_eqb_spec. reflexivity. Qed.

Lemma same_row rows q :
  NoDup (map queue_id rows) -> NoDup (map queue_url rows) -> In q rows ->
  forall r, In r rows ->
            gostring_eqb (queue_url r) (queue_url q) = (queue_id r =? queue_id q).
Proof.
  intros Ni Nu Hq r Hr.
  destruct (queue_id r =? queue_id q) eqn:E.
  - apply Z.eqb_eq in E.
    rewrite (NoDup_map_inj queue_id rows r q Ni Hr Hq E). apply gostring_eqb_refl.
  - destruct (gostring_eqb (queue_url r) (queue_url q)) eqn:U; [| reflexivity].
    apply gostring_eqb_spec in U.
    rewrite (NoDup_map_inj queue_url rows r q Nu Hr Hq U) in E.
    rewrite Z.eqb_refl in E. discriminate.
Qed.

Section Workers.
Variable caseTable : Z -> Z.
Variable env : Env.
Hypothesis Hrel : reliable env.

Lemma pollQueue_idle w :
  oldestPending (tbl_url_queue (db w)) = None ->
  db (after (pollQueue caseTable env) w) = db w.
Proof.
  intros E. unfold after, pollQueue. rewrite bind_exec by assumption.
  unfold claimNext. rewrite E. reflexivity.
Qed.

Lemma pollQueue_claims w q :
  oldestPending (tbl_url_queue (db w)) = Some q ->
  pollQueue caseTable env w
  = (err <- ProcessURL caseTable env (queue_url q) ;;
     match err with
     | Some e => exec env (setFailedByID (errorText e) (queue_id q)) ;;; ret tt
     | None => exec env (setStatusByID completed (queue_id q)) ;;; ret tt
     end)
      (mkWorld (set_url_queue (db w)
                  (withRow (queue_id q) asProcessing (tbl_url_queue (db w)))
                  (url_queue_id_seq (db w)))
               (S (clock w)) (goroutines w)).
Proof.
  intros E. unfold pollQueue. rewrite bind_exec by assumption.
  unfold claimNext. rewrite E. reflexivity.
Qed.

Lemma pollQueue_turn w q :
  uniqueQueueIDs (db w) -> uniqueQueueURLs (db w) ->
  oldestPending (tbl_url_queue (db w)) = Some q ->
  exists t failure,
    tbl_url_queue (db (after (pollQueue caseTable env) w))
    = withRow (queue_id q) (settled failure t) (tbl_url_queue (db w))
    /\ (failure = None <-> fetchable env (S (S (clock w))) (queue_url q) = true).
Proof.
  intros Ni Nu E. unfold after. rewrite (pollQueue_claims w q E).
  destruct (oldestPending_some _ _ E) as (Hq & _ & _).
  set (w1 := mkWorld _ (S (clock w)) (goroutines w)).
  rewrite bind_run.
  destruct (fetchable env (S (S (clock w))) (queue_url q)) eqn:F.
  - destruct (ProcessURL_success caseTable env Hrel (queue_url q) w1 F) as (R & t & Q).
    unfold result, after in R, Q.
    destruct (ProcessURL caseTable env (queue_url q) w1) as [r w2].
    cbn [fst snd] in R, Q |- *. subst r.
    rewrite bind_exec by assumption.
    cbn [setStatusByID updateQueue ret snd db tbl_url_queue set_url_queue].
    exists (clock w2), None. split; [| tauto].
    rewrite Q. unfold markedQueue, w1. cbn [db tbl_url_queue set_url_queue]. unfold withRow.
    rewrite !map_map. apply map_ext_in. intros r Hr.
    pose proof (same_row _ q Ni Nu Hq r Hr) as U.
    destruct (queue_id r =? queue_id q) eqn:I;
      cbn [asProcessing withStatus queue_url queue_id]; rewrite U;
      cbn [asProcessing withStatus queue_url queue_id]; rewrite ?I; reflexivity.
  - destruct (ProcessURL_failure caseTable env Hrel (queue_url q) w1 F) as (msg & P).
    rewrite P. cbn [fst snd].
    rewrite bind_exec by assumption.
    cbn [setFailedByID updateQueue ret snd db clock tbl_url_queue set_url_queue].
    eexists _, (Some _). split; [| split; discriminate].
    unfold failedQueue, w1. cbn [db tbl_url_queue set_url_queue]. unfold withRow.
    rewrite !map_map. apply map_ext_in. intros r Hr.
    pose proof (same_row _ q Ni Nu Hq r Hr) as U.
    destruct (queue_id r =? queue_id q) eqn:I;
      cbn [asProcessing withFailure queue_url queue_id]; rewrite U;
      cbn [asProcessing withFailure queue_url queue_id]; rewrite ?I; reflexivity.
Qed.

End Workers.

(** One turn of a worker, with a driver that does not fail and a queue
    whose ids and URLs are unique: when no row is pending the database is
    left as it is; otherwise the oldest pending row, and no other, is
    rewritten, and it ends completed when its page can be fetched and has
    text, and failed, with a message and its retry count raised by one,
    when not.  The row is never left in processing. *)
Theorem pollQueue_settles : forall caseTable env w,
  reliable env -> uniqueQueueIDs (db w) -> uniqueQueueURLs (db w) ->
  match oldestPending (tbl_url_queue (db w)) with
  | None => db (after (pollQueue caseTable env) w) = db w
  | Some q =>
    exists t failure,
      tbl_url_queue (db (after (pollQueue caseTable env) w))
      = withRow (queue_id q) (settled failure t) (tbl_url_queue (db w))
      /\ (failure = None <-> fetchable env (S (S (clock w))) (queue_url q) = true)
  end.
Proof.
  intros caseTable env w Hr Ni Nu.
  destruct (oldestPending (tbl_url_queue (db w))) as [q |] eqn:E.
  - apply pollQueue_turn; assumption.
  - apply pollQueue_idle; assumption.
Qed.

Lemma pollQueue_settles_example :
  reliable quietEnv /\ uniqueQueueIDs (db queuedWorld) /\ uniqueQueueURLs (db queuedWorld)
  /\ match oldestPending (tbl_url_queue (db queuedWorld)) with
     | None => db (after (pollQueue asciiOnly quietEnv) queuedWorld) = db queuedWorld
     | Some q =>
       exists t failure,
         tbl_url_queue (db (after (pollQueue asciiOnly quietEnv) queuedWorld))
         = withRow (queue_id q) (settled failure t) (tbl_url_queue (db queuedWorld))
         /\ (failure = None
             <-> fetchable quietEnv (S (S (clock queuedWorld))) (queue_url q) = true)
     end.
Proof.
  assert (Ni : uniqueQueueIDs (db queuedWorld))
    by (constructor; [intros [] | constructor]).
  assert (Nu : uniqueQueueURLs (db queuedWorld))
    by (constructor; [intros [] | constructor]).
  split; [exact quiet_reliable |]. split; [exact Ni |]. split; [exact Nu |].
  exact (pollQueue_settles asciiOnly quietEnv queuedWorld quiet_reliable Ni Nu).
Defined.

(** ** Queueing *)

Lemma existsb_filter_nil {A} (f : A -> bool) l :
  existsb f l = false <-> filter f l = [].
Proof.
  induction l as [| x l IH]; [cbn; tauto |]. cbn [existsb filter].
  destruct (f x); cbn [orb]; [split; discriminate | exact IH].
Qed.

(** [QueueURL] returns [nil] exactly when the URL is not empty, the driver
    does not fail and the queue has no row for the URL yet; it then adds
    one pending row for the URL, with no error and no retry, at the end of
    the queue.  When it returns an error no row of any table has changed. *)
Theorem QueueURL_outcome : forall env url w,
  (result (QueueURL env url) w = None
   <-> url <> [] /\ dbFails env (clock w) = false /\ queuedWithURL (db w) url = [])
  /\ (result (QueueURL env url) w = None ->
      exists id,
        tbl_url_queue (db (after (QueueURL env url) w))
        = tbl_url_queue (db w)
          ++ [mkURLQueueItem id url pending None 0 (clock w) (clock w)])
  /\ (result (QueueURL env url) w <> None ->
      tbl_url_queue (db (after (QueueURL env url) w)) = tbl_url_queue (db w))
  /\ ingested (db (after (QueueURL env url) w)) = ingested (db w).
Proof.
  intros env url w. unfold result, after, QueueURL.
  destruct (gostring_eqb url []) eqn:U.
  - apply gostring_eqb_spec in U. cbn [ret fst snd].
    repeat split; try discriminate; try congruence. intros [H _]. contradiction.
  - assert (url <> []) as Hne by (intros ->; rewrite gostring_eqb_refl in U; discriminate).
    rewrite bind_run. unfold exec, insertQueueItem.
    destruct (dbFails env (clock w)); cbn [fst snd ret db].
    + repeat split; try discriminate; try congruence. intros (_ & H & _). discriminate.
    + unfold queuedWithURL. rewrite <- existsb_filter_nil.
      destruct (existsb _ (tbl_url_queue (db w))); cbn [fst snd ret db];
        repeat split; try discriminate; try congruence; try tauto.
      * intros (_ & _ & H). discriminate.
      * intros _. eexists. reflexivity.
Qed.

(** ** Deletion and re-indexing by id *)

Lemma find_some_filter {A} (f : A -> bool) l x :
  find f l = Some x -> In x l /\ f x = true /\ filter f l <> [].
Proof.
  intros H. destruct (find_some _ _ H) as [Hin Hf]. repeat split; auto.
  intros E. assert (In x (filter f l)) as Hx by (apply filter_In; auto).
  rewrite E in Hx. contradiction.
Qed.

Lemma length_filter_nonzero {A} (f : A -> bool) l :
  filter f l <> [] -> (Z.of_nat (length (filter f l)) =? 0) = false.
Proof. destruct (filter f l); [congruence | reflexivity]. Qed.

Section ByID.
Variable caseTable : Z -> Z.
Variable env : Env.
Variable parseID : gostring -> option Z.
Hypothesis Hrel : reliable env.

Lemma lookup_fails (prefix : gostring) (k : gostring -> M (option error)) id w :
  queueItemOf parseID (db w) id = None ->
  exists err,
    bind (exec env (withID parseID id selectQueueURL))
         (fun r => match r with
                   | Failed e => ret (Some (Errorf prefix e))
                   | Done url => k url
                   end) w
    = (Some (Errorf prefix err), mkWorld (db w) (S (clock w)) (goroutines w)).
Proof.
  unfold queueItemOf, withID. intros E. rewrite bind_exec by assumption.
  destruct (parseID id) as [n |].
  - unfold selectQueueURL. rewrite E. eexists. reflexivity.
  - eexists. reflexivity.
Qed.

Lemma lookup_finds (prefix : gostring) (k : gostring -> M (option error)) id w q :
  queueItemOf parseID (db w) id = Some q ->
  parseID id = Some (queue_id q)
  /\ In q (tbl_url_queue (db w))
  /\ bind (exec env (withID parseID id selectQueueURL))
          (fun r => match r with
                    | Failed e => ret (Some (Errorf prefix e))
                    | Done url => k url
                    end) w
     = k (queue_url q) (mkWorld (db w) (S (clock w)) (goroutines w)).
Proof.
  unfold queueItemOf, withID. intros E. rewrite bind_exec by assumption.
  destruct (parseID id) as [n |]; [| discriminate].
  destruct (find_some_filter _ _ _ E) as (Hin & Hid & _).
  apply Z.eqb_eq in Hid. subst n. repeat split; auto.
  unfold selectQueueURL. rewrite E. reflexivity.
Qed.

(** With a driver that does not fail and a queue whose ids and URLs are
    unique, [DeleteURLByID] does what [DeleteURL] does for the URL of the
    row: the same result and the same database.  For an id that denotes no
    row it fails and changes nothing. *)
Theorem DeleteURLByID_as_DeleteURL : forall id w,
  uniqueQueueIDs (db w) -> uniqueQueueURLs (db w) ->
  match queueItemOf parseID (db w) id with
  | Some q => DeleteURLByID env parseID id w = DeleteURL env (queue_url q) w
  | None =>
    (exists err, result (DeleteURLByID env parseID id) w
                 = Some (Errorf (str "failed to get URL for ID") err))
    /\ db (after (DeleteURLByID env parseID id) w) = db w
  end.
Proof.
  intros id w Ni Nu. unfold result, after, DeleteURLByID.
  destruct (queueItemOf parseID (db w) id) as [q |] eqn:E.
  - destruct (lookup_finds (str "failed to get URL for ID")
                (fun url =>
                   r <- exec env (withID parseID id (setStatusByID deleted)) ;;
                   match r with
                   | Failed err =>
                     ret (Some (Errorf (str "failed to update url_queue status") err))
                   | Done rowsAffected =>
                     if rowsAffected =? 0 then
                       ret (Some (errorString (str "no rows were updated for ID: " ++ id)))
                     else deleteDataOfURL env url (ret None)
                   end) id w q E) as (Hp & Hin & ->).
    rewrite bind_exec by assumption. unfold withID. rewrite Hp.
    cbn [setStatusByID updateQueue clock db goroutines].
    assert (Hf : filter (fun r => queue_id r =? queue_id q) (tbl_url_queue (db w)) <> []).
    { intros F. assert (In q (filter (fun r => queue_id r =? queue_id q)
                                      (tbl_url_queue (db w)))) as Hx
        by (apply filter_In; split; [exact Hin | apply Z.eqb_refl]).
      rewrite F in Hx. contradiction. }
    rewrite (length_filter_nonzero _ _ Hf).
    rewrite DeleteURL_run by assumption.
    assert (Hu : queuedWithURL (db w) (queue_url q) <> []).
    { intros F. assert (In q (queuedWithURL (db w) (queue_url q))) as Hx
        by (apply filter_In; split; [exact Hin | apply gostring_eqb_refl]).
      rewrite F in Hx. contradiction. }
    destruct (queuedWithURL (db w) (queue_url q)); [congruence |].
    f_equal. f_equal. unfold markQueue, markedQueue. f_equal.
    apply map_ext_in. intros r Hr. rewrite (same_row _ q Ni Nu Hin r Hr). reflexivity.
  - destruct (lookup_fails (str "failed to get URL for ID")
                (fun url =>
                   r <- exec env (withID parseID id (setStatusByID deleted)) ;;
                   match r with
                   | Failed err =>
                     ret (Some (Errorf (str "failed to update url_queue status") err))
                   | Done rowsAffected =>
                     if rowsAffected =? 0 then
                       ret (Some (errorString (str "no rows were updated for ID: " ++ id)))
                     else deleteDataOfURL env url (ret None)
                   end) id w E) as (err & ->).
    cbn [fst snd db]. split; [exists err |]; reflexivity.
Qed.

(** With a driver that does not fail, [ReindexURLByID] fails and changes
    nothing for an id that denotes no row.  Otherwise, when an edge of
    another document holds a node of the URL's documents, it fails with
    the foreign-key error of the reference, [source_id] or [target_id],
    that holds a node, after deleting the edges of those documents, and
    the row keeps its status;
    when none does, it returns [nil], the documents of the URL are gone
    with their chunks, nodes and edges, and the row is pending again with
    no error and no retry counted. *)
Theorem ReindexURLByID_outcome : forall id w,
  match queueItemOf parseID (db w) id with
  | None =>
    (exists err, result (ReindexURLByID env parseID id) w
                 = Some (Errorf (str "failed to get URL for reprocessing") err))
    /\ db (after (ReindexURLByID env parseID id) w) = db w
  | Some q =>
    if nodesHeld (db w) (queue_url q) then
      (exists constraint,
         holdsNodes (db w) (queue_url q) constraint
         /\ result (ReindexURLByID env parseID id) w = Some (nodesRefused constraint))
      /\ db (after (ReindexURLByID env parseID id) w) = withoutEdgesOf (queue_url q) (db w)
    else
      result (ReindexURLByID env parseID id) w = None
      /\ exists t,
           db (after (ReindexURLByID env parseID id) w)
           = set_url_queue (withoutDataOf (queue_url q) (db w))
               (withRow (queue_id q) (requeued t) (tbl_url_queue (db w)))
               (url_queue_id_seq (db w))
  end.
Proof.
  intros id w. unfold result, after, ReindexURLByID.
  set (reset := r <- exec env (withID parseID id resetQueueItem) ;;
                match r with
                | Failed err => ret (Some (Errorf (str "failed to reset queue status") err))
                | Done _ => ret None
                end).
  destruct (queueItemOf parseID (db w) id) as [q |] eqn:E.
  - destruct (lookup_finds (str "failed to get URL for reprocessing")
                (fun url => deleteDataOfURL env url reset) id w q E) as (Hp & Hin & ->).
    rewrite deleteDataOfURL_run by assumption. cbn [db clock goroutines].
    pose proof (heldThrough_spec (db w) (queue_url q)) as S.
    destruct (heldThrough (db w) (queue_url q)) as [c |].
    { destruct S as [-> G]. split; [exists c; split; [exact G |] |]; reflexivity. }
    rewrite S. unfold reset. rewrite bind_exec by assumption. unfold withID. rewrite Hp.
    cbn [resetQueueItem updateQueue ret fst snd db clock].
    split; [reflexivity |]. eexists. reflexivity.
  - destruct (lookup_fails (str "failed to get URL for reprocessing")
                (fun url => deleteDataOfURL env url reset) id w E) as (err & ->).
    cbn [fst snd db]. split; [exists err |]; reflexivity.
Qed.

End ByID.

Lemma queuedWorld_ids : uniqueQueueIDs (db queuedWorld).
Proof. constructor; [intros [] | constructor]. Defined.

Lemma queuedWorld_urls : uniqueQueueURLs (db queuedWorld).
Proof. constructor; [intros [] | constructor]. Defined.

Lemma DeleteURLByID_example :
  reliable quietEnv /\ uniqueQueueIDs (db queuedWorld) /\ uniqueQueueURLs (db queuedWorld)
  /\ match queueItemOf digitsOnly (db queuedWorld) (str "1") with
     | Some q => DeleteURLByID quietEnv digitsOnly (str "1") queuedWorld
                 = DeleteURL quietEnv (queue_url q) queuedWorld
     | None =>
       (exists err, result (DeleteURLByID quietEnv digitsOnly (str "1")) queuedWorld
                    = Some (Errorf (str "failed to get URL for ID") err))
       /\ db (after (DeleteURLByID quietEnv digitsOnly (str "1")) queuedWorld)
          = db queuedWorld
     end.
Proof.
  split; [exact quiet_reliable |].
  split; [exact queuedWorld_ids |]. split; [exact queuedWorld_urls |].
  exact (DeleteURLByID_as_DeleteURL quietEnv digitsOnly quiet_reliable (str "1")
           queuedWorld queuedWorld_ids queuedWorld_urls).
Defined.

Lemma ReindexURLByID_example :
  reliable quietEnv
  /\ option_map queue_status (queueItemOf digitsOnly (db processedWorld) (str "1"))
     = Some completed
  /\ (length (tbl_documents (db processedWorld)) = 1%nat
      /\ length (tbl_chunks (db processedWorld)) = 1%nat)
  /\ (result (ReindexURLByID quietEnv digitsOnly (str "1")) processedWorld = None
      /\ tbl_documents (db (after (ReindexURLByID quietEnv digitsOnly (str "1"))
                                  processedWorld)) = []
      /\ tbl_chunks (db (after (ReindexURLByID quietEnv digitsOnly (str "1"))
                               processedWorld)) = []
      /\ map queue_status
             (tbl_url_queue (db (after (ReindexURLByID quietEnv digitsOnly (str "1"))
                                       processedWorld))) = [pending])
  /\ match queueItemOf digitsOnly (db processedWorld) (str "1") with
     | None =>
       (exists err, result (ReindexURLByID quietEnv digitsOnly (str "1")) processedWorld
                    = Some (Errorf (str "failed to get URL for reprocessing") err))
       /\ db (after (ReindexURLByID quietEnv digitsOnly (str "1")) processedWorld)
          = db processedWorld
     | Some q =>
       if nodesHeld (db processedWorld) (queue_url q) then
         (exists constraint,
            holdsNodes (db processedWorld) (queue_url q) constraint
            /\ result (ReindexURLByID quietEnv digitsOnly (str "1")) processedWorld
               = Some (nodesRefused constraint))
         /\ db (after (ReindexURLByID quietEnv digitsOnly (str "1")) processedWorld)
            = withoutEdgesOf (queue_url q) (db processedWorld)
       else
         result (ReindexURLByID quietEnv digitsOnly (str "1")) processedWorld = None
         /\ exists t,
              db (after (ReindexURLByID quietEnv digitsOnly (str "1")) processedWorld)
              = set_url_queue (withoutDataOf (queue_url q) (db processedWorld))
                  (withRow (queue_id q) (requeued t) (tbl_url_queue (db processedWorld)))
                  (url_queue_id_seq (db processedWorld))
     end.
Proof.
  split; [exact quiet_reliable |].
  split; [lazy; reflexivity |]. split; [split; lazy; reflexivity |].
  split; [repeat match goal with |- _ /\ _ => split end; lazy; reflexivity |].
  exact (ReindexURLByID_outcome quietEnv digitsOnly quiet_reliable (str "1")
           processedWorld).
Defined.

Lemma DeleteURL_effect_example :
  reliable quietEnv
  /\ db (after (DeleteURL quietEnv exampleURL) storedAndQueued)
     = match queuedWithURL (db storedAndQueued) exampleURL with
       | [] => db storedAndQueued
       | _ =>
         let marked := markQueue deleted exampleURL (S (clock storedAndQueued))
                                 (db storedAndQueued) in
         if nodesHeld (db storedAndQueued) exampleURL then withoutEdgesOf exampleURL marked
         else withoutDataOf exampleURL marked
       end.
Proof.
  split; [exact quiet_reliable |].
  exact (DeleteURL_effect quietEnv exampleURL storedAndQueued quiet_reliable).
Defined.

(** ** Re-indexing a URL *)

Section Reindex.
Variable caseTable : Z -> Z.
Variable env : Env.
Hypothesis Hrel : reliable env.

(** With a driver that does not fail, a queued URL and nodes that no edge
    of another document holds, [ReindexURL] first removes the documents
    of the URL with their chunks, nodes and edges, and then depends on the
    fetch alone: it returns [nil] exactly when the page can be fetched and
    has text, and the rows of the URL are then completed; when it cannot,
    the rows are marked failed and what was removed stays removed. *)
Theorem ReindexURL_outcome : forall url w,
  queuedWithURL (db w) url <> [] -> nodesHeld (db w) url = false ->
  let fetched := fetchable env (7 + clock w) url in
  (result (ReindexURL caseTable env url) w = None <-> fetched = true)
  /\ (fetched = true ->
      exists t, tbl_url_queue (db (after (ReindexURL caseTable env url) w))
                = markedQueue completed url t (db w))
  /\ (fetched = false ->
      exists t msg,
        tbl_url_queue (db (after (ReindexURL caseTable env url) w))
        = failedQueue msg url false t (tbl_url_queue (db w))
        /\ ingested (db (after (ReindexURL caseTable env url) w))
           = ingested (withoutDataOf url (db w))).
Proof.
  intros url w Hq Hn fetched. unfold result, after, ReindexURL.
  rewrite bind_run, DeleteURL_cases by assumption.
  destruct (queuedWithURL (db w) url) as [| q0 qs]; [congruence |].
  cbv zeta. rewrite nodesHeld_heldThrough in Hn.
  destruct (heldThrough (db w) url); [discriminate |]. cbn [fst snd].
  set (w6 := mkWorld _ _ (goroutines w)).
  assert (Hc : S (clock w6) = (7 + clock w)%nat) by reflexivity.
  unfold fetched. rewrite <- Hc.
  destruct (fetchable env (S (clock w6)) url) eqn:F.
  - destruct (ProcessURL_success caseTable env Hrel url w6 F) as (R & t & Q).
    unfold result, after in R, Q. split; [split; auto |].
    split; [| discriminate]. intros _. exists t. rewrite Q.
    unfold markedQueue, w6, markQueue. cbn [db tbl_url_queue set_url_queue withoutDataOf].
    unfold markedQueue. apply marked_twice.
  - destruct (ProcessURL_failure caseTable env Hrel url w6 F) as (msg & E).
    rewrite E. cbn [fst snd db]. split; [split; discriminate |].
    split; [discriminate |]. intros _. exists (S (S (clock w6))), msg.
    split; [| reflexivity].
    unfold w6, markQueue. cbn [db tbl_url_queue set_url_queue withoutDataOf].
    unfold markedQueue. apply failed_marked.
Qed.

End Reindex.

Lemma ReindexURL_example :
  reliable quietEnv
  /\ queuedWithURL (db storedAndQueued) exampleURL <> []
  /\ nodesHeld (db storedAndQueued) exampleURL = false
  /\ let fetched := fetchable quietEnv (7 + clock storedAndQueued) exampleURL in
     (result (ReindexURL asciiOnly quietEnv exampleURL) storedAndQueued = None
      <-> fetched = true)
     /\ (fetched = true ->
         exists t, tbl_url_queue (db (after (ReindexURL asciiOnly quietEnv exampleURL)
                                            storedAndQueued))
                   = markedQueue completed exampleURL t (db storedAndQueued))
     /\ (fetched = false ->
         exists t msg,
           tbl_url_queue (db (after (ReindexURL asciiOnly quietEnv exampleURL)
                                    storedAndQueued))
           = failedQueue msg exampleURL false t (tbl_url_queue (db storedAndQueued))
           /\ ingested (db (after (ReindexURL asciiOnly quietEnv exampleURL)
                                  storedAndQueued))
              = ingested (withoutDataOf exampleURL (db storedAndQueued))).
Proof.
  assert (Hq : queuedWithURL (db storedAndQueued) exampleURL <> [])
    by (lazy; discriminate).
  assert (Hn : nodesHeld (db storedAndQueued) exampleURL = false)
    by (lazy; reflexivity).
  split; [exact quiet_reliable |]. split; [exact Hq |]. split; [exact Hn |].
  exact (ReindexURL_outcome asciiOnly quietEnv quiet_reliable exampleURL
           storedAndQueued Hq Hn).
Defined.

(** ** The rows that ingestion writes *)

Section Stored.
Variable caseTable : Z -> Z.
Variable extractEntities : gostring -> list Entity.
Variable extractRelationships : gostring -> gomap -> list Relationship.
Variable env : Env.

Lemma storeChunk_run id c w :
  reliable env ->
  exists v,
    storeChunk caseTable env id c w
    = (tt,
       if documentExists (db w) id then
         mkWorld (set_chunks (db w)
                    (tbl_chunks (db w)
                     ++ [mkChunk (chunks_id_seq (db w) + 1) id (Content c) (Some v)
                                 (ChunkIndex c) (StartPosition c) (EndPosition c)])
                    (chunks_id_seq (db w) + 1))
                 (S (S (clock w))) (goroutines w)
       else mkWorld (db w) (S (S (clock w))) (goroutines w)).
Proof.
  intros Hr. unfold storeChunk. rewrite bind_run.
  destruct (generateEmbeddingM_done caseTable env (Content c) w) as (v & -> & _).
  exists v. cbn [fst snd]. rewrite bind_exec by assumption.
  unfold insertChunk. cbn [db clock goroutines].
  destruct (documentExists (db w) id); reflexivity.
Qed.

Lemma storeChunks_append id chunks :
  reliable env ->
  forall w, documentExists (db w) id = true ->
  exists rows,
    tbl_chunks (db (snd (forM_ (storeChunk caseTable env id) chunks w)))
    = tbl_chunks (db w) ++ rows
    /\ map chunkFields rows = map (pair id) chunks
    /\ forallb hasEmbedding rows = true.
Proof.
  intros Hr. unfold forM_.
  induction chunks as [| c chunks IH]; intros w Hd; cbn [foldM].
  - exists []. rewrite app_nil_r. auto.
  - rewrite bind_run. destruct (storeChunk_run id c w Hr) as (v & ->).
    rewrite Hd. cbn [fst snd].
    match goal with |- context [foldM _ chunks tt ?w1] =>
      destruct (IH w1) as (rows & E & F & H); [exact Hd |]
    end.
    eexists (_ :: rows). rewrite E. cbn [db tbl_chunks set_chunks].
    rewrite <- app_assoc. split; [reflexivity |].
    cbn [map chunkFields chunk_document_id chunk_content chunk_index
         chunk_start_position chunk_end_position forallb hasEmbedding chunk_embedding].
    rewrite F, H. destruct c; auto.
Qed.

Lemma storeChunks_refused id chunks :
  reliable env ->
  forall w, documentExists (db w) id = false ->
  db (snd (forM_ (storeChunk caseTable env id) chunks w)) = db w.
Proof.
  intros Hr. unfold forM_.
  induction chunks as [| c chunks IH]; intros w Hd; cbn [foldM]; [reflexivity |].
  rewrite bind_run. destruct (storeChunk_run id c w Hr) as (v & ->).
  rewrite Hd. cbn [fst snd]. rewrite IH; [reflexivity | exact Hd].
Qed.

(** With a driver that does not fail, [chunkDocument] for a document that
    exists adds one row per chunk it computes, in their order, each with
    the document's id, the chunk's text, index and offsets, and an
    embedding; the rows that were there stay as they are, so that a
    document chunked again has its chunks twice.  For a document that does
    not exist every insert is refused and nothing changes.  The result is
    [nil] either way. *)
Theorem chunkDocument_appends : forall id content w,
  reliable env ->
  result (chunkDocument caseTable env id content) w = None
  /\ if documentExists (db w) id then
       exists rows,
         tbl_chunks (db (after (chunkDocument caseTable env id content) w))
         = tbl_chunks (db w) ++ rows
         /\ map chunkFields rows = map (pair id) (computeChunks content)
         /\ forallb hasEmbedding rows = true
     else db (after (chunkDocument caseTable env id content) w) = db w.
Proof.
  intros id content w Hr. unfold result, after, chunkDocument.
  rewrite bind_run. cbn [ret fst snd]. split; [reflexivity |].
  destruct (documentExists (db w) id) eqn:Hd.
  - apply storeChunks_append; assumption.
  - apply storeChunks_refused; assumption.
Qed.

End Stored.

Lemma chunkDocument_example :
  reliable quietEnv
  /\ result (chunkDocument asciiOnly quietEnv 1 (str "Alpha. Beta.")) afterFirst = None
  /\ if documentExists (db afterFirst) 1 then
       exists rows,
         tbl_chunks (db (after (chunkDocument asciiOnly quietEnv 1 (str "Alpha. Beta."))
                               afterFirst))
         = tbl_chunks (db afterFirst) ++ rows
         /\ map chunkFields rows = map (pair 1) (computeChunks (str "Alpha. Beta."))
         /\ forallb hasEmbedding rows = true
     else db (after (chunkDocument asciiOnly quietEnv 1 (str "Alpha. Beta.")) afterFirst)
          = db afterFirst.
Proof.
  split; [exact quiet_reliable |].
  exact (chunkDocument_appends asciiOnly quietEnv 1 (str "Alpha. Beta.") afterFirst
           quiet_reliable).
Defined.

Lemma upsertEdge_nodes s t ty p id : stmtKeeps tbl_knowledge_nodes (upsertEdge s t ty p id).
Proof. stmt_keeps. Qed.

Lemma selectNodeId_notGraph n t : stmtKeeps notGraph (selectNodeId n t).
Proof. stmt_keeps. Qed.

Lemma upsertNode_notGraph n t p e id : stmtKeeps notGraph (upsertNode n t p e id).
Proof. stmt_keeps. Qed.

Lemma upsertEdge_notGraph s t ty p id : stmtKeeps notGraph (upsertEdge s t ty p id).
Proof. stmt_keeps. Qed.

Section Extraction.
Variable caseTable : Z -> Z.
Variable extractEntities : gostring -> list Entity.
Variable extractRelationships : gostring -> gomap -> list Relationship.
Variable env : Env.

Lemma exec_cases {R} (stmt : nat -> DB -> outcome (DB * R)) w :
  let w' := mkWorld (db w) (S (clock w)) (goroutines w) in
  (exec env stmt w = (Failed driverError, w') /\ dbFails env (clock w) = true)
  \/ (exists err, exec env stmt w = (Failed err, w') /\ stmt (clock w) (db w) = Failed err)
  \/ (exists d r, exec env stmt w = (Done r, mkWorld d (S (clock w)) (goroutines w))
                  /\ stmt (clock w) (db w) = Done (d, r)).
Proof.
  unfold exec. destruct (dbFails env (clock w)); [left; auto |]. right.
  destruct (stmt (clock w) (db w)) as [[d r] | err]; [right | left]; eauto.
Qed.

Lemma storeEntity_nodes id m e w :
  exists added,
    tbl_knowledge_nodes (db (snd (storeEntity caseTable env id m e w)))
    = tbl_knowledge_nodes (db w) ++ added
    /\ forallb (nodeOf id) added = true.
Proof.
  unfold storeEntity. rewrite bind_run.
  destruct (exec_cases (selectNodeId (ent_Name e) (ent_Type e)) w)
    as [[-> _] | [(err & -> & S) | (d & r & -> & S)]]; cbn [fst snd].
  - exists []. rewrite app_nil_r. auto.
  - unfold selectNodeId in S.
    destruct (find _ (tbl_knowledge_nodes (db w))) eqn:F; [discriminate |].
    injection S as <-. rewrite bind_run.
    match goal with |- context [generateEmbeddingM caseTable env ?t ?w1] =>
      destruct (generateEmbeddingM_done caseTable env t w1) as (v & -> & _)
    end.
    cbn [fst snd db clock goroutines]. rewrite bind_run.
    match goal with |- context [exec env ?stmt ?w2] =>
      destruct (exec_cases stmt w2) as [[-> _] | [(err & -> & U) | (d & r & -> & U)]]
    end; cbn [fst snd db ret].
    + exists []. rewrite app_nil_r. auto.
    + exists []. rewrite app_nil_r. auto.
    + unfold upsertNode in U. cbn [db clock] in U.
      destruct (negb (documentExists (db w) id)); [discriminate |].
      rewrite F in U. injection U as <- _.
      eexists [_]. cbn [tbl_knowledge_nodes set_knowledge_nodes]. split; [reflexivity |].
      cbn. rewrite Z.eqb_refl. reflexivity.
  - unfold selectNodeId in S. destruct (find _ _); [| discriminate].
    injection S as <- _. exists []. rewrite app_nil_r. auto.
Qed.

Lemma storeEntities_nodes id entities :
  forall m w,
  exists added,
    tbl_knowledge_nodes (db (snd (foldM (storeEntity caseTable env id) entities m w)))
    = tbl_knowledge_nodes (db w) ++ added
    /\ forallb (nodeOf id) added = true.
Proof.
  induction entities as [| e entities IH]; intros m w; cbn [foldM].
  - exists []. rewrite app_nil_r. auto.
  - rewrite bind_run. destruct (storeEntity_nodes id m e w) as (a1 & E1 & H1).
    match goal with |- context [foldM _ entities ?m1 ?w1] =>
      destruct (IH m1 w1) as (a2 & E2 & H2)
    end.
    exists (a1 ++ a2). rewrite E2, E1, <- app_assoc. split; [reflexivity |].
    rewrite forallb_app, H1, H2. reflexivity.
Qed.


End Extraction.

Lemma nodeStored_app d d' name type added :
  tbl_knowledge_nodes d' = tbl_knowledge_nodes d ++ added ->
  nodeStored d name type = true -> nodeStored d' name type = true.
Proof.
  unfold nodeStored. intros -> H. rewrite existsb_app, H. reflexivity.
Qed.

Section Entities.
Variable caseTable : Z -> Z.
Variable extractEntities : gostring -> list Entity.
Variable extractRelationships : gostring -> gomap -> list Relationship.
Variable env : Env.
Hypothesis Hrel : reliable env.

Lemma storeEntity_stores id m e w :
  documentExists (db w) id = true ->
  nodeStored (db (snd (storeEntity caseTable env id m e w))) (ent_Name e) (ent_Type e)
  = true.
Proof.
  intros Hd. unfold storeEntity. rewrite bind_exec by assumption.
  unfold selectNodeId.
  destruct (find _ (tbl_knowledge_nodes (db w))) as [r |] eqn:F.
  - cbn [ret snd db]. unfold nodeStored. apply existsb_exists.
    destruct (find_some _ _ F) as [Hin Hr]. eauto.
  - rewrite bind_run.
    match goal with |- context [generateEmbeddingM caseTable env ?t ?w1] =>
      destruct (generateEmbeddingM_done caseTable env t w1) as (v & -> & _)
    end.
    cbn [fst snd db clock goroutines]. rewrite bind_exec by assumption.
    unfold upsertNode. cbn [db clock goroutines]. rewrite Hd, F. cbn [negb ret snd db].
    unfold nodeStored. cbn [tbl_knowledge_nodes set_knowledge_nodes].
    rewrite existsb_app. cbn [existsb node_name node_type].
    rewrite !gostring_eqb_refl. apply orb_true_r.
Qed.

Lemma storeEntity_documents id m e :
  kept tbl_documents (storeEntity caseTable env id m e).
Proof.
  unfold storeEntity.
  apply kept_bind; [apply kept_exec; intros now d d' r; apply selectNodeId_keeps |].
  intros [x | [| msg]]; try apply kept_ret.
  apply kept_bind; [apply kept_generateEmbeddingM |].
  intros [v | err]; [| apply kept_ret].
  apply kept_bind; [apply kept_exec; intros now d d' r; apply upsertNode_keeps |].
  intros [x | err]; apply kept_ret.
Qed.

Lemma storeEntities_store id entities :
  forall m w, documentExists (db w) id = true ->
  forall e, In e entities ->
  nodeStored (db (snd (foldM (storeEntity caseTable env id) entities m w)))
             (ent_Name e) (ent_Type e) = true.
Proof.
  induction entities as [| x entities IH]; intros m w Hd e He; [contradiction |].
  cbn [foldM]. rewrite bind_run.
  set (w1 := snd (storeEntity caseTable env id m x w)).
  assert (Hd1 : documentExists (db w1) id = true).
  { unfold documentExists, w1. rewrite (storeEntity_documents id m x w). exact Hd. }
  destruct He as [<- | He]; [| apply IH; assumption].
  match goal with |- context [foldM _ entities ?m1 w1] =>
    destruct (storeEntities_nodes caseTable env id entities m1 w1) as (added & E & _)
  end.
  eapply nodeStored_app; [exact E |]. apply storeEntity_stores. exact Hd.
Qed.

Lemma storeRelationships_nodes id rels :
  kept tbl_knowledge_nodes (forM_ (storeRelationship env id) rels).
Proof.
  unfold forM_. apply kept_foldM. intros _ rel. unfold storeRelationship.
  apply kept_bind; [| intros; apply kept_ret].
  apply kept_exec, upsertEdge_nodes.
Qed.

(** With a driver that does not fail and a document that exists, after
    [ExtractEntitiesAndRelations] every entity that [extractEntities]
    finds in the content has a node with its name and type. *)
Theorem extraction_stores_entities : forall id content w,
  documentExists (db w) id = true ->
  forall e, In e (extractEntities content) ->
  nodeStored
    (db (after (ExtractEntitiesAndRelations caseTable extractEntities
                  extractRelationships env id content) w))
    (ent_Name e) (ent_Type e) = true.
Proof.
  intros id content w Hd e He. unfold after, ExtractEntitiesAndRelations.
  rewrite bind_run.
  pose proof (storeEntities_store id (extractEntities content) [] w Hd e He) as H.
  rewrite bind_run. cbn [ret snd]. unfold nodeStored in *.
  rewrite storeRelationships_nodes. exact H.
Qed.

End Entities.

Lemma extraction_stores_entities_example :
  reliable quietEnv
  /\ documentExists (db afterFirst) 1 = true
  /\ scanEntities (str "Acme Corp.") = [acmeCorp]
  /\ nodeStored
       (db (after (ExtractEntitiesAndRelations asciiOnly scanEntities scanRelationships
                     quietEnv 1 (str "Acme Corp.")) afterFirst))
       (ent_Name acmeCorp) (ent_Type acmeCorp) = true.
Proof.
  assert (Hd : documentExists (db afterFirst) 1 = true) by (lazy; reflexivity).
  assert (Hs : scanEntities (str "Acme Corp.") = [acmeCorp]) by (vm_compute; reflexivity).
  assert (He : In acmeCorp (scanEntities (str "Acme Corp.")))
    by (rewrite Hs; left; reflexivity).
  split; [exact quiet_reliable |]. split; [exact Hd |]. split; [exact Hs |].
  exact (extraction_stores_entities asciiOnly scanEntities scanRelationships quietEnv
           quiet_reliable 1 (str "Acme Corp.") afterFirst Hd acmeCorp He).
Defined.

(** ** Search *)

Lemma insertBy_In {A} (before : A -> A -> bool) x l y :
  In y (insertBy before x l) <-> y = x \/ In y l.
Proof.
  induction l as [| z l IH]; cbn [insertBy In]; [intuition congruence |].
  destruct (before z x); cbn [In]; [rewrite IH |]; intuition congruence.
Qed.

Lemma sortBy_In {A} (before : A -> A -> bool) l y :
  In y (sortBy before l) <-> In y l.
Proof.
  unfold sortBy.
  assert (G : forall acc, In y (fold_left (fun acc x => insertBy before x acc) l acc)
                          <-> In y acc \/ In y l).
  { induction l as [| x l IH]; intros acc; cbn [fold_left In]; [tauto |].
    rewrite IH, insertBy_In. intuition congruence. }
  rewrite G. cbn [In]. tauto.
Qed.

Lemma insertBy_length {A} (before : A -> A -> bool) x l :
  length (insertBy before x l) = S (length l).
Proof.
  induction l as [| z l IH]; [reflexivity |]. cbn [insertBy].
  destruct (before z x); cbn [length]; [rewrite IH |]; reflexivity.
Qed.

Lemma In_firstn {A} n : forall (l : list A) x, In x (firstn n l) -> In x l.
Proof.
  induction n as [| n IH]; intros [| y l] x; cbn [firstn In]; try tauto.
  intros [-> | H]; [left; reflexivity | right; apply IH; exact H].
Qed.

Lemma splitFrom_nonempty fuel : forall s sep, strings.splitFrom fuel s sep <> [].
Proof.
  destruct fuel; intros s sep; cbn [strings.splitFrom]; [discriminate |].
  destruct (strings.Index s sep <? 0); discriminate.
Qed.

Section SearchFacts.
Variable caseTable : Z -> Z.
Variable IsStopWord : gostring -> bool.
Variable cosineDistance : Vector -> Vector -> float64.
Variable env : Env.

Lemma keywordScore_range keywords content :
  (0 <= keywordScore caseTable keywords content
   /\ keywordScore caseTable keywords content <= 1)%Q.
Proof.
  unfold keywordScore. destruct (gostring_eqb keywords []).
  - split; [apply Qle_refl | discriminate].
  - set (arr := strings.Split keywords (str " ")).
    assert (Hn : arr <> []) by apply splitFrom_nonempty.
    pose proof (filter_length_le (keywordFound caseTable content) arr) as Hl.
    unfold Qle. cbn [Qnum Qden]. split; [lia |].
    destruct arr as [| a arr']; [congruence |]. cbn [length] in *.
    rewrite Z.mul_1_r, Z.mul_1_l, <- Pos.of_nat_succ, Zpos_P_of_succ_nat. lia.
Qed.

Lemma candidate_close q keywords d row :
  In row (candidateRows caseTable cosineDistance q keywords d) ->
  closeChunk caseTable cosineDistance q keywords d (searchResult row).
Proof.
  unfold candidateRows. intros H. apply in_flat_map in H. destruct H as (c & Hc & H).
  destruct (chunk_embedding c) as [e |] eqn:Ee; [| contradiction].
  apply in_flat_map in H. destruct H as (doc & Hdoc & H).
  destruct ((doc_id doc =? chunk_document_id c)
            && SFltb (cosineDistance e q) threshold) eqn:E; [| contradiction].
  destruct H as [<- | []]. apply andb_true_iff in E. destruct E as [Ei Ed].
  apply Z.eqb_eq in Ei. exists c, doc, e.
  cbn [searchResult sr_Content sr_DocumentID sr_URL sr_Title sr_Score row_content
       row_document_id row_url row_title row_similarity row_keyword_score].
  repeat split; auto.
Qed.

(** [Query] never changes the database.  What it returns has at most five
    results, and each is made of a chunk of the database that has an
    embedding at a distance below the threshold from the embedding of the
    query, with the id, the URL and the title of the chunk's document and
    the score computed from the distance and the keyword score of the
    chunk; the keyword share lies between 0 and 1.  It fails only when the driver
    does. *)
Theorem Query_limits : forall query w,
  db (after (Query caseTable IsStopWord cosineDistance env query) w) = db w
  /\ (forall results,
        result (Query caseTable IsStopWord cosineDistance env query) w = Done results ->
        (length results <= resultLimit)%nat
        /\ exists queryEmbedding,
             generateEmbedding caseTable (mapOrder env (clock w)) query
             = Done queryEmbedding
             /\ Forall (closeChunk caseTable cosineDistance queryEmbedding
                                   (strings.Join (extractKeywords caseTable IsStopWord query)
                                                 (str " "))
                                   (db w)) results)
  /\ (dbFails env (S (clock w)) = false ->
      exists results,
        result (Query caseTable IsStopWord cosineDistance env query) w = Done results)
  /\ (forall keywords content,
        (0 <= keywordScore caseTable keywords content
         /\ keywordScore caseTable keywords content <= 1)%Q).
Proof.
  intros query w. unfold result, after, Query. rewrite bind_run.
  destruct (generateEmbeddingM_done caseTable env query w) as (v & -> & Hv).
  cbn [fst snd]. rewrite bind_run. unfold exec, selectRanked. cbn [clock db goroutines].
  destruct (dbFails env (S (clock w))); cbn [fst snd ret db].
  - repeat split; try discriminate; try apply keywordScore_range.
  - split; [reflexivity |]. split; [| split; [eauto | apply keywordScore_range]].
    intros results E. injection E as <-. rewrite length_map. split.
    + exact (firstn_le_length resultLimit _).
    + exists v. split; [exact Hv |].
      apply Forall_forall. intros r Hr. apply in_map_iff in Hr.
      destruct Hr as (row & <- & Hrow).
      apply (In_firstn resultLimit), sortBy_In in Hrow.
      exact (candidate_close _ _ _ _ Hrow).
Qed.

End SearchFacts.

(** ** [LIKE] without wildcards *)

Lemma likeMatch_nil text : likeMatch [] text = match text with [] => true | _ => false end.
Proof. reflexivity. Qed.

Lemma likeMatch_percent rest text :
  likeMatch (str "%" :: rest) text
  = likeMatch rest text
    || match text with [] => false | _ :: text' => likeMatch (str "%" :: rest) text' end.
Proof. destruct text; reflexivity. Qed.

Lemma likeMatch_star rest text :
  likeMatch (str "%" :: rest) text = true
  <-> exists pre post, text = pre ++ post /\ likeMatch rest post = true.
Proof.
  induction text as [| c text IH]; rewrite likeMatch_percent.
  - rewrite orb_false_r. split.
    + intros H. exists [], []. auto.
    + intros (pre & post & E & H). symmetry in E. apply app_eq_nil in E.
      destruct E as [-> ->]. exact H.
  - rewrite orb_true_iff, IH. split.
    + intros [H | (pre & post & -> & H)].
      * exists [], (c :: text). auto.
      * exists (c :: pre), post. auto.
    + intros (pre & post & E & H). destruct pre as [| x pre].
      * left. cbn [app] in E. subst post. exact H.
      * right. injection E as -> ->. eauto.
Qed.

Lemma gostring_eqb_neq a b : a <> b -> gostring_eqb a b = false.
Proof.
  intros H. destruct (gostring_eqb a b) eqn:E; [| reflexivity].
  apply gostring_eqb_spec in E. contradiction.
Qed.

Lemma likeMatch_plainChar p rest text :
  plainChar p ->
  likeMatch (p :: rest) text
  = match text with
    | [] => false
    | c :: text' => gostring_eqb c p && likeMatch rest text'
    end.
Proof.
  intros (H1 & H2 & H3). cbn [likeMatch].
  rewrite (gostring_eqb_neq _ _ H1), (gostring_eqb_neq _ _ H2), (gostring_eqb_neq _ _ H3).
  reflexivity.
Qed.

Lemma likeMatch_prefix ps : forall text,
  Forall plainChar ps ->
  (likeMatch (ps ++ [str "%"]) text = true <-> exists post, text = ps ++ post).
Proof.
  induction ps as [| p ps IH]; intros text Hp.
  - cbn [app]. rewrite likeMatch_star. split; [eauto |].
    intros _. exists text, []. rewrite app_nil_r. auto.
  - inversion Hp as [| ? ? Hp1 Hp2]; subst. cbn [app].
    rewrite likeMatch_plainChar by assumption.
    destruct text as [| c text]; [split; [discriminate | intros (post & E); discriminate] |].
    rewrite andb_true_iff, gostring_eqb_spec, IH by assumption. split.
    + intros (-> & post & ->). eauto.
    + intros (post & E). injection E as -> ->. eauto.
Qed.

(** A pattern of plain characters between two [%] matches the texts that
    hold the characters in a row. *)
Lemma likeMatch_infix ps text :
  Forall plainChar ps ->
  (likeMatch (str "%" :: ps ++ [str "%"]) text = true
   <-> exists pre post, text = pre ++ ps ++ post).
Proof.
  intros Hp. rewrite likeMatch_star. split.
  - intros (pre & post & -> & H). apply likeMatch_prefix in H; [| exact Hp].
    destruct H as (post' & ->). eauto.
  - intros (pre & post & ->). exists pre, (ps ++ post). split; [reflexivity |].
    apply likeMatch_prefix; eauto.
Qed.

(** ** [strings.Contains] *)

Lemma HasPrefix_app p : forall t, strings.HasPrefix (p ++ t) p = true.
Proof.
  induction p as [| c p IH]; intros t; cbn [app strings.HasPrefix];
    [destruct t; reflexivity |].
  destruct (ascii_dec c c); [apply IH | congruence].
Qed.

Lemma HasPrefix_nil p : strings.HasPrefix [] p = true -> p = [].
Proof. destruct p; [reflexivity | discriminate]. Qed.

Lemma occurrences_infix sub post : forall pre off,
  strings.occurrences off (pre ++ sub ++ post) sub <> [].
Proof.
  induction pre as [| c pre IH]; intros off; cbn [app].
  - destruct (sub ++ post) as [| d rest] eqn:E; cbn [strings.occurrences].
    + apply app_eq_nil in E. destruct E as [-> _]. discriminate.
    + rewrite <- E, HasPrefix_app. discriminate.
  - cbn [strings.occurrences]. intros H. apply app_eq_nil in H.
    destruct H as [_ H]. exact (IH _ H).
Qed.

Lemma Contains_iff s sub :
  Contains s sub = true <-> exists pre post, s = pre ++ sub ++ post.
Proof.
  unfold Contains. split.
  - intros H. apply Z.leb_le in H.
    destruct (Index_spec s sub) as [E | (_ & B & C)]; [lia |].
    exists (firstn (Z.to_nat (strings.Index s sub)) s),
           (skipn (length sub) (skipn (Z.to_nat (strings.Index s sub)) s)).
    rewrite <- C at 2. rewrite firstn_skipn, firstn_skipn. reflexivity.
  - intros (pre & post & ->). apply Z.leb_le. unfold strings.Index.
    destruct (strings.occurrences 0 (pre ++ sub ++ post) sub) as [| z l] eqn:E.
    + exfalso. exact (occurrences_infix sub post pre 0 E).
    + cbn [hd].
      destruct (occurrences_spec sub (pre ++ sub ++ post) 0 z) as (A & _);
        [rewrite E; left; reflexivity | exact A].
Qed.

(** ** Characters and bytes of well-formed text *)

Lemma chars_encodeAll rs :
  forallb utf8.ValidRune rs = true -> chars (encodeAll rs) = map utf8.EncodeRune rs.
Proof.
  intros H. unfold chars. rewrite range_encodeAll by assumption.
  rewrite map_map. reflexivity.
Qed.

Lemma concat_encodings rs : concat (map utf8.EncodeRune rs) = encodeAll rs.
Proof. unfold encodeAll. symmetry. apply flat_map_concat_map. Qed.

Lemma encode_head r c l : utf8.EncodeRune r = c :: l -> ~ isCont c.
Proof.
  unfold isCont.
  destruct (encode_shape r) as [(b & -> & Hb) | [(l0 & c1 & -> & Hl & _) |
    [(l0 & c1 & c2 & -> & Hl & _) | (l0 & c1 & c2 & c3 & -> & Hl & _)]]];
    intros E; injection E as <- _; unfold isLead in *; lia.
Qed.

Lemma encode_tail r a c l : utf8.EncodeRune r = a ++ c :: l -> a <> [] -> isCont c.
Proof.
  destruct (encode_shape r) as [(b & -> & Hb) | [(l0 & c1 & -> & Hl & H1) |
    [(l0 & c1 & c2 & -> & Hl & H1 & H2) | (l0 & c1 & c2 & c3 & -> & Hl & H1 & H2 & H3)]]];
    intros E Ha;
    (destruct a as [| x1 a]; [congruence |]);
    cbn [app] in E; injection E as _ E;
    repeat (destruct a as [| ? a]; cbn [app] in E;
            [injection E as <- _; assumption | injection E as _ E]);
    try discriminate E; destruct a; discriminate E.
Qed.

Lemma prefix_runes rsQ : forall rsT b,
  forallb utf8.ValidRune rsQ = true -> forallb utf8.ValidRune rsT = true ->
  encodeAll rsT = encodeAll rsQ ++ b ->
  exists rb, rsT = rsQ ++ rb /\ b = encodeAll rb.
Proof.
  induction rsQ as [| r rq IH]; intros rsT b Hq Ht E.
  - exists rsT. auto.
  - cbn [forallb] in Hq. apply andb_true_iff in Hq. destruct Hq as [Hr Hq].
    rewrite encodeAll_cons, <- app_assoc in E.
    destruct rsT as [| t rt].
    + exfalso. symmetry in E. exact (encode_nonempty _ _ E).
    + cbn [forallb] in Ht. apply andb_true_iff in Ht. destruct Ht as [Ht Hrt].
      rewrite encodeAll_cons in E.
      pose proof (decode_encode t (encodeAll rt) Ht) as D1.
      pose proof (decode_encode r (encodeAll rq ++ b) Hr) as D2.
      rewrite E, D2 in D1. injection D1 as -> _.
      apply app_inv_head in E.
      destruct (IH rt b Hq Hrt E) as (rb & -> & ->). exists rb. auto.
Qed.

(** An encoded text that occurs in an encoded text occurs there rune by
    rune. *)
Lemma infix_runes rsQ : forall rsT a b,
  rsQ <> [] ->
  forallb utf8.ValidRune rsQ = true -> forallb utf8.ValidRune rsT = true ->
  encodeAll rsT = a ++ encodeAll rsQ ++ b ->
  exists ra rb, rsT = ra ++ rsQ ++ rb.
Proof.
  intros rsT. induction rsT as [| t rt IH]; intros a b Hne Hq Ht E.
  - exfalso. destruct rsQ as [| r rq]; [congruence |].
    cbn [encodeAll flat_map] in E. symmetry in E.
    apply app_eq_nil in E. destruct E as [_ E].
    apply app_eq_nil in E. destruct E as [E _].
    exact (encode_nonempty r _ E).
  - destruct a as [| x a].
    + cbn [app] in E. destruct (prefix_runes rsQ (t :: rt) b Hq Ht E) as (rb & -> & _).
      exists [], rb. reflexivity.
    + pose proof Ht as Ht'. cbn [forallb] in Ht'. apply andb_true_iff in Ht'.
      destruct Ht' as [_ Hrt]. rewrite encodeAll_cons in E.
      apply app_eq_app in E. destruct E as (l & [[E1 E2] | [E1 E2]]).
      * destruct l as [| c l].
        -- rewrite app_nil_r in E1. cbn [app] in E2.
           destruct (IH [] b Hne Hq Hrt) as (ra & rb & ->);
             [cbn [app]; symmetry; exact E2 |].
           exists (t :: ra), rb. reflexivity.
        -- exfalso. destruct rsQ as [| r rq]; [congruence |].
           rewrite encodeAll_cons in E2.
           destruct (utf8.EncodeRune r) as [| c' l'] eqn:Er;
             [exact (encode_nonempty r [] (eq_trans (app_nil_r _) Er)) |].
           cbn [app] in E2. injection E2 as -> _.
           apply (encode_head r c l' Er).
           apply (encode_tail t (x :: a) c l E1). discriminate.
      * destruct (IH l b Hne Hq Hrt E2) as (ra & rb & ->).
        exists (t :: ra), rb. reflexivity.
Qed.

(** ** Lower-cased text is well formed *)

Lemma ascii_runes o :
  isASCII o = true ->
  forallb utf8.ValidRune (map byteval o) = true /\ encodeAll (map byteval o) = o.
Proof.
  unfold isASCII. induction o as [| c o IH]; [auto |]. cbn [forallb map]. intros H.
  apply andb_true_iff in H. destruct H as [Hc Ho]. apply Z.ltb_lt in Hc.
  destruct (encode_ascii c Hc) as [E V]. destruct (IH Ho) as [IV IE].
  rewrite V, IV, encodeAll_cons, E, IE. auto.
Qed.

Lemma encode_written r :
  0 <= r ->
  utf8.EncodeRune r = utf8.EncodeRune (writtenRune r)
  /\ utf8.ValidRune (writtenRune r) = true.
Proof.
  intros Hr. unfold writtenRune. destruct (utf8.ValidRune r) eqn:V; [auto |].
  split; [| reflexivity].
  assert (B : 55296 <= r /\ (r <= 57343 \/ 1114111 < r)).
  { revert V. unfold utf8.ValidRune, utf8.MaxRune.
    destruct (Z.leb_spec 0 r), (Z.ltb_spec r 55296), (Z.ltb_spec 57343 r),
             (Z.leb_spec r 1114111); cbn; intros; try discriminate; lia. }
  destruct B as [B1 B2].
  unfold utf8.EncodeRune, utf8.MaxRune, utf8.RuneError.
  assert (((0 <=? r) && (r <=? 127)) = false) as ->
    by (apply andb_false_iff; right; apply Z.leb_gt; lia).
  assert (((0 <=? r) && (r <=? 2047)) = false) as ->
    by (apply andb_false_iff; right; apply Z.leb_gt; lia).
  assert (((r <? 0) || (1114111 <? r) || ((55296 <=? r) && (r <=? 57343))) = true) as ->.
  { destruct (Z.ltb_spec 1114111 r); [rewrite orb_true_r; reflexivity |].
    rewrite orb_false_r. apply orb_true_iff. right. apply andb_true_iff.
    split; apply Z.leb_le; lia. }
  reflexivity.
Qed.

Section Lowered.
Variable caseTable : Z -> Z.

Lemma Map_runes (f : Z -> Z) (rws : list (Z * gostring)) :
  exists rs,
    forallb utf8.ValidRune rs = true
    /\ flat_map (fun rw => if f (fst rw) <? 0 then []
                           else utf8.EncodeRune (f (fst rw))) rws
       = encodeAll rs.
Proof.
  induction rws as [| rw rws (rs & V & E)]; [exists []; auto |].
  cbn [flat_map]. rewrite E.
  destruct (f (fst rw) <? 0) eqn:N.
  - exists rs. auto.
  - apply Z.ltb_ge in N. destruct (encode_written _ N) as [Ew Vw].
    exists (writtenRune (f (fst rw)) :: rs). cbn [forallb].
    rewrite Vw, V, encodeAll_cons, <- Ew. auto.
Qed.

Lemma lowered_ascii s :
  isASCII s = true ->
  isASCII (map (fun c => if (0x41 <=? byteval c) && (byteval c <=? 0x5A)
                         then mkbyte (byteval c + 0x20) else c) s) = true.
Proof.
  unfold isASCII. rewrite !forallb_forall. intros H c Hc.
  apply in_map_iff in Hc. destruct Hc as (b & <- & Hb). specialize (H b Hb).
  apply Z.ltb_lt in H. apply Z.ltb_lt.
  destruct ((65 <=? byteval b) && (byteval b <=? 90)) eqn:U; [| exact H].
  boolZ. rewrite byteval_mkbyte; unfold utf8.RuneSelf; lia.
Qed.

(** [LOWER] returns well-formed text whatever it is given. *)
Lemma LOWER_runes s :
  exists rs, forallb utf8.ValidRune rs = true /\ LOWER caseTable s = encodeAll rs.
Proof.
  unfold LOWER, strings.ToLower. fold (isASCII s).
  destruct (isASCII s) eqn:A.
  - destruct (ascii_runes _ (lowered_ascii s A)) as [V E]. eauto.
  - exact (Map_runes (unicode.ToLower caseTable) (utf8.range s)).
Qed.

Lemma Map_encodeAll (f : Z -> Z) rs :
  forallb utf8.ValidRune rs = true ->
  strings.Map f (encodeAll rs)
  = flat_map (fun r => if f r <? 0 then [] else utf8.EncodeRune (f r)) rs.
Proof.
  intros V. unfold strings.Map. rewrite range_encodeAll by assumption.
  rewrite flat_map_concat_map, map_map, <- flat_map_concat_map. reflexivity.
Qed.

Lemma isASCII_app a b : isASCII (a ++ b) = isASCII a && isASCII b.
Proof. apply forallb_app. Qed.

(** Lower-casing a pattern leaves the [%] around it in place. *)
Lemma LOWER_pattern q :
  utf8.ValidString q = true ->
  LOWER caseTable (str "%" ++ q ++ str "%") = str "%" ++ LOWER caseTable q ++ str "%".
Proof.
  intros V. unfold LOWER, strings.ToLower.
  fold (isASCII q). fold (isASCII (str "%" ++ q ++ str "%")).
  rewrite !isASCII_app.
  change (isASCII (str "%")) with true. rewrite andb_true_r. cbn [andb].
  destruct (isASCII q).
  - rewrite !map_app. reflexivity.
  - destruct (ValidString_runes q V) as (rq & Vq & ->).
    change (str "%") with (encodeAll [37]). rewrite <- !encodeAll_app.
    rewrite !Map_encodeAll;
      [| exact Vq | rewrite !forallb_app, Vq; reflexivity].
    rewrite !flat_map_app. reflexivity.
Qed.

End Lowered.

Lemma plainText_app a b : plainText (a ++ b) = plainText a && plainText b.
Proof. apply forallb_app. Qed.

Lemma plain_chars rs :
  plainText (encodeAll rs) = true -> Forall plainChar (map utf8.EncodeRune rs).
Proof.
  induction rs as [| r rs IH]; [constructor |].
  rewrite encodeAll_cons, plainText_app. intros H.
  apply andb_true_iff in H. destruct H as [Hr Hrs].
  cbn [map]. constructor; [| apply IH; exact Hrs].
  repeat split; intros E; rewrite E in Hr; discriminate Hr.
Qed.

(** For well-formed text and a well-formed keyword without wildcards,
    [text LIKE '%' || keyword || '%'] says whether the keyword occurs in
    the text. *)
Lemma LIKE_contains rt rq :
  forallb utf8.ValidRune rt = true -> forallb utf8.ValidRune rq = true ->
  plainText (encodeAll rq) = true ->
  LIKE (encodeAll rt) (str "%" ++ encodeAll rq ++ str "%")
  = Contains (encodeAll rt) (encodeAll rq).
Proof.
  intros Vt Vq P. apply eq_true_iff_eq. rewrite Contains_iff. unfold LIKE.
  change (str "%") with (encodeAll [37]). rewrite <- !encodeAll_app.
  rewrite !chars_encodeAll;
    [| exact Vt | rewrite !forallb_app, Vq; reflexivity].
  rewrite !map_app. change (map utf8.EncodeRune [37]) with [str "%"]. cbn [app].
  rewrite likeMatch_infix by (apply plain_chars; exact P). split.
  - intros (pre & post & E). exists (concat pre), (concat post).
    rewrite <- !concat_encodings, E, !concat_app. reflexivity.
  - intros (a & b & E). destruct rq as [| r rq'].
    + exists [], (map utf8.EncodeRune rt). reflexivity.
    + destruct (infix_runes (r :: rq') rt a b) as (ra & rb & ->);
        [discriminate | exact Vq | exact Vt | exact E |].
      exists (map utf8.EncodeRune ra), (map utf8.EncodeRune rb).
      rewrite !map_app. reflexivity.
Qed.

Section Plain.
Variable caseTable : Z -> Z.

Lemma keywordFound_plain content keyword :
  plainText (LOWER caseTable keyword) = true ->
  keywordFound caseTable content keyword = containsFold caseTable content keyword.
Proof.
  intros P. unfold keywordFound, containsFold.
  destruct (LOWER_runes caseTable content) as (rt & Vt & Et).
  destruct (LOWER_runes caseTable keyword) as (rq & Vq & Eq).
  rewrite Et, Eq in *. apply LIKE_contains; assumption.
Qed.

Lemma ILIKE_plain text query :
  utf8.ValidString query = true ->
  plainText (LOWER caseTable query) = true ->
  ILIKE caseTable text (str "%" ++ query ++ str "%") = containsFold caseTable text query.
Proof.
  intros V P. unfold ILIKE. rewrite LOWER_pattern by assumption.
  exact (keywordFound_plain text query P).
Qed.

End Plain.

(** ** The knowledge graph *)

Lemma filter_ext_eq {A} (f g : A -> bool) l :
  (forall x, f x = g x) -> filter f l = filter g l.
Proof. intros H. apply filter_ext. exact H. Qed.

Lemma filter_never {A} (f : A -> bool) l : (forall x, f x = false) -> filter f l = [].
Proof.
  intros H. induction l as [| x l IH]; [reflexivity |]. cbn [filter]. rewrite H. exact IH.
Qed.

Lemma filter_always {A} (f : A -> bool) l : (forall x, f x = true) -> filter f l = l.
Proof.
  intros H. induction l as [| x l IH]; [reflexivity |]. cbn [filter]. rewrite H, IH.
  reflexivity.
Qed.

Lemma memZ_In x l : memZ x l = true -> In x l.
Proof.
  unfold memZ. intros H. apply existsb_exists in H. destruct H as (y & Hy & E).
  apply Z.eqb_eq in E. subst y. exact Hy.
Qed.

Lemma edgesAmong_none d : edgesAmong [] d = [].
Proof. unfold edgesAmong. apply filter_never. intros x. reflexivity. Qed.

Section GraphFacts.
Variable caseTable : Z -> Z.
Variable env : Env.

Lemma GetKnowledgeGraph_run query w (wanted : KnowledgeNode -> bool) :
  reliable env -> gostring_eqb query [] = false ->
  (forall n, ILIKE caseTable (node_name n) (str "%" ++ query ++ str "%") = wanted n) ->
  let nodes := map (nodeResponse (db w))
                   (sortBy byNodeID (filter wanted (tbl_knowledge_nodes (db w)))) in
  result (GetKnowledgeGraph caseTable env query) w
  = Done (nodes, edgesAmong nodes (db w)).
Proof.
  intros Hr Hq Hw nodes. unfold result, GetKnowledgeGraph. rewrite Hq. cbn [negb andb].
  rewrite bind_exec by assumption. unfold selectNodesWhere.
  rewrite (filter_ext_eq _ wanted) by exact Hw. fold nodes.
  destruct nodes as [| n ns] eqn:E.
  - cbn [ret fst]. rewrite edgesAmong_none. reflexivity.
  - rewrite bind_exec by assumption. unfold selectEdgesWhere.
    rewrite (filter_always (fun _ : KnowledgeEdge => true)) by reflexivity.
    reflexivity.
Qed.

(** With a driver that does not fail, for a query that is not empty, is
    well-formed UTF-8 and has, lower-cased, none of the characters [%],
    [_] and backslash, [GetKnowledgeGraph] returns exactly the nodes whose
    name holds the query when case is ignored, in the order of their ids,
    and the edges that have both ends among them. *)
Theorem GetKnowledgeGraph_plain_query : forall query w,
  reliable env -> query <> [] ->
  utf8.ValidString query = true -> plainText (LOWER caseTable query) = true ->
  result (GetKnowledgeGraph caseTable env query) w
  = Done (nodesHolding caseTable query (db w),
          edgesAmong (nodesHolding caseTable query (db w)) (db w)).
Proof.
  intros query w Hr Hq V P.
  apply (GetKnowledgeGraph_run query w
           (fun n => containsFold caseTable (node_name n) query)); auto.
  - apply gostring_eqb_neq. exact Hq.
  - intros n. apply ILIKE_plain; assumption.
Qed.

Lemma likeMatch_any text : likeMatch [str "%"; str "%"; str "%"] text = true.
Proof.
  apply likeMatch_star. exists [], text. split; [reflexivity |].
  apply likeMatch_star. exists [], text. split; [reflexivity |].
  apply likeMatch_star. exists text, []. rewrite app_nil_r. auto.
Qed.

(** The query [%] is a wildcard to the database: with a driver that does
    not fail, [GetKnowledgeGraph] returns for it all nodes, as it does for
    the empty query, whatever their names. *)
Theorem GetKnowledgeGraph_percent : forall w,
  reliable env ->
  result (GetKnowledgeGraph caseTable env (str "%")) w
  = Done (allNodes (db w), edgesAmong (allNodes (db w)) (db w)).
Proof.
  intros w Hr.
  rewrite (GetKnowledgeGraph_run (str "%") w (fun _ => true)); auto.
  - rewrite filter_always by reflexivity. reflexivity.
  - intros n. unfold ILIKE, LIKE.
    change (chars (LOWER caseTable (str "%" ++ str "%" ++ str "%")))
      with [str "%"; str "%"; str "%"].
    apply likeMatch_any.
Qed.

(** Whatever the driver does, when [GetKnowledgeGraph] returns a graph:
    for the empty query it is all nodes and all edges, each in the order
    of the ids; for any other query every edge returned has both its ends
    among the nodes returned. *)
Theorem GetKnowledgeGraph_edges : forall query w nodes edges,
  result (GetKnowledgeGraph caseTable env query) w = Done (nodes, edges) ->
  (query = [] -> nodes = allNodes (db w) /\ edges = allEdges (db w))
  /\ (query <> [] -> Forall (joinsListed nodes) edges).
Proof.
  intros query w nodes edges. unfold result, GetKnowledgeGraph.
  rewrite bind_run.
  destruct (exec_cases env (selectNodesWhere
              (fun n => if negb (gostring_eqb query [])
                        then ILIKE caseTable (node_name n) (str "%" ++ query ++ str "%")
                        else true)) w)
    as [[-> _] | [(err & -> & S) | (d & ns & -> & S)]]; cbn [fst snd];
    try discriminate.
  unfold selectNodesWhere in S. injection S as <- <-.
  destruct (gostring_eqb query []) eqn:Q; cbn [negb andb].
  - apply gostring_eqb_spec in Q. subst query.
    rewrite bind_run.
    match goal with |- context [exec env ?stmt ?w1] =>
      destruct (exec_cases env stmt w1)
        as [[-> _] | [(err & -> & S) | (d & es & -> & S)]]
    end; cbn [fst snd ret]; try discriminate.
    unfold selectEdgesWhere in S. cbn [db] in S. injection S as <- <-.
    intros E. injection E as <- <-. split; [| congruence]. intros _.
    unfold allNodes, allEdges.
    rewrite (filter_always (fun _ : KnowledgeEdge => true)) by reflexivity.
    rewrite (filter_always (fun _ : KnowledgeNode => true)) by reflexivity. auto.
  - assert (query <> []) as Hq
      by (intros ->; rewrite gostring_eqb_refl in Q; discriminate).
    set (listed := map (nodeResponse (db w)) _).
    destruct listed as [| n ns] eqn:L.
    + cbn [ret fst]. intros E. injection E as <- <-. split; [congruence |].
      intros _. constructor.
    + rewrite bind_run.
      match goal with |- context [exec env ?stmt ?w1] =>
        destruct (exec_cases env stmt w1)
          as [[-> _] | [(err & -> & S) | (d & es & -> & S)]]
      end; cbn [fst snd ret]; try discriminate.
      intros E. injection E as <- <-. split; [congruence |]. intros _.
      apply Forall_forall. intros e He. apply filter_In in He. destruct He as [_ He].
      apply andb_prop in He. destruct He as [H1 H2].
      split; apply memZ_In; assumption.
Qed.

End GraphFacts.

(** ** The keywords of a query *)

Lemma decode_ascii_byte s r w b :
  utf8.DecodeRuneInString s = (r, w) ->
  In b (firstn w s) -> byteval b < 128 -> r = byteval b.
Proof.
  intros D Hb Ha.
  destruct (encode_decode _ _ _ D) as [[-> ->] | [(Hs & -> & ->) | (Hr & Hf & _)]].
  - contradiction.
  - destruct s as [| b0 t]; [congruence |]. cbn [firstn In] in Hb.
    destruct Hb as [<- | []]. unfold utf8.DecodeRuneInString in D.
    assert ((byteval b0 <? utf8.RuneSelf) = true) as E by (apply Z.ltb_lt; exact Ha).
    rewrite E in D. injection D as D. exact (eq_sym D).
  - rewrite Hf in Hb.
    destruct (encode_shape r) as [(c & E & Hc) | [(l & c1 & E & Hl & H1) |
      [(l & c1 & c2 & E & Hl & H1 & H2) | (l & c1 & c2 & c3 & E & Hl & H1 & H2 & H3)]]];
      rewrite E in Hb; cbn [In] in Hb; unfold isLead, isCont in *.
    + destruct Hb as [<- | []].
      pose proof (decode_encode_exact r Hr) as X. rewrite E in X.
      unfold utf8.DecodeRuneInString in X.
      assert ((byteval c <? utf8.RuneSelf) = true) as Ec by (apply Z.ltb_lt; exact Hc).
      rewrite Ec in X. injection X as X. exact (eq_sym X).
    + destruct Hb as [<- | [<- | []]]; lia.
    + destruct Hb as [<- | [<- | [<- | []]]]; lia.
    + destruct Hb as [<- | [<- | [<- | [<- | []]]]]; lia.
Qed.

Lemma range_chunks fuel : forall s rw,
  In rw (utf8.rangeFrom fuel s) ->
  exists s' w, utf8.DecodeRuneInString s' = (fst rw, w) /\ snd rw = firstn w s'.
Proof.
  induction fuel as [| fuel IH]; intros s rw H; [contradiction |].
  cbn [utf8.rangeFrom] in H. destruct s as [| c t]; [contradiction |].
  destruct (utf8.DecodeRuneInString (c :: t)) as [r w] eqn:D.
  destruct H as [<- | H]; [exists (c :: t), w; auto | eapply IH; exact H].
Qed.

Lemma chunk_noSpace s rw :
  In rw (utf8.range s) -> unicode.IsSpace (fst rw) = false -> noSpace (snd rw) = true.
Proof.
  intros H Hs. destruct (range_chunks _ _ _ H) as (s' & w & D & ->).
  unfold noSpace. apply forallb_forall. intros b Hb.
  destruct (byteval b =? 32) eqn:E; [| reflexivity]. apply Z.eqb_eq in E.
  rewrite (decode_ascii_byte _ _ _ b D Hb), E in Hs by lia. discriminate.
Qed.

Lemma noSpace_app a b : noSpace (a ++ b) = noSpace a && noSpace b.
Proof. apply forallb_app. Qed.

Lemma fieldsLoop_noSpace f rs : forall cur,
  (forall rw, In rw rs -> f (fst rw) = false -> noSpace (snd rw) = true) ->
  match cur with Some w => noSpace w = true | None => True end ->
  Forall (fun w => noSpace w = true) (strings.fieldsLoop f rs cur).
Proof.
  induction rs as [| [r bytes] rs IH]; intros cur H Hc; cbn [strings.fieldsLoop].
  - destruct cur; [constructor; [exact Hc | constructor] | constructor].
  - assert (Hrs : forall rw, In rw rs -> f (fst rw) = false -> noSpace (snd rw) = true)
      by (intros rw Hin; apply H; right; exact Hin).
    destruct (f r) eqn:F.
    + destruct cur as [w |]; [constructor; [exact Hc |] |]; apply IH; auto.
    + pose proof (H (r, bytes) (or_introl eq_refl) F) as Hb. cbn [snd] in Hb.
      destruct cur as [w |]; apply IH; auto.
      rewrite noSpace_app, Hc, Hb. reflexivity.
Qed.

Lemma Fields_noSpace s : Forall (fun w => noSpace w = true) (strings.Fields s).
Proof.
  unfold strings.Fields, strings.FieldsFunc. apply fieldsLoop_noSpace; [| exact I].
  intros rw H. apply chunk_noSpace with (s := s). exact H.
Qed.

Lemma Trim_noSpace w cutset : noSpace w = true -> noSpace (strings.Trim w cutset) = true.
Proof.
  intros H. unfold strings.Trim, noSpace.
  apply dropWhileEnd_forallb, dropWhile_forallb. exact H.
Qed.

Lemma Trim_trimmed w cutset : trimmed cutset (strings.Trim w cutset) = true.
Proof.
  unfold trimmed, strings.Trim. fold (inCutset cutset).
  set (d := dropWhile (inCutset cutset) w).
  pose proof (dropWhileEnd_head (inCutset cutset) d (dropWhile_head (inCutset cutset) w)) as H1.
  pose proof (dropWhileEnd_last (inCutset cutset) d) as H2.
  destruct (dropWhileEnd (inCutset cutset) d) as [| c k] eqn:E; [reflexivity |].
  rewrite H1. cbn [negb andb]. destruct (rev (c :: k)); [reflexivity |].
  rewrite H2. reflexivity.
Qed.

Section Keywords.
Variable caseTable : Z -> Z.
Variable IsStopWord : gostring -> bool.

(** Every keyword that [extractKeywords] returns is longer than two
    bytes, is not a stop word, holds no space, and neither begins nor
    ends with one of the punctuation marks that are trimmed. *)
Theorem extractKeywords_words : forall query,
  Forall (fun k => 2 < len k /\ IsStopWord k = false
                   /\ noSpace k = true /\ trimmed punctuation k = true)
         (extractKeywords caseTable IsStopWord query).
Proof.
  intros query. unfold extractKeywords. apply Forall_forall. intros k Hk.
  apply in_flat_map in Hk. destruct Hk as (word & Hw & Hk).
  destruct ((2 <? len (strings.Trim word punctuation))
            && negb (IsStopWord (strings.Trim word punctuation))) eqn:C;
    [| contradiction].
  destruct Hk as [<- | []]. apply andb_true_iff in C. destruct C as [C1 C2].
  apply Z.ltb_lt in C1. apply negb_true_iff in C2.
  repeat split; [exact C1 | exact C2 | | apply Trim_trimmed].
  apply Trim_noSpace.
  pose proof (Fields_noSpace (strings.ToLower caseTable query)) as F.
  rewrite Forall_forall in F. apply F. exact Hw.
Qed.

End Keywords.

(** ** The keywords as the database splits them *)

Lemma space_byte x : negb (byteval x =? 32) = true -> x <> " "%char.
Proof. intros H ->. discriminate H. Qed.

Lemma HasPrefix_space x s :
  negb (byteval x =? 32) = true -> strings.HasPrefix (x :: s) (str " ") = false.
Proof.
  intros H. cbn [str list_ascii_of_string strings.HasPrefix].
  destruct (ascii_dec " " x) as [E | E]; [| reflexivity].
  exfalso. exact (space_byte x H (eq_sym E)).
Qed.

Lemma occurrences_noSpace k : forall off,
  noSpace k = true -> strings.occurrences off k (str " ") = [].
Proof.
  induction k as [| x k IH]; intros off H; [reflexivity |].
  cbn [noSpace forallb] in H. apply andb_true_iff in H. destruct H as [Hx Hk].
  cbn [strings.occurrences]. rewrite (HasPrefix_space x k Hx). cbn [app].
  apply IH. exact Hk.
Qed.

Lemma occurrences_first k rest : forall off,
  noSpace k = true ->
  hd (-1) (strings.occurrences off (k ++ str " " ++ rest) (str " ")) = off + len k.
Proof.
  induction k as [| x k IH]; intros off H.
  - cbn [app str list_ascii_of_string strings.occurrences strings.HasPrefix].
    destruct (ascii_dec " " " ") as [_ | N]; [| congruence].
    destruct rest; cbn [strings.HasPrefix app hd]; unfold len; cbn [length]; lia.
  - cbn [noSpace forallb] in H. apply andb_true_iff in H. destruct H as [Hx Hk].
    cbn [app strings.occurrences]. rewrite (HasPrefix_space x _ Hx). cbn [app].
    rewrite IH by exact Hk. unfold len. cbn [length]. lia.
Qed.

Lemma splitFrom_Join kws : forall fuel,
  kws <> [] -> Forall (fun k => noSpace k = true) kws ->
  (length kws <= S fuel)%nat ->
  strings.splitFrom fuel (strings.Join kws (str " ")) (str " ") = kws.
Proof.
  induction kws as [| k kws IH]; intros fuel Hne Hk Hf; [congruence |].
  inversion Hk as [| ? ? Hk1 Hk2]; subst.
  destruct kws as [| k2 kws].
  - cbn [strings.Join]. destruct fuel; cbn [strings.splitFrom]; [reflexivity |].
    unfold strings.Index. rewrite occurrences_noSpace by assumption. reflexivity.
  - destruct fuel as [| fuel]; [cbn [length] in Hf; lia |].
    change (strings.Join (k :: k2 :: kws) (str " "))
      with (k ++ str " " ++ strings.Join (k2 :: kws) (str " ")).
    cbn [strings.splitFrom]. unfold strings.Index.
    rewrite occurrences_first by assumption. rewrite Z.add_0_l.
    assert ((len k <? 0) = false) as -> by (apply Z.ltb_ge; unfold len; lia).
    unfold strings.sliceTo, strings.sliceFrom, len.
    change (length (str " ")) with 1%nat.
    replace (Z.to_nat (Z.of_nat (length k) + Z.of_nat 1)) with (1 + length k)%nat by lia.
    rewrite Nat2Z.id, firstn_exact.
    rewrite <- skipn_skipn, skipn_exact. cbn [skipn app str list_ascii_of_string].
    rewrite IH; [reflexivity | discriminate | exact Hk2 | cbn [length] in *; lia].
Qed.

Lemma length_Join kws sep :
  sep <> [] -> (length kws <= S (length (strings.Join kws sep)))%nat.
Proof.
  intros Hs. induction kws as [| k kws IH]; [cbn; lia |].
  destruct kws as [| k2 kws]; [cbn; lia |].
  change (strings.Join (k :: k2 :: kws) sep) with (k ++ sep ++ strings.Join (k2 :: kws) sep).
  rewrite !length_app. destruct sep; [congruence |]. cbn [length] in *. lia.
Qed.

Lemma Split_Join kws :
  kws <> [] -> Forall (fun k => noSpace k = true) kws ->
  strings.Split (strings.Join kws (str " ")) (str " ") = kws.
Proof.
  intros Hne Hk. unfold strings.Split. apply splitFrom_Join; auto.
  apply length_Join. discriminate.
Qed.

Section Share.
Variable caseTable : Z -> Z.
Variable IsStopWord : gostring -> bool.

Lemma keywords_split query :
  Forall (fun k => k <> [] /\ noSpace k = true)
         (extractKeywords caseTable IsStopWord query).
Proof.
  unfold extractKeywords. apply Forall_forall. intros k Hk.
  apply in_flat_map in Hk. destruct Hk as (word & Hw & Hk).
  destruct ((2 <? len (strings.Trim word punctuation))
            && negb (IsStopWord (strings.Trim word punctuation))) eqn:C;
    [| contradiction].
  destruct Hk as [<- | []]. apply andb_true_iff in C. destruct C as [C1 _].
  apply Z.ltb_lt in C1. split.
  - intros E. rewrite E in C1. unfold len in C1. cbn in C1. lia.
  - apply Trim_noSpace.
    pose proof (Fields_noSpace (strings.ToLower caseTable query)) as F.
    rewrite Forall_forall in F. apply F. exact Hw.
Qed.

(** When no keyword of the query has, lower-cased, one of the characters
    [%], [_] and backslash, the keyword score that the search statement
    computes for a chunk from the joined keywords is the share of the
    keywords that occur in the chunk when case is ignored. *)
Theorem keywordScore_share : forall query content,
  forallb (fun k => plainText (LOWER caseTable k))
          (extractKeywords caseTable IsStopWord query) = true ->
  keywordScore caseTable
    (strings.Join (extractKeywords caseTable IsStopWord query) (str " ")) content
  = substringScore caseTable (extractKeywords caseTable IsStopWord query) content.
Proof.
  intros query content. pose proof (keywords_split query) as W.
  destruct (extractKeywords caseTable IsStopWord query) as [| k kws] eqn:E; intros P.
  - reflexivity.
  - unfold keywordScore, substringScore.
    assert (Hj : strings.Join (k :: kws) (str " ") <> []).
    { inversion W as [| ? ? (L & _) _]; subst.
      destruct k as [| c k']; [congruence |]. destruct kws; discriminate. }
    rewrite (gostring_eqb_neq _ _ Hj).
    rewrite Split_Join; [| discriminate |].
    + f_equal. f_equal. f_equal. apply filter_ext_in. intros x Hx.
      apply keywordFound_plain. rewrite forallb_forall in P. apply P. exact Hx.
    + eapply Forall_impl; [| exact W]. cbv beta. intros x (_ & N). exact N.
Qed.

End Share.

(** ** Instances *)

Lemma GetKnowledgeGraph_plain_query_example :
  reliable quietEnv /\ str "node" <> []
  /\ utf8.ValidString (str "node") = true
  /\ plainText (LOWER asciiOnly (str "node")) = true
  /\ result (GetKnowledgeGraph asciiOnly quietEnv (str "node")) testGraph
     = Done (nodesHolding asciiOnly (str "node") (db testGraph),
             edgesAmong (nodesHolding asciiOnly (str "node") (db testGraph))
                        (db testGraph)).
Proof.
  assert (Hq : str "node" <> []) by discriminate.
  assert (Hv : utf8.ValidString (str "node") = true) by reflexivity.
  assert (Hp : plainText (LOWER asciiOnly (str "node")) = true) by reflexivity.
  split; [exact quiet_reliable |]. split; [exact Hq |].
  split; [exact Hv |]. split; [exact Hp |].
  exact (GetKnowledgeGraph_plain_query asciiOnly quietEnv (str "node") testGraph
           quiet_reliable Hq Hv Hp).
Defined.

Lemma GetKnowledgeGraph_percent_example :
  reliable quietEnv
  /\ result (GetKnowledgeGraph asciiOnly quietEnv (str "%")) testGraph
     = Done (allNodes (db testGraph), edgesAmong (allNodes (db testGraph)) (db testGraph)).
Proof.
  split; [exact quiet_reliable |].
  exact (GetKnowledgeGraph_percent asciiOnly quietEnv testGraph quiet_reliable).
Defined.

Lemma GetKnowledgeGraph_edges_example :
  result (GetKnowledgeGraph asciiOnly quietEnv (str "node")) testGraph
  = Done (allNodes (db testGraph), allEdges (db testGraph))
  /\ length (allEdges (db testGraph)) = 1%nat
  /\ Forall (joinsListed (allNodes (db testGraph))) (allEdges (db testGraph)).
Proof.
  assert (H : result (GetKnowledgeGraph asciiOnly quietEnv (str "node")) testGraph
              = Done (allNodes (db testGraph), allEdges (db testGraph)))
    by (lazy; reflexivity).
  assert (Q : str "node" <> []) by discriminate.
  split; [exact H |]. split; [reflexivity |].
  exact (proj2 (GetKnowledgeGraph_edges asciiOnly quietEnv (str "node") testGraph _ _ H) Q).
Defined.

Lemma keywordScore_share_example :
  forallb (fun k => plainText (LOWER asciiOnly k))
          (extractKeywords asciiOnly noStopWords (str "Max tokens?")) = true
  /\ keywordScore asciiOnly
       (strings.Join (extractKeywords asciiOnly noStopWords (str "Max tokens?")) (str " "))
       (str "Set max tokens to limit the output")
     = substringScore asciiOnly (extractKeywords asciiOnly noStopWords (str "Max tokens?"))
                      (str "Set max tokens to limit the output").
Proof.
  assert (H : forallb (fun k => plainText (LOWER asciiOnly k))
                      (extractKeywords asciiOnly noStopWords (str "Max tokens?")) = true)
    by reflexivity.
  split; [exact H |].
  exact (keywordScore_share asciiOnly noStopWords (str "Max tokens?")
           (str "Set max tokens to limit the output") H).
Defined.

(** ** The embedding of a text of one word *)

Lemma rangeMap_small {A} (m : list A) order :
  (length m <= 1)%nat -> rangeMap order m = m.
Proof.
  destruct m as [| x [| y m]]; cbn [length]; intros H; [reflexivity | | lia].
  unfold rangeMap. cbn [length pickEntries]. rewrite Nat.mod_1_r. reflexivity.
Qed.

(** The order of the map loop does not matter to [generateEmbedding] when
    the text has at most one distinct word: the vector is then the same
    for every order. *)
Theorem generateEmbedding_single_word : forall caseTable text order1 order2,
  (length (wordHash caseTable text) <= 1)%nat ->
  generateEmbedding caseTable order1 text = generateEmbedding caseTable order2 text.
Proof.
  intros caseTable text order1 order2 H. unfold generateEmbedding.
  rewrite !rangeMap_small by exact H. reflexivity.
Qed.

Lemma generateEmbedding_single_word_example :
  (length (wordHash asciiOnly (str "Hello hello HELLO")) <= 1)%nat
  /\ generateEmbedding asciiOnly [2%nat; 1%nat] (str "Hello hello HELLO")
     = generateEmbedding asciiOnly [] (str "Hello hello HELLO").
Proof.
  assert (H : (length (wordHash asciiOnly (str "Hello hello HELLO")) <= 1)%nat)
    by (apply Nat.leb_le; reflexivity).
  split; [exact H |].
  exact (generateEmbedding_single_word asciiOnly (str "Hello hello HELLO")
           [2%nat; 1%nat] [] H).
Defined.

(** ** [ProcessDocument]: what it writes *)

Lemma find_map_same {A} (p : A -> bool) (f : A -> A) l :
  (forall x, p (f x) = p x) -> find p (map f l) = option_map f (find p l).
Proof.
  intros H. induction l as [| x l IH]; [reflexivity |].
  cbn [map find]. rewrite H. destruct (p x); [reflexivity | exact IH].
Qed.

Lemma find_app_none {A} (p : A -> bool) l l' :
  find p l = None -> find p (l ++ l') = find p l'.
Proof.
  induction l as [| x l IH]; [reflexivity |]. cbn [find app].
  destruct (p x); [discriminate | exact IH].
Qed.

Lemma upsertDocument_exists url title content v now d d' id :
  upsertDocument url title content v now d = Done (d', id) ->
  documentExists d' id = true
  /\ tbl_chunks d' = tbl_chunks d
  /\ In id (documentIdsOfURL d' url)
  /\ forall t, selectDocumentID url t d' = Done (d', id).
Proof.
  unfold upsertDocument, documentExists, documentIdsOfURL, selectDocumentID.
  destruct (find _ (tbl_documents d)) as [old |] eqn:F; intros E; injection E as <- <-;
    cbn [tbl_documents tbl_chunks set_documents].
  - destruct (find_some _ _ F) as [Hin Hu].
    set (upd := fun r : Document => if gostring_eqb (doc_url r) url then _ else r).
    assert (Hold : In (upd old) (map upd (tbl_documents d))) by (apply in_map; exact Hin).
    assert (Eid : doc_id (upd old) = doc_id old /\ doc_url (upd old) = doc_url old)
      by (unfold upd; rewrite Hu; auto).
    destruct Eid as [Eid Eurl].
    split; [| split; [reflexivity | split]].
    + apply existsb_exists. exists (upd old). rewrite Eid, Z.eqb_refl. auto.
    + apply in_map_iff. exists (upd old). split; [exact Eid |].
      apply filter_In. rewrite Eurl. auto.
    + intros t. rewrite find_map_same, F; [cbn [option_map]; rewrite Eid; reflexivity |].
      intros r. unfold upd. destruct (gostring_eqb (doc_url r) url) eqn:R;
        cbn [doc_url]; rewrite R; reflexivity.
  - split; [| split; [reflexivity | split]].
    + rewrite existsb_app. cbn [existsb doc_id]. rewrite Z.eqb_refl.
      apply orb_true_iff. right. reflexivity.
    + apply in_map_iff. eexists. split; [| apply filter_In; split;
        [apply in_or_app; right; left; reflexivity |]]; cbn [doc_id doc_url];
        [reflexivity | apply gostring_eqb_refl].
    + intros t. rewrite find_app_none by exact F. cbn [find doc_url].
      rewrite gostring_eqb_refl. reflexivity.
Qed.

(** ** Rows in the order of their index *)

Lemma insertBy_last {A} (before : A -> A -> bool) x l :
  Forall (fun y => before y x = true) l -> insertBy before x l = l ++ [x].
Proof.
  induction 1 as [| y l Hy _ IH]; [reflexivity |].
  cbn [insertBy app]. rewrite Hy, IH. reflexivity.
Qed.

Lemma sorted_before {A} (R : A -> A -> Prop) acc x l :
  StronglySorted R (acc ++ x :: l) -> Forall (fun y => R y x) acc.
Proof.
  induction acc as [| a acc IH]; cbn [app]; intros H; [constructor |].
  inversion H as [| ? ? Hs Hf]; subst. constructor; [| apply IH; exact Hs].
  rewrite Forall_forall in Hf. apply Hf. apply in_or_app. right. left. reflexivity.
Qed.

Lemma sortBy_sorted {A} (before : A -> A -> bool) l :
  StronglySorted (fun a b => before a b = true) l -> sortBy before l = l.
Proof.
  unfold sortBy.
  assert (G : forall l acc,
             StronglySorted (fun a b => before a b = true) (acc ++ l) ->
             fold_left (fun acc x => insertBy before x acc) l acc = acc ++ l).
  { clear l. induction l as [| x l IH]; intros acc H; cbn [fold_left].
    - rewrite app_nil_r. reflexivity.
    - rewrite insertBy_last by (exact (sorted_before _ acc x l H)).
      rewrite IH; rewrite <- app_assoc; [reflexivity | exact H]. }
  intros H. apply (G l []). exact H.
Qed.

Lemma counted_sorted {A} (f : A -> Z) l : forall s,
  map f l = map Z.of_nat (seq s (length l)) ->
  StronglySorted (fun a b => (f a <=? f b) = true) l.
Proof.
  induction l as [| x l IH]; intros s H; [constructor |].
  cbn [length seq map] in H. injection H as Hx Hl.
  constructor; [exact (IH _ Hl) |].
  apply Forall_forall. intros y Hy. apply Z.leb_le.
  assert (Hin : In (f y) (map f l)) by (apply in_map; exact Hy).
  rewrite Hl in Hin. apply in_map_iff in Hin. destruct Hin as (i & <- & Hi).
  apply in_seq in Hi. lia.
Qed.

Lemma computeChunks_indices content :
  map ChunkIndex (computeChunks content)
  = map Z.of_nat (seq 0 (length (computeChunks content))).
Proof.
  pose proof (computeChunks_groups content) as E.
  assert (El : length (computeChunks content)
               = length (groupFrom [] (sentencesOf content))).
  { rewrite <- (length_map chunkText), E, <- (length_map snd), numbered_snd.
    rewrite length_map, length_seq. reflexivity. }
  transitivity (map snd (map chunkText (computeChunks content)));
    [rewrite map_map; reflexivity |].
  rewrite E, numbered_snd, El. apply map_ext. intros i. lia.
Qed.

Section Written.
Variable caseTable : Z -> Z.
Variable extractEntities : gostring -> list Entity.
Variable extractRelationships : gostring -> gomap -> list Relationship.
Variable env : Env.

(** A [ProcessDocument] that returns an error has written nothing. *)
Theorem ProcessDocument_failure_keeps : forall req w,
  let run := ProcessDocument caseTable extractEntities extractRelationships env req in
  result run w = None \/ db (after run w) = db w.
Proof.
  intros req w run. unfold result, after, run, ProcessDocument.
  destruct (gostring_eqb (cleanContent (req_Content req)) []); [right; reflexivity |].
  rewrite bind_run.
  destruct (generateEmbeddingM_done caseTable env (cleanContent (req_Content req)) w)
    as (v & -> & _).
  cbn [fst snd]. rewrite bind_run. unfold storeDocument.
  match goal with |- context [exec env ?stmt ?w1] =>
    destruct (exec_cases env stmt w1) as [[-> _] | [(err & -> & S) | (d & r & -> & S)]]
  end; cbn [fst snd ret db].
  - right. reflexivity.
  - right. reflexivity.
  - left. rewrite !bind_run. reflexivity.
Qed.

Lemma ProcessDocument_writes req w :
  reliable env -> cleanContent (req_Content req) <> [] ->
  let run := ProcessDocument caseTable extractEntities extractRelationships env req in
  result run w = None
  /\ exists id rows,
       In id (documentIdsOfURL (db (after run w)) (req_URL req))
       /\ (forall t, selectDocumentID (req_URL req) t (db (after run w))
                     = Done (db (after run w), id))
       /\ tbl_chunks (db (after run w)) = tbl_chunks (db w) ++ rows
       /\ map chunkFields rows
          = map (pair id) (computeChunks (cleanContent (req_Content req)))
       /\ forallb hasEmbedding rows = true.
Proof.
  intros Hr Hne run. unfold result, after, run, ProcessDocument.
  rewrite (gostring_eqb_neq _ _ Hne). rewrite bind_run.
  set (cleaned := cleanContent (req_Content req)).
  destruct (generateEmbeddingM_done caseTable env cleaned w) as (v & -> & _).
  cbn [fst snd]. unfold storeDocument. rewrite bind_exec by assumption.
  cbn [db clock goroutines].
  destruct (upsertDocument (req_URL req) (req_Title req) cleaned v (S (clock w)) (db w))
    as [[d id] | err] eqn:U.
  2:{ exfalso. revert U. unfold upsertDocument. destruct (find _ _); discriminate. }
  destruct (upsertDocument_exists _ _ _ _ _ _ _ _ U) as (Hex & Hch & Hid & Hsel).
  rewrite !bind_run. cbn [ret fst snd]. split; [reflexivity |].
  set (w2 := mkWorld d (S (S (clock w))) (goroutines w)).
  destruct (storeChunks_append caseTable env id (computeChunks cleaned) Hr w2 Hex)
    as (rows & Ec & Ef & Ee).
  pose proof (keeps_chunkDocument caseTable env id cleaned w2) as Kd.
  assert (Es : tbl_chunks (db (snd (chunkDocument caseTable env id cleaned w2)))
               = tbl_chunks (db w2) ++ rows).
  { unfold chunkDocument. rewrite bind_run. cbn [ret snd]. exact Ec. }
  set (w3 := snd (chunkDocument caseTable env id cleaned w2)) in *.
  pose proof (kept_ExtractEntitiesAndRelations notGraph caseTable extractEntities
                extractRelationships env id cleaned
                (fun n t => selectNodeId_notGraph n t)
                (fun n t p e => upsertNode_notGraph n t p e id)
                (fun s t ty p => upsertEdge_notGraph s t ty p id) w3) as Hk.
  unfold notGraph in Hk. injection Hk as Hd Hc _.
  set (w4 := snd (ExtractEntitiesAndRelations caseTable extractEntities
                    extractRelationships env id cleaned w3)) in *.
  assert (Edocs : tbl_documents (db w4) = tbl_documents d).
  { rewrite Hd, Kd. reflexivity. }
  exists id, rows. rewrite Hc, Es. unfold documentIdsOfURL, selectDocumentID.
  rewrite Edocs. unfold w2 at 1. cbn [db]. rewrite Hch.
  split; [exact Hid |]. split; [| auto].
  intros t. specialize (Hsel t). unfold selectDocumentID in Hsel.
  destruct (find _ (tbl_documents d)) as [r |]; [| discriminate].
  injection Hsel as <-. reflexivity.
Qed.

(** With a driver that does not fail, [ProcessDocument] returns [nil]
    whenever the cleaned content is not empty, and it then adds the chunks
    of the cleaned content, in order, for the document of the URL, after
    the rows that [chunks] had: chunks of an earlier ingestion of the URL
    are not removed. *)
Theorem ProcessDocument_adds_chunks : forall req w,
  reliable env -> cleanContent (req_Content req) <> [] ->
  let run := ProcessDocument caseTable extractEntities extractRelationships env req in
  result run w = None
  /\ exists id rows,
       In id (documentIdsOfURL (db (after run w)) (req_URL req))
       /\ tbl_chunks (db (after run w)) = tbl_chunks (db w) ++ rows
       /\ map chunkFields rows
          = map (pair id) (computeChunks (cleanContent (req_Content req)))
       /\ forallb hasEmbedding rows = true.
Proof.
  intros req w Hr Hne run.
  destruct (ProcessDocument_writes req w Hr Hne) as (R & id & rows & Hid & _ & Hc & Hf & He).
  split; [exact R |]. exists id, rows. auto.
Qed.

Lemma rows_listed (id : Z) (old rows : list Chunk) (chunks : list ChunkInfo) :
  forallb (fun c => negb (chunk_document_id c =? id)) old = true ->
  map chunkFields rows = map (pair id) chunks ->
  map ChunkIndex chunks = map Z.of_nat (seq 0 (length chunks)) ->
  map entryFields
      (map scanChunk
           (sortBy (fun a b => chunk_index a <=? chunk_index b)
                   (filter (fun c => chunk_document_id c =? id) (old ++ rows))))
  = chunks.
Proof.
  intros Hold Hf Hi. rewrite filter_app.
  assert (E1 : filter (fun c => chunk_document_id c =? id) old = []).
  { rewrite forallb_forall in Hold. clear - Hold.
    induction old as [| c old IH]; [reflexivity |]. cbn [filter].
    pose proof (Hold c (or_introl eq_refl)) as H. apply negb_true_iff in H. rewrite H.
    apply IH. intros x Hx. apply Hold. right. exact Hx. }
  assert (E2 : filter (fun c => chunk_document_id c =? id) rows = rows).
  { clear - Hf. revert chunks Hf. induction rows as [| c rows IH]; intros chunks Hf;
      [reflexivity |].
    destruct chunks as [| k chunks]; [discriminate |]. cbn [map] in Hf.
    injection Hf as Hd _ Hf. cbn [filter].
    rewrite Hd, Z.eqb_refl, (IH _ Hf). reflexivity. }
  rewrite E1, E2. cbn [app].
  assert (Ei : map chunk_index rows = map ChunkIndex chunks).
  { transitivity (map (fun p : Z * ChunkInfo => ChunkIndex (snd p)) (map chunkFields rows));
      [rewrite map_map; reflexivity |].
    rewrite Hf, map_map. reflexivity. }
  assert (El : length rows = length chunks).
  { rewrite <- (length_map chunkFields), Hf, length_map. reflexivity. }
  rewrite sortBy_sorted.
  - rewrite map_map.
    transitivity (map (fun p : Z * ChunkInfo => snd p) (map chunkFields rows));
      [rewrite map_map; reflexivity |].
    rewrite Hf, map_map. cbn [snd]. apply map_id.
  - apply (counted_sorted chunk_index rows 0%nat). rewrite Ei, Hi, El. reflexivity.
Qed.

(** What [ProcessDocument] stores can be read back.  With a driver that
    does not fail and a cleaned content that is not empty,
    [GetDocumentIDByURL] for the URL of the request then returns the id of
    its document, and, when no chunk was of that document before,
    [GetDocumentChunks] for the id lists the chunks of the cleaned content
    in their order, with their texts, indices and offsets. *)
Theorem ProcessDocument_read_back : forall req w,
  reliable env -> cleanContent (req_Content req) <> [] ->
  let w' := after (ProcessDocument caseTable extractEntities extractRelationships env req)
                  w in
  exists id,
    result (GetDocumentIDByURL env (req_URL req)) w' = Done id
    /\ (noChunksOf (db w) id = true ->
        exists entries,
          result (GetDocumentChunks env id) w' = Done entries
          /\ map entryFields entries = computeChunks (cleanContent (req_Content req))).
Proof.
  intros req w Hr Hne w'.
  destruct (ProcessDocument_writes req w Hr Hne) as (_ & id & rows & _ & Hsel & Hc & Hf & _).
  fold w' in Hsel, Hc. exists id. split.
  - unfold result, GetDocumentIDByURL. rewrite bind_exec by assumption.
    rewrite Hsel. reflexivity.
  - intros Hno. eexists. split.
    + unfold result, GetDocumentChunks. rewrite bind_exec by assumption.
      unfold selectChunks. cbn [ret fst]. reflexivity.
    + rewrite Hc. apply rows_listed; [exact Hno | exact Hf | apply computeChunks_indices].
Qed.

End Written.

Lemma ProcessDocument_adds_chunks_example :
  reliable quietEnv
  /\ cleanContent (req_Content againRequest) <> []
  /\ result (ProcessDocument asciiOnly noEntities noRelationships quietEnv againRequest)
       afterFirst = None.
Proof.
  assert (Hne : cleanContent (req_Content againRequest) <> []) by (lazy; discriminate).
  split; [exact quiet_reliable |]. split; [exact Hne |].
  exact (proj1 (ProcessDocument_adds_chunks asciiOnly noEntities noRelationships quietEnv
                  againRequest afterFirst quiet_reliable Hne)).
Defined.

Lemma ProcessDocument_read_back_example :
  reliable quietEnv
  /\ cleanContent (req_Content againRequest) <> []
  /\ exists id,
       result (GetDocumentIDByURL quietEnv (req_URL againRequest))
              (after (ProcessDocument asciiOnly noEntities noRelationships quietEnv
                        againRequest) freshWorld) = Done id
       /\ (noChunksOf (db freshWorld) id = true ->
           exists entries,
             result (GetDocumentChunks quietEnv id)
                    (after (ProcessDocument asciiOnly noEntities noRelationships quietEnv
                              againRequest) freshWorld) = Done entries
             /\ map entryFields entries
                = computeChunks (cleanContent (req_Content againRequest))).
Proof.
  assert (Hne : cleanContent (req_Content againRequest) <> []) by (lazy; discriminate).
  split; [exact quiet_reliable |]. split; [exact Hne |].
  exact (ProcessDocument_read_back asciiOnly noEntities noRelationships quietEnv
           againRequest freshWorld quiet_reliable Hne).
Defined.

(** ** Reading after a deletion *)

Lemma find_filter_negb {A} (p : A -> bool) l : find p (filter (fun x => negb (p x)) l) = None.
Proof.
  induction l as [| x l IH]; [reflexivity |]. cbn [filter].
  destruct (p x) eqn:E; cbn [negb]; [exact IH |]. cbn [find]. rewrite E. exact IH.
Qed.

Lemma filter_filter_none {A} (p q : A -> bool) l :
  (forall x, p x = true -> q x = false) -> filter p (filter q l) = [].
Proof.
  intros H. induction l as [| x l IH]; [reflexivity |]. cbn [filter].
  destruct (q x) eqn:E; [| exact IH]. cbn [filter].
  destruct (p x) eqn:P; [| exact IH]. rewrite (H x P) in E. discriminate.
Qed.

(** After a [DeleteURL] that returned [nil], with a driver that does not
    fail, nothing of the URL can be read any more: [GetDocumentIDByURL]
    finds no document for it and, for each id a document of the URL had,
    [GetDocumentChunks] lists no chunk and [GetKnowledgeGraphByDocument]
    no node and no edge. *)
Theorem DeleteURL_leaves_nothing : forall env url w,
  reliable env ->
  result (DeleteURL env url) w = None ->
  let w' := after (DeleteURL env url) w in
  result (GetDocumentIDByURL env url) w'
  = Failed (Errorf (str "failed to get document ID") sqlErrNoRows)
  /\ forall id, In id (documentIdsOfURL (db w) url) ->
       result (GetDocumentChunks env id) w' = Done []
       /\ result (GetKnowledgeGraphByDocument env id) w' = Done ([], []).
Proof.
  intros env url w Hr. unfold result, after. rewrite DeleteURL_cases by assumption.
  destruct (queuedWithURL (db w) url) as [| q qs]; [discriminate |]. cbv zeta.
  destruct (heldThrough (db w) url); [discriminate |]. intros _. cbn [fst snd]. split.
  - unfold GetDocumentIDByURL. rewrite bind_exec by assumption.
    unfold selectDocumentID. cbn [db withoutDataOf tbl_documents].
    rewrite find_filter_negb. reflexivity.
  - intros id Hid. apply In_memZ in Hid. split.
    + unfold GetDocumentChunks. rewrite bind_exec by assumption.
      unfold selectChunks. cbn [db withoutDataOf tbl_chunks].
      rewrite filter_filter_none; [reflexivity |].
      intros c Hc. apply Z.eqb_eq in Hc. rewrite Hc.
      change (documentIdsOfURL (markQueue deleted url (S (clock w)) (db w)) url)
        with (documentIdsOfURL (db w) url).
      rewrite Hid. reflexivity.
    + unfold GetKnowledgeGraphByDocument. rewrite bind_exec by assumption.
      unfold selectNodesWhere. cbn [db clock goroutines].
      rewrite bind_exec by assumption. unfold selectEdgesWhere.
      cbn [db withoutDataOf tbl_knowledge_nodes tbl_knowledge_edges].
      change (documentIdsOfURL (markQueue deleted url (S (clock w)) (db w)) url)
        with (documentIdsOfURL (db w) url).
      rewrite !filter_filter_none; [reflexivity | |].
      * intros e He. unfold optZ_eqb in He. destruct (edge_document_id e) as [x |];
          [| discriminate].
        apply Z.eqb_eq in He. subst x. unfold ofDocuments, optMemZ. rewrite Hid. reflexivity.
      * intros n Hn. unfold optZ_eqb in Hn. destruct (node_document_id n) as [x |];
          [| discriminate].
        apply Z.eqb_eq in Hn. subst x. unfold ofDocuments, optMemZ. rewrite Hid. reflexivity.
Qed.

Lemma DeleteURL_leaves_nothing_example :
  reliable quietEnv
  /\ result (DeleteURL quietEnv exampleURL) storedAndQueued = None
  /\ result (GetDocumentIDByURL quietEnv exampleURL)
            (after (DeleteURL quietEnv exampleURL) storedAndQueued)
     = Failed (Errorf (str "failed to get document ID") sqlErrNoRows).
Proof.
  assert (H : result (DeleteURL quietEnv exampleURL) storedAndQueued = None)
    by (lazy; reflexivity).
  split; [exact quiet_reliable |]. split; [exact H |].
  exact (proj1 (DeleteURL_leaves_nothing quietEnv exampleURL storedAndQueued
                  quiet_reliable H)).
Defined.

(** ** The listing of the queue after a deletion *)

Lemma GetURLQueue_run env w :
  reliable env ->
  result (GetURLQueue env) w
  = Done (sortBy (fun a b => (qe_CreatedAt b <=? qe_CreatedAt a)%nat)
                 (flat_map (entriesOf (db w)) (filter isListed (tbl_url_queue (db w))))).
Proof.
  intros Hr. unfold result, GetURLQueue. rewrite bind_exec by assumption. reflexivity.
Qed.

Lemma entriesOf_url d q e : In e (entriesOf d q) -> qe_URL e = queue_url q.
Proof.
  unfold entriesOf. destruct (documentIdsOfURL d (queue_url q)) as [| i ids].
  - intros [<- | []]. reflexivity.
  - intros H. apply in_map_iff in H. destruct H as (x & <- & _). reflexivity.
Qed.

Lemma listed_entry d e :
  In e (flat_map (entriesOf d) (filter isListed (tbl_url_queue d)))
  <-> exists q, In q (tbl_url_queue d) /\ isListed q = true /\ In e (entriesOf d q).
Proof.
  rewrite in_flat_map. split; intros (q & Hq & He); exists q.
  - apply filter_In in Hq. tauto.
  - split; [apply filter_In |]; tauto.
Qed.

Lemma marked_other s url now d q :
  queue_url q <> url ->
  In q (markedQueue s url now d) <-> In q (tbl_url_queue d).
Proof.
  intros Hq. unfold markedQueue. rewrite in_map_iff. split.
  - intros (r & E & Hr). destruct (gostring_eqb (queue_url r) url) eqn:U.
    + apply gostring_eqb_spec in U. subst q. cbn [withStatus queue_url] in Hq.
      contradiction.
    + subst r. exact Hr.
  - intros H. exists q. rewrite (gostring_eqb_neq _ _ Hq). auto.
Qed.

Lemma marked_deleted url now d q :
  In q (markedQueue deleted url now d) -> queue_url q = url -> isListed q = false.
Proof.
  unfold markedQueue. rewrite in_map_iff. intros (r & E & _) Hu.
  destruct (gostring_eqb (queue_url r) url) eqn:U.
  - subst q. reflexivity.
  - subst r. rewrite <- Hu, gostring_eqb_refl in U. discriminate.
Qed.

Lemma ids_of_other url u docs :
  u <> url ->
  map doc_id (filter (fun r => gostring_eqb (doc_url r) u)
                     (filter (fun r => negb (gostring_eqb (doc_url r) url)) docs))
  = map doc_id (filter (fun r => gostring_eqb (doc_url r) u) docs).
Proof.
  intros Hu. induction docs as [| r docs IH]; [reflexivity |]. cbn [filter].
  destruct (gostring_eqb (doc_url r) url) eqn:E; cbn [negb filter].
  - apply gostring_eqb_spec in E. rewrite E.
    rewrite (gostring_eqb_neq url u) by congruence. exact IH.
  - destruct (gostring_eqb (doc_url r) u); cbn [map]; rewrite IH; reflexivity.
Qed.

(** With a driver that does not fail, the listing of [GetURLQueue] after a
    [DeleteURL], whatever this one returned, has no entry of the URL, and
    has of the other URLs the entries it had before. *)
Theorem GetURLQueue_after_DeleteURL : forall env url w,
  reliable env ->
  exists before afterwards,
    result (GetURLQueue env) w = Done before
    /\ result (GetURLQueue env) (after (DeleteURL env url) w) = Done afterwards
    /\ listedWithURL url afterwards = []
    /\ forall e, qe_URL e <> url -> (In e afterwards <-> In e before).
Proof.
  intros env url w Hr. rewrite !GetURLQueue_run by assumption.
  do 2 eexists. split; [reflexivity |]. split; [reflexivity |].
  set (d' := db (after (DeleteURL env url) w)).
  assert (Hd : d' = db w
               \/ (tbl_url_queue d' = markedQueue deleted url (S (clock w)) (db w)
                   /\ forall u, u <> url -> documentIdsOfURL d' u = documentIdsOfURL (db w) u)).
  { unfold d', after. rewrite DeleteURL_cases by assumption.
    destruct (queuedWithURL (db w) url) as [| q qs]; [left; reflexivity |]. right.
    cbv zeta. destruct (heldThrough (db w) url); cbn [snd db].
    - split; [reflexivity |]. intros u _. reflexivity.
    - split; [reflexivity |]. intros u Hu. unfold documentIdsOfURL.
      cbn [withoutDataOf tbl_documents markQueue set_url_queue].
      apply ids_of_other. exact Hu. }
  assert (Hq : queuedWithURL (db w) url = [] -> d' = db w).
  { intros E. unfold d', after. rewrite DeleteURL_cases by assumption. rewrite E.
    reflexivity. }
  split.
  - unfold listedWithURL.
    destruct (filter _ _) as [| e es] eqn:F; [reflexivity |]. exfalso.
    assert (He : In e (e :: es)) by (left; reflexivity).
    rewrite <- F in He. apply filter_In in He. destruct He as [He Hu].
    apply gostring_eqb_spec in Hu. apply sortBy_In, listed_entry in He.
    destruct He as (q & Hin & Hl & Hent). apply entriesOf_url in Hent.
    rewrite Hu in Hent.
    destruct (queuedWithURL (db w) url) as [| r rs] eqn:Q.
    + rewrite (Hq eq_refl) in Hin.
      assert (In q (queuedWithURL (db w) url)).
      { apply filter_In. split; [exact Hin |]. rewrite <- Hent. apply gostring_eqb_refl. }
      rewrite Q in H. contradiction.
    + destruct Hd as [Hd | [Hd _]].
      * unfold d', after in Hd. rewrite DeleteURL_cases in Hd by assumption.
        rewrite Q in Hd. cbv zeta in Hd.
        assert (T : tbl_url_queue d' = markedQueue deleted url (S (clock w)) (db w)).
        { unfold d', after. rewrite DeleteURL_cases by assumption. rewrite Q. cbv zeta.
          destruct (heldThrough (db w) url); reflexivity. }
        rewrite T in Hin. rewrite (marked_deleted _ _ _ _ Hin (eq_sym Hent)) in Hl.
        discriminate.
      * rewrite Hd in Hin. rewrite (marked_deleted _ _ _ _ Hin (eq_sym Hent)) in Hl.
        discriminate.
  - intros e He. rewrite !sortBy_In, !listed_entry.
    destruct Hd as [-> | [Hd Hi]]; [tauto |].
    assert (Hent : forall q, qe_URL e = queue_url q ->
                             entriesOf d' q = entriesOf (db w) q).
    { intros q Eq. unfold entriesOf. rewrite Hi by congruence. reflexivity. }
    split; intros (q & Hin & Hl & Hq'); exists q.
    + pose proof (entriesOf_url _ _ _ Hq') as U.
      rewrite Hd, marked_other in Hin by congruence.
      rewrite (Hent q U) in Hq'. auto.
    + pose proof (entriesOf_url _ _ _ Hq') as U.
      rewrite Hd, marked_other by congruence.
      rewrite (Hent q U). auto.
Qed.

Lemma GetURLQueue_after_DeleteURL_example :
  reliable quietEnv
  /\ exists before afterwards,
       result (GetURLQueue quietEnv) storedAndQueued = Done before
       /\ result (GetURLQueue quietEnv)
                 (after (DeleteURL quietEnv exampleURL) storedAndQueued) = Done afterwards
       /\ listedWithURL exampleURL afterwards = []
       /\ forall e, qe_URL e <> exampleURL -> (In e afterwards <-> In e before).
Proof.
  split; [exact quiet_reliable |].
  exact (GetURLQueue_after_DeleteURL quietEnv exampleURL storedAndQueued quiet_reliable).
Defined.

(** ** The order of the rows *)





Lemma firstn_ordered {A} (before : A -> A -> bool) n : forall l,
  ordered before l -> ordered before (firstn n l).
Proof.
  induction n as [| n IH]; intros [| a l] H; cbn [firstn]; try exact I.
  destruct H as [Ha Hl]. split; [| apply IH; exact Hl].
  destruct l as [| b l]; [destruct n; exact I |].
  destruct n; cbn [firstn]; [exact I | exact Ha].
Qed.

Lemma edgesAmong_joined nodes d : Forall (joinsListed nodes) (edgesAmong nodes d).
Proof.
  apply Forall_forall. intros e He. apply filter_In in He. destruct He as [_ He].
  apply andb_prop in He. destruct He as [H1 H2]. split; apply memZ_In; assumption.
Qed.

(** ** The graph query *)

Section Matching.
Variable caseTable : Z -> Z.
Variable env : Env.

(** C5, as the code has it.  With a driver that does not fail,
    [GetKnowledgeGraph] returns for the empty query all nodes and all
    edges, and for any other query the nodes whose name matches the
    pattern made of the query between two [%], with the edges that have
    both ends among these nodes.  For a well-formed query without [%],
    [_] and backslash these are the nodes whose name holds the query when
    case is ignored. *)
Theorem GetKnowledgeGraph_matching : forall query w,
  reliable env ->
  result (GetKnowledgeGraph caseTable env query) w
  = Done (if gostring_eqb query [] then (allNodes (db w), allEdges (db w))
          else (nodesMatching caseTable query (db w),
                edgesAmong (nodesMatching caseTable query (db w)) (db w)))
  /\ Forall (joinsListed (nodesMatching caseTable query (db w)))
            (edgesAmong (nodesMatching caseTable query (db w)) (db w))
  /\ (utf8.ValidString query = true -> plainText (LOWER caseTable query) = true ->
      nodesMatching caseTable query (db w) = nodesHolding caseTable query (db w)).
Proof.
  intros query w Hr. split; [| split].
  - destruct (gostring_eqb query []) eqn:Q.
    + unfold result, GetKnowledgeGraph. rewrite Q. cbn [negb andb].
      rewrite bind_exec by assumption. unfold selectNodesWhere.
      rewrite bind_exec by assumption. unfold selectEdgesWhere.
      cbn [db clock goroutines ret fst]. unfold allNodes, allEdges.
      rewrite (filter_always (fun _ : KnowledgeEdge => true)) by reflexivity.
      rewrite (filter_always (fun _ : KnowledgeNode => true)) by reflexivity.
      destruct (map _ _); reflexivity.
    + apply (GetKnowledgeGraph_run caseTable env query w
               (fun n => ILIKE caseTable (node_name n) (str "%" ++ query ++ str "%")));
        auto.
  - apply edgesAmong_joined.
  - intros V P. unfold nodesMatching, nodesHolding. f_equal. f_equal.
    apply filter_ext_eq. intros n. apply ILIKE_plain; assumption.
Qed.

End Matching.

Lemma GetKnowledgeGraph_matching_example :
  reliable quietEnv
  /\ result (GetKnowledgeGraph asciiOnly quietEnv (str "node 2")) testGraph
     = Done (if gostring_eqb (str "node 2") [] then (allNodes (db testGraph),
                                                     allEdges (db testGraph))
             else (nodesMatching asciiOnly (str "node 2") (db testGraph),
                   edgesAmong (nodesMatching asciiOnly (str "node 2") (db testGraph))
                              (db testGraph)))
  /\ map nr_ID (nodesMatching asciiOnly (str "node 2") (db testGraph)) = [2].
Proof.
  split; [exact quiet_reliable |].
  split; [| lazy; reflexivity].
  exact (proj1 (GetKnowledgeGraph_matching asciiOnly quietEnv (str "node 2") testGraph
                  quiet_reliable)).
Defined.

(** C5 as stated fails: the query [%] returns both nodes of the graph,
    and neither has a [%] in its name. *)
Lemma wildcard_query_finds_all :
  result (GetKnowledgeGraph asciiOnly quietEnv (str "%")) testGraph
  = Done (allNodes (db testGraph), allEdges (db testGraph))
  /\ length (allNodes (db testGraph)) = 2%nat
  /\ nodesHolding asciiOnly (str "%") (db testGraph) = [].
Proof. repeat match goal with |- _ /\ _ => split end; lazy; reflexivity. Qed.

(** ** The search *)

Section Ranking.
Variable caseTable : Z -> Z.
Variable IsStopWord : gostring -> bool.
Variable cosineDistance : Vector -> Vector -> float64.
Variable env : Env.




End Ranking.



(** ** Deletion that is refused *)

(** C6 fails in the code.  The second document names a person of the
    first, so that its edge has a node of the first document as target.
    [DeleteURL] for the first URL marks the row deleted and deletes the
    edges of the first document, of which there is none; the deletion of
    the nodes is then refused, the call returns that error, and the
    document, its chunk and its node are still there. *)
Lemma DeleteURL_refused_keeps_data :
  queuedWithURL (db heldWorld) exampleURL <> []
  /\ result (DeleteURL quietEnv exampleURL) heldWorld
     = Some (nodesRefused "knowledge_edges_target_id_fkey")
  /\ map queue_status
         (tbl_url_queue (db (after (DeleteURL quietEnv exampleURL) heldWorld)))
     = [deleted]
  /\ documentIdsOfURL (db (after (DeleteURL quietEnv exampleURL) heldWorld)) exampleURL
     = [1]
  /\ map chunk_id
         (filter (fun c => chunk_document_id c =? 1)
                 (tbl_chunks (db (after (DeleteURL quietEnv exampleURL) heldWorld))))
     = [1]
  /\ map node_id
         (filter (nodeOf 1)
                 (tbl_knowledge_nodes (db (after (DeleteURL quietEnv exampleURL) heldWorld))))
     = [1].
Proof.
  split; [lazy; discriminate |].
  repeat match goal with |- _ /\ _ => split end; lazy; reflexivity.
Qed.

(** ** The workers side by side *)

(** *** A goroutine alone does what the service does in one piece *)

Lemma bind_ext {A B} (m m' : M A) (k k' : A -> M B) :
  (forall w, m w = m' w) -> (forall a w, k a w = k' a w) ->
  forall w, bind m k w = bind m' k' w.
Proof.
  intros Hm Hk w. unfold bind. rewrite Hm. destruct (m' w) as [a w']. apply Hk.
Qed.

Lemma bind_ret {A} (m : M A) w : bind m (fun a => ret a) w = m w.
Proof. unfold bind, ret. destruct (m w). reflexivity. Qed.

Lemma bind_bind {A B C} (m : M A) (k : A -> M B) (h : B -> M C) w :
  bind (bind m k) h w = bind m (fun a => bind (k a) h) w.
Proof. unfold bind. destruct (m w) as [a w']. reflexivity. Qed.

Section Alone.

Variable caseTable : Z -> Z.
Variable extractEntities : gostring -> list Entity.
Variable extractRelationships : gostring -> gomap -> list Relationship.
Variable env : Env.

Lemma run_andThen {A B} (p : steps.Prog A) (k : A -> steps.Prog B) w :
  steps.run env (steps.andThen p k) w
  = bind (steps.run env p) (fun a => steps.run env (k a)) w.
Proof.
  revert w. induction p as [a | f IH | R stmt f IH | id content f IH]; intros w;
    cbn [steps.andThen steps.run].
  - reflexivity.
  - rewrite bind_bind. apply bind_ext; [reflexivity | intros t w'; apply IH].
  - rewrite bind_bind. apply bind_ext; [reflexivity | intros r w'; apply IH].
  - rewrite bind_bind. apply bind_ext; [reflexivity | intros r w'; apply IH].
Qed.

Lemma run_bind {A B} (p : steps.Prog A) (k : A -> steps.Prog B)
      (m : M A) (h : A -> M B) :
  (forall w, steps.run env p w = m w) ->
  (forall a w, steps.run env (k a) w = h a w) ->
  forall w, steps.run env (steps.andThen p k) w = bind m h w.
Proof. intros Hp Hk w. rewrite run_andThen. apply bind_ext; assumption. Qed.

Lemma run_now w : steps.run env steps.now w = tick w.
Proof. cbn [steps.run steps.now]. apply bind_ret. Qed.

Lemma run_send {R} (stmt : nat -> DB -> outcome (DB * R)) w :
  steps.run env (steps.send stmt) w = exec env stmt w.
Proof. cbn [steps.run steps.send]. apply bind_ret. Qed.

Lemma run_go id content w : steps.run env (steps.go id content) w = spawn id content w.
Proof. reflexivity. Qed.

Lemma run_fold {A S} (f : S -> A -> steps.Prog S) (g : S -> A -> M S) l :
  (forall s x w, steps.run env (f s x) w = g s x w) ->
  forall s w, steps.run env (steps.fold f l s) w = foldM g l s w.
Proof.
  intros H. induction l as [| x l IH]; intros s w; cbn [steps.fold foldM]; [reflexivity |].
  apply run_bind; [apply H | apply IH].
Qed.

Lemma run_generateEmbedding text w :
  steps.run env (steps.generateEmbedding caseTable env text) w
  = generateEmbeddingM caseTable env text w.
Proof.
  unfold steps.generateEmbedding, generateEmbeddingM.
  apply run_bind; [apply run_now | reflexivity].
Qed.

Lemma run_storeChunk id chunk w :
  steps.run env (steps.storeChunk caseTable env id chunk) w
  = storeChunk caseTable env id chunk w.
Proof.
  unfold steps.storeChunk, storeChunk.
  apply run_bind; [apply run_generateEmbedding |].
  intros [v | err] w'; (apply run_bind; [apply run_send | reflexivity]).
Qed.

Lemma run_chunkDocument id content w :
  steps.run env (steps.chunkDocument caseTable env id content) w
  = chunkDocument caseTable env id content w.
Proof.
  unfold steps.chunkDocument, chunkDocument, steps.forEach, forM_.
  apply run_bind; [| reflexivity].
  apply run_fold. intros _ x w'. apply run_storeChunk.
Qed.

Lemma run_storeEntity id entityMap entity w :
  steps.run env (steps.storeEntity caseTable env id entityMap entity) w
  = storeEntity caseTable env id entityMap entity w.
Proof.
  unfold steps.storeEntity, storeEntity.
  apply run_bind; [apply run_send |].
  intros [x | [| msg]] w'; try reflexivity.
  apply run_bind; [apply run_generateEmbedding |].
  intros [v | err] w''; [| reflexivity].
  apply run_bind; [apply run_send |].
  intros [x | err] w3; reflexivity.
Qed.

Lemma run_ExtractEntitiesAndRelations id content w :
  steps.run env
    (steps.ExtractEntitiesAndRelations caseTable extractEntities extractRelationships env
                                       id content) w
  = ExtractEntitiesAndRelations caseTable extractEntities extractRelationships env
                                id content w.
Proof.
  unfold steps.ExtractEntitiesAndRelations, ExtractEntitiesAndRelations,
    steps.forEach, forM_.
  apply run_bind.
  - apply run_fold. intros s x w'. apply run_storeEntity.
  - intros entityMap w'. apply run_bind; [| reflexivity].
    apply run_fold. intros _ rel w''. unfold steps.storeRelationship, storeRelationship.
    apply run_bind; [apply run_send | reflexivity].
Qed.

Lemma run_fetchContent url w :
  steps.run env (steps.fetchContent env url) w = fetchContent env url w.
Proof.
  unfold steps.fetchContent, fetchContent, steps.fetch, fetch.
  apply run_bind.
  - apply run_bind; [apply run_now | reflexivity].
  - intros [page | err] w'; [| reflexivity].
    destruct (gostring_eqb _ _); reflexivity.
Qed.

Lemma run_ProcessURL url w :
  steps.run env (steps.ProcessURL caseTable env url) w = ProcessURL caseTable env url w.
Proof.
  unfold steps.ProcessURL, ProcessURL.
  apply run_bind; [apply run_send |].
  intros [n | err] w1; [| reflexivity].
  apply run_bind; [apply run_fetchContent |].
  intros [[content title] | err] w2.
  - apply run_bind; [apply run_generateEmbedding |].
    intros [v | err] w3.
    + apply run_bind; [apply run_send |].
      intros [id | err] w4.
      * apply run_bind; [apply run_chunkDocument |]. intros _ w5.
        apply run_bind; [apply run_go |]. intros _ w6.
        apply run_bind; [apply run_send | reflexivity].
      * apply run_bind; [apply run_send | reflexivity].
    + apply run_bind; [apply run_send | reflexivity].
  - apply run_bind; [apply run_send | reflexivity].
Qed.

(** A turn of the loop, run without a pause, is the turn of [pollQueue]. *)
Lemma run_pollQueue w :
  steps.run env (steps.pollQueue caseTable env) w = pollQueue caseTable env w.
Proof.
  unfold steps.pollQueue, pollQueue.
  apply run_bind; [apply run_send |].
  intros [[queueID url] | [| msg]] w1; cbn [steps.afterClaim].
  - apply run_bind; [apply run_ProcessURL |].
    intros [e |] w2; (apply run_bind; [apply run_send | reflexivity]).
  - apply run_bind; [apply run_now | reflexivity].
  - reflexivity.
Qed.

Lemma run_runGoroutine task w :
  steps.run env
    (steps.runGoroutine caseTable extractEntities extractRelationships env task) w
  = runGoroutine caseTable extractEntities extractRelationships env task w.
Proof.
  unfold steps.runGoroutine, runGoroutine.
  apply run_bind; [apply run_ExtractEntitiesAndRelations | reflexivity].
Qed.

(** The steps of a goroutine, taken one after the other, are its run. *)
Lemma run_step {A} (p : steps.Prog A) w :
  steps.run env p w = bind (steps.step env p) (steps.run env) w.
Proof.
  destruct p as [a | f | R stmt f | id content f]; cbn [steps.run steps.step].
  - reflexivity.
  - rewrite bind_bind. apply bind_ext; [reflexivity | reflexivity].
  - rewrite bind_bind. apply bind_ext; [reflexivity | reflexivity].
  - rewrite bind_bind. apply bind_ext; [reflexivity | reflexivity].
Qed.

End Alone.

Lemma claimUnlocked_none now d : steps.claimUnlocked [] now d = claimNext now d.
Proof.
  unfold steps.claimUnlocked, claimNext.
  replace (filter _ (tbl_url_queue d)) with (tbl_url_queue d); [reflexivity |].
  induction (tbl_url_queue d) as [| q l IH]; [reflexivity |].
  cbn [filter memZ existsb negb]. f_equal. exact IH.
Qed.

(** *** What the code of a goroutine sends *)

Section Within.

Variable allowed : forall R, (nat -> DB -> outcome (DB * R)) -> Prop.

Lemma within_andThen {A B} (p : steps.Prog A) (k : A -> steps.Prog B) :
  steps.within allowed p -> (forall a, steps.within allowed (k a)) ->
  steps.within allowed (steps.andThen p k).
Proof.
  intros Hp Hk.
  induction p as [a | f IH | R stmt f IH | id content f IH];
    cbn [steps.andThen steps.within] in *.
  - apply Hk.
  - intros t. apply IH, Hp.
  - destruct Hp as [Hs Hf]. split; [exact Hs |]. intros r. apply IH, Hf.
  - apply IH, Hp.
Qed.

Lemma within_fold {A S} (f : S -> A -> steps.Prog S) l :
  (forall s x, steps.within allowed (f s x)) ->
  forall s, steps.within allowed (steps.fold f l s).
Proof.
  intros H. induction l as [| x l IH]; intros s; cbn [steps.fold]; [exact I |].
  apply within_andThen; [apply H | apply IH].
Qed.

Lemma within_send {R} (stmt : nat -> DB -> outcome (DB * R)) :
  allowed R stmt -> steps.within allowed (steps.send stmt).
Proof. intros H. split; [exact H | intros r; exact I]. Qed.

Lemma within_now : steps.within allowed steps.now.
Proof. intros t. exact I. Qed.

Lemma within_generateEmbedding caseTable env text :
  steps.within allowed (steps.generateEmbedding caseTable env text).
Proof. intros t. exact I. Qed.

Lemma within_fetchContent env url : steps.within allowed (steps.fetchContent env url).
Proof.
  intros t. cbn [steps.andThen]. destruct (fetchPage env t url) as [page | err]; [| exact I].
  destruct (gostring_eqb _ _); exact I.
Qed.

Lemma within_chunkDocument caseTable env id content :
  (forall c e i s t, allowed _ (insertChunk id c e i s t)) ->
  steps.within allowed (steps.chunkDocument caseTable env id content).
Proof.
  intros H. unfold steps.chunkDocument, steps.forEach.
  apply within_andThen; [| intros; exact I].
  apply within_fold. intros _ c. unfold steps.storeChunk.
  apply within_andThen; [apply within_generateEmbedding |].
  intros [v | err]; (apply within_andThen; [apply within_send, H | intros; exact I]).
Qed.

Lemma within_ExtractEntitiesAndRelations caseTable extractEntities extractRelationships
      env id content :
  (forall n t, allowed _ (selectNodeId n t)) ->
  (forall n t p e, allowed _ (upsertNode n t p e id)) ->
  (forall s t ty p, allowed _ (upsertEdge s t ty p id)) ->
  steps.within allowed
    (steps.ExtractEntitiesAndRelations caseTable extractEntities extractRelationships env
                                       id content).
Proof.
  intros Hs Hn He. unfold steps.ExtractEntitiesAndRelations, steps.forEach.
  apply within_andThen.
  - apply within_fold. intros m e. unfold steps.storeEntity.
    apply within_andThen; [apply within_send, Hs |].
    intros [x | [| msg]]; try exact I.
    apply within_andThen; [apply within_generateEmbedding |].
    intros [v | err]; [| exact I].
    apply within_andThen; [apply within_send, Hn |].
    intros [x | err]; exact I.
  - intros m. apply within_andThen; [| intros; exact I].
    apply within_fold. intros _ rel. unfold steps.storeRelationship.
    apply within_andThen; [apply within_send, He | intros; exact I].
Qed.

End Within.

Lemma within_weaken (allowed allowed' : forall R, (nat -> DB -> outcome (DB * R)) -> Prop)
      {A} (p : steps.Prog A) :
  (forall R stmt, allowed R stmt -> allowed' R stmt) ->
  steps.within allowed p -> steps.within allowed' p.
Proof.
  intros H.
  induction p as [a | f IH | R stmt f IH | id content f IH]; cbn [steps.within].
  - auto.
  - intros Hp t. apply IH, Hp.
  - intros [Hs Hf]. split; [apply H, Hs |]. intros r. apply IH, Hf.
  - apply IH.
Qed.

Lemma selectNodeId_queue n t : stmtKeeps tbl_url_queue (selectNodeId n t).
Proof. stmt_keeps. Qed.

Lemma upsertNode_queue n t p e id : stmtKeeps tbl_url_queue (upsertNode n t p e id).
Proof. stmt_keeps. Qed.

Lemma upsertEdge_queue s t ty p id : stmtKeeps tbl_url_queue (upsertEdge s t ty p id).
Proof. stmt_keeps. Qed.

(** An extraction does not touch the queue. *)
Lemma runGoroutine_leavesQueue caseTable extractEntities extractRelationships env task :
  steps.within steps.leavesQueue
    (steps.runGoroutine caseTable extractEntities extractRelationships env task).
Proof.
  unfold steps.runGoroutine. apply within_andThen; [| intros; exact I].
  apply within_ExtractEntitiesAndRelations; intros; unfold steps.leavesQueue.
  - apply selectNodeId_queue.
  - apply upsertNode_queue.
  - apply upsertEdge_queue.
Qed.

Lemma Forall2_same {A} (R : A -> A -> Prop) l : (forall a, R a a) -> Forall2 R l l.
Proof. intros H. induction l; constructor; auto. Qed.

Lemma Forall2_map_r {A} (R : A -> A -> Prop) (f : A -> A) l :
  (forall a, R a (f a)) -> Forall2 R l (map f l).
Proof. intros H. induction l; cbn [map]; constructor; auto. Qed.

Lemma moved_same own to q : steps.moved own to q q.
Proof. repeat split; auto. Qed.

Lemma leavesQueue_changes own to R (stmt : nat -> DB -> outcome (DB * R)) :
  steps.leavesQueue R stmt -> steps.changes own to stmt.
Proof.
  intros H now d d' r E. rewrite (H now d d' r E).
  apply Forall2_same. intros q. apply moved_same.
Qed.

Lemma updateQueue_changes (own : URLQueueItem -> Prop) (to : Status -> Status -> Prop)
      cond (change : nat -> URLQueueItem -> URLQueueItem) :
  (forall q, cond q = true -> own q) ->
  (forall now q, queue_id (change now q) = queue_id q
                 /\ queue_url (change now q) = queue_url q
                 /\ to (queue_status q) (queue_status (change now q))) ->
  steps.changes own to (fun now => updateQueue cond (change now)).
Proof.
  intros Hc Hch now d d' r. unfold updateQueue. intros E. injection E as <- _.
  cbn [tbl_url_queue set_url_queue]. apply Forall2_map_r. intros q.
  destruct (cond q) eqn:C; [| apply moved_same].
  destruct (Hch now q) as (Hi & Hu & Ht). repeat split; auto.
Qed.

Lemma setStatusByURL_settles id url s :
  steps.terminal s -> steps.settles id url Z (setStatusByURL s url).
Proof.
  intros Hs. unfold steps.settles, setStatusByURL.
  apply (updateQueue_changes _ _ _ (withStatus s)).
  - intros q E. right. apply gostring_eqb_spec. exact E.
  - intros now q. repeat split. exact Hs.
Qed.

Lemma setFailedByURL_settles id url msg :
  steps.settles id url Z (setFailedByURL msg url).
Proof.
  unfold steps.settles, setFailedByURL.
  apply (updateQueue_changes _ _ _ (withFailure msg false)).
  - intros q E. right. apply gostring_eqb_spec. exact E.
  - intros now q. repeat split. right. reflexivity.
Qed.

Lemma setStatusByID_settles id url s :
  steps.terminal s -> steps.settles id url Z (setStatusByID s id).
Proof.
  intros Hs. unfold steps.settles, setStatusByID.
  apply (updateQueue_changes _ _ _ (withStatus s)).
  - intros q E. left. apply Z.eqb_eq. exact E.
  - intros now q. repeat split. exact Hs.
Qed.

Lemma setFailedByID_settles id url msg :
  steps.settles id url Z (setFailedByID msg id).
Proof.
  unfold steps.settles, setFailedByID.
  apply (updateQueue_changes _ _ _ (withFailure msg true)).
  - intros q E. left. apply Z.eqb_eq. exact E.
  - intros now q. repeat split. right. reflexivity.
Qed.

Lemma setStatusByURL_reopens url : steps.reopens url Z (setStatusByURL processing url).
Proof.
  unfold steps.reopens, setStatusByURL.
  apply (updateQueue_changes _ _ _ (withStatus processing)).
  - intros q E. apply gostring_eqb_spec. exact E.
  - intros now q. repeat split.
Qed.

Lemma leavesQueue_settles id url R stmt :
  steps.leavesQueue R stmt -> steps.settles id url R stmt.
Proof. apply leavesQueue_changes. Qed.

(** A turn that has claimed an item begins [ProcessURL]; from then on its
    statements leave the queue alone or end the item. *)
Lemma afterClaim_opening caseTable env id url :
  steps.opening id url (steps.afterClaim caseTable env (Done (id, url))).
Proof.
  cbn [steps.afterClaim steps.ProcessURL steps.send steps.andThen steps.opening].
  split; [apply setStatusByURL_reopens |].
  assert (forall e : option error,
    steps.within (steps.settles id url)
      (match e with
       | Some e0 => steps.andThen (steps.send (setFailedByID (errorText e0) id))
                                  (fun _ => steps.Return tt)
       | None => steps.andThen (steps.send (setStatusByID completed id))
                               (fun _ => steps.Return tt)
       end)) as Hend.
  { intros [e |]; (apply within_andThen; [apply within_send | intros; exact I]).
    - apply setFailedByID_settles.
    - apply setStatusByID_settles. left. reflexivity. }
  assert (forall msg (e : option error),
    steps.within (steps.settles id url)
      (steps.andThen (steps.send (setFailedByURL msg url)) (fun _ => steps.Return e))) as Hfail.
  { intros msg e. apply within_andThen; [apply within_send | intros; exact I].
    apply setFailedByURL_settles. }
  intros [n | err]; cbn [steps.andThen];
    [| apply (Hend (Some (Errorf (str "failed to update status to processing") err)))].
  apply within_andThen; [| exact Hend].
  apply within_andThen; [apply within_fetchContent |].
  intros [[content title] | err]; [| apply Hfail].
  apply within_andThen; [apply within_generateEmbedding |].
  intros [v | err]; [| apply Hfail].
  apply within_andThen.
  { unfold steps.storeDocument. apply within_send, leavesQueue_settles.
    apply upsertDocument_queue. }
  intros [documentID | err]; [| apply Hfail].
  apply within_andThen.
  { apply within_chunkDocument. intros. apply leavesQueue_settles, insertChunk_queue. }
  intros _. apply within_andThen; [exact I |].
  intros _. split; [| intros r; exact I].
  apply setStatusByURL_settles. left. reflexivity.
Qed.

(** *** Rows before and after a statement *)

Lemma Forall2_In_r {A B} (R : A -> B -> Prop) l l' b :
  Forall2 R l l' -> In b l' -> exists a, In a l /\ R a b.
Proof.
  induction 1 as [| x y l l' Hxy H IH]; [contradiction |].
  intros [<- | Hb].
  - exists x. split; [left; reflexivity | exact Hxy].
  - destruct (IH Hb) as (a & Ha & Hab). exists a. split; [right; exact Ha | exact Hab].
Qed.

Lemma Forall2_then {A B C} (R : A -> B -> Prop) (S : B -> C -> Prop) (T : A -> C -> Prop)
      l l' l'' :
  Forall2 R l l' -> Forall2 S l' l'' ->
  (forall a b c, In a l -> In b l' -> R a b -> S b c -> T a c) ->
  Forall2 T l l''.
Proof.
  intros H. revert l''. induction H as [| x y l l' Hxy H IH]; intros l'' H2 HT;
    inversion H2 as [| ? z ? l3 Hyz H3]; subst; constructor.
  - apply (HT x y z); auto; left; reflexivity.
  - apply IH; [exact H3 |]. intros a b c Ha Hb. apply HT; right; assumption.
Qed.

Lemma Forall2_weaken {A B} (R R' : A -> B -> Prop) l l' :
  Forall2 R l l' -> (forall a b, In a l -> In b l' -> R a b -> R' a b) ->
  Forall2 R' l l'.
Proof.
  induction 1 as [| x y l l' Hxy H IH]; intros HR; constructor.
  - apply HR; auto; left; reflexivity.
  - apply IH. intros a b Ha Hb. apply HR; right; assumption.
Qed.

Lemma Forall2_map_In {A} (R : A -> A -> Prop) (f : A -> A) l :
  (forall a, In a l -> R a (f a)) -> Forall2 R l (map f l).
Proof.
  induction l as [| x l IH]; intros H; cbn [map]; constructor.
  - apply H. left. reflexivity.
  - apply IH. intros a Ha. apply H. right. exact Ha.
Qed.

Lemma find_Forall2 (R : URLQueueItem -> URLQueueItem -> Prop) rows rows' id :
  Forall2 R rows rows' -> (forall q q', R q q' -> queue_id q' = queue_id q) ->
  match find (fun q => queue_id q =? id) rows with
  | Some q => exists q', find (fun q => queue_id q =? id) rows' = Some q' /\ R q q'
  | None => find (fun q => queue_id q =? id) rows' = None
  end.
Proof.
  induction 1 as [| x y l l' Hxy H IH]; intros Hid; cbn [find]; [reflexivity |].
  rewrite (Hid x y Hxy). destruct (queue_id x =? id).
  - exists y. split; [reflexivity | exact Hxy].
  - apply IH, Hid.
Qed.

Lemma same_ids (R : URLQueueItem -> URLQueueItem -> Prop) rows rows' :
  Forall2 R rows rows' -> (forall q q', R q q' -> queue_id q' = queue_id q) ->
  map queue_id rows' = map queue_id rows.
Proof.
  induction 1 as [| x y l l' Hxy H IH]; intros Hid; cbn [map]; [reflexivity |].
  rewrite (Hid x y Hxy), IH by exact Hid. reflexivity.
Qed.

Lemma same_urls (R : URLQueueItem -> URLQueueItem -> Prop) rows rows' :
  Forall2 R rows rows' -> (forall q q', R q q' -> queue_url q' = queue_url q) ->
  map queue_url rows' = map queue_url rows.
Proof.
  induction 1 as [| x y l l' Hxy H IH]; intros Hid; cbn [map]; [reflexivity |].
  rewrite (Hid x y Hxy), IH by exact Hid. reflexivity.
Qed.

Lemma find_id rows q :
  NoDup (map queue_id rows) -> In q rows ->
  find (fun r => queue_id r =? queue_id q) rows = Some q.
Proof.
  induction rows as [| x rows IH]; [contradiction |]. cbn [map find].
  intros N Hq. inversion N as [| ? ? Hx Hl]; subst.
  destruct Hq as [<- | Hq]; [rewrite Z.eqb_refl; reflexivity |].
  destruct (queue_id x =? queue_id q) eqn:E; [| apply IH; assumption].
  exfalso. apply Hx. apply Z.eqb_eq in E. rewrite E. apply in_map. exact Hq.
Qed.

Lemma find_row rows id q :
  find (fun r => queue_id r =? id) rows = Some q -> In q rows /\ queue_id q = id.
Proof.
  intros E. apply find_some in E. destruct E as [Hin E]. apply Z.eqb_eq in E. auto.
Qed.

Lemma tracked_id cs q0 q : steps.tracked cs q0 q -> queue_id q = queue_id q0.
Proof. intros H. apply H. Qed.

Lemma tracked_url cs q0 q : steps.tracked cs q0 q -> queue_url q = queue_url q0.
Proof. intros H. apply H. Qed.

Lemma moved_id own to q q' : steps.moved own to q q' -> queue_id q' = queue_id q.
Proof. intros H. apply H. Qed.

(** *** The goroutines of the pool *)

Lemma nth_error_update {A} (l : list A) i t :
  nth_error l i = Some t ->
  exists l1 l2, l = l1 ++ t :: l2 /\ length l1 = i
                /\ forall x, steps.update i x l = l1 ++ x :: l2.
Proof.
  revert i. induction l as [| y l IH]; intros [| i]; cbn [nth_error]; try discriminate.
  - intros E. injection E as ->. exists [], l. repeat split.
  - intros E. destruct (IH i E) as (l1 & l2 & -> & Hlen & Hu).
    exists (y :: l1), l2. cbn [app length]. repeat split; [congruence |].
    intros x. cbn [steps.update]. rewrite Hu. reflexivity.
Qed.

Lemma NoDup_without {A} (a h b : list A) : NoDup (a ++ h ++ b) -> NoDup (a ++ b).
Proof.
  induction h as [| x h IH]; [auto |]. cbn [app]. intros N.
  apply IH. eapply NoDup_remove_1. exact N.
Qed.

Lemma NoDup_with {A} (a b : list A) x :
  NoDup (a ++ b) -> ~ In x (a ++ b) -> NoDup (a ++ x :: b).
Proof.
  intros N Hx. eapply Permutation_NoDup; [apply Permutation_middle |].
  constructor; assumption.
Qed.

Lemma NoDup_snoc {A} (l : list A) x : NoDup l -> ~ In x l -> NoDup (l ++ [x]).
Proof.
  intros N Hx. eapply Permutation_NoDup; [apply Permutation_cons_append |].
  constructor; assumption.
Qed.

Lemma NoDup_apart {A} (a h b : list A) x :
  NoDup (a ++ h ++ b) -> In x h -> ~ In x (a ++ b).
Proof.
  induction a as [| y a IH]; cbn [app]; intros N Hx.
  - intros Hb. induction h as [| z h IHh]; [contradiction |].
    cbn [app] in N. inversion N as [| ? ? Hz Hn]; subst.
    destruct Hx as [E | Hx]; [subst z; apply Hz, in_or_app; right; exact Hb | auto].
  - inversion N as [| ? ? Hy Hn]; subst. intros [E | Hin].
    + subst y. apply Hy. apply in_or_app. right. apply in_or_app. left. exact Hx.
    + exact (IH Hn Hx Hin).
Qed.

Lemma holds_next t : steps.holds (steps.next t) = steps.holds t \/ steps.holds (steps.next t) = [].
Proof. destruct t as [| q rest | rest]; try (left; reflexivity). destruct rest; auto. Qed.

Lemma holds_next_turn q rest rest' :
  steps.holds (steps.next (steps.inTurn q rest')) = steps.holds (steps.inTurn q rest)
  \/ steps.holds (steps.next (steps.inTurn q rest')) = [].
Proof. destruct (holds_next (steps.inTurn q rest')) as [H | H]; rewrite H; auto. Qed.

Lemma threadOK_next d cs t : steps.threadOK d cs t -> steps.threadOK d cs (steps.next t).
Proof.
  destruct t as [| q rest | rest]; auto. destruct rest; auto. intros _. exact I.
Qed.

Lemma next_opening id url q rest :
  steps.opening id url rest -> steps.next (steps.inTurn q rest) = steps.inTurn q rest.
Proof. destruct rest; cbn [steps.opening steps.next]; tauto. Qed.

Lemma holds_claimed d cs t : steps.threadOK d cs t -> incl (steps.holds t) cs.
Proof.
  destruct t as [| [id |] rest | rest]; cbn [steps.holds steps.threadOK];
    try (intros _ x Hx; contradiction).
  intros [Hin _] x [<- | []]. exact Hin.
Qed.

Lemma held_claimed d cs l :
  Forall (steps.threadOK d cs) l -> incl (flat_map steps.holds l) cs.
Proof.
  induction 1 as [| t l Ht H IH]; [intros x [] |]. cbn [flat_map].
  apply incl_app; [eapply holds_claimed; eassumption | exact IH].
Qed.

Lemma threadOK_same d d' cs cs' t :
  (forall id, In id (steps.holds t) -> steps.queueItem d' id = steps.queueItem d id) ->
  incl cs cs' -> steps.threadOK d cs t -> steps.threadOK d' cs' t.
Proof.
  destruct t as [| [id |] rest | rest]; cbn [steps.holds steps.threadOK]; auto.
  intros Hq Hi (Hin & q & Hrow & H). split; [apply Hi, Hin |].
  exists q. split; [| exact H]. rewrite Hq; [exact Hrow | left; reflexivity].
Qed.

Section Pool.

Variable caseTable : Z -> Z.
Variable extractEntities : gostring -> list Entity.
Variable extractRelationships : gostring -> gomap -> list Relationship.
Variable env : Env.

Lemma started_ok d cs tasks :
  Forall (steps.threadOK d cs)
         (steps.started caseTable extractEntities extractRelationships env tasks).
Proof.
  induction tasks as [| task tasks IH]; cbn [steps.started map]; constructor; [| exact IH].
  apply runGoroutine_leavesQueue.
Qed.

Lemma started_holds tasks :
  flat_map steps.holds
           (steps.started caseTable extractEntities extractRelationships env tasks) = [].
Proof. induction tasks as [| task tasks IH]; [reflexivity | exact IH]. Qed.

(** The next effect of a goroutine and the rows of the queue. *)
Lemma step_within allowed own to (rest : steps.Prog unit) w :
  (forall R stmt, allowed R stmt -> steps.changes own to stmt) ->
  steps.within allowed rest ->
  steps.within allowed (fst (steps.step env rest w))
  /\ Forall2 (steps.moved own to) (tbl_url_queue (db w))
             (tbl_url_queue (db (snd (steps.step env rest w)))).
Proof.
  intros Hall Hw.
  destruct rest as [a | f | R stmt f | id content f]; cbn [steps.step steps.within] in *.
  - split; [exact I | apply Forall2_same; intros; apply moved_same].
  - split; [apply Hw | apply Forall2_same; intros; apply moved_same].
  - destruct Hw as [Hs Hf]. rewrite bind_run. cbn [ret fst snd]. split; [apply Hf |].
    destruct (exec env stmt w) as [[r | err] w'] eqn:E; cbn [snd].
    + apply exec_done in E. destruct E as (d & E & ->). cbn [db].
      exact (Hall R stmt Hs _ _ _ _ E).
    + apply exec_failed in E. subst w'. cbn [db].
      apply Forall2_same; intros; apply moved_same.
  - split; [exact Hw | apply Forall2_same; intros; apply moved_same].
Qed.

Lemma step_opening id url (rest : steps.Prog unit) w :
  steps.opening id url rest ->
  steps.within (steps.settles id url) (fst (steps.step env rest w))
  /\ Forall2 (steps.moved (fun q => queue_url q = url) (fun _ s => s = processing))
             (tbl_url_queue (db w))
             (tbl_url_queue (db (snd (steps.step env rest w)))).
Proof.
  destruct rest as [a | f | R stmt f | id' content f]; cbn [steps.opening]; try contradiction.
  intros [Hs Hf]. cbn [steps.step]. rewrite bind_run. cbn [ret fst snd]. split; [apply Hf |].
  destruct (exec env stmt w) as [[r | err] w'] eqn:E; cbn [snd].
  - apply exec_done in E. destruct E as (d & E & ->). cbn [db].
    exact (Hs _ _ _ _ E).
  - apply exec_failed in E. subst w'. cbn [db].
    apply Forall2_same; intros; apply moved_same.
Qed.

(** A goroutine that claims nothing goes on: the invariant is kept. *)
Lemma quiet_step_ok d0 p i t t' d' c tasks :
  steps.poolOK d0 p -> nth_error (steps.threads p) i = Some t ->
  Forall2 (steps.moved (fun q => In (queue_id q) (steps.holds t)) steps.goesOn)
          (tbl_url_queue (db (steps.world p))) (tbl_url_queue d') ->
  (steps.holds t' = steps.holds t \/ steps.holds t' = []) ->
  steps.threadOK d' (steps.claims p) t' ->
  steps.poolOK d0
    (steps.mkPool (mkWorld d' c [])
       (steps.update i t' (steps.threads p)
        ++ steps.started caseTable extractEntities extractRelationships env tasks)
       (steps.claims p)).
Proof.
  intros [Hids Hurls Hrows Hcl Hkn Hheld Hth] Hnth Hmove Hholds Hok'.
  destruct (nth_error_update _ _ _ Hnth) as (l1 & l2 & Hl & Hlen & Hu).
  unfold steps.held in Hheld. rewrite Hl in Hheld, Hth.
  rewrite flat_map_app in Hheld. cbn [flat_map] in Hheld.
  apply Forall_app in Hth. destruct Hth as [Hth1 Hth2].
  apply Forall_cons_iff in Hth2. destruct Hth2 as [Ht Hth2].
  assert (forall id, In id (steps.holds t) -> In id (steps.claims p)) as Hown
    by (intros id; apply (holds_claimed _ _ _ Ht)).
  assert (forall id, ~ In id (steps.holds t) ->
                     steps.queueItem d' id = steps.queueItem (db (steps.world p)) id)
    as Hother.
  { intros id Hnot. unfold steps.queueItem.
    pose proof (find_Forall2 _ _ _ id Hmove (moved_id _ _)) as F.
    destruct (find _ (tbl_url_queue (db (steps.world p)))) as [q |] eqn:E; [| exact F].
    destruct F as (q' & F' & _ & _ & [-> | [Ho _]]); [exact F' |].
    exfalso. apply Hnot. apply find_row in E. destruct E as [_ <-]. exact Ho. }
  constructor; cbn [steps.claims steps.world steps.threads db]; auto.
  - eapply Forall2_then; [exact Hrows | exact Hmove |].
    intros q0 q q' _ _ (Hi & Hurl & Hc & Hn) (Hi' & Hurl' & Hch).
    repeat split; try congruence.
    + apply Hc. assumption.
    + destruct (Hc H) as [_ Ha].
      destruct Hch as [-> | [_ [Hterm | [_ ->]]]];
        [exact Ha | right; exact Hterm | left; reflexivity].
    + intros Hnin. destruct Hch as [-> | [Ho _]]; [apply Hn, Hnin |].
      exfalso. apply Hnin. rewrite <- Hi. apply Hown, Ho.
  - unfold steps.held. cbn [steps.threads].
    rewrite Hu, flat_map_app, started_holds, app_nil_r, flat_map_app. cbn [flat_map].
    destruct Hholds as [-> | ->]; [exact Hheld |].
    cbn [app]. eapply NoDup_without. exact Hheld.
  - rewrite Hu. apply Forall_app. split; [| apply started_ok].
    apply Forall_app. split; [| constructor; [exact Hok' |]].
    + apply Forall_forall. intros tj Hj. rewrite Forall_forall in Hth1.
      apply (threadOK_same (db (steps.world p)) d' (steps.claims p)); auto;
        [| apply incl_refl].
      intros id Hid. apply Hother. intros Hin.
      apply (NoDup_apart _ _ _ id Hheld Hin). apply in_or_app. left.
      apply in_flat_map. exists tj. auto.
    + apply Forall_forall. intros tj Hj. rewrite Forall_forall in Hth2.
      apply (threadOK_same (db (steps.world p)) d' (steps.claims p)); auto;
        [| apply incl_refl].
      intros id Hid. apply Hother. intros Hin.
      apply (NoDup_apart _ _ _ id Hheld Hin). apply in_or_app. right.
      apply in_flat_map. exists tj. auto.
Qed.

Lemma isPending_status q : isPending q = true -> queue_status q = pending.
Proof. unfold isPending. destruct (queue_status q); cbn; congruence. Qed.

Lemma find_withRow_other id id' change rows :
  (forall r, queue_id (change r) = queue_id r) -> id' <> id ->
  find (fun r => queue_id r =? id') (withRow id change rows)
  = find (fun r => queue_id r =? id') rows.
Proof.
  intros Hc Hne. unfold withRow. induction rows as [| x rows IH]; [reflexivity |].
  cbn [map find]. destruct (queue_id x =? id) eqn:E.
  - rewrite Hc. apply Z.eqb_eq in E. rewrite E.
    destruct (id =? id') eqn:E'; [apply Z.eqb_eq in E'; congruence | exact IH].
  - rewrite IH. reflexivity.
Qed.

Lemma find_withRow_same id change rows q :
  (forall r, queue_id (change r) = queue_id r) ->
  find (fun r => queue_id r =? id) rows = Some q ->
  find (fun r => queue_id r =? id) (withRow id change rows) = Some (change q).
Proof.
  intros Hc. unfold withRow. induction rows as [| x rows IH]; [discriminate |].
  cbn [map find]. destruct (queue_id x =? id) eqn:E.
  - rewrite Hc, E. intros H. injection H as <-. reflexivity.
  - rewrite E. exact IH.
Qed.

(** What a claim that succeeds has done. *)
Lemma claimUnlocked_done locked now d d' id url :
  steps.claimUnlocked locked now d = Done (d', (id, url)) ->
  exists q, In q (tbl_url_queue d) /\ isPending q = true
            /\ ~ In (queue_id q) locked
            /\ id = queue_id q /\ url = queue_url q
            /\ tbl_url_queue d' = withRow id asProcessing (tbl_url_queue d).
Proof.
  unfold steps.claimUnlocked.
  destruct (oldestPending _) as [q |] eqn:E; [| discriminate].
  cbn [updateQueue]. intros H. injection H as <- <- <-.
  destruct (oldestPending_some _ _ E) as (Hin & Hp & _).
  apply filter_In in Hin. destruct Hin as [Hin Hl].
  exists q. repeat split; auto.
  intros Hlocked. apply In_memZ in Hlocked. rewrite Hlocked in Hl. discriminate.
Qed.

(** A worker claims an item: the invariant is kept. *)
Lemma claim_step_ok d0 p i q d' c tasks rest :
  steps.poolOK d0 p -> nth_error (steps.threads p) i = Some steps.atLoop ->
  In q (tbl_url_queue (db (steps.world p))) -> isPending q = true ->
  tbl_url_queue d' = withRow (queue_id q) asProcessing (tbl_url_queue (db (steps.world p))) ->
  steps.opening (queue_id q) (queue_url q) rest ->
  ~ In (queue_id q) (steps.claims p)
  /\ steps.poolOK d0
       (steps.mkPool (mkWorld d' c [])
          (steps.update i (steps.inTurn (Some (queue_id q)) rest) (steps.threads p)
           ++ steps.started caseTable extractEntities extractRelationships env tasks)
          (steps.claims p ++ [queue_id q])).
Proof.
  intros [Hids Hurls Hrows Hcl Hkn Hheld Hth] Hnth Hq Hp Hd' Hopen.
  destruct (nth_error_update _ _ _ Hnth) as (l1 & l2 & Hl & Hlen & Hu).
  pose proof (held_claimed _ _ _ Hth) as Hsub.
  unfold steps.held in Hheld. rewrite Hl in Hheld, Hth, Hsub.
  rewrite flat_map_app in Hheld, Hsub. cbn [flat_map steps.holds app] in Hheld, Hsub.
  apply Forall_app in Hth. destruct Hth as [Hth1 Hth2].
  apply Forall_cons_iff in Hth2. destruct Hth2 as [_ Hth2].
  apply isPending_status in Hp.
  destruct (Forall2_In_r _ _ _ _ Hrows Hq) as (q0 & Hq0 & Hi0 & Hu0 & Hc0 & Hn0).
  assert (~ In (queue_id q) (steps.claims p)) as Hnew.
  { intros Hin. rewrite Hi0 in Hin. destruct (Hc0 Hin) as [_ [Ha | [Ha | Ha]]]; congruence. }
  assert (NoDup (map queue_id (tbl_url_queue (db (steps.world p))))) as Hids'
    by (rewrite (same_ids _ _ _ Hrows (tracked_id _)); exact Hids).
  split; [exact Hnew |].
  constructor; cbn [steps.claims steps.world steps.threads db]; auto.
  - rewrite Hd'. unfold withRow.
    eapply Forall2_then;
      [exact Hrows
      | apply (Forall2_map_In (fun r r' => In r (tbl_url_queue (db (steps.world p)))
                                          /\ r' = if queue_id r =? queue_id q
                                                  then asProcessing r else r));
        intros a Ha; split; [exact Ha | reflexivity]
      |].
    intros r0 r r' _ _ (Hi & Hurl & Hc & Hn) [Hr ->].
    destruct (queue_id r =? queue_id q) eqn:E.
    + apply Z.eqb_eq in E.
      pose proof (NoDup_map_inj queue_id _ r q Hids' Hr Hq E) as ->.
      assert (~ In (queue_id r0) (steps.claims p)) as Hnot by (rewrite <- Hi; exact Hnew).
      specialize (Hn Hnot). subst r0.
      repeat split; auto.
      * left. reflexivity.
      * intros Hnin. exfalso. apply Hnin. apply in_or_app. right. left. reflexivity.
    + apply Z.eqb_neq in E. repeat split; auto.
      * apply Hc. apply in_app_or in H. destruct H as [H | [H | []]]; [exact H | congruence].
      * apply Hc. apply in_app_or in H. destruct H as [H | [H | []]]; [exact H | congruence].
      * intros Hnin. apply Hn. intros Hin. apply Hnin. apply in_or_app. left. exact Hin.
  - apply NoDup_snoc; assumption.
  - apply incl_app; [exact Hkn |]. intros x [<- | []]. rewrite Hi0. apply in_map. exact Hq0.
  - unfold steps.held. cbn [steps.threads].
    rewrite Hu, flat_map_app, started_holds, app_nil_r, flat_map_app.
    cbn [flat_map steps.holds app].
    apply NoDup_with; [exact Hheld |]. intros Hin. apply Hnew, Hsub, Hin.
  - assert (forall id, In id (steps.claims p) ->
                       steps.queueItem d' id = steps.queueItem (db (steps.world p)) id)
      as Hother.
    { intros id Hin. unfold steps.queueItem. rewrite Hd'.
      apply find_withRow_other; [reflexivity | congruence]. }
    rewrite Hu. apply Forall_app. split; [| apply started_ok].
    apply Forall_app. split; [| constructor].
    + apply Forall_forall. intros tj Hj. rewrite Forall_forall in Hth1.
      apply (threadOK_same (db (steps.world p)) d' (steps.claims p)); auto.
      * intros id Hid. apply Hother. apply Hsub, in_or_app. left.
        apply in_flat_map. exists tj. auto.
      * apply incl_appl, incl_refl.
    + cbn [steps.threadOK]. split; [apply in_or_app; right; left; reflexivity |].
      exists (asProcessing q). split.
      * unfold steps.queueItem. rewrite Hd'.
        apply find_withRow_same; [reflexivity | apply find_id; assumption].
      * right. split; [exact Hopen | reflexivity].
    + apply Forall_forall. intros tj Hj. rewrite Forall_forall in Hth2.
      apply (threadOK_same (db (steps.world p)) d' (steps.claims p)); auto.
      * intros id Hid. apply Hother. apply Hsub, in_or_app. right.
        apply in_flat_map. exists tj. auto.
      * apply incl_appl, incl_refl.
Qed.

Lemma goesOn_status own rows rows' id :
  Forall2 (steps.moved own steps.goesOn) rows rows' ->
  option_map queue_status (find (fun q => queue_id q =? id) rows') = Some processing ->
  option_map queue_status (find (fun q => queue_id q =? id) rows) = Some processing.
Proof.
  intros Hmove. pose proof (find_Forall2 _ _ _ id Hmove (moved_id _ _)) as F.
  destruct (find _ rows) as [q |]; [| rewrite F; discriminate].
  destruct F as (q' & -> & _ & _ & Hch). cbn [option_map]. intros H. injection H as H.
  destruct Hch as [-> | [_ [[Ht | Ht] | [-> _]]]]; congruence.
Qed.

Lemma nth_error_updated {A} (l l' : list A) i t x :
  nth_error l i = Some t -> nth_error (steps.update i x l ++ l') i = Some x.
Proof.
  intros Hnth. destruct (nth_error_update _ _ _ Hnth) as (l1 & l2 & _ & Hlen & Hu).
  rewrite Hu, <- app_assoc, nth_error_app2 by lia.
  rewrite Hlen, Nat.sub_diag. reflexivity.
Qed.

(** A goroutine that is not at the top of the loop goes on: it claims
    nothing and changes no row but the one it holds. *)
Lemma quiet_thread locked cs t w :
  t <> steps.atLoop ->
  NoDup (map queue_url (tbl_url_queue (db w))) ->
  steps.threadOK (db w) cs t ->
  snd (fst (steps.stepThread caseTable env locked t w)) = []
  /\ Forall2 (steps.moved (fun q => In (queue_id q) (steps.holds t)) steps.goesOn)
             (tbl_url_queue (db w))
             (tbl_url_queue (db (snd (steps.stepThread caseTable env locked t w))))
  /\ (steps.holds (fst (fst (steps.stepThread caseTable env locked t w))) = steps.holds t
      \/ steps.holds (fst (fst (steps.stepThread caseTable env locked t w))) = [])
  /\ steps.threadOK (db (snd (steps.stepThread caseTable env locked t w))) cs
                    (fst (fst (steps.stepThread caseTable env locked t w))).
Proof.
  intros Hne Hurls Hok.
  destruct t as [| [id |] rest | rest]; [congruence | | |];
    cbn [steps.stepThread]; rewrite bind_run; cbn [ret fst snd].
  - destruct Hok as (Hin & q & Hrow & Hcode).
    pose proof Hrow as Hq. apply find_row in Hq. destruct Hq as [Hq Hid].
    assert (Forall2 (steps.moved (fun r => In (queue_id r) [id]) steps.goesOn)
                    (tbl_url_queue (db w))
                    (tbl_url_queue (db (snd (steps.step env rest w))))
            /\ steps.within (steps.settles id (queue_url q))
                            (fst (steps.step env rest w))) as [Hmove Hrest].
    { destruct Hcode as [Hw | [Hop Hst]].
      - destruct (step_within (steps.settles id (queue_url q))
                              (steps.ownRow id (queue_url q))
                              (fun _ s => steps.terminal s) rest w
                              (fun R stmt H => H) Hw) as [Hrest Hmove].
        split; [| exact Hrest].
        eapply Forall2_weaken; [exact Hmove |].
        intros r r' Hr _ (Hi & Hu & Hch). repeat split; auto.
        destruct Hch as [-> | [Ho Ht]]; [left; reflexivity | right].
        split; [| left; exact Ht]. left.
        destruct Ho as [Ho | Ho]; [congruence |].
        rewrite (NoDup_map_inj queue_url _ r q Hurls Hr Hq Ho). symmetry. exact Hid.
      - destruct (step_opening id (queue_url q) rest w Hop) as [Hrest Hmove].
        split; [| exact Hrest].
        eapply Forall2_weaken; [exact Hmove |].
        intros r r' Hr _ (Hi & Hu & Hch). repeat split; auto.
        destruct Hch as [-> | [Ho Ht]]; [left; reflexivity | right].
        rewrite (NoDup_map_inj queue_url _ r q Hurls Hr Hq Ho).
        split; [left; symmetry; exact Hid | right; split; assumption]. }
    split; [reflexivity |]. split; [exact Hmove |]. split; [apply holds_next_turn |].
    apply threadOK_next. cbn [steps.threadOK]. split; [exact Hin |].
    pose proof (find_Forall2 _ _ _ id Hmove (moved_id _ _)) as F.
    unfold steps.queueItem in Hrow. rewrite Hrow in F.
    destruct F as (q' & F' & _ & Hu & _).
    exists q'. split; [exact F' |]. left. rewrite Hu. exact Hrest.
  - destruct (step_within steps.leavesQueue (fun r => In (queue_id r) []) steps.goesOn
                          rest w (leavesQueue_changes _ _) Hok) as [Hrest Hmove].
    split; [reflexivity |]. split; [exact Hmove |]. split; [apply holds_next_turn |].
    apply threadOK_next. exact Hrest.
  - destruct (step_within steps.leavesQueue (fun r => In (queue_id r) []) steps.goesOn
                          rest w (leavesQueue_changes _ _) Hok) as [Hrest Hmove].
    split; [reflexivity |]. split; [exact Hmove |]. split; [left; reflexivity |].
    exact Hrest.
Qed.

(** The step of the pool keeps the invariant, and a row goes to processing
    only when a worker claims it, pending. *)
Lemma stepPool_ok d0 p choice :
  steps.poolOK d0 p ->
  steps.poolOK d0
    (steps.stepPool caseTable extractEntities extractRelationships env p choice)
  /\ forall id,
       steps.statusOf
         (db (steps.world
                (steps.stepPool caseTable extractEntities extractRelationships env p choice)))
         id = Some processing ->
       steps.statusOf (db (steps.world p)) id <> Some processing ->
       steps.statusOf (db (steps.world p)) id = Some pending
       /\ steps.claims
            (steps.stepPool caseTable extractEntities extractRelationships env p choice)
          = steps.claims p ++ [id]
       /\ steps.holdsItem
            (steps.stepPool caseTable extractEntities extractRelationships env p choice)
            (fst choice) id.
Proof.
  intros Hok. unfold steps.stepPool.
  destruct (nth_error (steps.threads p) (fst choice)) as [t |] eqn:Hnth;
    [| split; [exact Hok | intros id H1 H2; contradiction]].
  assert (NoDup (map queue_url (tbl_url_queue (db (steps.world p))))) as Hurls
    by (rewrite (same_urls _ _ _ (steps.ok_rows _ _ Hok) (tracked_url _));
        apply (steps.ok_urls _ _ Hok)).
  assert (NoDup (map queue_id (tbl_url_queue (db (steps.world p))))) as Hids
    by (rewrite (same_ids _ _ _ (steps.ok_rows _ _ Hok) (tracked_id _));
        apply (steps.ok_ids _ _ Hok)).
  assert (forall t' new w',
             new = [] ->
             Forall2 (steps.moved (fun q => In (queue_id q) (steps.holds t)) steps.goesOn)
                     (tbl_url_queue (db (steps.world p))) (tbl_url_queue (db w')) ->
             (steps.holds t' = steps.holds t \/ steps.holds t' = []) ->
             steps.threadOK (db w') (steps.claims p) t' ->
             let p' := steps.mkPool (mkWorld (db w') (clock w') [])
                         (steps.update (fst choice) t' (steps.threads p)
                          ++ steps.started caseTable extractEntities extractRelationships env
                                           (goroutines w'))
                         (steps.claims p ++ new) in
             steps.poolOK d0 p'
             /\ forall id,
                  steps.statusOf (db (steps.world p')) id = Some processing ->
                  steps.statusOf (db (steps.world p)) id <> Some processing ->
                  steps.statusOf (db (steps.world p)) id = Some pending
                  /\ steps.claims p' = steps.claims p ++ [id]
                  /\ steps.holdsItem p' (fst choice) id) as Hquiet.
  { intros t' new w' -> Hmove Hholds Ht'. rewrite app_nil_r. split.
    - apply (quiet_step_ok d0 p (fst choice) t); assumption.
    - intros id H1 H2. exfalso. apply H2. cbn [steps.world db] in H1.
      exact (goesOn_status _ _ _ id Hmove H1). }
  destruct t as [| queueID rest | rest].
  - cbn [steps.stepThread]. rewrite bind_run. cbn [ret].
    destruct (exec env (steps.claimUnlocked (snd choice)) (steps.world p))
      as [[[id url] | err] w'] eqn:E; cbn [fst snd].
    + apply exec_done in E. destruct E as (d' & E & ->).
      apply claimUnlocked_done in E. destruct E as (q & Hq & Hp & _ & -> & -> & Hd').
      cbn [steps.claimedID steps.claimed db clock goroutines].
      rewrite (next_opening _ _ _ _ (afterClaim_opening caseTable env _ _)).
      destruct (claim_step_ok d0 p (fst choice) q d' (S (clock (steps.world p)))
                              (goroutines (steps.world p)) _ Hok Hnth Hq Hp Hd'
                              (afterClaim_opening caseTable env _ _)) as [Hnew Hok'].
      split; [exact Hok' |].
      intros id H1 H2. cbn [steps.world db steps.claims] in *.
      unfold steps.statusOf, steps.queueItem in *. rewrite Hd' in H1.
      destruct (Z.eq_dec id (queue_id q)) as [-> | Hne].
      * rewrite (find_id _ _ Hids Hq). cbn [option_map].
        split; [f_equal; apply isPending_status, Hp |]. split; [reflexivity |].
        eexists. apply (nth_error_updated _ _ _ _ _ Hnth).
      * rewrite find_withRow_other in H1 by (reflexivity || assumption). contradiction.
    + apply exec_failed in E. subst w'.
      apply Hquiet.
      * reflexivity.
      * apply Forall2_same. intros; apply moved_same.
      * right. destruct err as [| msg]; reflexivity.
      * apply threadOK_next. cbn [steps.claimedID steps.threadOK].
        destruct err as [| msg]; cbn [steps.afterClaim]; [intros t; exact I | exact I].
  - assert (steps.threadOK (db (steps.world p)) (steps.claims p)
                           (steps.inTurn queueID rest)) as Ht.
    { pose proof (steps.ok_threads _ _ Hok) as Hth. rewrite Forall_forall in Hth.
      apply Hth. eapply nth_error_In. exact Hnth. }
    destruct (quiet_thread (snd choice) (steps.claims p) (steps.inTurn queueID rest)
                           (steps.world p) ltac:(discriminate) Hurls Ht)
      as (Hn & Hm & Hh & Ht').
    destruct (steps.stepThread caseTable env (snd choice) (steps.inTurn queueID rest)
                               (steps.world p)) as [[t' new] w'] eqn:E.
    cbn [fst snd] in *. apply (Hquiet t' new w'); assumption.
  - assert (steps.threadOK (db (steps.world p)) (steps.claims p)
                           (steps.inGoroutine rest)) as Ht.
    { pose proof (steps.ok_threads _ _ Hok) as Hth. rewrite Forall_forall in Hth.
      apply Hth. eapply nth_error_In. exact Hnth. }
    destruct (quiet_thread (snd choice) (steps.claims p) (steps.inGoroutine rest)
                           (steps.world p) ltac:(discriminate) Hurls Ht)
      as (Hn & Hm & Hh & Ht').
    destruct (steps.stepThread caseTable env (snd choice) (steps.inGoroutine rest)
                               (steps.world p)) as [[t' new] w'] eqn:E.
    cbn [fst snd] in *. apply (Hquiet t' new w'); assumption.
Qed.

End Pool.

(** A worker at the top of its loop, the driver not failing: when a row is
    pending and not locked, the worker claims an item. *)
Lemma claim_progress caseTable extractEntities extractRelationships env p i locked q :
  nth_error (steps.threads p) i = Some steps.atLoop ->
  dbFails env (clock (steps.world p)) = false ->
  In q (tbl_url_queue (db (steps.world p))) -> queue_status q = pending ->
  ~ In (queue_id q) locked ->
  exists id,
    steps.claims (steps.stepPool caseTable extractEntities extractRelationships env p
                                 (i, locked))
    = steps.claims p ++ [id].
Proof.
  intros Hnth Hdb Hq Hp Hl. unfold steps.stepPool. cbn [fst snd]. rewrite Hnth.
  cbn [steps.stepThread]. rewrite bind_run. unfold exec. rewrite Hdb.
  unfold steps.claimUnlocked.
  destruct (oldestPending _) as [best |] eqn:E.
  - cbn [updateQueue fst snd ret steps.claims steps.claimed steps.claimedID].
    exists (queue_id best). reflexivity.
  - exfalso. apply oldestPending_none in E.
    assert (In q (filter isPending
                         (filter (fun r => negb (memZ (queue_id r) locked))
                                 (tbl_url_queue (db (steps.world p)))))) as Hin.
    { apply filter_In. split; [apply filter_In; split; [exact Hq |] |].
      - destruct (memZ (queue_id q) locked) eqn:M; [| reflexivity].
        exfalso. apply Hl. unfold memZ in M. apply existsb_exists in M.
        destruct M as (x & Hx & Ex). apply Z.eqb_eq in Ex. subst x. exact Hx.
      - unfold isPending. rewrite Hp. reflexivity. }
    rewrite E in Hin. contradiction.
Qed.

(** *** The workers from their start *)

Lemma holds_atLoop n : flat_map steps.holds (repeat steps.atLoop n) = [].
Proof. induction n as [| n IH]; [reflexivity | exact IH]. Qed.

Lemma StartBackgroundWorkers_ok caseTable extractEntities extractRelationships env
      numWorkers w :
  NoDup (map queue_id (tbl_url_queue (db w))) ->
  NoDup (map queue_url (tbl_url_queue (db w))) ->
  steps.poolOK (db w)
    (steps.StartBackgroundWorkers caseTable extractEntities extractRelationships env
                                  numWorkers w).
Proof.
  intros Hids Hurls. unfold steps.StartBackgroundWorkers.
  constructor; cbn [steps.claims steps.world steps.threads db]; auto.
  - apply Forall2_same. intros q. repeat split; [contradiction | contradiction].
  - constructor.
  - intros x [].
  - unfold steps.held. cbn [steps.threads].
    rewrite flat_map_app, started_holds, holds_atLoop. constructor.
  - apply Forall_app. split; [| apply started_ok].
    apply Forall_forall. intros t Ht. apply repeat_spec in Ht. subst t. exact I.
Qed.

Lemma workers_ok caseTable extractEntities extractRelationships env numWorkers w schedule :
  NoDup (map queue_id (tbl_url_queue (db w))) ->
  NoDup (map queue_url (tbl_url_queue (db w))) ->
  steps.poolOK (db w)
    (steps.workers caseTable extractEntities extractRelationships env numWorkers w
                   schedule).
Proof.
  intros Hids Hurls. unfold steps.workers.
  pose proof (StartBackgroundWorkers_ok caseTable extractEntities extractRelationships env
                                        numWorkers w Hids Hurls) as H0.
  revert H0. generalize (steps.StartBackgroundWorkers caseTable extractEntities
                           extractRelationships env numWorkers w).
  induction schedule as [| choice schedule IH]; intros p Hp; cbn [fold_left]; [exact Hp |].
  apply IH. apply stepPool_ok. exact Hp.
Qed.

Lemma one_holder l i j ti tj x :
  NoDup (flat_map steps.holds l) ->
  nth_error l i = Some ti -> nth_error l j = Some tj ->
  In x (steps.holds ti) -> In x (steps.holds tj) -> i = j.
Proof.
  revert i j. induction l as [| t l IH]; intros [| i] [| j]; cbn [nth_error flat_map];
    try discriminate; intros N Hi Hj Hxi Hxj.
  - reflexivity.
  - injection Hi as ->. exfalso.
    apply (NoDup_apart [] (steps.holds ti) (flat_map steps.holds l) x N Hxi).
    cbn [app]. apply in_flat_map. exists tj. split; [eapply nth_error_In; eassumption | auto].
  - injection Hj as ->. exfalso.
    apply (NoDup_apart [] (steps.holds tj) (flat_map steps.holds l) x N Hxj).
    cbn [app]. apply in_flat_map. exists ti. split; [eapply nth_error_In; eassumption | auto].
  - f_equal. apply IH; auto.
    apply (NoDup_without [] (steps.holds t) (flat_map steps.holds l)). exact N.
Qed.

(** C3: the ids of the queue being distinct and its URLs too, as the
    primary key and the index [idx_url_queue_url_unique] have them, start
    any number of workers on any database, with any driver, and let them
    and the extractions they start take their effects in any order, each
    claim passing over whatever rows are locked at its moment.  Then at
    every moment: no item has been claimed twice; an item claimed was
    pending at the start and is now processing, completed or failed; an item
    not claimed is as it was at the start; an item that was pending and is
    now completed or failed has been claimed exactly once; no two workers
    are within the turn in which they claimed the same item, and a worker
    within such a turn has claimed its item; and whichever effect comes
    next, an item that is processing after it and was not before was
    pending, and the effect is the claim of this item by the worker that
    now holds it; and when the next effect is that of a worker at the top
    of its loop, the driver not failing, and a row is pending and not
    locked, the worker claims an item. *)
Theorem workers_claim_once :
  forall caseTable extractEntities extractRelationships env numWorkers w schedule,
  NoDup (map queue_id (tbl_url_queue (db w))) ->
  NoDup (map queue_url (tbl_url_queue (db w))) ->
  NoDup (steps.claims
           (steps.workers caseTable extractEntities extractRelationships env
                          numWorkers w schedule))
  /\ (forall id,
        In id (steps.claims
                 (steps.workers caseTable extractEntities extractRelationships env
                                numWorkers w schedule)) ->
        steps.statusOf (db w) id = Some pending
        /\ exists s,
             steps.statusOf
               (db (steps.world
                      (steps.workers caseTable extractEntities extractRelationships env
                                     numWorkers w schedule))) id = Some s
             /\ (s = processing \/ s = completed \/ s = failed))
  /\ (forall id,
        ~ In id (steps.claims
                   (steps.workers caseTable extractEntities extractRelationships env
                                  numWorkers w schedule)) ->
        steps.queueItem
          (db (steps.world
                 (steps.workers caseTable extractEntities extractRelationships env
                                numWorkers w schedule))) id
        = steps.queueItem (db w) id)
  /\ (forall id s,
        steps.statusOf (db w) id = Some pending ->
        steps.statusOf
          (db (steps.world
                 (steps.workers caseTable extractEntities extractRelationships env
                                numWorkers w schedule))) id = Some s ->
        s = completed \/ s = failed ->
        count_occ Z.eq_dec
                  (steps.claims
                     (steps.workers caseTable extractEntities extractRelationships env
                                    numWorkers w schedule)) id = 1%nat)
  /\ (forall i j id,
        steps.holdsItem
          (steps.workers caseTable extractEntities extractRelationships env
                         numWorkers w schedule) i id ->
        steps.holdsItem
          (steps.workers caseTable extractEntities extractRelationships env
                         numWorkers w schedule) j id ->
        i = j)
  /\ (forall i id,
        steps.holdsItem
          (steps.workers caseTable extractEntities extractRelationships env
                         numWorkers w schedule) i id ->
        In id (steps.claims
                 (steps.workers caseTable extractEntities extractRelationships env
                                numWorkers w schedule)))
  /\ (forall choice id,
        steps.statusOf
          (db (steps.world
                 (steps.workers caseTable extractEntities extractRelationships env
                                numWorkers w (schedule ++ [choice])))) id
        = Some processing ->
        steps.statusOf
          (db (steps.world
                 (steps.workers caseTable extractEntities extractRelationships env
                                numWorkers w schedule))) id
        <> Some processing ->
        steps.statusOf
          (db (steps.world
                 (steps.workers caseTable extractEntities extractRelationships env
                                numWorkers w schedule))) id
        = Some pending
        /\ steps.claims
             (steps.workers caseTable extractEntities extractRelationships env
                            numWorkers w (schedule ++ [choice]))
           = steps.claims
               (steps.workers caseTable extractEntities extractRelationships env
                              numWorkers w schedule) ++ [id]
        /\ steps.holdsItem
             (steps.workers caseTable extractEntities extractRelationships env
                            numWorkers w (schedule ++ [choice]))
             (fst choice) id)
  /\ (forall i locked q,
        nth_error
          (steps.threads
             (steps.workers caseTable extractEntities extractRelationships env
                            numWorkers w schedule)) i = Some steps.atLoop ->
        dbFails env
          (clock (steps.world
                    (steps.workers caseTable extractEntities extractRelationships env
                                   numWorkers w schedule))) = false ->
        In q (tbl_url_queue
                (db (steps.world
                       (steps.workers caseTable extractEntities extractRelationships env
                                      numWorkers w schedule)))) ->
        queue_status q = pending -> ~ In (queue_id q) locked ->
        exists id,
          steps.claims
            (steps.workers caseTable extractEntities extractRelationships env
                           numWorkers w (schedule ++ [(i, locked)]))
          = steps.claims
              (steps.workers caseTable extractEntities extractRelationships env
                             numWorkers w schedule) ++ [id]).
Proof.
  intros caseTable extractEntities extractRelationships env numWorkers w schedule
         Hids Hurls.
  pose proof (workers_ok caseTable extractEntities extractRelationships env numWorkers w
                         schedule Hids Hurls) as Hok.
  assert (forall choice,
            steps.workers caseTable extractEntities extractRelationships env numWorkers w
                          (schedule ++ [choice])
            = steps.stepPool caseTable extractEntities extractRelationships env
                (steps.workers caseTable extractEntities extractRelationships env
                               numWorkers w schedule) choice) as Hnext
    by (intros choice; unfold steps.workers; rewrite fold_left_app; reflexivity).
  revert Hok Hnext.
  generalize (steps.workers caseTable extractEntities extractRelationships env numWorkers w
                            schedule).
  intros p Hok Hnext.
  assert (forall id, ~ In id (steps.claims p) ->
                     steps.queueItem (db (steps.world p)) id = steps.queueItem (db w) id)
    as Hsame.
  { intros id Hnot. unfold steps.queueItem.
    pose proof (find_Forall2 _ _ _ id (steps.ok_rows _ _ Hok) (tracked_id _)) as F.
    destruct (find _ (tbl_url_queue (db w))) as [q0 |] eqn:E; [| exact F].
    destruct F as (q & -> & _ & _ & _ & Hn).
    apply find_row in E. destruct E as [_ E]. f_equal. apply Hn. rewrite E. exact Hnot. }
  assert (forall id, In id (steps.claims p) ->
            steps.statusOf (db w) id = Some pending
            /\ exists s, steps.statusOf (db (steps.world p)) id = Some s
                         /\ (s = processing \/ s = completed \/ s = failed)) as Hclaimed.
  { intros id Hin. unfold steps.statusOf, steps.queueItem.
    pose proof (steps.ok_known _ _ Hok id Hin) as Hk.
    apply in_map_iff in Hk. destruct Hk as (q1 & Hid & Hq1).
    pose proof (find_id _ _ (steps.ok_ids _ _ Hok) Hq1) as E. rewrite Hid in E.
    pose proof (find_Forall2 _ _ _ id (steps.ok_rows _ _ Hok) (tracked_id _)) as F.
    rewrite E in *. destruct F as (q & -> & _ & _ & Hc & _). cbn [option_map].
    rewrite Hid in Hc. destruct (Hc Hin) as [Hp Ha].
    split; [f_equal; exact Hp |]. exists (queue_status q). split; [reflexivity |].
    destruct Ha as [Ha | [Ha | Ha]]; auto. }
  split; [apply (steps.ok_claims _ _ Hok) |].
  split; [exact Hclaimed |].
  split; [exact Hsame |].
  split.
  { intros id s Hp Hs Hterm.
    apply NoDup_count_occ'; [apply (steps.ok_claims _ _ Hok) |].
    destruct (in_dec Z.eq_dec id (steps.claims p)) as [Hin | Hnot]; [exact Hin |].
    exfalso. unfold steps.statusOf in Hs, Hp. rewrite (Hsame id Hnot), Hp in Hs.
    destruct Hterm; congruence. }
  split.
  { intros i j id [resti Hi] [restj Hj].
    apply (one_holder _ i j _ _ id (steps.ok_held _ _ Hok) Hi Hj); left; reflexivity. }
  split.
  { intros i id [rest Hi].
    pose proof (steps.ok_threads _ _ Hok) as Hth. rewrite Forall_forall in Hth.
    apply (holds_claimed _ _ _ (Hth _ (nth_error_In _ _ Hi))). left. reflexivity. }
  split.
  { intros choice id. rewrite Hnext.
    apply (stepPool_ok caseTable extractEntities extractRelationships env (db w) p choice
                       Hok). }
  intros i locked q Hnth Hdb Hq Hp Hl. rewrite Hnext.
  exact (claim_progress caseTable extractEntities extractRelationships env p i locked q
                        Hnth Hdb Hq Hp Hl).
Qed.

(** Three workers on a queue of two URLs, the first claim made while the
    row 1 is locked: the worker 0 claims the item 2 and the worker 1 the
    item 1; nine rounds later both items are completed and held no more. *)
Lemma workers_claim_once_example :
  (NoDup (steps.claims (threeWorkers (inTurns 9)))
   /\ (forall i j id,
         steps.holdsItem (threeWorkers (inTurns 0)) i id ->
         steps.holdsItem (threeWorkers (inTurns 0)) j id -> i = j)
   /\ (forall id s,
         steps.statusOf (db twoQueued) id = Some pending ->
         steps.statusOf (db (steps.world (threeWorkers (inTurns 9)))) id = Some s ->
         s = completed \/ s = failed ->
         count_occ Z.eq_dec (steps.claims (threeWorkers (inTurns 9))) id = 1%nat))
  /\ statuses (steps.StartBackgroundWorkers asciiOnly scanEntities scanRelationships
                                            quietEnv 3 twoQueued)
     = [(1, pending); (2, pending)]
  /\ (statuses (threeWorkers (inTurns 0)), steps.claims (threeWorkers (inTurns 0)),
      map steps.holds (steps.threads (threeWorkers (inTurns 0))))
     = ([(1, processing); (2, processing)], [2; 1], [[2]; [1]; []])
  /\ (statuses (threeWorkers (inTurns 9)), steps.claims (threeWorkers (inTurns 9)),
      map steps.holds (steps.threads (threeWorkers (inTurns 9))))
     = ([(1, completed); (2, completed)], [2; 1], [[]; []; []; []; []]).
Proof.
  assert (NoDup (map queue_id (tbl_url_queue (db twoQueued)))) as Hids.
  { vm_compute. repeat constructor; cbn [In]; intros H; intuition discriminate. }
  assert (NoDup (map queue_url (tbl_url_queue (db twoQueued)))) as Hurls.
  { vm_compute. repeat constructor; cbn [In]; intros H; intuition discriminate. }
  split; [| repeat match goal with |- _ /\ _ => split end; vm_compute; reflexivity].
  pose proof (workers_claim_once asciiOnly scanEntities scanRelationships quietEnv 3
                                 twoQueued (inTurns 9) Hids Hurls)
    as (H1 & _ & _ & H4 & _).
  pose proof (workers_claim_once asciiOnly scanEntities scanRelationships quietEnv 3
                                 twoQueued (inTurns 0) Hids Hurls)
    as (_ & _ & _ & _ & H5 & _).
  split; [exact H1 |]. split; [exact H5 | exact H4].
Defined.

